(** * Nested intervals: bound arithmetic, allocation, moves and rebalancing

    A shallow embedding of [nested_intervals/intervals.py],
    [nested_intervals/managers.py] and [nested_intervals/models.py], and
    the properties of the interval allocation and tree mutation engine
    proved about it.

    - A Python [Decimal] is modelled by its numeric value in [Q].  Every
      arithmetic operation Python performs is the exact operation
      followed by the rounding of the decimal context: half-even, to
      [getcontext().prec = DECIMAL_PLACES] significant digits.  The
      exponent range of the context is not modelled.
    - [DECIMAL_PLACES] comes from [nested_intervals/conf.py], the
      configuration of the installation; it is a parameter of everything
      that computes.
    - The table behind a model class is a list of rows holding the
      primary key and the four tree fields; the manager's querysets are
      filters of that list in the order [("tree_id", "left")].  The
      columns [left] and [right] are [DecimalField]s with
      [decimal_places = DECIMAL_PLACES]: what is written to them is
      kept to that many decimal places, half-even, while the context
      keeps that many significant digits, so a bound below 0.1 can lose
      digits when it is written.  The store evaluates [F] expressions
      exactly before the column rounds the result.  The limit
      [max_digits] on the digits before the point is not modelled.
    - Exceptions are values of [error]; a function that can raise
      returns a [result].  A function that writes returns the store
      after the call; a function that changes an instance in place
      returns the instance after the call.  A function decorated with
      [transaction.atomic] returns the store it was given when it
      raises. *)

From Stdlib Require Import ZArith QArith Qround Qabs Qpower.
From Stdlib Require Import List String Bool Lia Lqa.
Import ListNotations.

Local Open Scope Z_scope.
Local Open Scope string_scope.
Local Open Scope Q_scope.

(** ** Decimal arithmetic *)

Module Dec.

(** Number of decimal digits of a positive integer; the second argument
    bounds the recursion (a number has no more digits than bits). *)
Fixpoint ndigits_aux (fuel : positive) (n : Z) : Z :=
  if (n <? 10)%Z then 1%Z
  else match fuel with
       | xH => 1%Z
       | xO f | xI f => (1 + ndigits_aux f (n / 10))%Z
       end.

Definition ndigits (n : Z) : Z :=
  match n with
  | Zpos p => ndigits_aux p n
  | _ => 1%Z
  end.

Definition pow10 (z : Z) : Q := (inject_Z 10) ^ z.

(** [decade x] is the exponent [e] with [10^e <= x < 10^(e+1)], for
    positive [x] (the adjusted exponent of the decimal). *)
Definition decade (x : Q) : Z :=
  let t := (ndigits (Qnum x) - ndigits (Zpos (Qden x)))%Z in
  if Qle_bool (pow10 t) x then t else (t - 1)%Z.

(** Round to the nearest integer, ties to the even one. *)
Definition round_half_even (x : Q) : Z :=
  let f := Qfloor x in
  match Qcompare (x - inject_Z f) (1 # 2) with
  | Lt => f
  | Gt => (f + 1)%Z
  | Eq => if Z.even f then f else (f + 1)%Z
  end.

Section Context.

(** [getcontext().prec]; Python requires it to be at least 1. *)
Variable prec : positive.

(** Exponent of the last kept digit of [x]. *)
Definition lsd (x : Q) : Z := (decade (Qabs x) - (Zpos prec - 1))%Z.

(** The context rounding: [prec] significant digits, half-even. *)
Definition ctx_round (x : Q) : Q :=
  match Qcompare x 0 with
  | Eq => 0
  | _ => Qred (inject_Z (round_half_even (x / pow10 (lsd x))) * pow10 (lsd x))
  end.

(** [Decimal.__add__], [__sub__], [__mul__], [__truediv__]. *)
Definition dadd (x y : Q) : Q := ctx_round (x + y).
Definition dsub (x y : Q) : Q := ctx_round (x - y).
Definition dmul (x y : Q) : Q := ctx_round (x * y).
Definition ddiv (x y : Q) : Q := ctx_round (x / y).

End Context.

(** [Decimal.quantize] to [places] decimal places, half-even. *)
Definition quantize (places : positive) (x : Q) : Q :=
  Qred (inject_Z (round_half_even (x * pow10 (Zpos places)))
        / pow10 (Zpos places)).

(** [Decimal.__eq__] and the comparisons compare numeric values. *)
Definition deq (x y : Q) : bool := Qeq_bool x y.
Definition dlt (x y : Q) : bool := negb (Qle_bool y x).
Definition dle (x y : Q) : bool := Qle_bool x y.

End Dec.

(** ** Exceptions and results *)

Inductive error : Type :=
| ValueError (msg : string)
| InvalidMove (msg : string)
| IntervalTooSmall (msg : string)
| AttributeError
| DoesNotExist
| MultipleObjectsReturned
| DatabaseError
| RecursionError.

Inductive result (A : Type) : Type :=
| Ok (a : A)
| Raise (e : error).

Arguments Ok {A} a.
Arguments Raise {A} e.

Definition bind {A B : Type} (r : result A) (k : A -> result B) : result B :=
  match r with
  | Ok a => k a
  | Raise e => Raise e
  end.

Notation "x <- r ;; k" := (bind r (fun x => k))
  (at level 100, r at next level, right associativity).

Definition is_ok {A : Type} (r : result A) : bool :=
  match r with Ok _ => true | Raise _ => false end.

(** ** Rows of the table and in-memory instances *)

(** One row of the model's table: primary key and the four tree fields. *)
Record Row : Type := mkRow {
  row_pk : Z;
  row_left : Q;
  row_right : Q;
  row_level : Z;
  row_tree_id : Z
}.

(** The table, in storage order. *)
Definition Store : Type := list Row.

(** [_new_parent]: [False] when the parent has not been changed,
    otherwise the new value ([None] or a node). *)
Inductive pending (A : Type) : Type :=
| Unchanged
| NewParent (p : option A).

Arguments Unchanged {A}.
Arguments NewParent {A} p.

(** An instance of [NestedIntervalsModel]. *)
#[warnings="-register-all"]
Inductive Node : Type := mkNode {
  pk : option Z;
  left : Q;
  right : Q;
  level : Z;
  tree_id : option Z;
  _new_parent : pending Node;
  _nested_intervals_fields_have_changed : bool
}.

(** The dictionaries returned by the interval functions. *)
Record Interval : Type := mkInterval {
  i_left : Q;
  i_right : Q;
  i_increment : Q
}.

(** An instance as the ORM builds it from a row. *)
Definition from_db (r : Row) : Node :=
  {| pk := Some (row_pk r);
     left := row_left r;
     right := row_right r;
     level := row_level r;
     tree_id := Some (row_tree_id r);
     _new_parent := Unchanged;
     _nested_intervals_fields_have_changed := false |}.

Definition set_bounds (n : Node) (l r : Q) : Node :=
  {| pk := pk n; left := l; right := r; level := level n;
     tree_id := tree_id n; _new_parent := _new_parent n;
     _nested_intervals_fields_have_changed :=
       _nested_intervals_fields_have_changed n |}.

Definition set_level (n : Node) (l : Z) : Node :=
  {| pk := pk n; left := left n; right := right n; level := l;
     tree_id := tree_id n; _new_parent := _new_parent n;
     _nested_intervals_fields_have_changed :=
       _nested_intervals_fields_have_changed n |}.

Definition set_tree_id (n : Node) (t : option Z) : Node :=
  {| pk := pk n; left := left n; right := right n; level := level n;
     tree_id := t; _new_parent := _new_parent n;
     _nested_intervals_fields_have_changed :=
       _nested_intervals_fields_have_changed n |}.

Definition set_new_parent (n : Node) (p : pending Node) : Node :=
  {| pk := pk n; left := left n; right := right n; level := level n;
     tree_id := tree_id n; _new_parent := p;
     _nested_intervals_fields_have_changed :=
       _nested_intervals_fields_have_changed n |}.

Definition set_changed (n : Node) (b : bool) : Node :=
  {| pk := pk n; left := left n; right := right n; level := level n;
     tree_id := tree_id n; _new_parent := _new_parent n;
     _nested_intervals_fields_have_changed := b |}.

Definition set_pk (n : Node) (k : option Z) : Node :=
  {| pk := k; left := left n; right := right n; level := level n;
     tree_id := tree_id n; _new_parent := _new_parent n;
     _nested_intervals_fields_have_changed :=
       _nested_intervals_fields_have_changed n |}.

(** Python truthiness of [self.pk]. *)
Definition pk_truthy (n : Node) : bool :=
  match pk n with
  | Some k => negb (k =? 0)%Z
  | None => false
  end.

(** [NestedIntervalsModel._is_saved] *)
Definition _is_saved (n : Node) : bool :=
  match tree_id n with
  | Some _ => pk_truthy n
  | None => false
  end.

(** [NestedIntervalsModel.is_root_node] *)
Definition is_root_node (n : Node) : bool := (level n =? 0)%Z.

(** The [raise_if_unsaved] decorator. *)
Definition raise_if_unsaved {A : Type} (fname : string) (n : Node)
    (body : result A) : result A :=
  if pk_truthy n then body
  else Raise (ValueError ("Cannot call " ++ fname ++ " on unsaved instances")).

(** [==] on primary keys and on tree ids. *)
Definition option_Z_eqb (a b : option Z) : bool :=
  match a, b with
  | Some x, Some y => (x =? y)%Z
  | None, None => true
  | _, _ => false
  end.

(** [Model.__eq__] against a possibly absent target: instances with a
    primary key are equal when the keys are; an instance without one is
    equal only to itself, and the instances compared here are distinct
    objects. *)
Definition node_eq (n : Node) (target : option Node) : bool :=
  match target, pk n with
  | Some t, Some k =>
      match pk t with
      | Some k' => (k =? k')%Z
      | None => false
      end
  | _, _ => false
  end.

(** ** Querysets *)

(** [order_by("tree_id", "left")] of the manager's [get_queryset]. *)
Definition row_leb (a b : Row) : bool :=
  (row_tree_id a <? row_tree_id b)%Z
  || ((row_tree_id a =? row_tree_id b)%Z
      && Qle_bool (row_left a) (row_left b)).

Fixpoint insert_row (r : Row) (l : list Row) : list Row :=
  match l with
  | [] => [r]
  | x :: l' => if row_leb r x then r :: l else x :: insert_row r l'
  end.

Fixpoint order_rows (l : list Row) : list Row :=
  match l with
  | [] => []
  | x :: l' => insert_row x (order_rows l')
  end.

(** [QuerySet.first] and [QuerySet.last] on an ordered queryset. *)
Definition first {A : Type} (l : list A) : option A := hd_error l.
Definition last {A : Type} (l : list A) : option A := hd_error (rev l).

Definition matches_pk (n : Node) (r : Row) : bool :=
  match pk n with
  | Some k => (row_pk r =? k)%Z
  | None => false
  end.

Definition matches_tree (n : Node) (r : Row) : bool :=
  match tree_id n with
  | Some t => (row_tree_id r =? t)%Z
  | None => false
  end.

(** The filter of [get_descendants(include_self=False)]:
    [left__gt=self.left, left__lt=self.right, tree_id=self.tree_id],
    excluding [pk=self.pk]. *)
Definition descendant_filter (n : Node) (r : Row) : bool :=
  Dec.dlt (left n) (row_left r) && Dec.dlt (row_left r) (right n)
  && matches_tree n r && negb (matches_pk n r).

(** The filter of [get_descendants(include_self=True)]. *)
Definition descendant_or_self_filter (n : Node) (r : Row) : bool :=
  (Dec.dle (left n) (row_left r) && Dec.dle (row_left r) (right n)
   && matches_tree n r)
  || matches_pk n r.

(** [NestedIntervalsModel.get_descendants] *)
Definition get_descendants (db : Store) (n : Node) (include_self : bool)
    : result (list Node) :=
  raise_if_unsaved "get_descendants" n
    (Ok (map from_db
           (filter (if include_self then descendant_or_self_filter n
                    else descendant_filter n)
                   (order_rows db)))).

(** [NestedIntervalsModel.get_children] *)
Definition get_children (db : Store) (n : Node) : result (list Node) :=
  raise_if_unsaved "get_children" n
    (ds <- get_descendants db n false ;;
     Ok (filter (fun m => (level m =? level n + 1)%Z) ds)).

(** [NestedIntervalsModel.get_descendant_count] *)
Definition get_descendant_count (db : Store) (n : Node) : result Z :=
  ds <- get_descendants db n false ;;
  Ok (Z.of_nat (List.length ds)).

(** The [parent] property. *)
Definition parent (db : Store) (n : Node) : option Node :=
  match _new_parent n with
  | NewParent p => p
  | Unchanged =>
      if negb (_is_saved n) then None
      else if (level n =? 0)%Z then None
      else first (map from_db
                    (filter (fun r => Dec.dlt (row_left r) (left n)
                                      && Dec.dlt (right n) (row_right r)
                                      && (row_level r =? level n - 1)%Z
                                      && matches_tree n r)
                            (order_rows db)))
  end.

(** [NestedIntervalsModel.get_next_sibling] *)
Definition get_next_sibling (db : Store) (n : Node) : result (option Node) :=
  raise_if_unsaved "get_next_sibling" n
    (if is_root_node n then Ok None
     else match parent db n with
          | None => Raise AttributeError
          | Some p =>
              cs <- get_children db p ;;
              Ok (first (filter (fun m => Dec.dlt (right n) (left m)) cs))
          end).

(** [NestedIntervalsModel.get_previous_sibling] *)
Definition get_previous_sibling (db : Store) (n : Node)
    : result (option Node) :=
  raise_if_unsaved "get_previous_sibling" n
    (if is_root_node n then Ok None
     else match parent db n with
          | None => Raise AttributeError
          | Some p =>
              cs <- get_children db p ;;
              Ok (last (filter (fun m => Dec.dlt (right m) (left n)) cs))
          end).

(** [NestedIntervalsModel.is_descendant_of] *)
Definition is_descendant_of (self other : Node) (include_self : bool)
    : result bool :=
  raise_if_unsaved "is_descendant_of" self
    (if include_self && option_Z_eqb (pk other) (pk self) then Ok true
     else if negb (option_Z_eqb (tree_id self) (tree_id other)) then Ok false
     else Ok (Dec.dlt (left other) (left self)
              && Dec.dlt (right self) (right other))).

(** [NestedIntervalsModel.is_ancestor_of] *)
Definition is_ancestor_of (self other : Node) (include_self : bool)
    : result bool :=
  raise_if_unsaved "is_ancestor_of" self
    (if include_self && option_Z_eqb (pk other) (pk self) then Ok true
     else is_descendant_of other self false).

(** [Model.refresh_from_db]: reload the fields of the row with this
    primary key; the attributes that are not fields are kept. *)
Definition refresh_from_db (db : Store) (n : Node) : result Node :=
  match filter (matches_pk n) db with
  | [] => Raise DoesNotExist
  | [r] =>
      Ok {| pk := Some (row_pk r);
            left := row_left r;
            right := row_right r;
            level := row_level r;
            tree_id := Some (row_tree_id r);
            _new_parent := _new_parent n;
            _nested_intervals_fields_have_changed :=
              _nested_intervals_fields_have_changed n |}
  | _ => Raise MultipleObjectsReturned
  end.

(** ** The columns [left] and [right]

    Both are declared
    [DecimalField(max_digits=DECIMAL_PLACES+1, decimal_places=DECIMAL_PLACES)]:
    a value written to them, by a [save], by an [update] or as the
    result of an [F] expression, is kept to [decimal_places] decimal
    places. *)
Definition DecimalField (decimal_places : positive) (x : Q) : Q :=
  Dec.quantize decimal_places x.

Arguments DecimalField : simpl never.

(** ** Expressions evaluated by the store

    [F(field)] arithmetic is sent to the store and evaluated there, per
    row, on the row's own prior values; the store computes exactly and
    the column keeps the result to its decimal places. *)

Inductive fexpr : Type :=
| F (field : string)
| Value (c : Q)
| Add (a b : fexpr)
| Sub (a b : fexpr)
| Mul (a b : fexpr)
| Div (a b : fexpr).

Fixpoint eval_fexpr (r : Row) (e : fexpr) : option Q :=
  match e with
  | F field =>
      if String.eqb field "left" then Some (row_left r)
      else if String.eqb field "right" then Some (row_right r)
      else None
  | Value c => Some c
  | Add a b =>
      match eval_fexpr r a, eval_fexpr r b with
      | Some x, Some y => Some (x + y)
      | _, _ => None
      end
  | Sub a b =>
      match eval_fexpr r a, eval_fexpr r b with
      | Some x, Some y => Some (x - y)
      | _, _ => None
      end
  | Mul a b =>
      match eval_fexpr r a, eval_fexpr r b with
      | Some x, Some y => Some (x * y)
      | _, _ => None
      end
  | Div a b =>
      match eval_fexpr r a, eval_fexpr r b with
      | Some x, Some y => if Qeq_bool y 0 then None else Some (x / y)
      | _, _ => None
      end
  end.

(** The keyword arguments of the batched [update] of a move: [left] and
    [right] are expressions, [tree_id] a new value when present, [level]
    the offset of [F("level") + level_offset] when present. *)
Record Updates : Type := mkUpdates {
  u_left : fexpr;
  u_right : fexpr;
  u_tree_id : option Z;
  u_level : option Z
}.

Definition apply_updates (decimal_places : positive) (u : Updates) (r : Row)
    : option Row :=
  match eval_fexpr r (u_left u), eval_fexpr r (u_right u) with
  | Some l, Some r' =>
      Some {| row_pk := row_pk r;
              row_left := DecimalField decimal_places l;
              row_right := DecimalField decimal_places r';
              row_level := match u_level u with
                           | Some off => (row_level r + off)%Z
                           | None => row_level r
                           end;
              row_tree_id := match u_tree_id u with
                             | Some t => t
                             | None => row_tree_id r
                             end |}
  | _, _ => None
  end.

(** [QuerySet.update] on the rows selected by [p]. *)
Fixpoint update_where (decimal_places : positive) (p : Row -> bool)
    (u : Updates) (db : Store) : result Store :=
  match db with
  | [] => Ok []
  | r :: db' =>
      rest <- update_where decimal_places p u db' ;;
      if p r then
        match apply_updates decimal_places u r with
        | Some r' => Ok (r' :: rest)
        | None => Raise DatabaseError
        end
      else Ok (r :: rest)
  end.

(** [self.filter(pk=node.pk).update(left=left, right=right)] *)
Definition update_bounds (decimal_places : positive) (db : Store) (n : Node)
    (l r : Q) : Store :=
  map (fun row =>
         if matches_pk n row
         then {| row_pk := row_pk row;
                 row_left := DecimalField decimal_places l;
                 row_right := DecimalField decimal_places r;
                 row_level := row_level row;
                 row_tree_id := row_tree_id row |}
         else row) db.

Definition max_level (db : Store) : Z :=
  fold_right (fun r m => Z.max (row_level r) m) 0%Z db.

(** [NestedIntervalsManager.root_node]: [filter(tree_id=..., level=0).get()] *)
Definition root_node (db : Store) (tid : option Z) : result Node :=
  match filter (fun r => match tid with
                         | Some t => (row_tree_id r =? t)%Z
                         | None => false
                         end && (row_level r =? 0)%Z)
               (order_rows db) with
  | [] => Raise DoesNotExist
  | [r] => Ok (from_db r)
  | _ => Raise MultipleObjectsReturned
  end.

(** The loop [for child in node.get_children(): right = helper(child, right, increment)],
    with the recursive call as a parameter. *)
Fixpoint rebalance_children
    (helper : Store -> Node -> Q -> option (result (Q * Store)))
    (children : list Node) (db : Store) (rgt : Q)
    : option (result (Q * Store)) :=
  match children with
  | [] => Some (Ok (rgt, db))
  | child :: rest =>
      match helper db child rgt with
      | None => None
      | Some (Raise e) => Some (Raise e)
      | Some (Ok (rgt', db')) => rebalance_children helper rest db' rgt'
      end
  end.

Section Program.

(** [nested_intervals.conf.DECIMAL_PLACES] *)
Variable DECIMAL_PLACES : positive.

Local Abbreviation dadd := (Dec.dadd DECIMAL_PLACES).
Local Abbreviation dsub := (Dec.dsub DECIMAL_PLACES).
Local Abbreviation dmul := (Dec.dmul DECIMAL_PLACES).
Local Abbreviation ddiv := (Dec.ddiv DECIMAL_PLACES).

(** *** intervals.py *)

Definition get_range_conversion_f_expression_generator
    (old_left old_right new_left new_right : Q) : string -> fexpr :=
  let old_size := dsub old_right old_left in
  let new_size := dsub new_right new_left in
  fun field =>
    Add (Div (Mul (Sub (F field) (Value old_left)) (Value new_size))
             (Value old_size))
        (Value new_left).

Definition _calculate_sub_interval (outerleft outerright : Q) (count : Z)
    : result Interval :=
  let outerrange := dsub outerright outerleft in
  let increment := ddiv outerrange (dadd (dmul 2 (inject_Z count)) 1) in
  let res := {| i_left := dadd outerleft increment;
                i_right := dsub outerright increment;
                i_increment := increment |} in
  if Dec.deq (i_left res) (i_right res)
  then Raise (IntervalTooSmall "The interval has gotten too small! Oh noes!")
  else Ok res.

Definition valid_positions : list string :=
  ["first-child"; "last-child"; "left"; "right"].

Definition position_in (position : string) (l : list string) : bool :=
  existsb (String.eqb position) l.

Definition get_interval_for_insertion_relative_to
    (db : Store) (target : option Node) (position : string) (count : Z)
    : result Interval :=
  if negb (position_in position valid_positions)
  then Raise (ValueError ("An invalid position was given: " ++ position ++ "."))
  else
    match target with
    | None =>
        Ok {| i_left := 0;
              i_right := 1;
              i_increment := ddiv 1 (dsub (dmul 2 (inject_Z count)) 1) |}
    | Some target =>
        if negb (_is_saved target)
        then Raise (ValueError "Can't insert relative to an unsaved node.")
        else if position_in position ["left"; "right"] && is_root_node target
        then Raise (ValueError "Can't insert as a sibling of a root node.")
        else if String.eqb position "first-child" then
          children <- get_children db target ;;
          match first children with
          | Some first_child =>
              _calculate_sub_interval (left target) (left first_child) count
          | None =>
              _calculate_sub_interval (left target) (right target) count
          end
        else if String.eqb position "last-child" then
          children <- get_children db target ;;
          match last children with
          | Some last_child =>
              _calculate_sub_interval (right last_child) (right target) count
          | None =>
              _calculate_sub_interval (left target) (right target) count
          end
        else if String.eqb position "left" then
          previous <- get_previous_sibling db target ;;
          match previous with
          | Some previous =>
              _calculate_sub_interval (right previous) (left target) count
          | None =>
              match parent db target with
              | Some p => _calculate_sub_interval (left p) (left target) count
              | None => Raise AttributeError
              end
          end
        else
          nxt <- get_next_sibling db target ;;
          match nxt with
          | Some nxt =>
              _calculate_sub_interval (right target) (left nxt) count
          | None =>
              match parent db target with
              | Some p => _calculate_sub_interval (right target) (right p) count
              | None => Raise AttributeError
              end
          end
    end.

(** *** managers.py: rebalancing *)

(** [NestedIntervalsManager._rebalance_helper]; [fuel] bounds the depth
    of the recursion and [None] means it was exhausted. *)
Fixpoint _rebalance_helper (fuel : nat) (db : Store) (node : Node)
    (lft increment : Q) : option (result (Q * Store)) :=
  match fuel with
  | O => None
  | S fuel' =>
      let rgt := dadd lft increment in
      match get_children db node with
      | Raise e => Some (Raise e)
      | Ok children =>
          match rebalance_children
                  (fun db' child r => _rebalance_helper fuel' db' child r increment)
                  children db rgt with
          | None => None
          | Some (Raise e) => Some (Raise e)
          | Some (Ok (rgt', db')) =>
              Some (Ok (dadd rgt' increment,
                        update_bounds DECIMAL_PLACES db' node lft rgt'))
          end
      end
  end.

(** The interval computed by [rebalance_tree] for the whole tree. *)
Definition rebalance_interval (db : Store) (tid : option Z)
    : result (Node * Interval) :=
  root <- root_node db tid ;;
  nodes <- get_descendants db root true ;;
  interval <- get_interval_for_insertion_relative_to
                db None "last-child" (Z.of_nat (List.length nodes)) ;;
  Ok (root, interval).

(** [NestedIntervalsManager.rebalance_tree] (a transaction: [Raise]
    leaves the store as it was). *)
Definition rebalance_tree (db : Store) (tid : option Z) : result Store :=
  ri <- rebalance_interval db tid ;;
  match _rebalance_helper (S (Z.to_nat (max_level db))) db (fst ri)
          (i_left (snd ri)) (i_increment (snd ri)) with
  | Some r => (x <- r ;; Ok (snd x))
  | None => Raise RecursionError
  end.

(** [get_interval_for_insertion_relative_to_with_rebalance]: the
    interval or the exception, the target object after the call and the
    store after the call. *)
Definition get_interval_for_insertion_relative_to_with_rebalance
    (db : Store) (target : option Node) (position : string) (count : Z)
    : result Interval * option Node * Store :=
  match get_interval_for_insertion_relative_to db target position count with
  | Raise (IntervalTooSmall _) =>
      match target with
      | None => (Raise AttributeError, target, db)
      | Some t =>
          match rebalance_tree db (tree_id t) with
          | Raise e => (Raise e, target, db)
          | Ok db' =>
              match refresh_from_db db' t with
              | Raise e => (Raise e, target, db')
              | Ok t' =>
                  (get_interval_for_insertion_relative_to
                     db' (Some t') position 1,
                   Some t', db')
              end
          end
      end
  | r => (r, target, db)
  end.

(** *** managers.py: moving and inserting *)

(** The check at the head of [_move_node]. *)
Definition check_move (node : Node) (target : option Node)
    (position : string) : result unit :=
  if position_in position ["last-child"; "first-child"] then
    if node_eq node target
    then Raise (InvalidMove "A node may not be made a child of itself.")
    else
      match target with
      | Some t =>
          anc <- is_ancestor_of node t false ;;
          if anc
          then Raise (InvalidMove
                 "A node may not be made a child of any of its descendants.")
          else Ok tt
      | None => Ok tt
      end
  else if position_in position ["left"; "right"] then
    if node_eq node target
    then Raise (InvalidMove "A node may not be made a sibling of itself.")
    else
      match target with
      | Some t =>
          anc <- is_ancestor_of node t false ;;
          if anc
          then Raise (InvalidMove
                 "A node may not be made a sibling of any of its descendants.")
          else Ok tt
      | None => Ok tt
      end
  else Ok tt.

(** The level offset and the new tree id of a move. *)
Definition move_level_offset (node : Node) (target : option Node)
    (position : string) : Z :=
  match target with
  | None => (- level node)%Z
  | Some t =>
      if position_in position ["left"; "right"]
      then (level t - level node)%Z
      else (level t + 1 - level node)%Z
  end.

Definition move_new_tree_id (uuid4 : Z) (node : Node) (target : option Node)
    : option Z :=
  match target with
  | None => Some uuid4
  | Some t =>
      if negb (option_Z_eqb (tree_id t) (tree_id node))
      then tree_id t else None
  end.

(** The [updates] dictionary of [_move_node]. *)
Definition move_updates (converter : string -> fexpr)
    (new_tree_id : option Z) (level_offset : Z) : Updates :=
  {| u_left := converter "left";
     u_right := converter "right";
     u_tree_id := new_tree_id;
     u_level := if (level_offset =? 0)%Z then None else Some level_offset |}.

(** [NestedIntervalsManager._move_node]: the outcome, the node and the
    target objects after the call, and the store after the call.
    [uuid4] is the value [uuid.uuid4()] returns. *)
Definition _move_node (uuid4 : Z) (db : Store) (node : Node)
    (target : option Node) (position : string)
    : result unit * Node * option Node * Store :=
  match check_move node target position with
  | Raise e => (Raise e, node, target, db)
  | Ok _ =>
      match get_descendant_count db node with
      | Raise e => (Raise e, node, target, db)
      | Ok descendant_count =>
          match get_interval_for_insertion_relative_to_with_rebalance
                  db target position (descendant_count + 1) with
          | (Raise e, target', db') => (Raise e, node, target', db')
          | (Ok interval, target', db') =>
              let converter :=
                get_range_conversion_f_expression_generator
                  (left node) (right node)
                  (i_left interval) (i_right interval) in
              let level_offset := move_level_offset node target' position in
              let new_tree_id := move_new_tree_id uuid4 node target' in
              let written :=
                if (descendant_count =? 0)%Z then Ok db'
                else
                  raise_if_unsaved "get_descendants" node
                    (update_where DECIMAL_PLACES (descendant_filter node)
                       (move_updates converter new_tree_id level_offset)
                       db') in
              match written with
              | Raise e => (Raise e, node, target', db')
              | Ok db'' =>
                  let node1 :=
                    set_bounds node (i_left interval) (i_right interval) in
                  let node2 :=
                    set_level node1 (level node1 + level_offset)%Z in
                  let node3 :=
                    match new_tree_id with
                    | Some t => set_tree_id node2 (Some t)
                    | None => node2
                    end in
                  (Ok tt, set_changed node3 true, target', db'')
              end
          end
      end
  end.

(** [Model.save] of the ORM, restricted to the tree fields:
    [write_tree_fields] is false when [update_fields] names the user
    fields only.  A row with the instance's primary key is updated;
    otherwise a row is inserted, with a new key when the instance has
    none.  The row holds what the columns keep of the bounds; the
    instance keeps its own values. *)
Definition next_pk (db : Store) : Z :=
  (fold_right (fun r m => Z.max (row_pk r) m) 0%Z db + 1)%Z.

Definition base_save (db : Store) (n : Node) (write_tree_fields : bool)
    : result (Node * Store) :=
  match pk n with
  | Some k =>
      if existsb (matches_pk n) db then
        if write_tree_fields then
          match tree_id n with
          | Some t =>
              Ok (n, map (fun r =>
                            if matches_pk n r
                            then {| row_pk := k;
                                    row_left :=
                                      DecimalField DECIMAL_PLACES (left n);
                                    row_right :=
                                      DecimalField DECIMAL_PLACES (right n);
                                    row_level := level n;
                                    row_tree_id := t |}
                            else r) db)
          | None => Raise DatabaseError
          end
        else Ok (n, db)
      else if write_tree_fields then
        match tree_id n with
        | Some t =>
            Ok (n, List.app db
                     [{| row_pk := k;
                         row_left := DecimalField DECIMAL_PLACES (left n);
                         row_right := DecimalField DECIMAL_PLACES (right n);
                         row_level := level n;
                         row_tree_id := t |}])
        | None => Raise DatabaseError
        end
      else Raise DatabaseError
  | None =>
      if write_tree_fields then
        match tree_id n with
        | Some t =>
            let k := next_pk db in
            Ok (set_pk n (Some k),
                List.app db
                  [{| row_pk := k;
                      row_left := DecimalField DECIMAL_PLACES (left n);
                      row_right := DecimalField DECIMAL_PLACES (right n);
                      row_level := level n;
                      row_tree_id := t |}])
        | None => Raise DatabaseError
        end
      else Raise (ValueError
             "Cannot force an update in save() with no primary key.")
  end.

(** The part of [NestedIntervalsModel.save] after the
    [nested_intervals_update_in_progress] block, called without
    [update_fields]. *)
Definition save_fields (db : Store) (n : Node) : result (Node * Store) :=
  let write := _nested_intervals_fields_have_changed n in
  base_save db (if write then set_changed n false else n) write.

(** [NestedIntervalsManager.insert_node] (a transaction). *)
Definition insert_node (uuid4 : Z) (db : Store) (node : Node)
    (target : option Node) (position : string) (save : bool)
    : result Node * option Node * Store :=
  if _is_saved node
  then (Raise (ValueError "Cannot insert a node which has already been saved."),
        target, db)
  else
    let placed :=
      match target with
      | None =>
          (Ok (set_tree_id
                 (set_bounds (set_level node 0%Z) 0 1) (Some uuid4)),
           target, db)
      | Some _ =>
          match get_interval_for_insertion_relative_to_with_rebalance
                  db target position 1 with
          | (Raise e, target', db') => (Raise e, target', db')
          | (Ok interval, None, db') => (Raise AttributeError, None, db')
          | (Ok interval, Some t, db') =>
              let node1 :=
                set_bounds node (i_left interval) (i_right interval) in
              let node2 :=
                set_level node1
                  (match index 0 "child" position with
                   | Some _ => (level t + 1)%Z
                   | None => level t
                   end) in
              (Ok (set_tree_id node2 (tree_id t)), Some t, db')
          end
      end in
    match placed with
    | (Raise e, target', _) => (Raise e, target', db)
    | (Ok node', target', db') =>
        let node'' := set_changed node' true in
        if save then
          match save_fields db' node'' with
          | Raise e => (Raise e, target', db)
          | Ok (n, db'') => (Ok n, target', db'')
          end
        else (Ok node'', target', db')
    end.

(** [NestedIntervalsManager.move_node] (a transaction). *)
Definition move_node (uuid4 : Z) (db : Store) (node : Node)
    (target : option Node) (position : string)
    : result unit * Node * option Node * Store :=
  match _move_node uuid4 db node target position with
  | (Raise e, node', target', _) => (Raise e, node', target', db)
  | (Ok _, node', target', db') =>
      match save_fields db' node' with
      | Raise e => (Raise e, node', target', db)
      | Ok (n, db'') => (Ok tt, n, target', db'')
      end
  end.

(** *** models.py: the parent property and save *)

(** The setter of the [parent] property. *)
Definition set_parent (n : Node) (newparent : option Node) : result Node :=
  match newparent with
  | Some p =>
      if negb (_is_saved p)
      then Raise (ValueError
             "Parent must be saved before you can attach a child to it")
      else Ok (set_new_parent (set_changed n true) (NewParent newparent))
  | None => Ok (set_new_parent (set_changed n true) (NewParent newparent))
  end.

(** [self._new_parent or None] *)
Definition new_parent_or_none (n : Node) : option Node :=
  match _new_parent n with
  | NewParent p => p
  | Unchanged => None
  end.

(** [NestedIntervalsModel.save] called without keyword arguments (a
    transaction): the outcome, the instance after the call and the
    store after the call. *)
Definition save (uuid4 : Z) (db : Store) (n : Node)
    : result unit * Node * Store :=
  let staged :=
    if negb (_is_saved n) then
      match insert_node uuid4 db n (new_parent_or_none n) "last-child" false with
      | (Raise e, target', _) =>
          (Raise e,
           match _new_parent n, target' with
           | NewParent (Some _), Some t' => set_new_parent n (NewParent (Some t'))
           | _, _ => n
           end, db)
      | (Ok n', _, db') => (Ok tt, n', db')
      end
    else
      match _new_parent n with
      | NewParent p =>
          match _move_node uuid4 db n p "last-child" with
          | (Raise e, n', target', db') =>
              (Raise e, set_new_parent n' (NewParent target'), db')
          | (Ok _, n', _, db') => (Ok tt, n', db')
          end
      | Unchanged => (Ok tt, n, db)
      end in
  match staged with
  | (Raise e, n', _) => (Raise e, n', db)
  | (Ok _, n', db') =>
      match save_fields db' (set_new_parent n' Unchanged) with
      | Raise e => (Raise e, set_new_parent n' Unchanged, db)
      | Ok (n'', db'') => (Ok tt, n'', db'')
      end
  end.

End Program.

(** * Definitions used in the statements *)

(** ** Outcomes *)

Definition is_invalid_move (e : error) : bool :=
  match e with
  | InvalidMove _ => true
  | _ => false
  end.

(** [r] does not raise [InvalidMove]. *)
Definition no_invalid_move {A : Type} (r : result A) : Prop :=
  forall e, r = Raise e -> is_invalid_move e = false.

(** The outcome of a move: the first component of what it returns. *)
Definition outcome {A B C D : Type} (x : A * B * C * D) : A :=
  fst (fst (fst x)).

(** The primary key of a target, when there is one. *)
Definition target_pk (t : option Node) : option (option Z) :=
  option_map pk t.

(** ** Moves *)

(** The condition under which a move is illegal: the target is the node,
    or the node is an ancestor of the target. *)
Definition illegal (node : Node) (target : option Node) : Prop :=
  node_eq node target = true
  \/ exists t, target = Some t /\ is_ancestor_of node t false = Ok true.




(** ** Rows and queries *)

(** What a rebalance never changes in a row. *)
Definition row_shape (r : Row) : Z * Z * Z :=
  (row_pk r, row_level r, row_tree_id r).

Definition same_shape (db db' : Store) : Prop :=
  map row_shape db = map row_shape db'.

(** Replace the right bound of a row. *)
Definition with_right (g : Row -> Q) (r : Row) : Row :=
  {| row_pk := row_pk r; row_left := row_left r; row_right := g r;
     row_level := row_level r; row_tree_id := row_tree_id r |}.

(** Everything a query result shows of a node except its right bound. *)
Definition node_key (m : Node) : option Z * Q * Z * option Z :=
  (pk m, left m, level m, tree_id m).

(** The bounds stored for each primary key. *)
Definition bounds (db : Store) : list (Z * Q * Q) :=
  map (fun r => (row_pk r, row_left r, row_right r)) db.

(** ** The invariants of the encoding *)

Definition same_tree (a b : Row) : bool :=
  (row_tree_id a =? row_tree_id b)%Z.

Definition strictly_inside (a b : Row) : bool :=
  Dec.dlt (row_left b) (row_left a) && Dec.dlt (row_right a) (row_right b).

(** I1: [left < right] in every row. *)
Definition invariant_I1 (db : Store) : bool :=
  forallb (fun r => Dec.dlt (row_left r) (row_right r)) db.

(** I2: two rows of one tree are nested or disjoint. *)
Definition invariant_I2 (db : Store) : bool :=
  forallb (fun a =>
    forallb (fun b =>
      negb (same_tree a b) || (row_pk a =? row_pk b)%Z
      || strictly_inside a b || strictly_inside b a
      || Dec.dlt (row_right a) (row_left b)
      || Dec.dlt (row_right b) (row_left a)) db) db.

(** I4: the level of a row is the number of rows strictly around it. *)
Definition invariant_I4 (db : Store) : bool :=
  forallb (fun a =>
    (row_level a
     =? Z.of_nat (List.length
          (filter (fun b => same_tree a b && strictly_inside a b) db)))%Z) db.

(** I5: one row at level 0 in every tree. *)
Definition invariant_I5 (db : Store) : bool :=
  forallb (fun a =>
    (List.length (filter (fun b => same_tree a b && (row_level b =? 0)%Z) db)
     =? 1)%nat) db.

(** I3 follows from I2 and I4. *)
Definition invariants (db : Store) : bool :=
  invariant_I1 db && invariant_I2 db && invariant_I4 db && invariant_I5 db.

(** I1 and I2 around one node: every other row of its tree has
    [left < right] and is strictly inside the node, strictly around it,
    or disjoint from it. *)
Definition nested_around (db : Store) (n : Node) : Prop :=
  forall r, In r db ->
    tree_id n = Some (row_tree_id r) -> pk n <> Some (row_pk r) ->
    row_left r < row_right r
    /\ ((left n < row_left r /\ row_right r < right n)
        \/ (row_left r < left n /\ right n < row_right r)
        \/ row_right r < left n
        \/ right n < row_left r).

(** The pairs [(a, b)] of primary keys for which [a.is_ancestor_of(b)]. *)
Definition ancestor_pairs (db : Store) : list (Z * Z) :=
  flat_map (fun a =>
    flat_map (fun b =>
      match is_ancestor_of (from_db a) (from_db b) false with
      | Ok true => [(row_pk a, row_pk b)]
      | _ => []
      end) db) db.

(** ** Stores used in the examples *)

(** A tree of one node. *)
Definition singleton_tree : Store :=
  [ {| row_pk := 1; row_left := 0; row_right := 1;
       row_level := 0; row_tree_id := 1 |} ].

(** A root (1) with the children 2 and 5; 2 has the children 3 and 4. *)
Definition example_tree : Store :=
  [ {| row_pk := 1; row_left := 0; row_right := 1;
       row_level := 0; row_tree_id := 7 |};
    {| row_pk := 2; row_left := 1 # 10; row_right := 2 # 10;
       row_level := 1; row_tree_id := 7 |};
    {| row_pk := 3; row_left := 12 # 100; row_right := 14 # 100;
       row_level := 2; row_tree_id := 7 |};
    {| row_pk := 4; row_left := 16 # 100; row_right := 18 # 100;
       row_level := 2; row_tree_id := 7 |};
    {| row_pk := 5; row_left := 3 # 10; row_right := 9 # 10;
       row_level := 1; row_tree_id := 7 |} ].

Definition node_1 : Node :=
  from_db {| row_pk := 1; row_left := 0; row_right := 1;
             row_level := 0; row_tree_id := 7 |}.

Definition node_2 : Node :=
  from_db {| row_pk := 2; row_left := 1 # 10; row_right := 2 # 10;
             row_level := 1; row_tree_id := 7 |}.

Definition node_4 : Node :=
  from_db {| row_pk := 4; row_left := 16 # 100; row_right := 18 # 100;
             row_level := 2; row_tree_id := 7 |}.

Definition node_5 : Node :=
  from_db {| row_pk := 5; row_left := 3 # 10; row_right := 9 # 10;
             row_level := 1; row_tree_id := 7 |}.

(** A leaf so narrow that, with three digits, the two thirds of its
    range round to the same bound. *)
Definition tight_tree : Store :=
  [ {| row_pk := 1; row_left := 0; row_right := 1;
       row_level := 0; row_tree_id := 7 |};
    {| row_pk := 2; row_left := 5 # 10; row_right := 502 # 1000;
       row_level := 1; row_tree_id := 7 |} ].

Definition tight_leaf : Node :=
  from_db {| row_pk := 2; row_left := 5 # 10; row_right := 502 # 1000;
             row_level := 1; row_tree_id := 7 |}.




(** Two rows that overlap without nesting. *)
Definition overlapping_rows : Store :=
  [ {| row_pk := 1; row_left := 0; row_right := 5 # 10;
       row_level := 0; row_tree_id := 1 |};
    {| row_pk := 2; row_left := 3 # 10; row_right := 8 # 10;
       row_level := 1; row_tree_id := 1 |} ].

(** An instance that was never saved. *)
Definition unsaved : Node :=
  {| pk := None; left := 0; right := 0; level := 0%Z;
     tree_id := None; _new_parent := Unchanged;
     _nested_intervals_fields_have_changed := false |}.

(** [Model(parent=target).save()] through [insert_node] at [position],
    with [target] found by its primary key; six digits, tree id 7. *)
Definition insert_under (db : Store) (target : Z) (position : string)
    : Store :=
  match refresh_from_db db (set_pk unsaved (Some target)) with
  | Ok t =>
      match insert_node 6 7 db unsaved (Some t) position true with
      | (Ok _, _, db') => db'
      | _ => db
      end
  | Raise _ => db
  end.

(** A tree built through the API: a root (1), a child (2), a second
    child placed before the first (3), and two children of that second
    child (4 and 5). *)
Definition built_tree : Store :=
  match save 6 7 [] unsaved with
  | (Ok _, _, db1) =>
      let db2 := insert_under db1 1%Z "last-child" in
      let db3 := insert_under db2 1%Z "first-child" in
      let db4 := insert_under db3 3%Z "last-child" in
      insert_under db4 3%Z "last-child"
  | _ => []
  end.

(** * The rest of the API *)

(** ** Querysets that are combined before they are evaluated

    [get_ancestors], [get_family] and the manager's
    [get_queryset_descendants] and [get_queryset_ancestors] return
    querysets and combine them with [|].  Such a queryset is its filter,
    its [order_by] and whether it is [none()]. *)

Inductive ordering : Type :=
| by_tree_id_left
| by_left
| by_left_desc.

Record QuerySet : Type := mkQuerySet {
  qs_where : Row -> bool;
  qs_order_by : ordering;
  qs_is_none : bool
}.

Fixpoint insert_by (leb : Row -> Row -> bool) (r : Row) (l : list Row)
    : list Row :=
  match l with
  | [] => [r]
  | x :: l' => if leb r x then r :: l else x :: insert_by leb r l'
  end.

Fixpoint sort_by (leb : Row -> Row -> bool) (l : list Row) : list Row :=
  match l with
  | [] => []
  | x :: l' => insert_by leb x (sort_by leb l')
  end.

(** The rows of the table in the order of the queryset: the manager's
    [("tree_id", "left")], or [order_by("left")], or [order_by("-left")]. *)
Definition order_by (o : ordering) (db : Store) : list Row :=
  match o with
  | by_tree_id_left => order_rows db
  | by_left => sort_by (fun a b => Qle_bool (row_left a) (row_left b)) db
  | by_left_desc => sort_by (fun a b => Qle_bool (row_left b) (row_left a)) db
  end.

(** Evaluating a queryset. *)
Definition fetch_rows (db : Store) (q : QuerySet) : list Row :=
  if qs_is_none q then [] else filter (qs_where q) (order_by (qs_order_by q) db).

Definition fetch (db : Store) (q : QuerySet) : list Node :=
  map from_db (fetch_rows db q).

(** [QuerySet.none] *)
Definition none (q : QuerySet) : QuerySet :=
  {| qs_where := fun _ => false;
     qs_order_by := qs_order_by q;
     qs_is_none := true |}.

(** [QuerySet.__or__]: an empty side gives the other side; otherwise the
    filters are joined by OR and the ordering is that of the right-hand
    side. *)
Definition queryset_or (a b : QuerySet) : QuerySet :=
  if qs_is_none a then b
  else if qs_is_none b then a
  else {| qs_where := fun r => qs_where a r || qs_where b r;
          qs_order_by := qs_order_by b;
          qs_is_none := false |}.

(** The manager's [get_queryset], and [filter(pk=self.pk)] on it. *)
Definition all_rows : QuerySet :=
  {| qs_where := fun _ => true;
     qs_order_by := by_tree_id_left;
     qs_is_none := false |}.

Definition filter_pk (n : Node) : QuerySet :=
  {| qs_where := matches_pk n;
     qs_order_by := by_tree_id_left;
     qs_is_none := false |}.

(** ** models.py: ancestors, family, root and siblings *)

(** The filter of [get_ancestors(include_self=False)]:
    [left__lt=self.left, right__gt=self.right, tree_id=self.tree_id],
    excluding [pk=self.pk]. *)
Definition ancestor_filter (n : Node) (r : Row) : bool :=
  Dec.dlt (row_left r) (left n) && Dec.dlt (right n) (row_right r)
  && matches_tree n r && negb (matches_pk n r).

(** The filter of [get_ancestors(include_self=True)]. *)
Definition ancestor_or_self_filter (n : Node) (r : Row) : bool :=
  (Dec.dle (row_left r) (left n) && Dec.dle (right n) (row_right r)
   && matches_tree n r)
  || matches_pk n r.

(** [NestedIntervalsModel.get_ancestors] *)
Definition get_ancestors (n : Node) (ascending include_self : bool)
    : result QuerySet :=
  raise_if_unsaved "get_ancestors" n
    (if is_root_node n then
       if include_self then Ok (filter_pk n) else Ok (none all_rows)
     else
       let order := if ascending then by_left_desc else by_left in
       if include_self
       then Ok {| qs_where := ancestor_or_self_filter n;
                  qs_order_by := order;
                  qs_is_none := false |}
       else Ok {| qs_where := ancestor_filter n;
                  qs_order_by := order;
                  qs_is_none := false |}).

(** [NestedIntervalsModel.get_descendants], before it is evaluated. *)
Definition descendants_queryset (n : Node) (include_self : bool)
    : result QuerySet :=
  raise_if_unsaved "get_descendants" n
    (Ok {| qs_where := if include_self then descendant_or_self_filter n
                       else descendant_filter n;
           qs_order_by := by_tree_id_left;
           qs_is_none := false |}).

(** [NestedIntervalsModel.get_family] *)
Definition get_family (n : Node) : result QuerySet :=
  raise_if_unsaved "get_family" n
    (a <- get_ancestors n false true ;;
     d <- descendants_queryset n false ;;
     Ok (queryset_or a d)).

(** [NestedIntervalsModel.get_root] *)
Definition get_root (db : Store) (n : Node) : result Node :=
  raise_if_unsaved "get_root" n
    (if is_root_node n then Ok n else root_node db (tree_id n)).

(** [exclude(pk=self.pk)] on instances already fetched. *)
Definition exclude_pk (n : Node) (l : list Node) : list Node :=
  filter (fun m => negb (option_Z_eqb (pk m) (pk n))) l.

(** [NestedIntervalsModel.get_siblings] *)
Definition get_siblings (db : Store) (n : Node) (include_self : bool)
    : result (list Node) :=
  raise_if_unsaved "get_siblings" n
    (if is_root_node n then
       if include_self then Ok (fetch db (filter_pk n)) else Ok []
     else
       match parent db n with
       | None => Raise AttributeError
       | Some p =>
           qs <- get_children db p ;;
           Ok (if include_self then qs else exclude_pk n qs)
       end).

(** [get_level], [is_child_node] and [is_leaf_node] *)
Definition get_level (n : Node) : Z := level n.

Definition is_child_node (n : Node) : bool := negb (is_root_node n).

Definition is_leaf_node (db : Store) (n : Node) : result bool :=
  c <- get_descendant_count db n ;;
  Ok (c =? 0)%Z.

(** The [parent_id] property and its setter, which looks the parent up
    with [get(id=newparent_id)]. *)
Definition parent_id (db : Store) (n : Node) : option Z :=
  match parent db n with
  | Some p => pk p
  | None => None
  end.

Definition get_by_id (db : Store) (id : option Z) : result Node :=
  match filter (fun r => match id with
                         | Some k => (row_pk r =? k)%Z
                         | None => false
                         end) (order_rows db) with
  | [] => Raise DoesNotExist
  | [r] => Ok (from_db r)
  | _ => Raise MultipleObjectsReturned
  end.

Definition set_parent_id (db : Store) (n : Node) (newparent_id : option Z)
    : result Node :=
  p <- get_by_id db newparent_id ;;
  set_parent n (Some p).

(** [NestedIntervalsModel.delete]: the rows
    [get_descendants(include_self=True)] selects are deleted. *)
Definition delete (db : Store) (n : Node) : result Store :=
  _ <- descendants_queryset n true ;;
  Ok (filter (fun r => negb (descendant_or_self_filter n r)) db).

(** ** managers.py: querysets of descendants and ancestors, all trees *)

(** [get_queryset_descendants]: the loop over [queryset.all()] joins the
    descendants of every node; [distinct()] changes nothing in a queryset
    over the rows of one table. *)
Definition get_queryset_descendants (db : Store) (queryset : QuerySet)
    (include_self : bool) : result QuerySet :=
  fold_left (fun acc node =>
               qs <- acc ;;
               d <- descendants_queryset node include_self ;;
               Ok (queryset_or qs d))
            (fetch db queryset) (Ok (none queryset)).

(** [get_queryset_ancestors] *)
Definition get_queryset_ancestors (db : Store) (queryset : QuerySet)
    (include_self : bool) : result QuerySet :=
  fold_left (fun acc node =>
               qs <- acc ;;
               a <- get_ancestors node false include_self ;;
               Ok (queryset_or qs a))
            (fetch db queryset) (Ok (none queryset)).

(** querysets.py: the methods of [NestedIntervalsQuerySet] call the
    manager with the queryset itself. *)
Module NestedIntervalsQuerySet.

Definition get_descendants (db : Store) (self : QuerySet)
    (include_self : bool) : result QuerySet :=
  get_queryset_descendants db self include_self.

Definition get_ancestors (db : Store) (self : QuerySet)
    (include_self : bool) : result QuerySet :=
  get_queryset_ancestors db self include_self.

End NestedIntervalsQuerySet.

(** [NestedIntervalsManager.root_nodes] *)
Definition root_nodes : QuerySet :=
  {| qs_where := fun r => (row_level r =? 0)%Z;
     qs_order_by := by_tree_id_left;
     qs_is_none := false |}.

(** The loop of [rebalance_all_trees]: the outcome and the store after
    the call (each [rebalance_tree] is a transaction of its own). *)
Fixpoint rebalance_trees (prec : positive) (tree_ids : list (option Z))
    (db : Store) : result unit * Store :=
  match tree_ids with
  | [] => (Ok tt, db)
  | tid :: rest =>
      match rebalance_tree prec db tid with
      | Raise e => (Raise e, db)
      | Ok db' => rebalance_trees prec rest db'
      end
  end.

(** [NestedIntervalsManager.rebalance_all_trees] *)
Definition rebalance_all_trees (prec : positive) (db : Store)
    : result unit * Store :=
  rebalance_trees prec (map tree_id (fetch db root_nodes)) db.

(** [insert_at] and [move_to], the instance methods that call the
    manager. *)
Definition insert_at (prec : positive) (uuid4 : Z) (db : Store) (self : Node)
    (target : option Node) (position : string) (save : bool)
    : result Node * option Node * Store :=
  insert_node prec uuid4 db self target position save.

Definition move_to (prec : positive) (uuid4 : Z) (db : Store) (self : Node)
    (target : option Node) (position : string)
    : result unit * Node * option Node * Store :=
  move_node prec uuid4 db self target position.

(** ** Conditions on a store *)

(** Primary keys are unique. *)
Fixpoint unique_pks (db : Store) : bool :=
  match db with
  | [] => true
  | r :: l => negb (existsb (fun s => (row_pk s =? row_pk r)%Z) l)
              && unique_pks l
  end.

(** No row has the primary key 0, which Python takes for an unsaved
    instance. *)
Definition nonzero_pks (db : Store) : bool :=
  forallb (fun r => negb (row_pk r =? 0)%Z) db.

(** A store that holds trees: the invariants of the encoding and unique,
    non-zero primary keys. *)
Definition well_formed (db : Store) : Prop :=
  invariants db = true /\ unique_pks db = true /\ nonzero_pks db = true.

(** [x] is a decimal of at most [prec] significant digits. *)
Definition representable (prec : positive) (x : Q) : Prop :=
  Dec.ctx_round prec x == x.

(** The rows strictly around a row, in its tree. *)
Definition around (a b : Row) : bool := same_tree a b && strictly_inside a b.

(** Two stores that differ only in the bounds of the rows of one tree. *)
Definition differ_in_tree (tid : Z) (db db' : Store) : Prop :=
  Forall2 (fun r r' => row_shape r = row_shape r'
                       /\ (row_tree_id r <> tid -> r' = r)) db db'.

(** The node is of the tree [tid], and so are the rows of the store
    with its primary key. *)
Definition owned (tid : Z) (db : Store) (n : Node) : Prop :=
  tree_id n = Some tid
  /\ forall row, In row db -> matches_pk n row = true -> row_tree_id row = tid.

(** Every row of the list comes before the rows after it. *)
Fixpoint sorted_by (leb : Row -> Row -> bool) (l : list Row) : Prop :=
  match l with
  | [] => True
  | x :: l' => (forall y, In y l' -> leb x y = true) /\ sorted_by leb l'
  end.

(** The rows of the children of a stored row, in the manager's order. *)
Definition children_rows (db : Store) (p : Row) : list Row :=
  filter (fun r => (row_level r =? row_level p + 1)%Z)
    (filter (descendant_filter (from_db p)) (order_rows db)).

(** The bounds in the store are decimals of the context precision. *)
Definition stored_representable (prec : positive) (db : Store) : Prop :=
  forall r, In r db ->
    representable prec (row_left r) /\ representable prec (row_right r).

(** The rows of [example_tree], by position. *)
Definition example_row (i : nat) : Row :=
  nth i example_tree
    {| row_pk := 0; row_left := 0; row_right := 0;
       row_level := 0; row_tree_id := 0 |}.

(** [example_tree] and a second tree: a root (6) with one child (7). *)
Definition two_trees : Store :=
  (example_tree
   ++ [ {| row_pk := 6; row_left := 0; row_right := 1;
           row_level := 0; row_tree_id := 8 |};
        {| row_pk := 7; row_left := 1 # 3; row_right := 2 # 3;
           row_level := 1; row_tree_id := 8 |} ])%list.

(** * Facts about the decimal arithmetic *)

Module DecFacts.
Import Dec.

(** Appending a digit: the bounds of [n / 10] give those of [n]. *)
Lemma digit_bounds_step (n d : Z) :
  (10 <= n)%Z -> (1 <= d)%Z ->
  (10 ^ (d - 1) <= n / 10 < 10 ^ d)%Z ->
  (10 ^ (1 + d - 1) <= n < 10 ^ (1 + d))%Z.
Proof.
  intros Hn Hd [Hlo Hhi].
  replace (1 + d - 1)%Z with (Z.succ (d - 1)) by lia.
  replace (1 + d)%Z with (Z.succ d) by lia.
  rewrite !Z.pow_succ_r by lia.
  pose proof (Z.div_mod n 10 ltac:(lia)) as Hdm.
  pose proof (Z.mod_pos_bound n 10 ltac:(lia)) as Hm.
  split; lia.
Qed.

Lemma ndigits_aux_spec (fuel : positive) :
  forall n : Z, (0 < n <= Zpos fuel)%Z ->
    (10 ^ (ndigits_aux fuel n - 1) <= n < 10 ^ ndigits_aux fuel n)%Z
    /\ (1 <= ndigits_aux fuel n)%Z.
Proof.
  induction fuel as [f IH | f IH | ]; intros n Hn; cbn [ndigits_aux];
    destruct (Z.ltb_spec n 10) as [Hlt | Hge];
    try (cbn; lia);
    (assert (Hq : (0 < n / 10 <= Zpos f)%Z)
      by (split; [apply Z.div_str_pos; lia
                 | apply Z.div_le_upper_bound; lia]));
    destruct (IH _ Hq) as [Hb Hpos];
    (split; [apply digit_bounds_step; assumption | lia]).
Qed.

Lemma ndigits_spec (n : Z) :
  (0 < n)%Z -> (10 ^ (ndigits n - 1) <= n < 10 ^ ndigits n)%Z.
Proof.
  intros Hn. destruct n as [|p|p]; try lia.
  unfold ndigits. apply ndigits_aux_spec. lia.
Qed.

Lemma ndigits_pos (n : Z) : (1 <= ndigits n)%Z.
Proof.
  destruct n as [|p|p]; cbn; try lia.
  apply ndigits_aux_spec. lia.
Qed.

Lemma ten_neq0 : ~ inject_Z 10 == 0.
Proof. intro H. discriminate H. Qed.

Lemma pow10_pos (z : Z) : 0 < pow10 z.
Proof. apply Qpower_0_lt. reflexivity. Qed.

Lemma pow10_add (a b : Z) : pow10 (a + b) == pow10 a * pow10 b.
Proof. apply Qpower_plus, ten_neq0. Qed.

Lemma pow10_sub (a b : Z) : pow10 (a - b) == pow10 a / pow10 b.
Proof. apply Qpower_minus, ten_neq0. Qed.

Lemma pow10_succ (a : Z) : pow10 (a + 1) == 10 * pow10 a.
Proof. rewrite pow10_add. unfold pow10 at 2. rewrite Qpower_1_r. ring. Qed.

Lemma pow10_Z (z : Z) : (0 <= z)%Z -> pow10 z == inject_Z (10 ^ z).
Proof. intros Hz. symmetry. apply Zpower_Qpower, Hz. Qed.

Lemma pow10_le (a b : Z) : (a <= b)%Z -> pow10 a <= pow10 b.
Proof. intros H. apply Qpower_le_compat_l; [exact H | discriminate]. Qed.

Lemma pow10_lt (a b : Z) : (a < b)%Z -> pow10 a < pow10 b.
Proof. intros H. apply Qpower_lt_compat_l; [exact H | reflexivity]. Qed.

Lemma pow10_lt_inv (a b : Z) : pow10 a < pow10 b -> (a < b)%Z.
Proof. intros H. apply (Qpower_lt_compat_l_inv (inject_Z 10)); [exact H | reflexivity]. Qed.

Lemma Qdiv_le_cross (p q a b : Q) :
  0 < q -> 0 < b -> p * b <= a * q -> p / q <= a / b.
Proof.
  intros Hq Hb H.
  apply Qle_shift_div_l; [exact Hb|].
  unfold Qdiv. rewrite <- Qmult_assoc, (Qmult_comm (/ q)), Qmult_assoc.
  apply Qle_shift_div_r; [exact Hq|exact H].
Qed.

Lemma Qdiv_lt_cross (p q a b : Q) :
  0 < q -> 0 < b -> p * b < a * q -> p / q < a / b.
Proof.
  intros Hq Hb H.
  apply Qlt_shift_div_l; [exact Hb|].
  unfold Qdiv. rewrite <- Qmult_assoc, (Qmult_comm (/ q)), Qmult_assoc.
  apply Qlt_shift_div_r; [exact Hq|exact H].
Qed.

Lemma decade_spec (x : Q) :
  0 < x -> pow10 (decade x) <= x /\ x < pow10 (decade x + 1).
Proof.
  intros Hx. destruct x as [a b].
  assert (Ha : (0 < a)%Z).
  { unfold Qlt in Hx. cbn in Hx. lia. }
  pose proof (ndigits_spec a Ha) as [Halo Hahi].
  pose proof (ndigits_spec (Zpos b) eq_refl) as [Hblo Hbhi].
  pose proof (ndigits_pos a) as Hda.
  pose proof (ndigits_pos (Zpos b)) as Hdb.
  unfold decade. cbn [Qnum Qden].
  set (da := ndigits a) in *. set (db := ndigits (Zpos b)) in *.
  assert (Hx' : a # b == inject_Z a / inject_Z (Zpos b)) by apply Qmake_Qdiv.
  assert (HbQ : 0 < inject_Z (Zpos b)) by reflexivity.
  assert (Halo' : pow10 (da - 1) <= inject_Z a).
  { rewrite pow10_Z by lia. rewrite <- Zle_Qle. exact Halo. }
  assert (Hahi' : inject_Z a < pow10 da).
  { rewrite pow10_Z by lia. rewrite <- Zlt_Qlt. exact Hahi. }
  assert (Hblo' : pow10 (db - 1) <= inject_Z (Zpos b)).
  { rewrite pow10_Z by lia. rewrite <- Zle_Qle. exact Hblo. }
  assert (Hbhi' : inject_Z (Zpos b) < pow10 db).
  { rewrite pow10_Z by lia. rewrite <- Zlt_Qlt. exact Hbhi. }
  pose proof (pow10_pos (da - 1)) as P1.
  pose proof (pow10_pos da) as P2.
  pose proof (pow10_pos (db - 1)) as P3.
  pose proof (pow10_pos db) as P4.
  destruct (Qle_bool (pow10 (da - db)) (a # b)) eqn:E.
  - apply Qle_bool_iff in E. split; [exact E|].
    rewrite Hx'.
    replace (da - db + 1)%Z with (da - (db - 1))%Z by lia.
    rewrite pow10_sub.
    apply Qdiv_lt_cross; [exact HbQ | exact P3 | nra].
  - assert (E' : a # b < pow10 (da - db)).
    { apply Qnot_le_lt. intro H. apply Qle_bool_iff in H. congruence. }
    split.
    + rewrite Hx'.
      replace (da - db - 1)%Z with ((da - 1) - db)%Z by lia.
      rewrite pow10_sub.
      apply Qdiv_le_cross; [exact P4 | exact HbQ | nra].
    + replace (da - db - 1 + 1)%Z with (da - db)%Z by lia. exact E'.
Qed.

Lemma decade_unique (x : Q) (e : Z) :
  pow10 e <= x -> x < pow10 (e + 1) -> decade x = e.
Proof.
  intros Hlo Hhi.
  assert (Hx : 0 < x) by (pose proof (pow10_pos e); lra).
  destruct (decade_spec x Hx) as [Dlo Dhi].
  assert (H1 : (e < decade x + 1)%Z) by (apply pow10_lt_inv; lra).
  assert (H2 : (decade x < e + 1)%Z) by (apply pow10_lt_inv; lra).
  lia.
Qed.

Lemma decade_proper (x y : Q) : 0 < x -> x == y -> decade x = decade y.
Proof.
  intros Hx Hxy. symmetry.
  destruct (decade_spec x Hx) as [Dlo Dhi].
  apply decade_unique; lra.
Qed.

Lemma decade_mono (x y : Q) : 0 < x -> x <= y -> (decade x <= decade y)%Z.
Proof.
  intros Hx Hxy.
  destruct (decade_spec x Hx) as [Dlo _].
  destruct (decade_spec y ltac:(lra)) as [_ Dhi].
  assert (H : (decade x < decade y + 1)%Z) by (apply pow10_lt_inv; lra).
  lia.
Qed.

Lemma rhe_cases (x : Q) :
  inject_Z (Qfloor x) <= x /\ x < inject_Z (Qfloor x) + 1 /\
  ((x - inject_Z (Qfloor x) < 1 # 2 /\ round_half_even x = Qfloor x)
   \/ (1 # 2 < x - inject_Z (Qfloor x)
       /\ round_half_even x = (Qfloor x + 1)%Z)
   \/ (x - inject_Z (Qfloor x) == 1 # 2 /\
       round_half_even x
       = if Z.even (Qfloor x) then Qfloor x else (Qfloor x + 1)%Z)).
Proof.
  pose proof (Qfloor_le x) as Hlo.
  pose proof (Qlt_floor x) as Hhi.
  rewrite inject_Z_plus in Hhi.
  split; [exact Hlo|]. split; [exact Hhi|].
  unfold round_half_even.
  destruct (Qcompare_spec (x - inject_Z (Qfloor x)) (1 # 2)) as [E | E | E];
    auto.
Qed.

Lemma rhe_bounds (x : Q) :
  x - (1 # 2) <= inject_Z (round_half_even x)
  /\ inject_Z (round_half_even x) <= x + (1 # 2).
Proof.
  destruct (rhe_cases x) as (Hlo & Hhi & [[H E] | [[H E] | [H E]]]);
    rewrite E.
  - split; lra.
  - rewrite inject_Z_plus. change (inject_Z 1) with 1. split; lra.
  - destruct (Z.even (Qfloor x));
      [|rewrite inject_Z_plus; change (inject_Z 1) with 1]; split; lra.
Qed.

Lemma rhe_Z (z : Z) : round_half_even (inject_Z z) = z.
Proof.
  unfold round_half_even. rewrite Qfloor_Z.
  destruct (Qcompare_spec (inject_Z z - inject_Z z) (1 # 2)) as [E | E | E];
    try reflexivity; lra.
Qed.

Lemma rhe_proper (x y : Q) : x == y -> round_half_even x = round_half_even y.
Proof.
  intros H. unfold round_half_even.
  rewrite (Qfloor_comp x y H).
  rewrite (Qcompare_comp (x - inject_Z (Qfloor y)) (y - inject_Z (Qfloor y))
             ltac:(rewrite H; reflexivity) (1 # 2) (1 # 2) ltac:(reflexivity)).
  reflexivity.
Qed.

Lemma rhe_mono (x y : Q) :
  x <= y -> (round_half_even x <= round_half_even y)%Z.
Proof.
  intros Hxy.
  pose proof (Qfloor_resp_le x y Hxy) as Hf.
  destruct (rhe_cases x) as (Xlo & Xhi & HX).
  destruct (rhe_cases y) as (Ylo & Yhi & HY).
  destruct (Z.eq_dec (Qfloor x) (Qfloor y)) as [E | NE].
  - rewrite E in *.
    destruct HX as [[H1 E1] | [[H1 E1] | [H1 E1]]];
      destruct HY as [[H2 E2] | [[H2 E2] | [H2 E2]]];
      rewrite E1, E2; try lia; try lra;
      destruct (Z.even (Qfloor y)); lia.
  - assert (Hlt : (Qfloor x + 1 <= Qfloor y)%Z) by lia.
    assert (A : (round_half_even x <= Qfloor x + 1)%Z).
    { destruct HX as [[_ E1] | [[_ E1] | [_ E1]]]; rewrite E1; try lia.
      destruct (Z.even (Qfloor x)); lia. }
    assert (B : (Qfloor y <= round_half_even y)%Z).
    { destruct HY as [[_ E1] | [[_ E1] | [_ E1]]]; rewrite E1; try lia.
      destruct (Z.even (Qfloor y)); lia. }
    lia.
Qed.

Ltac qlra :=
  unfold Qdiv in *;
  change (/ 2) with (1 # 2) in *;
  change (/ 3) with (1 # 3) in *;
  lra.

Section Rounding.
Variable prec : positive.
Local Abbreviation P := (Zpos prec).
Local Abbreviation R := (ctx_round prec).

Lemma ctx_round_zero (x : Q) : x == 0 -> R x = 0.
Proof.
  intros H. unfold ctx_round.
  apply Qeq_alt in H. rewrite H. reflexivity.
Qed.

Lemma ctx_round_nonzero (x : Q) :
  ~ x == 0 ->
  R x == inject_Z (round_half_even (x / pow10 (lsd prec x)))
         * pow10 (lsd prec x).
Proof.
  intros H. unfold ctx_round.
  destruct (Qcompare_spec x 0) as [E | E | E];
    [contradiction | apply Qred_correct | apply Qred_correct].
Qed.

Lemma lsd_proper (x y : Q) : ~ x == 0 -> x == y -> lsd prec x = lsd prec y.
Proof.
  intros Hx Hxy. unfold lsd. f_equal.
  apply decade_proper.
  - destruct (Qlt_le_dec 0 x).
    + rewrite Qabs_pos by lra. lra.
    + rewrite Qabs_neg by lra. lra.
  - rewrite Hxy. reflexivity.
Qed.

Lemma ctx_round_proper (x y : Q) : x == y -> R x == R y.
Proof.
  intros Hxy.
  destruct (Qeq_dec x 0) as [Hx | Hx].
  - rewrite (ctx_round_zero x Hx).
    rewrite (ctx_round_zero y) by (rewrite <- Hxy; exact Hx). reflexivity.
  - rewrite (ctx_round_nonzero x Hx).
    rewrite (ctx_round_nonzero y) by (rewrite <- Hxy; exact Hx).
    rewrite <- (lsd_proper x y Hx Hxy).
    rewrite (rhe_proper (x / pow10 (lsd prec x)) (y / pow10 (lsd prec x))).
    + reflexivity.
    + apply Qdiv_comp; [exact Hxy | reflexivity].
Qed.

(** The scaled value of a positive number lies in [[10^(P-1), 10^P)]. *)
Lemma scaled_pos (x : Q) :
  0 < x ->
  lsd prec x = (decade x - (P - 1))%Z
  /\ inject_Z (10 ^ (P - 1)) <= x / pow10 (lsd prec x)
  /\ x / pow10 (lsd prec x) < inject_Z (10 ^ P).
Proof.
  intros Hx.
  assert (Hl : lsd prec x = (decade x - (P - 1))%Z).
  { unfold lsd. f_equal. apply decade_proper.
    - rewrite Qabs_pos by lra. exact Hx.
    - apply Qabs_pos. lra. }
  split; [exact Hl|]. rewrite Hl.
  destruct (decade_spec x Hx) as [Dlo Dhi].
  pose proof (pow10_pos (decade x - (P - 1))) as Hu.
  rewrite <- !pow10_Z by lia.
  split.
  - apply Qle_shift_div_l; [exact Hu|].
    rewrite <- pow10_add.
    replace (P - 1 + (decade x - (P - 1)))%Z with (decade x) by lia.
    exact Dlo.
  - apply Qlt_shift_div_r; [exact Hu|].
    rewrite <- pow10_add.
    replace (P + (decade x - (P - 1)))%Z with (decade x + 1)%Z by lia.
    exact Dhi.
Qed.

Lemma rhe_scaled_pos (x : Q) :
  0 < x ->
  (10 ^ (P - 1) <= round_half_even (x / pow10 (lsd prec x)) <= 10 ^ P)%Z.
Proof.
  intros Hx. destruct (scaled_pos x Hx) as (_ & Hlo & Hhi).
  split.
  - rewrite <- (rhe_Z (10 ^ (P - 1))). apply rhe_mono, Hlo.
  - rewrite <- (rhe_Z (10 ^ P)). apply rhe_mono. lra.
Qed.

Lemma ctx_round_pos_bounds (x : Q) :
  0 < x ->
  pow10 (decade x) <= R x /\ R x <= pow10 (decade x + 1).
Proof.
  intros Hx.
  rewrite (ctx_round_nonzero x) by lra.
  destruct (scaled_pos x Hx) as (Hl & _ & _).
  destruct (rhe_scaled_pos x Hx) as [Hlo Hhi].
  rewrite Zle_Qle in Hlo, Hhi.
  rewrite <- !pow10_Z in Hlo, Hhi by lia.
  pose proof (pow10_pos (lsd prec x)) as Hu.
  replace (decade x) with ((P - 1) + lsd prec x)%Z at 1 by lia.
  replace (decade x + 1)%Z with (P + lsd prec x)%Z by lia.
  rewrite !pow10_add.
  split; apply Qmult_le_compat_r; lra.
Qed.

Lemma ctx_round_pos (x : Q) : 0 < x -> 0 < R x.
Proof.
  intros Hx. destruct (ctx_round_pos_bounds x Hx) as [H _].
  pose proof (pow10_pos (decade x)). lra.
Qed.

Lemma ctx_round_mono_pos (x y : Q) : 0 < x -> x <= y -> R x <= R y.
Proof.
  intros Hx Hxy.
  assert (Hy : 0 < y) by lra.
  pose proof (decade_mono x y Hx Hxy) as He.
  destruct (Z.eq_dec (decade x) (decade y)) as [E | NE].
  - destruct (scaled_pos x Hx) as (Hlx & _ & _).
    destruct (scaled_pos y Hy) as (Hly & _ & _).
    assert (Hl : lsd prec x = lsd prec y) by lia.
    rewrite (ctx_round_nonzero x), (ctx_round_nonzero y) by lra.
    rewrite <- Hl.
    pose proof (pow10_pos (lsd prec x)) as Hu.
    apply Qmult_le_compat_r; [|lra].
    rewrite <- Zle_Qle. apply rhe_mono.
    apply Qmult_le_compat_r; [exact Hxy|].
    apply Qlt_le_weak, Qinv_lt_0_compat, Hu.
  - destruct (ctx_round_pos_bounds x Hx) as [_ Hhi].
    destruct (ctx_round_pos_bounds y Hy) as [Hlo _].
    pose proof (pow10_le (decade x + 1) (decade y) ltac:(lia)).
    lra.
Qed.

Lemma Qfloor_unique (y : Q) (z : Z) :
  inject_Z z <= y -> y < inject_Z z + 1 -> Qfloor y = z.
Proof.
  intros Hlo Hhi.
  pose proof (Qfloor_resp_le _ _ Hlo) as H1. rewrite Qfloor_Z in H1.
  pose proof (Qfloor_le y) as H2.
  assert (H3 : inject_Z (Qfloor y) < inject_Z (z + 1)).
  { rewrite inject_Z_plus. change (inject_Z 1) with 1. lra. }
  rewrite <- Zlt_Qlt in H3. lia.
Qed.

Lemma rhe_opp (x : Q) : round_half_even (- x) = (- round_half_even x)%Z.
Proof.
  destruct (rhe_cases x) as (Xlo & Xhi & HX).
  destruct (Qeq_dec x (inject_Z (Qfloor x))) as [Hint | Hfrac].
  - rewrite (rhe_proper x _ Hint), rhe_Z.
    rewrite (rhe_proper (- x) (inject_Z (- Qfloor x))).
    + apply rhe_Z.
    + rewrite inject_Z_opp, <- Hint. reflexivity.
  - assert (Hf : Qfloor (- x) = (- Qfloor x - 1)%Z).
    { apply Qfloor_unique.
      - unfold Z.sub. rewrite inject_Z_plus, !inject_Z_opp.
        change (inject_Z 1) with 1. lra.
      - unfold Z.sub. rewrite inject_Z_plus, !inject_Z_opp.
        change (inject_Z 1) with 1.
        assert (inject_Z (Qfloor x) < x).
        { apply Qle_lt_or_eq in Xlo. destruct Xlo as [L | L]; [exact L|].
          exfalso. apply Hfrac. symmetry. exact L. }
        lra. }
    assert (Hfi : inject_Z (Qfloor (- x)) == - inject_Z (Qfloor x) - 1).
    { rewrite Hf. unfold Z.sub. rewrite inject_Z_plus, !inject_Z_opp.
      change (inject_Z 1) with 1. ring. }
    destruct (rhe_cases (- x)) as (_ & _ & HN).
    rewrite Hfi, Hf in HN.
    destruct HX as [[H1 E1] | [[H1 E1] | [H1 E1]]];
      destruct HN as [[H2 E2] | [[H2 E2] | [H2 E2]]];
      rewrite E1, E2; try lia; try (exfalso; lra).
    replace (- Qfloor x - 1)%Z with (- (Qfloor x + 1))%Z by lia.
    rewrite Z.even_opp, Z.even_add. cbn.
    destruct (Z.even (Qfloor x)); cbn; lia.
Qed.

Lemma lsd_opp (x : Q) : lsd prec (- x) = lsd prec x.
Proof.
  unfold lsd. f_equal.
  destruct x as [a b]. unfold Qabs, Qopp. cbn. rewrite Z.abs_opp.
  reflexivity.
Qed.

Lemma ctx_round_opp (x : Q) : R (- x) == - R x.
Proof.
  destruct (Qeq_dec x 0) as [Hx | Hx].
  - rewrite (ctx_round_zero x Hx).
    rewrite (ctx_round_zero (- x)) by (rewrite Hx; reflexivity).
    reflexivity.
  - rewrite (ctx_round_nonzero x Hx).
    rewrite (ctx_round_nonzero (- x)) by (intro H; apply Hx; lra).
    rewrite lsd_opp.
    rewrite (rhe_proper (- x / pow10 (lsd prec x))
               (- (x / pow10 (lsd prec x)))).
    + rewrite rhe_opp, inject_Z_opp. ring.
    + unfold Qdiv. ring.
Qed.

Lemma ctx_round_nonneg (x : Q) : 0 <= x -> 0 <= R x.
Proof.
  intros Hx. destruct (Qeq_dec x 0) as [E | NE].
  - rewrite (ctx_round_zero x E). lra.
  - apply Qlt_le_weak, ctx_round_pos.
    apply Qle_lt_or_eq in Hx. destruct Hx as [L | L]; [exact L|].
    exfalso. apply NE. symmetry. exact L.
Qed.

(** The context rounding is monotone. *)
Lemma ctx_round_mono (x y : Q) : x <= y -> R x <= R y.
Proof.
  intros Hxy.
  destruct (Qlt_le_dec 0 x) as [Hx | Hx].
  - apply ctx_round_mono_pos; assumption.
  - destruct (Qlt_le_dec y 0) as [Hy | Hy].
    + assert (H : R (- y) <= R (- x)) by (apply ctx_round_mono_pos; lra).
      rewrite !ctx_round_opp in H. lra.
    + assert (H1 : 0 <= R (- x)) by (apply ctx_round_nonneg; lra).
      rewrite ctx_round_opp in H1.
      pose proof (ctx_round_nonneg y Hy). lra.
Qed.

Lemma ctx_round_upper (x : Q) :
  0 < x -> R x <= x + pow10 (lsd prec x) / 2.
Proof.
  intros Hx. rewrite (ctx_round_nonzero x) by lra.
  pose proof (pow10_pos (lsd prec x)) as Hu.
  destruct (rhe_bounds (x / pow10 (lsd prec x))) as [_ Hhi].
  apply (Qmult_le_compat_r _ _ (pow10 (lsd prec x))) in Hhi; [|lra].
  assert (E : (x / pow10 (lsd prec x) + (1 # 2)) * pow10 (lsd prec x)
              == x + pow10 (lsd prec x) / 2).
  { field. lra. }
  lra.
Qed.

Lemma ctx_round_lower (x : Q) :
  0 < x -> x - pow10 (lsd prec x) / 2 <= R x.
Proof.
  intros Hx. rewrite (ctx_round_nonzero x) by lra.
  pose proof (pow10_pos (lsd prec x)) as Hu.
  destruct (rhe_bounds (x / pow10 (lsd prec x))) as [Hlo _].
  apply (Qmult_le_compat_r _ _ (pow10 (lsd prec x))) in Hlo; [|lra].
  assert (E : (x / pow10 (lsd prec x) - (1 # 2)) * pow10 (lsd prec x)
              == x - pow10 (lsd prec x) / 2).
  { field. lra. }
  lra.
Qed.

(** A number whose scaled value is an integer is not changed. *)
Lemma ctx_round_exact (x : Q) (z : Z) :
  x == inject_Z z * pow10 (lsd prec x) -> R x == x.
Proof.
  intros Hz. destruct (Qeq_dec x 0) as [E | NE].
  - rewrite (ctx_round_zero x E). symmetry. exact E.
  - rewrite (ctx_round_nonzero x NE).
    pose proof (pow10_pos (lsd prec x)) as Hu.
    rewrite (rhe_proper (x / pow10 (lsd prec x)) (inject_Z z)).
    + rewrite rhe_Z. symmetry. exact Hz.
    + apply Qmult_inj_r with (z := pow10 (lsd prec x)); [lra|].
      rewrite <- Hz. field. lra.
Qed.

(** One-digit integers are representable at every precision. *)
Lemma ctx_round_digit (z : Z) :
  (0 < z < 10)%Z -> R (inject_Z z) == inject_Z z.
Proof.
  intros Hz.
  assert (Hpos : 0 < inject_Z z).
  { change 0 with (inject_Z 0). rewrite <- Zlt_Qlt. lia. }
  assert (Hd : decade (inject_Z z) = 0%Z).
  { apply decade_unique.
    - change (pow10 0) with (inject_Z 1). rewrite <- Zle_Qle. lia.
    - change (pow10 (0 + 1)) with (inject_Z 10). rewrite <- Zlt_Qlt. lia. }
  destruct (scaled_pos _ Hpos) as (Hl & _ & _).
  rewrite Hd in Hl.
  apply (ctx_round_exact _ (z * 10 ^ (P - 1))).
  rewrite Hl, inject_Z_mult, <- pow10_Z by lia.
  rewrite <- Qmult_assoc, <- pow10_add.
  replace (P - 1 + (0 - (P - 1)))%Z with 0%Z by lia.
  change (pow10 0) with 1. ring.
Qed.

Lemma decade_scale (x : Q) (n : Z) :
  0 < x -> decade (x * pow10 n) = (decade x + n)%Z.
Proof.
  intros Hx. destruct (decade_spec x Hx) as [Dlo Dhi].
  pose proof (pow10_pos n) as Hn.
  apply decade_unique.
  - rewrite pow10_add. apply Qmult_le_compat_r; lra.
  - replace (decade x + n + 1)%Z with (decade x + 1 + n)%Z by lia.
    rewrite pow10_add. apply Qmult_lt_compat_r; lra.
Qed.

(** Rounding commutes with multiplication by a power of ten. *)
Lemma ctx_round_scale (x : Q) (n : Z) :
  0 < x -> R (x * pow10 n) == R x * pow10 n.
Proof.
  intros Hx.
  pose proof (pow10_pos n) as Hn.
  assert (Hxn : 0 < x * pow10 n) by (apply Qmult_lt_0_compat; lra).
  destruct (scaled_pos x Hx) as (Hl & _ & _).
  destruct (scaled_pos _ Hxn) as (Hl' & _ & _).
  rewrite decade_scale in Hl' by exact Hx.
  assert (Hs : lsd prec (x * pow10 n) = (lsd prec x + n)%Z) by lia.
  rewrite (ctx_round_nonzero x), (ctx_round_nonzero (x * pow10 n)) by lra.
  rewrite Hs.
  pose proof (pow10_pos (lsd prec x)) as Hu.
  rewrite (rhe_proper (x * pow10 n / pow10 (lsd prec x + n))
             (x / pow10 (lsd prec x))).
  - rewrite pow10_add. ring.
  - rewrite pow10_add. field. split; lra.
Qed.

(** The rounded third of a rounded width is at most half the width. *)
Lemma third_of_rounded_le_third (x : Q) :
  0 < x -> 2 * R (R x / 3) <= x.
Proof.
  intros Hx.
  destruct (scaled_pos x Hx) as (Hl & _ & _).
  destruct (rhe_scaled_pos x Hx) as [Jlo Jhi].
  destruct (rhe_bounds (x / pow10 (lsd prec x))) as [_ Jx].
  pose proof (ctx_round_nonzero x ltac:(lra)) as HR.
  pose proof (pow10_pos (lsd prec x)) as Hu.
  destruct (decade_spec x Hx) as [Dlo _].
  remember (pow10 (lsd prec x)) as u eqn:Eu.
  remember (round_half_even (x / u)) as j eqn:Ej.
  assert (Hxj : (inject_Z j - (1 # 2)) * u <= x).
  { apply (Qmult_le_compat_r _ _ u) in Jx; [|lra].
    assert (E : (x / u + (1 # 2)) * u == x + u / 2) by (field; lra).
    rewrite E in Jx. clear E.
    assert (E : (inject_Z j - (1 # 2)) * u == inject_Z j * u - u / 2)
      by field.
    rewrite E. lra. }
  assert (Hj0 : (0 < j)%Z) by (pose proof (Z.pow_pos_nonneg 10 (P - 1)); lia).
  assert (HjQ : 0 < inject_Z j).
  { change 0 with (inject_Z 0). rewrite <- Zlt_Qlt. exact Hj0. }
  assert (Hd : 0 < R x) by (apply ctx_round_pos, Hx).
  assert (Hy : 0 < R x / 3) by (apply Qlt_shift_div_l; lra).
  destruct (Z_le_gt_dec 5 j) as [J5 | J4].
  - (* the generic case: half an ulp of slack is enough *)
    assert (J5Q : 5 <= inject_Z j).
    { change 5 with (inject_Z 5). rewrite <- Zle_Qle. exact J5. }
    pose proof (ctx_round_upper (R x / 3) Hy) as Hup.
    assert (Hulp : pow10 (lsd prec (R x / 3)) <= u).
    { destruct (scaled_pos _ Hy) as (Hl3 & _ & _).
      destruct (decade_spec _ Hy) as [D3 _].
      rewrite Eu. apply pow10_le.
      assert (Hlt : (decade (R x / 3) < decade x + 1)%Z).
      { apply pow10_lt_inv.
        destruct (ctx_round_pos_bounds x Hx) as [_ Hhi].
        pose proof (pow10_pos (decade x + 1)).
        assert (R x / 3 < pow10 (decade x + 1)).
        { apply Qlt_shift_div_r; lra. }
        lra. }
      lia. }
    assert (E3 : R x / 3 == inject_Z j * u / 3).
    { rewrite HR. reflexivity. }
    assert (Hm : 5 * u <= inject_Z j * u).
    { apply Qmult_le_compat_r; lra. }
    assert (Hexp : (inject_Z j - (1 # 2)) * u == inject_Z j * u - u / 2)
      by field.
    assert (Hdiv : inject_Z j * u / 3 == (1 # 3) * (inject_Z j * u))
      by field.
    clear Jx Ej. qlra.
  - (* fewer than five units: only possible with one digit *)
    assert (HP : prec = xH).
    { destruct prec as [p | p | ]; try reflexivity; exfalso.
      - assert (10 ^ 1 <= 10 ^ (Zpos p~1 - 1))%Z
          by (apply Z.pow_le_mono_r; lia).
        change (10 ^ 1)%Z with 10%Z in *. lia.
      - assert (10 ^ 1 <= 10 ^ (Zpos p~0 - 1))%Z
          by (apply Z.pow_le_mono_r; lia).
        change (10 ^ 1)%Z with 10%Z in *. lia. }
    assert (Hu1 : pow10 (decade x) == u).
    { rewrite Eu, Hl, HP. replace (decade x - (1 - 1))%Z
        with (decade x) by lia. reflexivity. }
    assert (Hxu : u <= x) by lra.
    assert (Escale : R x / 3 == (inject_Z j / 3) * pow10 (lsd prec x)).
    { rewrite HR, <- Eu. field. }
    assert (Hj3 : 0 < inject_Z j / 3) by (apply Qlt_shift_div_l; lra).
    rewrite (ctx_round_proper _ _ Escale).
    rewrite (ctx_round_scale _ _ Hj3). rewrite <- Eu.
    assert (Hcases : j = 1%Z \/ j = 2%Z \/ j = 3%Z \/ j = 4%Z) by lia.
    assert (Hexp : (inject_Z j - (1 # 2)) * u == inject_Z j * u - u / 2)
      by field.
    subst prec.
    destruct Hcases as [E | [E | [E | E]]]; rewrite E in *.
    + assert (C : ctx_round 1 (inject_Z 1 / 3) == 3 # 10) by reflexivity.
      rewrite C. lra.
    + assert (C : ctx_round 1 (inject_Z 2 / 3) == 7 # 10) by reflexivity.
      rewrite C. change (inject_Z 2) with 2 in *. lra.
    + assert (C : ctx_round 1 (inject_Z 3 / 3) == 1) by reflexivity.
      rewrite C. change (inject_Z 3) with 3 in *. lra.
    + assert (C : ctx_round 1 (inject_Z 4 / 3) == 1) by reflexivity.
      rewrite C. change (inject_Z 4) with 4 in *. lra.
Qed.

Lemma allocation_gap (x k : Q) :
  0 < x -> 3 <= k -> 2 * R (R x / k) <= x.
Proof.
  intros Hx Hk.
  pose proof (third_of_rounded_le_third x Hx) as H3.
  assert (Hd : 0 < R x) by (apply ctx_round_pos, Hx).
  assert (Hle : R x / k <= R x / 3).
  { apply Qdiv_le_cross; [lra | lra | nra]. }
  pose proof (ctx_round_mono _ _ Hle). lra.
Qed.

End Rounding.

End DecFacts.

(** * Facts about querysets *)

Module QueryFacts.

Lemma In_insert_row (x r : Row) (l : list Row) :
  In x (insert_row r l) <-> x = r \/ In x l.
Proof.
  induction l as [|y l IH]; cbn.
  - intuition.
  - destruct (row_leb r y); cbn; rewrite ?IH; intuition.
Qed.

Lemma In_order_rows (x : Row) (l : list Row) :
  In x (order_rows l) <-> In x l.
Proof.
  induction l as [|y l IH]; cbn; [reflexivity|].
  rewrite In_insert_row, IH. intuition.
Qed.

Lemma length_insert_row (r : Row) (l : list Row) :
  List.length (insert_row r l) = S (List.length l).
Proof.
  induction l as [|y l IH]; cbn; [reflexivity|].
  destruct (row_leb r y); cbn; [reflexivity | now rewrite IH].
Qed.

(** A change of the rows that keeps [tree_id] and [left] commutes with
    the ordering. *)
Lemma insert_row_map (h : Row -> Row) (r : Row) (l : list Row) :
  (forall a b, row_leb (h a) (h b) = row_leb a b) ->
  insert_row (h r) (map h l) = map h (insert_row r l).
Proof.
  intros Hh. induction l as [|y l IH]; cbn; [reflexivity|].
  rewrite Hh. destruct (row_leb r y); cbn; [reflexivity | now rewrite IH].
Qed.

Lemma order_rows_map (h : Row -> Row) (l : list Row) :
  (forall a b, row_leb (h a) (h b) = row_leb a b) ->
  order_rows (map h l) = map h (order_rows l).
Proof.
  intros Hh. induction l as [|y l IH]; cbn; [reflexivity|].
  rewrite IH. apply insert_row_map, Hh.
Qed.

Lemma filter_map_commute {A : Type} (p : A -> bool) (h : A -> A)
    (l : list A) :
  (forall a, p (h a) = p a) ->
  filter p (map h l) = map h (filter p l).
Proof.
  intros Hp. induction l as [|y l IH]; cbn; [reflexivity|].
  rewrite Hp. destruct (p y); cbn; now rewrite IH.
Qed.

Lemma from_db_inj (a b : Row) : from_db a = from_db b -> a = b.
Proof.
  destruct a, b. unfold from_db. cbn.
  intros H. injection H as -> -> -> -> ->. reflexivity.
Qed.

Lemma dlt_iff (x y : Q) : Dec.dlt x y = true <-> x < y.
Proof.
  unfold Dec.dlt. rewrite negb_true_iff. split.
  - intros H. apply Qnot_le_lt. intro L. apply Qle_bool_iff in L. congruence.
  - intros H. destruct (Qle_bool y x) eqn:E; [|reflexivity].
    apply Qle_bool_iff in E. lra.
Qed.

Lemma descendant_filter_iff (n : Node) (r : Row) :
  descendant_filter n r = true
  <-> left n < row_left r /\ row_left r < right n
      /\ tree_id n = Some (row_tree_id r) /\ pk n <> Some (row_pk r).
Proof.
  unfold descendant_filter, matches_tree, matches_pk.
  rewrite !andb_true_iff, negb_true_iff, !dlt_iff.
  destruct (tree_id n) as [t|], (pk n) as [k|];
    rewrite ?Z.eqb_eq, ?Z.eqb_neq; split;
    intros H; decompose [and] H; repeat split; auto; try congruence.
Qed.

Lemma get_descendants_unsaved (db : Store) (n : Node) (b : bool) :
  pk_truthy n = false ->
  get_descendants db n b
  = Raise (ValueError "Cannot call get_descendants on unsaved instances").
Proof. intros H. unfold get_descendants, raise_if_unsaved. now rewrite H. Qed.

Lemma get_descendants_saved (db : Store) (n : Node) (b : bool) :
  pk_truthy n = true ->
  get_descendants db n b
  = Ok (map from_db
          (filter (if b then descendant_or_self_filter n
                   else descendant_filter n) (order_rows db))).
Proof. intros H. unfold get_descendants, raise_if_unsaved. now rewrite H. Qed.

Lemma get_children_saved (db : Store) (n : Node) :
  pk_truthy n = true ->
  get_children db n
  = Ok (filter (fun m => (level m =? level n + 1)%Z)
          (map from_db (filter (descendant_filter n) (order_rows db)))).
Proof.
  intros H. unfold get_children, raise_if_unsaved. rewrite H.
  rewrite get_descendants_saved by exact H. reflexivity.
Qed.

Lemma In_get_children (db : Store) (n m : Node) (cs : list Node) :
  get_children db n = Ok cs -> In m cs ->
  exists r, In r db /\ m = from_db r /\ row_level r = (level n + 1)%Z
            /\ descendant_filter n r = true.
Proof.
  intros Hc Hin.
  destruct (pk_truthy n) eqn:Hpk.
  - rewrite get_children_saved in Hc by exact Hpk. injection Hc as <-.
    apply filter_In in Hin. destruct Hin as [Hin Hl].
    apply in_map_iff in Hin. destruct Hin as (r & <- & Hr).
    apply filter_In in Hr. destruct Hr as [Hr Hf].
    apply (proj1 (In_order_rows _ _)) in Hr.
    cbn in Hl. apply Z.eqb_eq in Hl.
    exists r. auto.
  - unfold get_children, raise_if_unsaved in Hc. rewrite Hpk in Hc.
    discriminate.
Qed.

End QueryFacts.

(** * The rebalancing recursion returns *)

Module RebalanceFacts.
Import QueryFacts.

Lemma same_shape_refl (db : Store) : same_shape db db.
Proof. reflexivity. Qed.

Lemma same_shape_trans (a b c : Store) :
  same_shape a b -> same_shape b c -> same_shape a c.
Proof. unfold same_shape. congruence. Qed.

Lemma update_bounds_shape (places : positive) (db : Store) (n : Node)
    (l r : Q) :
  same_shape db (update_bounds places db n l r).
Proof.
  unfold same_shape, update_bounds. rewrite map_map.
  apply map_ext. intros row. destruct (matches_pk n row); reflexivity.
Qed.

Lemma max_level_shape (db db' : Store) :
  same_shape db db' -> max_level db = max_level db'.
Proof.
  unfold same_shape. revert db'.
  induction db as [|r db IH]; intros [|r' db'] H; cbn in H;
    try discriminate; [reflexivity|].
  inversion H as [[Hpk Hl Ht Hrest]].
  change (Z.max (row_level r) (max_level db)
          = Z.max (row_level r') (max_level db')).
  rewrite Hl, (IH _ Hrest). reflexivity.
Qed.

Lemma max_level_ge (db : Store) (r : Row) :
  In r db -> (row_level r <= max_level db)%Z.
Proof.
  induction db as [|x db IH]; [contradiction|].
  change (max_level (x :: db)) with (Z.max (row_level x) (max_level db)).
  intros [-> | H]; [lia|]. specialize (IH H). lia.
Qed.

Section Helper.
Variable prec : positive.

Lemma rebalance_children_shape
    (helper : Store -> Node -> Q -> option (result (Q * Store))) :
  (forall db c r x db',
      helper db c r = Some (Ok (x, db')) -> same_shape db db') ->
  forall cs db r x db',
    rebalance_children helper cs db r = Some (Ok (x, db')) ->
    same_shape db db'.
Proof.
  intros Hh cs. induction cs as [|c cs IH]; intros db r x db' H; cbn in H.
  - injection H as _ <-. apply same_shape_refl.
  - destruct (helper db c r) as [[[r1 db1] | e] |] eqn:E; try discriminate.
    eapply same_shape_trans; [eapply Hh, E | eapply IH, H].
Qed.

Lemma rebalance_helper_shape (fuel : nat) :
  forall db node l inc x db',
    _rebalance_helper prec fuel db node l inc = Some (Ok (x, db')) ->
    same_shape db db'.
Proof.
  induction fuel as [|fuel IH]; intros db node l inc x db' H; cbn in H;
    [discriminate|].
  destruct (get_children db node) as [cs | e]; [|discriminate].
  destruct (rebalance_children _ cs db _) as [[[r1 db1] | e] |] eqn:E;
    try discriminate.
  injection H as _ <-.
  eapply same_shape_trans; [|apply update_bounds_shape].
  eapply rebalance_children_shape; [|exact E].
  intros db0 c r0 x0 db0' H0. eapply IH, H0.
Qed.

Lemma rebalance_children_total
    (helper : Store -> Node -> Q -> option (result (Q * Store)))
    (M L : Z) :
  (forall db c r x db',
      helper db c r = Some (Ok (x, db')) -> same_shape db db') ->
  (forall db c r, max_level db = M -> level c = L ->
                  helper db c r <> None) ->
  forall cs db r,
    max_level db = M ->
    (forall c, In c cs -> level c = L) ->
    rebalance_children helper cs db r <> None.
Proof.
  intros Hs Ht cs. induction cs as [|c cs IH]; intros db r Hm Hc; cbn.
  - discriminate.
  - destruct (helper db c r) as [[[r1 db1] | e] |] eqn:E.
    + apply IH.
      * rewrite <- (max_level_shape _ _ (Hs _ _ _ _ _ E)). exact Hm.
      * intros c' Hc'. apply Hc. now right.
    + discriminate.
    + exfalso. apply (Ht db c r Hm); [apply Hc; now left | exact E].
Qed.

(** With more fuel than levels below the node the recursion returns. *)
Lemma rebalance_helper_total (fuel : nat) :
  forall db node l inc,
    (0 < fuel)%nat ->
    (max_level db - level node < Z.of_nat fuel)%Z ->
    _rebalance_helper prec fuel db node l inc <> None.
Proof.
  induction fuel as [|fuel IH]; intros db node l inc Hpos Hf; [lia|].
  cbn [_rebalance_helper].
  destruct (get_children db node) as [cs | e] eqn:Hc; [|discriminate].
  destruct (rebalance_children _ cs db _) as [[[r1 db1] | e] |] eqn:E;
    try discriminate.
  exfalso. revert E.
  destruct cs as [|c0 cs]; [discriminate|].
  destruct (In_get_children _ _ _ _ Hc (or_introl eq_refl))
    as (r0 & Hin0 & _ & Hl0 & _).
  pose proof (max_level_ge _ _ Hin0) as Hmax.
  apply (rebalance_children_total _ (max_level db) (level node + 1)).
  - intros db0 c r x0 db0' H0. eapply rebalance_helper_shape, H0.
  - intros db0 c r Hm Hl. apply IH; lia.
  - reflexivity.
  - intros c Hin.
    destruct (In_get_children _ _ _ _ Hc Hin) as (r & _ & -> & Hl & _).
    exact Hl.
Qed.

End Helper.
End RebalanceFacts.

(** * Bound arithmetic: [_calculate_sub_interval] *)

Module BoundArithmetic.
Import Dec DecFacts.

(** Integers of at most [prec] digits are represented exactly. *)
Lemma ctx_round_int (prec : positive) (z : Z) :
  (0 < z < 10 ^ Zpos prec)%Z -> ctx_round prec (inject_Z z) == inject_Z z.
Proof.
  intros [Hz Hlt].
  assert (Hpos : 0 < inject_Z z).
  { change 0 with (inject_Z 0). rewrite <- Zlt_Qlt. exact Hz. }
  destruct (ndigits_spec z Hz) as [Dlo Dhi].
  pose proof (ndigits_pos z) as Dpos.
  assert (Hd : decade (inject_Z z) = (ndigits z - 1)%Z).
  { apply decade_unique.
    - rewrite pow10_Z by lia. rewrite <- Zle_Qle. exact Dlo.
    - replace (ndigits z - 1 + 1)%Z with (ndigits z) by lia.
      rewrite pow10_Z by lia. rewrite <- Zlt_Qlt. exact Dhi. }
  assert (Hdig : (ndigits z <= Zpos prec)%Z).
  { destruct (Z_le_gt_dec (ndigits z) (Zpos prec)) as [L | G]; [exact L|].
    exfalso.
    assert (10 ^ Zpos prec <= 10 ^ (ndigits z - 1))%Z
      by (apply Z.pow_le_mono_r; lia).
    lia. }
  destruct (scaled_pos prec _ Hpos) as (Hl & _ & _).
  rewrite Hd in Hl.
  apply (ctx_round_exact prec _ (z * 10 ^ (Zpos prec - ndigits z))).
  rewrite Hl, inject_Z_mult, <- pow10_Z by lia.
  rewrite <- Qmult_assoc, <- pow10_add.
  replace (Zpos prec - ndigits z + (ndigits z - 1 - (Zpos prec - 1)))%Z
    with 0%Z by lia.
  change (pow10 0) with 1. ring.
Qed.

(** The divisor [Decimal("2") * count + Decimal("1")] is at least 3 for a
    positive count, whatever the precision. *)
Lemma divisor_ge_3 (prec : positive) (count : Z) :
  (1 <= count)%Z ->
  3 <= dadd prec (dmul prec 2 (inject_Z count)) 1.
Proof.
  intros Hc. unfold dadd, dmul.
  assert (Hc' : 1 <= inject_Z count).
  { change 1 with (inject_Z 1). rewrite <- Zle_Qle. exact Hc. }
  assert (H2 : 2 <= ctx_round prec (2 * inject_Z count)).
  { pose proof (ctx_round_digit prec 2 ltac:(lia)) as E.
    pose proof (ctx_round_mono prec (inject_Z 2) (2 * inject_Z count)) as M.
    change (inject_Z 2) with 2 in *. lra. }
  pose proof (ctx_round_digit prec 3 ltac:(lia)) as E.
  pose proof (ctx_round_mono prec (inject_Z 3)
                (ctx_round prec (2 * inject_Z count) + 1)) as M.
  change (inject_Z 3) with 3 in *. lra.
Qed.

(** When [2 * count + 1] has at most [prec] digits the divisor is exact. *)
Lemma divisor_exact (prec : positive) (count : Z) :
  (1 <= count)%Z -> (2 * count + 1 < 10 ^ Zpos prec)%Z ->
  dadd prec (dmul prec 2 (inject_Z count)) 1 == inject_Z (2 * count + 1).
Proof.
  intros Hc Hlt. unfold dadd, dmul.
  assert (E1 : ctx_round prec (2 * inject_Z count) == inject_Z (2 * count)).
  { rewrite <- (ctx_round_int prec (2 * count)) by lia.
    apply ctx_round_proper. rewrite inject_Z_mult. reflexivity. }
  rewrite <- (ctx_round_int prec (2 * count + 1)) by lia.
  apply ctx_round_proper.
  rewrite E1, inject_Z_plus. reflexivity.
Qed.

Lemma calculate_sub_interval_cases (prec : positive) (ol or : Q) (count : Z) :
  let increment :=
    ddiv prec (dsub prec or ol) (dadd prec (dmul prec 2 (inject_Z count)) 1) in
  (dadd prec ol increment == dsub prec or increment
   /\ _calculate_sub_interval prec ol or count
      = Raise (IntervalTooSmall "The interval has gotten too small! Oh noes!"))
  \/ (~ dadd prec ol increment == dsub prec or increment
      /\ _calculate_sub_interval prec ol or count
         = Ok {| i_left := dadd prec ol increment;
                 i_right := dsub prec or increment;
                 i_increment := increment |}).
Proof.
  intros increment. unfold _calculate_sub_interval. fold increment.
  cbn [i_left i_right]. unfold deq.
  destruct (Qeq_bool (dadd prec ol increment) (dsub prec or increment)) eqn:E.
  - left. split; [apply Qeq_bool_iff, E | reflexivity].
  - right. split; [|reflexivity].
    intro H. apply Qeq_bool_iff in H. congruence.
Qed.

(** The computed bounds are ordered when the outer range is. *)
Lemma sub_interval_ordered (prec : positive) (ol or : Q) (count : Z) :
  ol < or -> (1 <= count)%Z ->
  let increment :=
    ddiv prec (dsub prec or ol) (dadd prec (dmul prec 2 (inject_Z count)) 1) in
  dadd prec ol increment <= dsub prec or increment.
Proof.
  intros Hlt Hc increment.
  pose proof (divisor_ge_3 prec count Hc) as Hk.
  assert (Hx : 0 < or - ol) by lra.
  pose proof (allocation_gap prec (or - ol) _ Hx Hk) as Hgap.
  unfold dadd at 1. unfold dsub at 1.
  apply ctx_round_mono.
  unfold increment, ddiv, dsub at 1 2.
  lra.
Qed.

(** C2. For an outer range with [outer_left < outer_right] and a count of
    at least 1, the allocation computes, in the decimal arithmetic of the
    context, [increment = (outer_right - outer_left) / (2*count + 1)];
    it either raises [IntervalTooSmall] or returns
    [left = outer_left + increment] and [right = outer_right - increment].
    When [2*count + 1] has no more digits than the precision the divisor
    is that integer exactly. *)
Theorem calculate_sub_interval_formula
    (prec : positive) (ol or : Q) (count : Z) :
  ol < or -> (1 <= count)%Z ->
  let increment :=
    ddiv prec (dsub prec or ol) (dadd prec (dmul prec 2 (inject_Z count)) 1) in
  ((exists msg, _calculate_sub_interval prec ol or count
                = Raise (IntervalTooSmall msg))
   \/ (exists r, _calculate_sub_interval prec ol or count = Ok r))
  /\ (forall r, _calculate_sub_interval prec ol or count = Ok r ->
        i_increment r = increment
        /\ i_left r = dadd prec ol increment
        /\ i_right r = dsub prec or increment)
  /\ ((2 * count + 1 < 10 ^ Zpos prec)%Z ->
        increment
        == ctx_round prec (ctx_round prec (or - ol) / inject_Z (2 * count + 1))).
Proof.
  intros Hlt Hc increment.
  destruct (calculate_sub_interval_cases prec ol or count) as [[_ E] | [_ E]];
    fold increment in E.
  - split; [left; eauto|]. split.
    + intros r Hr. rewrite E in Hr. discriminate.
    + intros Hd. unfold increment, ddiv, dsub. apply ctx_round_proper.
      rewrite (divisor_exact prec count Hc Hd). reflexivity.
  - split; [right; eauto|]. split.
    + intros r Hr. rewrite E in Hr. injection Hr as <-. auto.
    + intros Hd. unfold increment, ddiv, dsub. apply ctx_round_proper.
      rewrite (divisor_exact prec count Hc Hd). reflexivity.
Qed.

Lemma calculate_sub_interval_formula_witness :
  0 < 1 /\ (1 <= 1)%Z
  /\ exists r,
       _calculate_sub_interval 6 0 1 1 = Ok r
       /\ i_increment r = ddiv 6 (dsub 6 1 0) (dadd 6 (dmul 6 2 1) 1)
       /\ i_left r = dadd 6 0 (i_increment r)
       /\ i_right r = dsub 6 1 (i_increment r)
       /\ i_increment r == 333333 # 1000000
       /\ i_left r == 333333 # 1000000
       /\ i_right r == 666667 # 1000000.
Proof.
  split; [reflexivity|]. split; [lia|].
  destruct (calculate_sub_interval_formula 6 0 1 1 eq_refl ltac:(lia))
    as (_ & H & _).
  assert (E : exists r, _calculate_sub_interval 6 0 1 1 = Ok r
                        /\ i_increment r == 333333 # 1000000
                        /\ i_left r == 333333 # 1000000
                        /\ i_right r == 666667 # 1000000).
  { eexists. split; [vm_compute; reflexivity|]. repeat split; reflexivity. }
  destruct E as (r & Hr & E1 & E2 & E3).
  destruct (H r Hr) as (H1 & H2 & H3).
  exists r. rewrite H1 at 2 3. auto 10.
Defined.

(** C3. For every input, the allocation raises
    [IntervalTooSmall] exactly when the computed left equals the computed
    right at the context precision; and for an outer range with
    [outer_left < outer_right] and a count of at least 1, a successful
    allocation returns [left < right]. *)
Theorem calculate_sub_interval_too_small
    (prec : positive) (ol or : Q) (count : Z) :
  let increment :=
    ddiv prec (dsub prec or ol) (dadd prec (dmul prec 2 (inject_Z count)) 1) in
  ((exists msg, _calculate_sub_interval prec ol or count
                = Raise (IntervalTooSmall msg))
   <-> dadd prec ol increment == dsub prec or increment)
  /\ (forall e, _calculate_sub_interval prec ol or count = Raise e ->
        exists msg, e = IntervalTooSmall msg)
  /\ (ol < or -> (1 <= count)%Z ->
      forall r, _calculate_sub_interval prec ol or count = Ok r ->
        i_left r < i_right r).
Proof.
  intros increment.
  destruct (calculate_sub_interval_cases prec ol or count) as [[C E] | [C E]];
    fold increment in C, E; rewrite E.
  - split; [split; eauto|]. split.
    + intros e He. injection He as <-. eauto.
    + intros _ _ r Hr. discriminate.
  - split; [split|].
    + intros [msg H]. discriminate.
    + intros H. contradiction.
    + split; [intros e He; discriminate|].
      intros Hlt Hc r Hr. injection Hr as <-. cbn [i_left i_right].
      pose proof (sub_interval_ordered prec ol or count Hlt Hc) as Hle.
      fold increment in Hle.
      apply Qle_lt_or_eq in Hle. destruct Hle as [L | L]; [exact L|].
      contradiction.
Qed.

Lemma calculate_sub_interval_too_small_witness :
  0 < 1 /\ (1 <= 2)%Z
  /\ exists r, _calculate_sub_interval 6 0 1 2 = Ok r /\ i_left r < i_right r.
Proof.
  split; [reflexivity|]. split; [lia|].
  destruct (calculate_sub_interval_too_small 6 0 1 2) as (_ & _ & H).
  eexists. split; [vm_compute; reflexivity|].
  apply H; [reflexivity | lia | vm_compute; reflexivity].
Defined.

(** The ordering needs both conditions: with [count = 0] the allocation
    inside [[0, 1]] succeeds and returns [left = 1 > right = 0], and the
    allocation in the reversed range from 1 to 0 with [count = 1]
    succeeds with [left > right] as well. *)
Lemma calculate_sub_interval_unordered :
  (exists r, _calculate_sub_interval 30 0 1 0 = Ok r
             /\ i_left r == 1 /\ i_right r == 0
             /\ i_right r < i_left r)
  /\ (exists r, _calculate_sub_interval 30 1 0 1 = Ok r
                /\ i_right r < i_left r).
Proof.
  split; eexists; (split; [vm_compute; reflexivity|]);
    repeat split; reflexivity.
Qed.

End BoundArithmetic.

(** * Rebalancing: the increment and the retry *)

Module Rebalancer.
Import Dec DecFacts QueryFacts RebalanceFacts BoundArithmetic.

Lemma max_level_nonneg (db : Store) : (0 <= max_level db)%Z.
Proof.
  induction db as [|r db IH]; [reflexivity|].
  change (max_level (r :: db)) with (Z.max (row_level r) (max_level db)).
  lia.
Qed.

Lemma get_descendants_error (db : Store) (n : Node) (b : bool) (e : error) :
  get_descendants db n b = Raise e -> exists msg, e = ValueError msg.
Proof.
  unfold get_descendants, raise_if_unsaved.
  destruct (pk_truthy n); intros H; inversion H. eauto.
Qed.

Lemma get_children_error (db : Store) (n : Node) (e : error) :
  get_children db n = Raise e -> exists msg, e = ValueError msg.
Proof.
  unfold get_children, raise_if_unsaved.
  destruct (pk_truthy n) eqn:Hpk; [|intros H; inversion H; eauto].
  rewrite get_descendants_saved by exact Hpk. cbn. discriminate.
Qed.

Lemma root_node_error (db : Store) (tid : option Z) (e : error) :
  root_node db tid = Raise e ->
  e = DoesNotExist \/ e = MultipleObjectsReturned.
Proof.
  unfold root_node.
  destruct (filter _ (order_rows db)) as [|r [|r' l]];
    intros H; inversion H; auto.
Qed.

Lemma rebalance_children_error
    (helper : Store -> Node -> Q -> option (result (Q * Store))) :
  (forall db c r e, helper db c r = Some (Raise e) ->
                    exists msg, e = ValueError msg) ->
  forall cs db r e,
    rebalance_children helper cs db r = Some (Raise e) ->
    exists msg, e = ValueError msg.
Proof.
  intros Hh cs. induction cs as [|c cs IH]; intros db r e H; cbn in H.
  - discriminate.
  - destruct (helper db c r) as [[[r1 db1] | e1] |] eqn:E.
    + eapply IH, H.
    + injection H as <-. eapply Hh, E.
    + discriminate.
Qed.

(** The only exception of the recursion is the [ValueError] of
    [raise_if_unsaved]. *)
Lemma rebalance_helper_error (prec : positive) (fuel : nat) :
  forall db node l inc e,
    _rebalance_helper prec fuel db node l inc = Some (Raise e) ->
    exists msg, e = ValueError msg.
Proof.
  induction fuel as [|fuel IH]; intros db node l inc e H; cbn in H;
    [discriminate|].
  destruct (get_children db node) as [cs | e1] eqn:Hc.
  - destruct (rebalance_children _ cs db _) as [[[r1 db1] | e2] |] eqn:E;
      try discriminate.
    injection H as <-.
    eapply rebalance_children_error; [|exact E].
    intros db0 c r0 e0 H0. eapply IH, H0.
  - injection H as <-. eapply get_children_error, Hc.
Qed.

Lemma root_node_from_db (db : Store) (tid : option Z) (root : Node) :
  root_node db tid = Ok root ->
  exists r, In r db /\ root = from_db r /\ row_level r = 0%Z.
Proof.
  unfold root_node. intros H.
  destruct (filter _ (order_rows db)) as [|r [|r' l]] eqn:E;
    try discriminate.
  injection H as <-.
  assert (Hin : In r (filter
             (fun r => match tid with
                       | Some t => (row_tree_id r =? t)%Z
                       | None => false
                       end && (row_level r =? 0)%Z) (order_rows db))).
  { rewrite E. now left. }
  apply filter_In in Hin. destruct Hin as [Hin Hp].
  apply andb_true_iff in Hp. destruct Hp as [_ Hl].
  apply Z.eqb_eq in Hl. apply (proj1 (In_order_rows _ _)) in Hin.
  exists r. auto.
Qed.

(** The root is one of the nodes [rebalance_tree] counts. *)
Lemma root_is_counted (db : Store) (tid : option Z) (root : Node)
    (nodes : list Node) :
  root_node db tid = Ok root ->
  get_descendants db root true = Ok nodes ->
  (1 <= Z.of_nat (List.length nodes))%Z.
Proof.
  intros Hroot Hd.
  destruct (root_node_from_db _ _ _ Hroot) as (r & Hin & -> & _).
  assert (Hpk : pk_truthy (from_db r) = true).
  { destruct (pk_truthy (from_db r)) eqn:P; [reflexivity|].
    rewrite get_descendants_unsaved in Hd by exact P. discriminate. }
  rewrite get_descendants_saved in Hd by exact Hpk.
  injection Hd as <-.
  assert (Hn : In (from_db r)
                 (map from_db (filter (descendant_or_self_filter (from_db r))
                                 (order_rows db)))).
  { apply in_map, filter_In. split; [apply In_order_rows, Hin|].
    unfold descendant_or_self_filter, matches_pk. cbn [from_db pk].
    rewrite Z.eqb_refl. apply orb_true_r. }
  destruct (map from_db _); [contradiction | cbn [List.length]; lia].
Qed.

(** The interval of a whole tree: [0], [1] and [1 / (2*count - 1)]. *)
Lemma root_interval (prec : positive) (db : Store) (count : Z) :
  get_interval_for_insertion_relative_to prec db None "last-child" count
  = Ok {| i_left := 0; i_right := 1;
          i_increment :=
            ddiv prec 1 (dsub prec (dmul prec 2 (inject_Z count)) 1) |}.
Proof. reflexivity. Qed.

Lemma rebalance_tree_unfold (prec : positive) (db : Store) (tid : option Z) :
  rebalance_tree prec db tid
  = match root_node db tid with
    | Raise e => Raise e
    | Ok root =>
        match get_descendants db root true with
        | Raise e => Raise e
        | Ok nodes =>
            match _rebalance_helper prec (S (Z.to_nat (max_level db))) db root 0
                    (ddiv prec 1
                       (dsub prec
                          (dmul prec 2
                             (inject_Z (Z.of_nat (List.length nodes)))) 1))
            with
            | Some (Ok (_, db')) => Ok db'
            | Some (Raise e) => Raise e
            | None => Raise RecursionError
            end
        end
    end.
Proof.
  unfold rebalance_tree, rebalance_interval, bind.
  destruct (root_node db tid) as [root | e]; [|reflexivity].
  destruct (get_descendants db root true) as [nodes | e]; [|reflexivity].
  rewrite root_interval. cbn [fst snd i_left i_increment].
  destruct (_rebalance_helper prec _ db root _ _) as [[[x db'] | e] |];
    reflexivity.
Qed.

(** The recursion of [rebalance_tree] never runs out of fuel. *)
Lemma rebalance_tree_returns (prec : positive) (db : Store) (tid : option Z) :
  rebalance_tree prec db tid <> Raise RecursionError.
Proof.
  rewrite rebalance_tree_unfold.
  destruct (root_node db tid) as [root | e] eqn:Hroot.
  2: { destruct (root_node_error _ _ _ Hroot) as [-> | ->]; discriminate. }
  destruct (get_descendants db root true) as [nodes | e] eqn:Hd.
  2: { destruct (get_descendants_error _ _ _ _ Hd) as [msg ->]. discriminate. }
  assert (Hl : level root = 0%Z).
  { destruct (root_node_from_db _ _ _ Hroot) as (r0 & _ & -> & Hl0).
    exact Hl0. }
  pose proof (max_level_nonneg db) as Hm.
  pose proof (rebalance_helper_total prec (S (Z.to_nat (max_level db))) db root
                0 (ddiv prec 1 (dsub prec (dmul prec 2
                     (inject_Z (Z.of_nat (List.length nodes)))) 1))
                ltac:(lia) ltac:(lia)) as Ht.
  destruct (_rebalance_helper prec _ db root _ _) as [[[x db'] | e] |] eqn:E.
  - discriminate.
  - destruct (rebalance_helper_error _ _ _ _ _ _ _ E) as [msg ->].
    discriminate.
  - contradiction.
Qed.

(** The divisor [Decimal("2") * count - Decimal("1")] of the whole-tree
    interval is exact when [2 * count] has no more digits than the
    precision. *)
Lemma root_divisor_exact (prec : positive) (count : Z) :
  (1 <= count)%Z -> (2 * count < 10 ^ Zpos prec)%Z ->
  dsub prec (dmul prec 2 (inject_Z count)) 1 == inject_Z (2 * count - 1).
Proof.
  intros Hc Hlt. unfold dsub, dmul.
  assert (E1 : ctx_round prec (2 * inject_Z count) == inject_Z (2 * count)).
  { rewrite <- (ctx_round_int prec (2 * count)) by lia.
    apply ctx_round_proper. rewrite inject_Z_mult. reflexivity. }
  rewrite <- (ctx_round_int prec (2 * count - 1)) by lia.
  apply ctx_round_proper.
  rewrite E1. unfold Z.sub. rewrite inject_Z_plus, inject_Z_opp. reflexivity.
Qed.

(** C1. [rebalance_tree] lays the tree out from [left = 0] with
    the increment [1 / (2 * node_count - 1)] computed in the decimal
    arithmetic of the context, where [node_count] is the number of nodes
    [root.get_descendants(include_self=True)] returns; the divisor is the
    integer [2 * node_count - 1] whenever it fits the precision. *)
Theorem rebalance_tree_increment
    (prec : positive) (db db' : Store) (tid : option Z) :
  rebalance_tree prec db tid = Ok db' ->
  exists root nodes cursor,
    root_node db tid = Ok root
    /\ get_descendants db root true = Ok nodes
    /\ let node_count := Z.of_nat (List.length nodes) in
       let increment :=
         ddiv prec 1 (dsub prec (dmul prec 2 (inject_Z node_count)) 1) in
       rebalance_interval prec db tid
       = Ok (root, {| i_left := 0; i_right := 1; i_increment := increment |})
       /\ _rebalance_helper prec (S (Z.to_nat (max_level db))) db root 0 increment
          = Some (Ok (cursor, db'))
       /\ ((2 * node_count < 10 ^ Zpos prec)%Z ->
           increment == ctx_round prec (1 / inject_Z (2 * node_count - 1))).
Proof.
  intros H. rewrite rebalance_tree_unfold in H.
  destruct (root_node db tid) as [root | e] eqn:Hroot; [|discriminate].
  destruct (get_descendants db root true) as [nodes | e] eqn:Hd;
    [|discriminate].
  destruct (_rebalance_helper prec _ db root _ _) as [[[x db1] | e] |] eqn:E;
    try discriminate.
  injection H as <-.
  exists root, nodes, x.
  split; [first [reflexivity | exact Hroot]|].
  split; [first [reflexivity | exact Hd]|].
  cbn zeta. split; [|split].
  - unfold rebalance_interval, bind. rewrite Hroot, Hd, root_interval.
    reflexivity.
  - exact E.
  - intros Hfit.
    pose proof (root_is_counted _ _ _ _ Hroot Hd) as Hn.
    unfold ddiv. apply ctx_round_proper.
    rewrite (root_divisor_exact prec _ Hn Hfit). reflexivity.
Qed.

Lemma rebalance_tree_increment_witness :
  exists (db' : Store) (root : Node) (nodes : list Node) (cursor : Q),
    rebalance_tree 6 example_tree (Some 7%Z) = Ok db'
    /\ root_node example_tree (Some 7%Z) = Ok root
    /\ get_descendants example_tree root true = Ok nodes
    /\ _rebalance_helper 6 (S (Z.to_nat (max_level example_tree)))
         example_tree root 0
         (ddiv 6 1
            (dsub 6 (dmul 6 2 (inject_Z (Z.of_nat (List.length nodes)))) 1))
       = Some (Ok (cursor, db')).
Proof.
  assert (H : exists db', rebalance_tree 6 example_tree (Some 7%Z) = Ok db').
  { eexists. vm_compute. reflexivity. }
  destruct H as [db' H].
  destruct (rebalance_tree_increment 6 example_tree db' (Some 7%Z) H)
    as (root & nodes & cursor & Hroot & Hd & _ & Hh & _).
  exists db', root, nodes, cursor. auto.
Defined.

(** The divisor is not [2 * node_count + 1]: for a tree of one node the
    increment is [1], not the width [1] of the root range divided by
    [2 * 1 + 1]. *)
Lemma rebalance_increment_is_not_2n_plus_1 :
  exists root iv nodes,
    rebalance_interval 6 singleton_tree (Some 1%Z) = Ok (root, iv)
    /\ get_descendants singleton_tree root true = Ok nodes
    /\ List.length nodes = 1%nat
    /\ i_increment iv == 1
    /\ ~ i_increment iv == (right root - left root) / (2 * 1 + 1)
    /\ ~ i_increment iv
         == ddiv 6 (dsub 6 (right root) (left root)) (dadd 6 (dmul 6 2 1) 1).
Proof.
  eexists _, _, _. split; [vm_compute; reflexivity|].
  split; [vm_compute; reflexivity|].
  split; [reflexivity|]. split; [reflexivity|].
  split; intro H; vm_compute in H; discriminate.
Qed.

End Rebalancer.

(** * The interval allocator *)

Module Allocator.
Import Dec DecFacts QueryFacts RebalanceFacts BoundArithmetic Rebalancer.

(** An allocation without a target raises nothing but the [ValueError]
    of an unknown position. *)
Lemma root_allocation_ok (prec : positive) (db : Store) (position : string)
    (count : Z) :
  (exists msg, get_interval_for_insertion_relative_to prec db None position count
               = Raise (ValueError msg))
  \/ is_ok (get_interval_for_insertion_relative_to prec db None position count)
     = true.
Proof.
  unfold get_interval_for_insertion_relative_to.
  destruct (negb (position_in position valid_positions)); [left; eauto|].
  right. reflexivity.
Qed.

Lemma refresh_from_db_reads (db : Store) (t t' : Node) :
  refresh_from_db db t = Ok t' ->
  exists r, In r db /\ pk t = Some (row_pk r)
            /\ pk t' = pk t
            /\ left t' = row_left r /\ right t' = row_right r
            /\ level t' = row_level r /\ tree_id t' = Some (row_tree_id r)
            /\ _new_parent t' = _new_parent t.
Proof.
  unfold refresh_from_db. intros H.
  destruct (filter (matches_pk t) db) as [|r [|r' l]] eqn:E;
    try discriminate.
  injection H as <-.
  assert (Hin : In r (filter (matches_pk t) db)) by (rewrite E; now left).
  apply filter_In in Hin. destruct Hin as [Hin Hp].
  unfold matches_pk in Hp. destruct (pk t) as [k|] eqn:Hk; [|discriminate].
  apply Z.eqb_eq in Hp. subst k.
  exists r. cbn. repeat split; auto.
Qed.

(** C6. When the allocation raises [IntervalTooSmall] there is a target,
    and the wrapper rebalances the tree of the target, reloads the target
    from the store and runs the allocation once more, with [count = 1]
    whatever the first count was; the outcome of that second allocation
    is the outcome of the wrapper, so a second [IntervalTooSmall] is not
    retried.  The rebalance always returns, and the reloaded target has
    the bounds of its row in the rebalanced store.  Any other outcome of
    the first allocation is returned as it is, without a rebalance. *)
Theorem rebalance_and_retry_once
    (prec : positive) (db : Store) (target : option Node) (position : string)
    (count : Z) :
  (forall msg,
      get_interval_for_insertion_relative_to prec db target position count
      = Raise (IntervalTooSmall msg) ->
      exists t,
        target = Some t
        /\ rebalance_tree prec db (tree_id t) <> Raise RecursionError
        /\ get_interval_for_insertion_relative_to_with_rebalance
             prec db target position count
           = match rebalance_tree prec db (tree_id t) with
             | Raise e => (Raise e, Some t, db)
             | Ok db' =>
                 match refresh_from_db db' t with
                 | Raise e => (Raise e, Some t, db')
                 | Ok t' =>
                     (get_interval_for_insertion_relative_to
                        prec db' (Some t') position 1,
                      Some t', db')
                 end
             end
        /\ (forall db' t',
              refresh_from_db db' t = Ok t' ->
              exists r, In r db' /\ pk t = Some (row_pk r)
                        /\ left t' = row_left r /\ right t' = row_right r))
  /\ ((forall msg,
          get_interval_for_insertion_relative_to prec db target position count
          <> Raise (IntervalTooSmall msg)) ->
      get_interval_for_insertion_relative_to_with_rebalance
        prec db target position count
      = (get_interval_for_insertion_relative_to prec db target position count,
         target, db)).
Proof.
  split.
  - intros msg H.
    destruct target as [t|].
    2: { destruct (root_allocation_ok prec db position count)
           as [[msg' H'] | H']; rewrite H in H'; discriminate. }
    exists t. split; [reflexivity|].
    split; [apply rebalance_tree_returns|]. split.
    + unfold get_interval_for_insertion_relative_to_with_rebalance.
      rewrite H. reflexivity.
    + intros db' t' Hr.
      destruct (refresh_from_db_reads _ _ _ Hr) as (r & ? & ? & ? & ? & ? & _).
      exists r. auto.
  - intros H.
    unfold get_interval_for_insertion_relative_to_with_rebalance.
    destruct (get_interval_for_insertion_relative_to prec db target
                position count) as [iv | e]; [reflexivity|].
    destruct e; try reflexivity.
    exfalso. eapply H. reflexivity.
Qed.

Lemma rebalance_and_retry_once_witness :
  (exists msg,
      get_interval_for_insertion_relative_to 3 tight_tree
        (Some tight_leaf) "first-child" 1
      = Raise (IntervalTooSmall msg))
  /\ exists db' t' iv,
       get_interval_for_insertion_relative_to_with_rebalance 3 tight_tree
         (Some tight_leaf) "first-child" 1
       = (Ok iv, Some t', db')
       /\ rebalance_tree 3 tight_tree (Some 7%Z) = Ok db'
       /\ left t' == 333 # 1000 /\ right t' == 666 # 1000
       /\ i_left iv == 444 # 1000 /\ i_right iv == 555 # 1000.
Proof.
  split; [eexists; vm_compute; reflexivity|].
  destruct (rebalance_and_retry_once 3 tight_tree (Some tight_leaf)
              "first-child" 1) as [H _].
  destruct (H "The interval has gotten too small! Oh noes!"
              ltac:(vm_compute; reflexivity)) as (t & Ht & _ & E & _).
  injection Ht as <-.
  eexists _, _, _. split; [rewrite E; vm_compute; reflexivity|].
  split; [vm_compute; reflexivity|].
  repeat split; vm_compute; reflexivity.
Defined.

(** C9. For a saved target at level 0, an allocation at the [left] or
    [right] position raises the [ValueError] that rejects siblings of a
    root; no interval is returned, the wrapper does not rebalance and
    the store is as before. *)
Theorem sibling_of_root_is_rejected
    (prec : positive) (db : Store) (t : Node) (position : string)
    (count : Z) :
  _is_saved t = true -> is_root_node t = true ->
  position = "left" \/ position = "right" ->
  get_interval_for_insertion_relative_to prec db (Some t) position count
  = Raise (ValueError "Can't insert as a sibling of a root node.")
  /\ get_interval_for_insertion_relative_to_with_rebalance
       prec db (Some t) position count
     = (Raise (ValueError "Can't insert as a sibling of a root node."),
        Some t, db).
Proof.
  intros Hs Hr Hp.
  assert (E : get_interval_for_insertion_relative_to prec db (Some t)
                position count
              = Raise (ValueError "Can't insert as a sibling of a root node.")).
  { unfold get_interval_for_insertion_relative_to.
    destruct Hp as [-> | ->]; cbn; rewrite Hs, Hr; reflexivity. }
  split; [exact E|].
  unfold get_interval_for_insertion_relative_to_with_rebalance.
  rewrite E. reflexivity.
Qed.

Lemma sibling_of_root_is_rejected_witness :
  get_interval_for_insertion_relative_to 6 example_tree
    (Some (from_db {| row_pk := 1; row_left := 0; row_right := 1;
                      row_level := 0; row_tree_id := 7 |})) "right" 1
  = Raise (ValueError "Can't insert as a sibling of a root node.").
Proof.
  apply (sibling_of_root_is_rejected 6 example_tree
           (from_db {| row_pk := 1; row_left := 0; row_right := 1;
                       row_level := 0; row_tree_id := 7 |}) "right" 1);
    [reflexivity | reflexivity | right; reflexivity].
Defined.

End Allocator.

(** * Descendant queries *)

Module Descendants.
Import QueryFacts.

(** C10. For a saved node [n], [get_descendants(include_self=False)]
    returns exactly the rows other than [n] with the tree id of [n] and
    [n.left < left < n.right]; the right bounds of the rows play no part:
    with other right bounds the same rows are returned.  Under the
    nesting invariant a row is returned exactly when it lies strictly
    inside [n], and without the invariant a returned row need not;
    [get_children] keeps the descendants with [level = n.level + 1]. *)
Theorem get_descendants_by_left_bound :
  (forall (db : Store) (n : Node),
      pk_truthy n = true ->
      exists ds,
        get_descendants db n false = Ok ds
        /\ (forall m, In m ds <->
              exists r, In r db /\ m = from_db r
                        /\ pk n <> Some (row_pk r)
                        /\ tree_id n = Some (row_tree_id r)
                        /\ left n < row_left r /\ row_left r < right n)
        /\ (forall g : Row -> Q,
              exists ds',
                get_descendants (map (with_right g) db) n false = Ok ds'
                /\ map node_key ds' = map node_key ds)
        /\ (nested_around db n ->
            forall r, In r db ->
              pk n <> Some (row_pk r) -> tree_id n = Some (row_tree_id r) ->
              (In (from_db r) ds
               <-> left n < row_left r /\ row_right r < right n))
        /\ get_children db n
           = Ok (filter (fun m => (level m =? level n + 1)%Z) ds))
  /\ (exists ds m,
        get_descendants overlapping_rows
          (from_db {| row_pk := 1; row_left := 0; row_right := 5 # 10;
                      row_level := 0; row_tree_id := 1 |}) false = Ok ds
        /\ In m ds /\ 0 < left m /\ 5 # 10 < right m).
Proof.
  split.
  - intros db n Hpk.
    exists (map from_db (filter (descendant_filter n) (order_rows db))).
    split; [apply get_descendants_saved, Hpk|].
    split; [|split; [|split]].
    + intros m. rewrite in_map_iff. split.
      * intros (r & <- & Hr). apply filter_In in Hr. destruct Hr as [Hr Hf].
        apply (proj1 (In_order_rows _ _)) in Hr.
        apply descendant_filter_iff in Hf.
        exists r. tauto.
      * intros (r & Hr & -> & H). exists r. split; [reflexivity|].
        apply filter_In. split; [apply In_order_rows, Hr|].
        apply descendant_filter_iff. tauto.
    + intros g. eexists. split; [apply get_descendants_saved, Hpk|].
      rewrite order_rows_map by reflexivity.
      rewrite filter_map_commute by reflexivity.
      rewrite !map_map. apply map_ext. reflexivity.
    + intros Hnest r Hr Hp Ht.
      destruct (Hnest r Hr Ht Hp) as [Hlr Hcases].
      assert (Hin : In (from_db r)
                      (map from_db (filter (descendant_filter n)
                                      (order_rows db)))
                    <-> descendant_filter n r = true).
      { split.
        - intros H. apply in_map_iff in H. destruct H as (r' & E & Hr').
          apply filter_In in Hr'. destruct Hr' as [_ Hf].
          apply from_db_inj in E. subst r'. exact Hf.
        - intros Hf. apply in_map, filter_In.
          split; [apply In_order_rows, Hr | exact Hf]. }
      rewrite Hin, descendant_filter_iff.
      split.
      * intros (H1 & H2 & _).
        destruct Hcases as [? | [? | [? | ?]]]; split; lra.
      * intros (H1 & H2). repeat split; auto; lra.
    + apply get_children_saved, Hpk.
  - eexists _, _. split; [vm_compute; reflexivity|].
    split; [left; reflexivity|]. split; reflexivity.
Qed.

Lemma get_descendants_by_left_bound_witness :
  exists ds,
    get_descendants example_tree node_2 false = Ok ds
    /\ map pk ds = [Some 3%Z; Some 4%Z]
    /\ get_children example_tree node_2
       = Ok (filter (fun m => (level m =? level node_2 + 1)%Z) ds).
Proof.
  destruct (proj1 get_descendants_by_left_bound example_tree node_2 eq_refl)
    as (ds & Hd & _ & _ & _ & Hc).
  exists ds. split; [exact Hd|]. split; [|exact Hc].
  vm_compute in Hd. injection Hd as <-. reflexivity.
Defined.

End Descendants.

(** * Rebalancing and the ancestor relation *)

Module RebalanceAncestry.
Import Rebalancer.

(** C7 fails on the code.  In [example_tree] node 2 has the children 3
    and 4, and node 5 is its later sibling with the wide range
    [(0.3, 0.9)].  The recursion lays out 2, 3 and 4 first; the children
    of 5 are then looked up with the range 5 had before the rebalance,
    against rows that already carry new bounds, and the new left bound
    [0.444444] of node 4 falls into that range.  Node 4 is laid out a
    second time, inside 5: after the rebalance 2 is no longer an ancestor
    of 4, 5 is, and the right bound of the root lies beyond 1. *)
Theorem rebalance_changes_ancestors :
  invariants example_tree = true
  /\ ancestor_pairs example_tree
     = [(1, 2); (1, 3); (1, 4); (1, 5); (2, 3); (2, 4)]%Z
  /\ exists db',
       rebalance_tree 6 example_tree (Some 7%Z) = Ok db'
       /\ bounds db'
          = [(1%Z, 0, 61111 # 50000);
             (2%Z, 111111 # 1000000, 333333 # 500000);
             (3%Z, 111111 # 500000, 333333 # 1000000);
             (4%Z, 111111 # 125000, 999999 # 1000000);
             (5%Z, 777777 # 1000000, 111111 # 100000)]
       /\ ancestor_pairs db'
          = [(1, 2); (1, 3); (1, 4); (1, 5); (2, 3); (5, 4)]%Z.
Proof.
  split; [vm_compute; reflexivity|].
  split; [vm_compute; reflexivity|].
  eexists. split; [vm_compute; reflexivity|].
  split; vm_compute; reflexivity.
Qed.

Lemma rebalance_changes_ancestors_of_built_tree :
  invariants built_tree = true
  /\ map row_pk built_tree = [1; 2; 3; 4; 5]%Z
  /\ ancestor_pairs built_tree
     = [(1, 2); (1, 3); (1, 4); (1, 5); (3, 4); (3, 5)]%Z
  /\ exists db',
       rebalance_tree 6 built_tree (Some 7%Z) = Ok db'
       /\ ancestor_pairs db'
          = [(1, 2); (1, 3); (1, 4); (1, 5); (2, 5); (3, 4)]%Z.
Proof.
  split; [vm_compute; reflexivity|].
  split; [vm_compute; reflexivity|].
  split; [vm_compute; reflexivity|].
  eexists. split; vm_compute; reflexivity.
Qed.

End RebalanceAncestry.

(** * Moves: legality *)

Module MoveLegality.
Import QueryFacts RebalanceFacts BoundArithmetic Rebalancer Allocator.

Lemma no_invalid_move_ok {A : Type} (a : A) : no_invalid_move (Ok a).
Proof. intros e H. discriminate. Qed.

Lemma no_invalid_move_raise {A : Type} (e : error) :
  is_invalid_move e = false -> no_invalid_move (@Raise A e).
Proof. intros He e' H. injection H as <-. exact He. Qed.

Lemma no_invalid_move_bind {A B : Type} (r : result A) (k : A -> result B) :
  no_invalid_move r -> (forall a, no_invalid_move (k a)) ->
  no_invalid_move (bind r k).
Proof.
  intros Hr Hk. destruct r as [a | e]; cbn.
  - apply Hk.
  - intros e' H. injection H as <-. apply Hr. reflexivity.
Qed.

Lemma no_invalid_move_unsaved {A : Type} (f : string) (n : Node)
    (r : result A) :
  no_invalid_move r -> no_invalid_move (raise_if_unsaved f n r).
Proof.
  intros Hr. unfold raise_if_unsaved.
  destruct (pk_truthy n); [exact Hr|].
  apply no_invalid_move_raise. reflexivity.
Qed.

Create HintDb errors.
#[global] Hint Resolve no_invalid_move_ok no_invalid_move_bind
  no_invalid_move_unsaved : errors.
#[global] Hint Extern 1 (no_invalid_move (Raise _)) =>
  apply no_invalid_move_raise; reflexivity : errors.

Lemma get_children_no_invalid_move (db : Store) (n : Node) :
  no_invalid_move (get_children db n).
Proof.
  unfold get_children, get_descendants. auto 10 with errors.
Qed.

Lemma get_descendant_count_no_invalid_move (db : Store) (n : Node) :
  no_invalid_move (get_descendant_count db n).
Proof.
  unfold get_descendant_count, get_descendants. auto 10 with errors.
Qed.

Lemma calculate_no_invalid_move (prec : positive) (a b : Q) (c : Z) :
  no_invalid_move (_calculate_sub_interval prec a b c).
Proof.
  unfold _calculate_sub_interval.
  destruct (Dec.deq _ _); auto with errors.
Qed.

#[global] Hint Resolve get_children_no_invalid_move
  get_descendant_count_no_invalid_move calculate_no_invalid_move : errors.

Lemma siblings_no_invalid_move (db : Store) (n : Node) :
  no_invalid_move (get_previous_sibling db n)
  /\ no_invalid_move (get_next_sibling db n).
Proof.
  unfold get_previous_sibling, get_next_sibling.
  split; apply no_invalid_move_unsaved;
    destruct (is_root_node n); auto with errors;
    destruct (parent db n); auto with errors.
Qed.

Lemma get_interval_no_invalid_move (prec : positive) (db : Store)
    (target : option Node) (position : string) (count : Z) :
  no_invalid_move
    (get_interval_for_insertion_relative_to prec db target position count).
Proof.
  unfold get_interval_for_insertion_relative_to.
  destruct (negb (position_in position valid_positions));
    [auto with errors|].
  destruct target as [t|]; [|auto with errors].
  destruct (negb (_is_saved t)); [auto with errors|].
  destruct (position_in position ["left"; "right"] && is_root_node t);
    [auto with errors|].
  destruct (siblings_no_invalid_move db t) as [Hp Hn].
  destruct (position =? "first-child")%string.
  { apply no_invalid_move_bind; [auto with errors|].
    intros cs. destruct (first cs); auto with errors. }
  destruct (position =? "last-child")%string.
  { apply no_invalid_move_bind; [auto with errors|].
    intros cs. destruct (last cs); auto with errors. }
  destruct (position =? "left")%string.
  { apply no_invalid_move_bind; [exact Hp|].
    intros [p|]; [auto with errors|].
    destruct (parent db t); auto with errors. }
  apply no_invalid_move_bind; [exact Hn|].
  intros [p|]; [auto with errors|].
  destruct (parent db t); auto with errors.
Qed.

Lemma rebalance_tree_no_invalid_move (prec : positive) (db : Store)
    (tid : option Z) :
  no_invalid_move (rebalance_tree prec db tid).
Proof.
  rewrite rebalance_tree_unfold. intros e H.
  destruct (root_node db tid) as [root | e1] eqn:Hroot.
  2: { injection H as <-.
       destruct (root_node_error _ _ _ Hroot) as [-> | ->]; reflexivity. }
  destruct (get_descendants db root true) as [nodes | e1] eqn:Hd.
  2: { injection H as <-.
       destruct (get_descendants_error _ _ _ _ Hd) as [msg ->]. reflexivity. }
  destruct (_rebalance_helper prec _ db root _ _) as [[[x db'] | e1] |] eqn:E.
  - discriminate.
  - injection H as <-.
    destruct (rebalance_helper_error _ _ _ _ _ _ _ E) as [msg ->].
    reflexivity.
  - injection H as <-. reflexivity.
Qed.

Lemma refresh_no_invalid_move (db : Store) (t : Node) :
  no_invalid_move (refresh_from_db db t).
Proof.
  unfold refresh_from_db.
  destruct (filter (matches_pk t) db) as [|r [|r' l]]; auto with errors.
Qed.

Lemma with_rebalance_no_invalid_move (prec : positive) (db : Store)
    (target : option Node) (position : string) (count : Z) :
  no_invalid_move
    (fst (fst (get_interval_for_insertion_relative_to_with_rebalance
                 prec db target position count))).
Proof.
  unfold get_interval_for_insertion_relative_to_with_rebalance.
  pose proof (get_interval_no_invalid_move prec db target position count)
    as H1.
  destruct (get_interval_for_insertion_relative_to prec db target position
              count) as [iv | e] eqn:E1; [auto with errors|].
  destruct e; try exact H1.
  destruct target as [t|]; [|cbn; auto with errors].
  pose proof (rebalance_tree_no_invalid_move prec db (tree_id t)) as H2.
  destruct (rebalance_tree prec db (tree_id t)) as [db' | e];
    [|apply no_invalid_move_raise, H2; reflexivity].
  pose proof (refresh_no_invalid_move db' t) as H3.
  destruct (refresh_from_db db' t) as [t' | e];
    [|apply no_invalid_move_raise, H3; reflexivity].
  apply get_interval_no_invalid_move.
Qed.

Lemma update_where_no_invalid_move (places : positive) (p : Row -> bool)
    (u : Updates) (db : Store) :
  no_invalid_move (update_where places p u db).
Proof.
  induction db as [|r db IH]; cbn; [auto with errors|].
  apply no_invalid_move_bind; [exact IH|].
  intros rest. destruct (p r); [|auto with errors].
  destruct (apply_updates places u r); auto with errors.
Qed.

Lemma option_Z_eqb_eq (a b : option Z) :
  option_Z_eqb a b = true <-> a = b.
Proof.
  destruct a as [x|], b as [y|]; cbn; rewrite ?Z.eqb_eq;
    split; intros H; try congruence; try discriminate.
Qed.

Lemma is_ancestor_of_saved (node t : Node) :
  pk_truthy node = true -> pk_truthy t = true ->
  (is_ancestor_of node t false = Ok true
   <-> tree_id t = tree_id node
       /\ left node < left t /\ right t < right node).
Proof.
  intros Hn Ht.
  unfold is_ancestor_of, is_descendant_of, raise_if_unsaved.
  rewrite Hn, Ht. cbn [andb].
  destruct (option_Z_eqb (tree_id t) (tree_id node)) eqn:E; cbn [negb].
  - apply option_Z_eqb_eq in E. split.
    + intros H. injection H as H. apply andb_true_iff in H.
      rewrite !dlt_iff in H. tauto.
    + intros (_ & H1 & H2). f_equal. apply andb_true_iff.
      rewrite !dlt_iff. tauto.
  - split; [discriminate|]. intros (H & _).
    apply option_Z_eqb_eq in H. congruence.
Qed.

Lemma is_ancestor_of_no_invalid_move (node t : Node) :
  no_invalid_move (is_ancestor_of node t false).
Proof.
  unfold is_ancestor_of, is_descendant_of. cbn [andb].
  apply no_invalid_move_unsaved, no_invalid_move_unsaved.
  destruct (negb _); auto with errors.
Qed.

(** The check at the head of a move, for the four positions. *)
Lemma check_move_cases (node : Node) (target : option Node)
    (position : string) :
  In position valid_positions ->
  (illegal node target
   /\ exists msg, check_move node target position = Raise (InvalidMove msg))
  \/ (~ illegal node target
      /\ no_invalid_move (check_move node target position)).
Proof.
  intros Hp.
  assert (Hshape :
    exists m1 m2,
      check_move node target position
      = if node_eq node target then Raise (InvalidMove m1)
        else match target with
             | Some t =>
                 anc <- is_ancestor_of node t false ;;
                 if anc then Raise (InvalidMove m2) else Ok tt
             | None => Ok tt
             end).
  { cbn in Hp. destruct Hp as [<- | [<- | [<- | [<- | []]]]];
      eexists _, _; reflexivity. }
  destruct Hshape as (m1 & m2 & ->).
  unfold illegal.
  destruct (node_eq node target) eqn:Heq.
  - left. split; [now left | eauto].
  - destruct target as [t|].
    + pose proof (is_ancestor_of_no_invalid_move node t) as Ha.
      destruct (is_ancestor_of node t false) as [[|] | e] eqn:Hanc; cbn.
      * left. split; [right; eauto | eauto].
      * right. split; [|auto with errors].
        intros [H | (t' & Ht & H)]; [discriminate|].
        injection Ht as <-. congruence.
      * right. split.
        -- intros [H | (t' & Ht & H)]; [discriminate|].
           injection Ht as <-. congruence.
        -- apply no_invalid_move_raise, Ha. reflexivity.
    + right. split; [|auto with errors].
      intros [H | (t' & Ht & H)]; discriminate.
Qed.

Lemma check_move_iff (node : Node) (target : option Node)
    (position : string) :
  In position valid_positions ->
  ((exists msg, check_move node target position = Raise (InvalidMove msg))
   <-> illegal node target).
Proof.
  intros Hp.
  destruct (check_move_cases node target position Hp)
    as [[Hi H] | [Hn Hno]].
  - tauto.
  - split; [|contradiction].
    intros [msg H]. specialize (Hno _ H). discriminate.
Qed.

Lemma save_fields_no_invalid_move (prec : positive) (db : Store) (n : Node) :
  no_invalid_move (save_fields prec db n).
Proof.
  unfold save_fields, base_save.
  repeat match goal with
         | |- context [match ?x with _ => _ end] => destruct x
         end; auto with errors.
Qed.

Lemma move_node_after_check (prec : positive) (uuid4 : Z) (db : Store)
    (node : Node) (target : option Node) (position : string) :
  (forall e, check_move node target position = Raise e ->
     _move_node prec uuid4 db node target position
     = (Raise e, node, target, db))
  /\ (is_ok (check_move node target position) = true ->
      no_invalid_move
        (outcome (_move_node prec uuid4 db node target position))).
Proof.
  unfold _move_node. split.
  - intros e ->. reflexivity.
  - destruct (check_move node target position) as [[] | e];
      [intros _ | discriminate].
    pose proof (get_descendant_count_no_invalid_move db node) as H1.
    destruct (get_descendant_count db node) as [dc | e];
      [|apply no_invalid_move_raise, H1; reflexivity].
    pose proof (with_rebalance_no_invalid_move prec db target position
                  (dc + 1)) as H2.
    destruct (get_interval_for_insertion_relative_to_with_rebalance
                prec db target position (dc + 1)) as [[[iv | e] t'] db'];
      [|apply no_invalid_move_raise, H2; reflexivity].
    cbn zeta.
    destruct (dc =? 0)%Z; [cbn; auto with errors|].
    match goal with
    | |- context [raise_if_unsaved ?f ?n (update_where ?k ?p ?u ?d)] =>
        pose proof (no_invalid_move_unsaved f n _
                      (update_where_no_invalid_move k p u d)) as H3;
        destruct (raise_if_unsaved f n (update_where k p u d)) as [db'' | e]
    end.
    + cbn. auto with errors.
    + apply no_invalid_move_raise, H3. reflexivity.
Qed.

(** C5. For each of the four positions, [_move_node] (and [move_node])
    raises [InvalidMove] exactly when the target is the node or the node
    is an ancestor of the target; the condition does not depend on the
    position; and when it is raised the store, the node and the target
    are as before the call. *)
Theorem invalid_move_iff_cycle
    (prec : positive) (uuid4 : Z) (db : Store) (node : Node)
    (target : option Node) (position : string) :
  In position valid_positions ->
  ((exists msg,
       outcome (_move_node prec uuid4 db node target position)
       = Raise (InvalidMove msg))
   <-> illegal node target)
  /\ ((exists msg,
          outcome (move_node prec uuid4 db node target position)
          = Raise (InvalidMove msg))
      <-> illegal node target)
  /\ (forall position',
        In position' valid_positions ->
        ((exists msg, check_move node target position = Raise (InvalidMove msg))
         <-> (exists msg,
                check_move node target position' = Raise (InvalidMove msg))))
  /\ (forall msg,
        outcome (_move_node prec uuid4 db node target position)
        = Raise (InvalidMove msg) ->
        _move_node prec uuid4 db node target position
        = (Raise (InvalidMove msg), node, target, db)
        /\ move_node prec uuid4 db node target position
           = (Raise (InvalidMove msg), node, target, db))
  /\ (forall t,
        target = Some t -> pk_truthy node = true -> pk_truthy t = true ->
        (is_ancestor_of node t false = Ok true
         <-> tree_id t = tree_id node
             /\ left node < left t /\ right t < right node)).
Proof.
  intros Hp.
  destruct (move_node_after_check prec uuid4 db node target position)
    as [Hraise Hok].
  assert (Hcheck : forall msg,
            outcome (_move_node prec uuid4 db node target position)
            = Raise (InvalidMove msg) ->
            check_move node target position = Raise (InvalidMove msg)).
  { intros msg H.
    destruct (check_move node target position) as [[] | e] eqn:E.
    - specialize (Hok eq_refl _ H). discriminate.
    - rewrite (Hraise e eq_refl) in H. exact H. }
  assert (Hiff : (exists msg,
                     outcome (_move_node prec uuid4 db node target position)
                     = Raise (InvalidMove msg))
                 <-> illegal node target).
  { split.
    - intros [msg H]. apply Hcheck in H.
      destruct (check_move_cases node target position Hp)
        as [[Hi _] | [_ Hn]]; [exact Hi|].
      specialize (Hn _ H). discriminate.
    - intros Hi.
      destruct (check_move_cases node target position Hp)
        as [[_ [msg H]] | [Hn _]]; [|contradiction].
      exists msg. rewrite (Hraise _ H). reflexivity. }
  assert (Hmove : forall e,
            outcome (_move_node prec uuid4 db node target position) = Raise e ->
            outcome (move_node prec uuid4 db node target position) = Raise e).
  { intros e H. unfold move_node.
    destruct (_move_node prec uuid4 db node target position)
      as [[[[[] | e'] n'] t'] db']; cbn in H; [discriminate|].
    exact H. }
  split; [exact Hiff|]. split; [|split; [|split]].
  - split.
    + intros [msg H]. apply Hiff.
      unfold move_node in H.
      destruct (_move_node prec uuid4 db node target position)
        as [[[[[] | e'] n'] t'] db'] eqn:E.
      * pose proof (save_fields_no_invalid_move prec db' n') as Hs.
        destruct (save_fields prec db' n') as [[n'' db''] | e];
          [discriminate|].
        exfalso. cbn in H. injection H as ->.
        specialize (Hs _ eq_refl). discriminate.
      * exists msg. exact H.
    + intros Hi. apply Hiff in Hi. destruct Hi as [msg H].
      exists msg. apply Hmove, H.
  - intros position' Hp'.
    rewrite (check_move_iff node target position Hp).
    rewrite (check_move_iff node target position' Hp'). reflexivity.
  - intros msg H. pose proof (Hcheck msg H) as Hc.
    rewrite (Hraise _ Hc). split; [reflexivity|].
    unfold move_node. rewrite (Hraise _ Hc). reflexivity.
  - intros t -> Hn Ht. apply is_ancestor_of_saved; assumption.
Qed.

Lemma invalid_move_iff_cycle_witness :
  In "first-child" valid_positions
  /\ illegal node_2 (Some node_4)
  /\ exists msg,
       _move_node 6 99 example_tree node_2 (Some node_4) "first-child"
       = (Raise (InvalidMove msg), node_2, Some node_4, example_tree).
Proof.
  assert (Hp : In "first-child" valid_positions) by (left; reflexivity).
  assert (Hi : illegal node_2 (Some node_4)).
  { right. exists node_4. split; reflexivity. }
  destruct (invalid_move_iff_cycle 6 99 example_tree node_2 (Some node_4)
              "first-child" Hp) as (H1 & _ & _ & H4 & _).
  split; [exact Hp|]. split; [exact Hi|].
  destruct (proj2 H1 Hi) as [msg H].
  exists msg. exact (proj1 (H4 msg H)).
Defined.

End MoveLegality.

(** * Saving after a new parent was set *)

Module SaveParent.
Import QueryFacts RebalanceFacts BoundArithmetic Rebalancer Allocator.
Import MoveLegality.

Lemma get_interval_ok_saved (prec : positive) (db : Store) (t : Node)
    (position : string) (count : Z) (iv : Interval) :
  get_interval_for_insertion_relative_to prec db (Some t) position count
  = Ok iv ->
  _is_saved t = true.
Proof.
  unfold get_interval_for_insertion_relative_to.
  destruct (negb (position_in position valid_positions)); [discriminate|].
  destruct (_is_saved t); [reflexivity | discriminate].
Qed.

(** The target object after the wrapper is the target given, or that
    target reloaded. *)
Lemma with_rebalance_target (prec : positive) (db : Store)
    (target : option Node) (position : string) (count : Z) :
  let out := get_interval_for_insertion_relative_to_with_rebalance
               prec db target position count in
  target_pk (snd (fst out)) = target_pk target
  /\ (forall iv t', fst (fst out) = Ok iv -> snd (fst out) = Some t' ->
        _is_saved t' = true).
Proof.
  unfold get_interval_for_insertion_relative_to_with_rebalance.
  destruct (get_interval_for_insertion_relative_to prec db target position
              count) as [iv | e] eqn:E1.
  - cbn. split; [reflexivity|].
    intros iv' t' _ ->. eapply get_interval_ok_saved, E1.
  - assert (Hdefault :
        let out := (@Raise Interval e, target, db) in
        target_pk (snd (fst out)) = target_pk target
        /\ (forall iv t', fst (fst out) = Ok iv -> snd (fst out) = Some t' ->
              _is_saved t' = true)).
    { cbn. split; [reflexivity|]. intros iv t' H. discriminate. }
    destruct e; try exact Hdefault.
    destruct target as [t|].
    + destruct (rebalance_tree prec db (tree_id t)) as [db' | e].
      * destruct (refresh_from_db db' t) as [t' | e] eqn:Er.
        -- cbn. split.
           ++ destruct (refresh_from_db_reads _ _ _ Er)
                as (r & _ & _ & Hpk & _).
              unfold target_pk. cbn. now rewrite Hpk.
           ++ intros iv t'' H Ht. injection Ht as <-.
              eapply get_interval_ok_saved, H.
        -- cbn. split; [reflexivity|]. intros iv t' H. discriminate.
      * cbn. split; [reflexivity|]. intros iv t' H. discriminate.
    + cbn. split; [reflexivity|]. intros iv t' H. discriminate.
Qed.

Lemma move_node_raise (prec : positive) (uuid4 : Z) (db : Store)
    (node : Node) (target : option Node) (position : string)
    (e : error) (n' : Node) (t' : option Node) (db' : Store) :
  _move_node prec uuid4 db node target position = (Raise e, n', t', db') ->
  n' = node /\ target_pk t' = target_pk target
  /\ (is_invalid_move e = true -> t' = target).
Proof.
  unfold _move_node.
  destruct (check_move node target position) as [[] | e0].
  2: { intros H. injection H as <- <- <- <-. auto. }
  destruct (get_descendant_count db node) as [dc | e0] eqn:Hdc.
  2: { intros H. injection H as <- <- <- <-. auto. }
  pose proof (with_rebalance_target prec db target position (dc + 1))
    as [Hpk _].
  pose proof (with_rebalance_no_invalid_move prec db target position (dc + 1))
    as Hno.
  destruct (get_interval_for_insertion_relative_to_with_rebalance
              prec db target position (dc + 1)) as [[[iv | e0] t1] db1].
  2: { intros H. injection H as <- <- <- <-. cbn in Hpk, Hno.
       split; [reflexivity|]. split; [exact Hpk|].
       intros H. rewrite (Hno _ eq_refl) in H. discriminate. }
  cbn zeta.
  destruct (dc =? 0)%Z; [discriminate|].
  match goal with
  | |- context [raise_if_unsaved ?f ?n (update_where ?k ?p ?u ?d)] =>
      pose proof (no_invalid_move_unsaved f n _
                    (update_where_no_invalid_move k p u d)) as H3;
      destruct (raise_if_unsaved f n (update_where k p u d)) as [db'' | e0]
  end; [discriminate|].
  intros H. injection H as <- <- <- <-. cbn in Hpk.
  split; [reflexivity|]. split; [exact Hpk|].
  intros H. rewrite (H3 _ eq_refl) in H. discriminate.
Qed.

Lemma move_node_ok (prec : positive) (uuid4 : Z) (db : Store)
    (node : Node) (target : option Node) (position : string)
    (n' : Node) (t' : option Node) (db' : Store) :
  _move_node prec uuid4 db node target position = (Ok tt, n', t', db') ->
  _nested_intervals_fields_have_changed n' = true
  /\ pk n' = pk node
  /\ (tree_id node <> None -> tree_id n' <> None).
Proof.
  unfold _move_node.
  destruct (check_move node target position) as [[] | e0]; [|discriminate].
  destruct (get_descendant_count db node) as [dc | e0]; [|discriminate].
  destruct (get_interval_for_insertion_relative_to_with_rebalance
              prec db target position (dc + 1)) as [[[iv | e0] t1] db1];
    [|discriminate].
  cbn zeta.
  match goal with
  | |- context [if ?c then Ok db1 else ?w] =>
      destruct (if c then Ok db1 else w) as [db'' | e0]; [|discriminate]
  end.
  intros H. injection H as <- <- <-.
  destruct (move_new_tree_id uuid4 node t1); cbn; repeat split; auto;
    discriminate.
Qed.

Lemma set_new_parent_same (n : Node) :
  set_new_parent n (_new_parent n) = n.
Proof. destruct n. reflexivity. Qed.

Lemma save_fields_writes (prec : positive) (db : Store) (n : Node) :
  _nested_intervals_fields_have_changed n = true -> tree_id n <> None ->
  is_ok (save_fields prec db n) = true.
Proof.
  intros Hc Ht. unfold save_fields, base_save. rewrite Hc.
  cbn [set_changed pk tree_id].
  destruct (tree_id n) as [t|]; [|contradiction].
  destruct (pk n) as [k|]; [|reflexivity].
  destruct (existsb _ db); reflexivity.
Qed.

Lemma insert_node_facts (prec : positive) (uuid4 : Z) (db : Store)
    (node : Node) (target : option Node) (position : string) :
  let out := insert_node prec uuid4 db node target position false in
  target_pk (snd (fst out)) = target_pk target
  /\ no_invalid_move (fst (fst out))
  /\ (forall n', fst (fst out) = Ok n' ->
        _nested_intervals_fields_have_changed n' = true
        /\ tree_id n' <> None).
Proof.
  unfold insert_node.
  destruct (_is_saved node).
  { cbn. split; [reflexivity|]. split; [auto with errors|].
    intros n' H. discriminate. }
  destruct target as [t|].
  - pose proof (with_rebalance_target prec db (Some t) position 1)
      as [Hpk Hsaved].
    pose proof (with_rebalance_no_invalid_move prec db (Some t) position 1)
      as Hno.
    destruct (get_interval_for_insertion_relative_to_with_rebalance
                prec db (Some t) position 1) as [[[iv | e] t1] db1];
      cbn in Hpk, Hno, Hsaved.
    + destruct t1 as [t1|].
      2: { cbn. split; [exact Hpk|]. split; [auto with errors|].
           intros n' H. discriminate. }
      cbn. split; [exact Hpk|]. split; [auto with errors|].
      intros n' H. injection H as <-. cbn. split; [reflexivity|].
      specialize (Hsaved iv t1 eq_refl eq_refl).
      unfold _is_saved in Hsaved.
      destruct (tree_id t1); congruence.
    + cbn. split; [exact Hpk|].
      split; [apply no_invalid_move_raise, Hno; reflexivity|].
      intros n' H. discriminate.
  - cbn. split; [reflexivity|]. split; [auto with errors|].
    intros n' H. injection H as <-. cbn. split; [reflexivity|discriminate].
Qed.

(** C8. After a new parent has been set, a [save] that raises leaves the
    store as it was and leaves the assignment pending on the instance:
    [_new_parent] still holds the target (the same object, reloaded when
    a rebalance had refreshed it), and reading [parent] returns it.  When
    the exception is [InvalidMove] the instance is unchanged. *)
Theorem failed_save_keeps_new_parent
    (prec : positive) (uuid4 : Z) (db db' : Store) (n0 n n' : Node)
    (target : option Node) (e : error) :
  set_parent n0 target = Ok n ->
  save prec uuid4 db n = (Raise e, n', db') ->
  db' = db
  /\ exists t',
       _new_parent n' = NewParent t'
       /\ parent db' n' = t'
       /\ target_pk t' = target_pk target
       /\ (is_invalid_move e = true -> n' = n /\ t' = target).
Proof.
  intros Hset Hsave.
  assert (Hn : _new_parent n = NewParent target
               /\ _nested_intervals_fields_have_changed n = true).
  { unfold set_parent in Hset.
    destruct target as [p|]; [destruct (negb (_is_saved p))|];
      inversion Hset; auto. }
  destruct Hn as [Hnp Hch].
  unfold save in Hsave.
  destruct (negb (_is_saved n)) eqn:Hsaved.
  - (* the instance was never saved: it is inserted *)
    unfold new_parent_or_none in Hsave. rewrite Hnp in Hsave.
    pose proof (insert_node_facts prec uuid4 db n target "last-child")
      as (Hpk & Hno & Hok).
    destruct (insert_node prec uuid4 db n target "last-child" false)
      as [[[n1 | e1] t1] db1]; cbn in Hpk, Hno, Hok.
    + exfalso. destruct (Hok n1 eq_refl) as [Hc1 Ht1].
      pose proof (save_fields_writes prec db1 (set_new_parent n1 Unchanged)
                    Hc1 Ht1) as Hw.
      destruct (save_fields prec db1 (set_new_parent n1 Unchanged))
        as [[n2 db2] | e2]; discriminate.
    + injection Hsave as <- <- <-. split; [reflexivity|].
      destruct target as [t0|], t1 as [t1|]; try discriminate.
      * exists (Some t1). unfold parent. cbn.
        split; [reflexivity|]. split; [reflexivity|].
        split; [exact Hpk|].
        intros H. rewrite (Hno _ eq_refl) in H. discriminate.
      * exists None. unfold parent. rewrite Hnp.
        split; [reflexivity|]. split; [reflexivity|].
        split; [reflexivity|]. auto.
  - (* the instance is saved: it is moved under the new parent *)
    rewrite Hnp in Hsave.
    destruct (_move_node prec uuid4 db n target "last-child")
      as [[[[[] | e1] n1] t1] db1] eqn:Hmove.
    + exfalso.
      destruct (move_node_ok _ _ _ _ _ _ _ _ _ Hmove) as (Hc1 & _ & Ht1).
      assert (Htree : tree_id n <> None).
      { apply negb_false_iff in Hsaved. unfold _is_saved in Hsaved.
        destruct (tree_id n); congruence. }
      pose proof (save_fields_writes prec db1 (set_new_parent n1 Unchanged)
                    Hc1 (Ht1 Htree)) as Hw.
      destruct (save_fields prec db1 (set_new_parent n1 Unchanged))
        as [[n2 db2] | e2]; discriminate.
    + destruct (move_node_raise _ _ _ _ _ _ _ _ _ _ Hmove)
        as (-> & Hpk & Hinv).
      injection Hsave as <- <- <-. split; [reflexivity|].
      exists t1. unfold parent. cbn.
      split; [reflexivity|]. split; [reflexivity|].
      split; [exact Hpk|].
      intros H. split; [|exact (Hinv H)].
      rewrite (Hinv H), <- Hnp. apply set_new_parent_same.
Qed.

Lemma failed_save_keeps_new_parent_witness :
  exists n msg,
    set_parent node_1 (Some node_4) = Ok n
    /\ save 6 99 example_tree n = (Raise (InvalidMove msg), n, example_tree)
    /\ parent example_tree n = Some node_4.
Proof.
  assert (Hset : exists n, set_parent node_1 (Some node_4) = Ok n).
  { eexists. vm_compute. reflexivity. }
  destruct Hset as [n Hset].
  assert (Hsave : exists msg n' db',
             save 6 99 example_tree n = (Raise (InvalidMove msg), n', db')).
  { vm_compute in Hset. injection Hset as <-.
    eexists _, _, _. vm_compute. reflexivity. }
  destruct Hsave as (msg & n' & db' & Hsave).
  destruct (failed_save_keeps_new_parent 6 99 example_tree db' node_1 n n'
              (Some node_4) (InvalidMove msg) Hset Hsave)
    as (-> & t' & _ & Hparent & _ & Hinv).
  destruct (Hinv eq_refl) as [-> ->].
  exists n, msg. auto.
Defined.

End SaveParent.

(** * What the columns keep *)

Module ColumnFacts.
Import Dec DecFacts.

Section Places.
Variable places : positive.

Local Abbreviation unit_in_last_place := (pow10 (Zpos places)).

Lemma quantize_eq (x : Q) :
  quantize places x
  == inject_Z (round_half_even (x * unit_in_last_place)) / unit_in_last_place.
Proof. unfold quantize. apply Qred_correct. Qed.

Lemma quantize_proper (x y : Q) :
  x == y -> quantize places x == quantize places y.
Proof.
  intros E. rewrite !quantize_eq.
  rewrite (rhe_proper (x * unit_in_last_place) (y * unit_in_last_place));
    [reflexivity | rewrite E; reflexivity].
Qed.


(** A value with no more than [places] decimal places is kept as it is. *)
Lemma quantize_grid (z : Z) :
  quantize places (inject_Z z / unit_in_last_place)
  == inject_Z z / unit_in_last_place.
Proof.
  rewrite quantize_eq.
  pose proof (pow10_pos (Zpos places)) as Hp.
  rewrite (rhe_proper _ (inject_Z z)); [rewrite rhe_Z; reflexivity|].
  field. lra.
Qed.

Lemma quantize_Z (z : Z) : quantize places (inject_Z z) == inject_Z z.
Proof.
  pose proof (pow10_pos (Zpos places)) as Hp.
  assert (E : inject_Z z
              == inject_Z (z * 10 ^ Zpos places) / unit_in_last_place).
  { rewrite inject_Z_mult, <- pow10_Z by lia. field. lra. }
  rewrite (quantize_proper _ _ E), quantize_grid. symmetry. exact E.
Qed.

Lemma quantize_idem (x : Q) :
  quantize places (quantize places x) == quantize places x.
Proof.
  rewrite (quantize_proper _ _ (quantize_eq x)), quantize_grid.
  symmetry. apply quantize_eq.
Qed.

(** The column is off by at most half a unit in the last place. *)
Lemma quantize_error (x : Q) :
  Qabs (quantize places x - x) <= (1 # 2) / unit_in_last_place.
Proof.
  rewrite quantize_eq.
  pose proof (pow10_pos (Zpos places)) as Hp.
  destruct (rhe_bounds (x * unit_in_last_place)) as [Lo Hi].
  set (k := inject_Z (round_half_even (x * unit_in_last_place))) in *.
  assert (E : k / unit_in_last_place - x
              == (k - x * unit_in_last_place) / unit_in_last_place)
    by (field; lra).
  rewrite E. apply Qabs_case; intros _.
  - apply Qle_shift_div_l; [exact Hp|].
    assert (E2 : (1 # 2) / unit_in_last_place * unit_in_last_place == 1 # 2)
      by (field; lra).
    unfold Qdiv in *.
    assert (E3 : (k - x * unit_in_last_place) * / unit_in_last_place
                 * unit_in_last_place == k - x * unit_in_last_place)
      by (field; lra).
    lra.
  - apply Qle_shift_div_l; [exact Hp|].
    assert (E3 : - ((k - x * unit_in_last_place) / unit_in_last_place)
                 * unit_in_last_place == - (k - x * unit_in_last_place))
      by (field; lra).
    assert (E2 : (1 # 2) / unit_in_last_place * unit_in_last_place == 1 # 2)
      by (field; lra).
    lra.
Qed.

End Places.

End ColumnFacts.

(** * Moves: the linear transform *)

Module MoveTransform.
Import Dec DecFacts QueryFacts Rebalancer MoveLegality ColumnFacts.


Lemma eval_converter (prec : positive) (ol or nl nr : Q) (r : Row) :
  ~ dsub prec or ol == 0 ->
  eval_fexpr r (get_range_conversion_f_expression_generator
                  prec ol or nl nr "left")
  = Some ((row_left r - ol) * dsub prec nr nl / dsub prec or ol + nl)
  /\ eval_fexpr r (get_range_conversion_f_expression_generator
                     prec ol or nl nr "right")
     = Some ((row_right r - ol) * dsub prec nr nl / dsub prec or ol + nl).
Proof.
  intros Hnz. unfold get_range_conversion_f_expression_generator. cbn.
  destruct (Qeq_bool (dsub prec or ol) 0) eqn:E.
  - apply Qeq_bool_iff in E. contradiction.
  - split; reflexivity.
Qed.

(** What the batched update does to each row. *)
Lemma update_where_rows (places : positive) (p : Row -> bool) (u : Updates)
    (db db' : Store) :
  update_where places p u db = Ok db' ->
  Forall2 (fun r r' =>
             if p r then apply_updates places u r = Some r' else r' = r)
          db db'.
Proof.
  revert db'. induction db as [|r db IH]; intros db' H; cbn in H.
  - injection H as <-. constructor.
  - destruct (update_where places p u db) as [rest | e]; cbn in H;
      [|discriminate].
    destruct (p r) eqn:Hp.
    + destruct (apply_updates places u r) as [r'|] eqn:Ha; [|discriminate].
      injection H as <-. constructor; [rewrite Hp; exact Ha | auto].
    + injection H as <-. constructor; [rewrite Hp; reflexivity | auto].
Qed.

Lemma update_where_succeeds (places : positive) (p : Row -> bool)
    (u : Updates) (db : Store) :
  (forall r, In r db -> p r = true -> apply_updates places u r <> None) ->
  exists db', update_where places p u db = Ok db'.
Proof.
  induction db as [|r db IH]; intros H; cbn.
  - eauto.
  - destruct IH as [rest ->]; [intros r' Hr'; apply H; now right|].
    cbn. destruct (p r) eqn:Hp; [|eauto].
    destruct (apply_updates places u r) as [r'|] eqn:Ha; [eauto|].
    exfalso. apply (H r); auto. now left.
Qed.

Lemma Forall2_same {A : Type} (P : A -> A -> Prop) (l : list A) :
  (forall a, In a l -> P a a) -> Forall2 P l l.
Proof.
  induction l as [|a l IH]; intros H; constructor.
  - apply H. now left.
  - apply IH. intros b Hb. apply H. now right.
Qed.

Lemma Forall2_impl_In {A : Type} (P Q : A -> A -> Prop) (l l' : list A) :
  (forall a b, In a l -> P a b -> Q a b) ->
  Forall2 P l l' -> Forall2 Q l l'.
Proof.
  intros H F. induction F as [|a b l l' Hab F IH]; constructor.
  - apply H; [now left | exact Hab].
  - apply IH. intros x y Hx. apply H. now right.
Qed.


Lemma descendant_count_zero (db : Store) (node : Node) :
  get_descendant_count db node = Ok 0%Z ->
  forall r, In r db -> descendant_filter node r = false.
Proof.
  unfold get_descendant_count, bind. intros H r Hr.
  destruct (pk_truthy node) eqn:Hpk.
  - rewrite get_descendants_saved in H by exact Hpk.
    injection H as H. rewrite length_map in H.
    destruct (descendant_filter node r) eqn:Hf; [|reflexivity].
    assert (Hin : In r (filter (descendant_filter node) (order_rows db))).
    { apply filter_In. split; [apply In_order_rows, Hr | exact Hf]. }
    destruct (filter (descendant_filter node) (order_rows db));
      [contradiction | cbn in H; lia].
  - rewrite get_descendants_unsaved in H by exact Hpk. discriminate.
Qed.





End MoveTransform.

(** * The allocation never divides by zero and stays inside its range *)

Module AllocationRange.
Import Dec DecFacts QueryFacts BoundArithmetic.

Lemma ctx_round_neg (prec : positive) (x : Q) : x < 0 -> ctx_round prec x < 0.
Proof.
  intros H.
  assert (E : x == - - x) by ring.
  rewrite (ctx_round_proper prec _ _ E), ctx_round_opp.
  pose proof (ctx_round_pos prec (- x) ltac:(lra)). lra.
Qed.

Lemma ctx_round_eq0 (prec : positive) (x : Q) :
  ctx_round prec x == 0 <-> x == 0.
Proof.
  split; intros H.
  - destruct (Q_dec x 0) as [[L | G] | E]; [| | exact E].
    + pose proof (ctx_round_neg prec x L). lra.
    + pose proof (ctx_round_pos prec x G). lra.
  - rewrite (ctx_round_zero prec x H). reflexivity.
Qed.

Lemma ctx_round_one (prec : positive) : ctx_round prec 1 == 1.
Proof. apply (ctx_round_digit prec 1). lia. Qed.

Lemma ctx_round_two (prec : positive) : ctx_round prec 2 == 2.
Proof. apply (ctx_round_digit prec 2). lia. Qed.

Lemma ctx_round_minus (prec : positive) (z : Z) :
  (0 < z < 10)%Z -> ctx_round prec (- inject_Z z) == - inject_Z z.
Proof.
  intros H. rewrite ctx_round_opp, (ctx_round_digit prec z H). reflexivity.
Qed.

(** The sign of [Decimal("2") * count]. *)
Lemma doubled_count_cases (prec : positive) (count : Z) :
  ((1 <= count)%Z /\ 2 <= dmul prec 2 (inject_Z count))
  \/ (count = 0%Z /\ dmul prec 2 (inject_Z count) == 0)
  \/ ((count <= -1)%Z /\ dmul prec 2 (inject_Z count) <= - (2)).
Proof.
  unfold dmul.
  destruct (Z_lt_le_dec 0 count) as [Hp | Hn].
  - left. split; [lia|].
    assert (1 <= inject_Z count)
      by (change 1 with (inject_Z 1); rewrite <- Zle_Qle; lia).
    pose proof (ctx_round_two prec) as E.
    pose proof (ctx_round_mono prec 2 (2 * inject_Z count) ltac:(lra)). lra.
  - destruct (Z.eq_dec count 0) as [-> | Hz].
    + right. left. split; [reflexivity|].
      rewrite (ctx_round_zero prec (2 * inject_Z 0)); reflexivity.
    + right. right. split; [lia|].
      assert (inject_Z count <= - (1)).
      { change (- (1)) with (inject_Z (-1)). rewrite <- Zle_Qle. lia. }
      pose proof (ctx_round_minus prec 2 ltac:(lia)) as E.
      change (inject_Z 2) with 2 in E.
      pose proof (ctx_round_mono prec (2 * inject_Z count) (- (2))
                    ltac:(lra)). lra.
Qed.

Lemma sub_divisor_sign (prec : positive) (count : Z) :
  ((0 <= count)%Z /\ 1 <= dadd prec (dmul prec 2 (inject_Z count)) 1)
  \/ ((count <= -1)%Z /\ dadd prec (dmul prec 2 (inject_Z count)) 1 <= - (1)).
Proof.
  pose proof (ctx_round_one prec) as E1.
  pose proof (ctx_round_minus prec 1 ltac:(lia)) as Em.
  change (inject_Z 1) with 1 in Em.
  destruct (doubled_count_cases prec count) as [[Hc H] | [[Hc H] | [Hc H]]];
    unfold dadd.
  - left. split; [lia|].
    pose proof (ctx_round_mono prec 1 (dmul prec 2 (inject_Z count) + 1)
                  ltac:(lra)). lra.
  - left. split; [lia|].
    pose proof (ctx_round_mono prec 1 (dmul prec 2 (inject_Z count) + 1)
                  ltac:(lra)). lra.
  - right. split; [lia|].
    pose proof (ctx_round_mono prec (dmul prec 2 (inject_Z count) + 1) (- (1))
                  ltac:(lra)). lra.
Qed.

Lemma root_divisor_sign (prec : positive) (count : Z) :
  ((1 <= count)%Z /\ 1 <= dsub prec (dmul prec 2 (inject_Z count)) 1)
  \/ ((count <= 0)%Z /\ dsub prec (dmul prec 2 (inject_Z count)) 1 <= - (1)).
Proof.
  pose proof (ctx_round_one prec) as E1.
  pose proof (ctx_round_minus prec 1 ltac:(lia)) as Em.
  change (inject_Z 1) with 1 in Em.
  destruct (doubled_count_cases prec count) as [[Hc H] | [[Hc H] | [Hc H]]];
    unfold dsub.
  - left. split; [lia|].
    pose proof (ctx_round_mono prec 1 (dmul prec 2 (inject_Z count) - 1)
                  ltac:(lra)). lra.
  - right. split; [lia|].
    pose proof (ctx_round_mono prec (dmul prec 2 (inject_Z count) - 1) (- (1))
                  ltac:(lra)). lra.
  - right. split; [lia|].
    pose proof (ctx_round_mono prec (dmul prec 2 (inject_Z count) - 1) (- (1))
                  ltac:(lra)). lra.
Qed.

Lemma ddiv_eq0 (prec : positive) (x d : Q) :
  ~ d == 0 -> (ddiv prec x d == 0 <-> x == 0).
Proof.
  intros Hd. unfold ddiv. rewrite ctx_round_eq0. split; intros H.
  - assert (E : x == x / d * d) by (field; exact Hd).
    rewrite E, H. ring.
  - rewrite H. unfold Qdiv. ring.
Qed.

(** For every integer [count] and every precision the two divisors of
    intervals.py, [Decimal("2") * count + Decimal("1")] and
    [Decimal("2") * count - Decimal("1")], are non-zero: neither
    [_calculate_sub_interval] nor the whole-tree interval divides by
    zero.  The increment of the whole-tree interval is never zero; the
    increment of a sub-interval is zero exactly when the outer range is
    empty, and then [IntervalTooSmall] is raised. *)
Theorem allocation_never_divides_by_zero
    (prec : positive) (db : Store) (position : string) (ol or : Q)
    (count : Z) :
  ~ dadd prec (dmul prec 2 (inject_Z count)) 1 == 0
  /\ ~ dsub prec (dmul prec 2 (inject_Z count)) 1 == 0
  /\ (forall iv,
        get_interval_for_insertion_relative_to prec db None position count
        = Ok iv ->
        ~ i_increment iv == 0)
  /\ (forall iv,
        _calculate_sub_interval prec ol or count = Ok iv ->
        ~ ol == or /\ ~ i_increment iv == 0)
  /\ (ol == or ->
      _calculate_sub_interval prec ol or count
      = Raise (IntervalTooSmall "The interval has gotten too small! Oh noes!")).
Proof.
  assert (Hs : ~ dadd prec (dmul prec 2 (inject_Z count)) 1 == 0).
  { destruct (sub_divisor_sign prec count) as [[_ H] | [_ H]]; lra. }
  assert (Hr : ~ dsub prec (dmul prec 2 (inject_Z count)) 1 == 0).
  { destruct (root_divisor_sign prec count) as [[_ H] | [_ H]]; lra. }
  assert (Hempty : ol == or ->
            _calculate_sub_interval prec ol or count
            = Raise (IntervalTooSmall
                       "The interval has gotten too small! Oh noes!")).
  { intros E.
    destruct (calculate_sub_interval_cases prec ol or count)
      as [[_ H] | [C _]]; [exact H|].
    exfalso. apply C.
    assert (E0 : ddiv prec (dsub prec or ol)
                   (dadd prec (dmul prec 2 (inject_Z count)) 1) == 0).
    { apply ddiv_eq0; [exact Hs|]. unfold dsub. apply ctx_round_eq0. lra. }
    revert E0.
    generalize (ddiv prec (dsub prec or ol)
                  (dadd prec (dmul prec 2 (inject_Z count)) 1)).
    intros inc E0. unfold dadd, dsub.
    apply ctx_round_proper. lra. }
  split; [exact Hs|]. split; [exact Hr|]. split; [|split].
  - intros iv H. unfold get_interval_for_insertion_relative_to in H.
    destruct (negb (position_in position valid_positions)); [discriminate|].
    injection H as <-. cbn [i_increment].
    rewrite ddiv_eq0 by exact Hr. lra.
  - intros iv H.
    assert (Hne : ~ ol == or).
    { intros E. rewrite (Hempty E) in H. discriminate. }
    split; [exact Hne|].
    unfold _calculate_sub_interval in H.
    destruct (deq _ _); [discriminate|]. injection H as <-.
    cbn [i_increment]. rewrite ddiv_eq0 by exact Hs.
    unfold dsub. rewrite ctx_round_eq0. lra.
  - exact Hempty.
Qed.

(** A rounded value is representable: rounding it again changes nothing. *)
Lemma ctx_round_idem_pos (prec : positive) (x : Q) :
  0 < x -> ctx_round prec (ctx_round prec x) == ctx_round prec x.
Proof.
  intros Hx.
  pose proof (ctx_round_pos prec x Hx) as Hy.
  destruct (scaled_pos prec x Hx) as (Hl & _ & _).
  destruct (rhe_scaled_pos prec x Hx) as [Mlo Mhi].
  destruct (ctx_round_pos_bounds prec x Hx) as [Blo Bhi].
  pose proof (ctx_round_nonzero prec x ltac:(lra)) as E.
  pose proof (pow10_pos (lsd prec x)) as Hu.
  destruct (scaled_pos prec _ Hy) as (Hl' & _ & _).
  set (m := round_half_even (x / pow10 (lsd prec x))) in *.
  destruct (Z.eq_dec m (10 ^ Zpos prec)) as [Em | Nm].
  - (* the value rounds up to the next power of ten *)
    assert (Ey : ctx_round prec x == pow10 (decade x + 1)).
    { rewrite E, Em, <- pow10_Z, <- pow10_add by lia.
      replace (Zpos prec + lsd prec x)%Z with (decade x + 1)%Z by lia.
      reflexivity. }
    assert (Hd : decade (ctx_round prec x) = (decade x + 1)%Z).
    { apply decade_unique; rewrite Ey; [lra|]. apply pow10_lt. lia. }
    apply (ctx_round_exact prec _ (10 ^ (Zpos prec - 1))).
    rewrite Hl', Hd, <- pow10_Z, <- pow10_add by lia.
    replace (Zpos prec - 1 + (decade x + 1 - (Zpos prec - 1)))%Z
      with (decade x + 1)%Z by lia.
    exact Ey.
  - assert (Hd : decade (ctx_round prec x) = decade x).
    { apply decade_unique; [exact Blo|].
      rewrite E.
      replace (decade x + 1)%Z with (Zpos prec + lsd prec x)%Z by lia.
      rewrite pow10_add.
      apply Qmult_lt_compat_r; [exact Hu|].
      rewrite (pow10_Z (Zpos prec)) by lia.
      rewrite <- Zlt_Qlt. lia. }
    apply (ctx_round_exact prec _ m).
    rewrite Hl', Hd, <- Hl. exact E.
Qed.

Lemma ctx_round_idem (prec : positive) (x : Q) :
  representable prec (ctx_round prec x).
Proof.
  unfold representable.
  destruct (Q_dec x 0) as [[L | G] | E].
  - assert (Ex : x == - - x) by ring.
    pose proof (ctx_round_proper prec _ _ Ex) as E1.
    rewrite ctx_round_opp in E1.
    rewrite (ctx_round_proper prec _ _ E1), ctx_round_opp.
    rewrite ctx_round_idem_pos by lra. symmetry. exact E1.
  - apply ctx_round_idem_pos, G.
  - rewrite (ctx_round_zero prec x E). reflexivity.
Qed.

Lemma sub_interval_range
    (prec : positive) (ol or : Q) (count : Z) (iv : Interval) :
  ol < or -> (1 <= count)%Z ->
  representable prec ol -> representable prec or ->
  _calculate_sub_interval prec ol or count = Ok iv ->
  0 < i_increment iv
  /\ ol <= i_left iv /\ i_left iv < i_right iv /\ i_right iv <= or
  /\ representable prec (i_left iv) /\ representable prec (i_right iv)
  /\ representable prec (i_increment iv).
Proof.
  intros Hlt Hc Rl Rr H.
  pose proof (divisor_ge_3 prec count Hc) as Hk.
  pose proof (sub_interval_ordered prec ol or count Hlt Hc) as Hle.
  destruct (calculate_sub_interval_cases prec ol or count)
    as [[_ E] | [C E]]; rewrite E in H; [discriminate|].
  injection H as <-. cbn [i_left i_right i_increment].
  cbn zeta in Hle.
  assert (Hinc : 0 < ddiv prec (dsub prec or ol)
                       (dadd prec (dmul prec 2 (inject_Z count)) 1)).
  { unfold ddiv. apply ctx_round_pos.
    apply Qlt_shift_div_l; [lra|].
    assert (0 < dsub prec or ol) by (apply ctx_round_pos; lra). lra. }
  assert (Rinc : representable prec
                   (ddiv prec (dsub prec or ol)
                      (dadd prec (dmul prec 2 (inject_Z count)) 1)))
    by apply ctx_round_idem.
  revert C Hle Hinc Rinc.
  generalize (ddiv prec (dsub prec or ol)
                (dadd prec (dmul prec 2 (inject_Z count)) 1)).
  intros inc C Hle Hinc Rinc.
  split; [exact Hinc|]. split; [|split; [|split]].
  - unfold representable in Rl. rewrite <- Rl at 1.
    apply ctx_round_mono. lra.
  - apply Qle_lt_or_eq in Hle. destruct Hle as [L | L]; [exact L|].
    contradiction.
  - unfold representable in Rr. rewrite <- Rr at 2.
    apply ctx_round_mono. lra.
  - split; [apply ctx_round_idem|]. split; [apply ctx_round_idem|].
    exact Rinc.
Qed.

(** A successful allocation in a proper range whose ends are decimals of
    the context precision returns a range inside it: the increment is
    positive, [outer_left <= left < right <= outer_right], and the new
    bounds are decimals of the context precision again. *)
Theorem sub_interval_within_range
    (prec : positive) (ol or : Q) (count : Z) (iv : Interval) :
  ol < or -> (1 <= count)%Z ->
  representable prec ol -> representable prec or ->
  _calculate_sub_interval prec ol or count = Ok iv ->
  0 < i_increment iv
  /\ ol <= i_left iv /\ i_left iv < i_right iv /\ i_right iv <= or
  /\ representable prec (i_left iv) /\ representable prec (i_right iv)
  /\ representable prec (i_increment iv).
Proof. apply sub_interval_range. Qed.

Lemma sub_interval_within_range_witness :
  exists iv,
    _calculate_sub_interval 6 (1 # 10) (2 # 10) 2 = Ok iv
    /\ 0 < i_increment iv
    /\ 1 # 10 <= i_left iv /\ i_left iv < i_right iv /\ i_right iv <= 2 # 10
    /\ i_left iv == 12 # 100 /\ i_right iv == 18 # 100.
Proof.
  assert (H : exists iv,
             _calculate_sub_interval 6 (1 # 10) (2 # 10) 2 = Ok iv
             /\ i_left iv == 12 # 100 /\ i_right iv == 18 # 100).
  { eexists. split; [vm_compute; reflexivity|]. split; reflexivity. }
  destruct H as (iv & H & El & Er).
  destruct (sub_interval_within_range 6 (1 # 10) (2 # 10) 2 iv
              ltac:(reflexivity) ltac:(lia)
              ltac:(vm_compute; reflexivity) ltac:(vm_compute; reflexivity) H)
    as (H1 & H2 & H3 & H4 & _).
  exists iv. auto 10.
Defined.

Lemma allocation_never_divides_by_zero_witness :
  exists iv,
    _calculate_sub_interval 6 0 1 1 = Ok iv /\ ~ i_increment iv == 0.
Proof.
  assert (H : exists iv, _calculate_sub_interval 6 0 1 1 = Ok iv).
  { eexists. vm_compute. reflexivity. }
  destruct H as (iv & H).
  destruct (allocation_never_divides_by_zero 6 [] "last-child" 0 1 1)
    as (_ & _ & _ & H4 & _).
  exists iv. split; [exact H|]. apply (H4 iv H).
Defined.

End AllocationRange.

(** * Trees in a well-formed store *)

Module TreeFacts.
Import QueryFacts.

Lemma dle_iff (x y : Q) : Dec.dle x y = true <-> x <= y.
Proof. unfold Dec.dle. apply Qle_bool_iff. Qed.

(** ** Counting with filters *)

Lemma filter_length_le {A : Type} (p q : A -> bool) (l : list A) :
  (forall x, In x l -> p x = true -> q x = true) ->
  (List.length (filter p l) <= List.length (filter q l))%nat.
Proof.
  induction l as [|x l IH]; intros H; cbn; [lia|].
  assert (IH' : (List.length (filter p l) <= List.length (filter q l))%nat).
  { apply IH. intros y Hy. apply H. now right. }
  destruct (p x) eqn:Px.
  - rewrite (H x (or_introl eq_refl) Px). cbn. lia.
  - destruct (q x); cbn; lia.
Qed.

Lemma filter_length_lt {A : Type} (p q : A -> bool) (l : list A) (y : A) :
  (forall x, In x l -> p x = true -> q x = true) ->
  In y l -> q y = true -> p y = false ->
  (List.length (filter p l) < List.length (filter q l))%nat.
Proof.
  induction l as [|x l IH]; intros H Hy Qy Py; [contradiction|].
  assert (Hle : (List.length (filter p l) <= List.length (filter q l))%nat).
  { apply filter_length_le. intros z Hz. apply H. now right. }
  cbn. destruct Hy as [-> | Hy].
  - rewrite Qy, Py. cbn. lia.
  - assert (IH' : (List.length (filter p l) < List.length (filter q l))%nat).
    { apply IH; auto. intros z Hz. apply H. now right. }
    destruct (p x) eqn:Px.
    + rewrite (H x (or_introl eq_refl) Px). cbn. lia.
    + destruct (q x); cbn; lia.
Qed.

(** [q] selects what [p] selects and one more element. *)
Lemma filter_length_succ {A : Type} (p q : A -> bool) (l : list A) (c : A) :
  NoDup l -> In c l -> p c = false -> q c = true ->
  (forall x, In x l -> x <> c -> q x = p x) ->
  List.length (filter q l) = S (List.length (filter p l)).
Proof.
  induction l as [|x l IH]; intros Hnd Hc Pc Qc H; [contradiction|].
  inversion Hnd as [|? ? Hx Hnd']; subst.
  cbn. destruct Hc as [-> | Hc].
  - rewrite Pc, Qc. cbn. f_equal.
    f_equal. apply filter_ext_in. intros y Hy. apply H; [now right|].
    intros ->. contradiction.
  - assert (Hxc : x <> c) by (intros ->; contradiction).
    rewrite (H x (or_introl eq_refl) Hxc).
    assert (IH' : List.length (filter q l) = S (List.length (filter p l))).
    { apply IH; auto. intros y Hy. apply H. now right. }
    destruct (p x); cbn; lia.
Qed.

Lemma max_element {A : Type} (f : A -> Z) (l : list A) :
  l <> [] -> exists m, In m l /\ forall x, In x l -> (f x <= f m)%Z.
Proof.
  induction l as [|a l IH]; intros H; [contradiction|].
  destruct l as [|b l].
  - exists a. split; [now left|]. intros x [-> | []]. lia.
  - destruct IH as (m & Hm & Hmax); [discriminate|].
    destruct (Z_le_gt_dec (f a) (f m)) as [L | G].
    + exists m. split; [now right|].
      intros x [-> | Hx]; [exact L | apply Hmax, Hx].
    + exists a. split; [now left|].
      intros x [-> | Hx]; [lia|]. specialize (Hmax x Hx). lia.
Qed.

Lemma length_one_eq {A : Type} (l : list A) (a b : A) :
  List.length l = 1%nat -> In a l -> In b l -> a = b.
Proof.
  destruct l as [|x [|y l]]; cbn; try discriminate.
  intros _ [<- | []] [<- | []]. reflexivity.
Qed.

(** ** Primary keys *)

Lemma unique_pks_eq (db : Store) :
  unique_pks db = true ->
  forall a b, In a db -> In b db -> row_pk a = row_pk b -> a = b.
Proof.
  induction db as [|r db IH]; intros H a b Ha Hb E; [contradiction|].
  cbn in H. apply andb_true_iff in H. destruct H as [Hr Hu].
  apply negb_true_iff in Hr.
  assert (Hfresh : forall s, In s db -> row_pk s <> row_pk r).
  { intros s Hs Es.
    assert (existsb (fun s => (row_pk s =? row_pk r)%Z) db = true).
    { apply existsb_exists. exists s. split; [exact Hs|].
      apply Z.eqb_eq, Es. }
    congruence. }
  destruct Ha as [<- | Ha], Hb as [<- | Hb].
  - reflexivity.
  - exfalso. apply (Hfresh b Hb). congruence.
  - exfalso. apply (Hfresh a Ha). congruence.
  - apply IH; assumption.
Qed.

Lemma unique_pks_NoDup (db : Store) : unique_pks db = true -> NoDup db.
Proof.
  induction db as [|r db IH]; intros H; constructor.
  - cbn in H. apply andb_true_iff in H. destruct H as [Hr _].
    apply negb_true_iff in Hr. intros Hin.
    assert (existsb (fun s => (row_pk s =? row_pk r)%Z) db = true).
    { apply existsb_exists. exists r. split; [exact Hin|].
      apply Z.eqb_refl. }
    congruence.
  - apply IH. cbn in H. apply andb_true_iff in H. tauto.
Qed.

Lemma nonzero_pks_in (db : Store) (r : Row) :
  nonzero_pks db = true -> In r db -> pk_truthy (from_db r) = true.
Proof.
  unfold nonzero_pks. rewrite forallb_forall. intros H Hr.
  unfold pk_truthy. cbn. apply H, Hr.
Qed.

(** ** The invariants, row by row *)

Lemma around_iff (a b : Row) :
  around a b = true
  <-> row_tree_id a = row_tree_id b
      /\ row_left b < row_left a /\ row_right a < row_right b.
Proof.
  unfold around, same_tree, strictly_inside.
  rewrite !andb_true_iff, Z.eqb_eq, !dlt_iff. tauto.
Qed.

Lemma around_irrefl (a : Row) : around a a = false.
Proof.
  destruct (around a a) eqn:E; [|reflexivity].
  apply around_iff in E. destruct E as (_ & H & _). lra.
Qed.

Lemma around_trans (a b c : Row) :
  around a b = true -> around b c = true -> around a c = true.
Proof.
  rewrite !around_iff. intros (T1 & L1 & R1) (T2 & L2 & R2).
  split; [congruence|]. split; lra.
Qed.

Section WellFormed.

Variable db : Store.
Hypothesis wf : well_formed db.

Lemma wf_invariants :
  invariant_I1 db = true /\ invariant_I2 db = true
  /\ invariant_I4 db = true /\ invariant_I5 db = true.
Proof.
  destruct wf as (H & _). unfold invariants in H.
  rewrite !andb_true_iff in H. tauto.
Qed.

Lemma wf_unique (a b : Row) :
  In a db -> In b db -> row_pk a = row_pk b -> a = b.
Proof. destruct wf as (_ & H & _). apply unique_pks_eq, H. Qed.

Lemma wf_NoDup : NoDup db.
Proof. destruct wf as (_ & H & _). apply unique_pks_NoDup, H. Qed.

Lemma wf_saved (r : Row) : In r db -> pk_truthy (from_db r) = true.
Proof. destruct wf as (_ & _ & H). intros Hr. eapply nonzero_pks_in; eauto. Qed.

Lemma wf_I1 (r : Row) : In r db -> row_left r < row_right r.
Proof.
  destruct wf_invariants as (H & _). unfold invariant_I1 in H.
  rewrite forallb_forall in H. intros Hr. apply dlt_iff, H, Hr.
Qed.

Lemma wf_I2 (a b : Row) :
  In a db -> In b db ->
  row_tree_id a = row_tree_id b -> row_pk a <> row_pk b ->
  around a b = true \/ around b a = true
  \/ row_right a < row_left b \/ row_right b < row_left a.
Proof.
  destruct wf_invariants as (_ & H & _). unfold invariant_I2 in H.
  rewrite forallb_forall in H. intros Ha Hb Ht Hpk.
  specialize (H a Ha). rewrite forallb_forall in H. specialize (H b Hb).
  rewrite !orb_true_iff, negb_true_iff, !dlt_iff in H.
  unfold around, same_tree in *.
  assert (T : (row_tree_id a =? row_tree_id b)%Z = true)
    by (apply Z.eqb_eq, Ht).
  assert (T' : (row_tree_id b =? row_tree_id a)%Z = true)
    by (apply Z.eqb_eq; congruence).
  rewrite T, T'. cbn [andb].
  destruct H as [[[[[H | H] | H] | H] | H] | H]; auto.
  - congruence.
  - apply Z.eqb_eq in H. contradiction.
Qed.

Lemma wf_I4 (a : Row) :
  In a db -> row_level a = Z.of_nat (List.length (filter (around a) db)).
Proof.
  destruct wf_invariants as (_ & _ & H & _). unfold invariant_I4 in H.
  rewrite forallb_forall in H. intros Ha. apply Z.eqb_eq, (H a Ha).
Qed.

Lemma wf_I5 (a : Row) :
  In a db ->
  List.length (filter (fun b => same_tree a b && (row_level b =? 0)%Z) db)
  = 1%nat.
Proof.
  destruct wf_invariants as (_ & _ & _ & H). unfold invariant_I5 in H.
  rewrite forallb_forall in H. intros Ha. apply Nat.eqb_eq, (H a Ha).
Qed.

Lemma level_nonneg (a : Row) : In a db -> (0 <= row_level a)%Z.
Proof. intros Ha. rewrite (wf_I4 a Ha). lia. Qed.

(** A row is at a deeper level than the rows around it. *)
Lemma level_lt (a b : Row) :
  In a db -> In b db -> around a b = true -> (row_level b < row_level a)%Z.
Proof.
  intros Ha Hb Hab. rewrite (wf_I4 a Ha), (wf_I4 b Hb).
  apply inj_lt.
  apply (filter_length_lt _ _ _ b); auto.
  - intros x _ Hx. eapply around_trans; eauto.
  - apply around_irrefl.
Qed.

(** Two rows around the same row are nested. *)
Lemma around_nested (a b c : Row) :
  In a db -> In b db -> In c db ->
  around a b = true -> around a c = true ->
  b = c \/ around b c = true \/ around c b = true.
Proof.
  intros Ha Hb Hc Hab Hac.
  destruct (Z.eq_dec (row_pk b) (row_pk c)) as [E | NE].
  - left. apply wf_unique; assumption.
  - right.
    apply around_iff in Hab, Hac.
    destruct Hab as (T1 & L1 & R1), Hac as (T2 & L2 & R2).
    destruct (wf_I2 b c Hb Hc ltac:(congruence) NE) as [H | [H | [H | H]]];
      auto; pose proof (wf_I1 a Ha); lra.
Qed.

(** Every row lies inside a row at level 0 of its tree, or is one. *)
Lemma root_above (n : nat) :
  forall a, In a db -> row_level a = Z.of_nat n ->
    exists rho, In rho db /\ row_tree_id rho = row_tree_id a
                /\ row_level rho = 0%Z
                /\ (rho = a \/ around a rho = true).
Proof.
  induction n as [n IH] using lt_wf_ind. intros a Ha Hl.
  destruct n as [|n].
  - exists a. auto.
  - pose proof (wf_I4 a Ha) as H4.
    destruct (filter (around a) db) as [|c cs] eqn:E.
    { cbn in H4. lia. }
    assert (Hc : In c (filter (around a) db)) by (rewrite E; now left).
    apply filter_In in Hc. destruct Hc as [Hc Hac].
    pose proof (level_lt a c Ha Hc Hac) as Hlt.
    pose proof (level_nonneg c Hc) as H0.
    destruct (IH (Z.to_nat (row_level c)) ltac:(lia) c Hc ltac:(lia))
      as (rho & Hrho & Ht & Hl0 & Hrel).
    exists rho. split; [exact Hrho|].
    apply around_iff in Hac. destruct Hac as (Tac & Lac & Rac).
    split; [congruence|]. split; [exact Hl0|]. right.
    destruct Hrel as [-> | Hrel].
    + apply around_iff. auto.
    + eapply around_trans; [|exact Hrel]. apply around_iff. auto.
Qed.

Lemma root_unique (a b : Row) :
  In a db -> In b db -> row_tree_id a = row_tree_id b ->
  row_level a = 0%Z -> row_level b = 0%Z -> a = b.
Proof.
  intros Ha Hb Ht La Lb.
  apply (length_one_eq _ a b (wf_I5 a Ha)); apply filter_In; split; auto;
    unfold same_tree; apply andb_true_iff; split;
    try (apply Z.eqb_eq; congruence).
Qed.

(** Nothing is strictly around a row at level 0. *)
Lemma root_outermost (a b : Row) :
  In a db -> In b db -> row_level a = 0%Z -> around a b = false.
Proof.
  intros Ha Hb La. destruct (around a b) eqn:E; [|reflexivity].
  pose proof (level_lt a b Ha Hb E). pose proof (level_nonneg b Hb). lia.
Qed.

(** A row below level 0 has a row around it one level up. *)
Lemma parent_exists (a : Row) :
  In a db -> row_level a <> 0%Z ->
  exists p, In p db /\ around a p = true
            /\ row_level p = (row_level a - 1)%Z.
Proof.
  intros Ha Hl.
  pose proof (wf_I4 a Ha) as H4.
  destruct (max_element row_level (filter (around a) db))
    as (p & Hp & Hmax).
  { intros E. rewrite E in H4. cbn in H4. lia. }
  apply filter_In in Hp. destruct Hp as [Hp Hap].
  exists p. split; [exact Hp|]. split; [exact Hap|].
  rewrite H4, (wf_I4 p Hp).
  rewrite (filter_length_succ (around p) (around a) db p wf_NoDup Hp
             (around_irrefl p) Hap).
  - lia.
  - intros x Hx Hxp.
    destruct (around a x) eqn:Hax.
    + destruct (around_nested a x p Ha Hx Hp Hax Hap) as [E | [H | H]].
      * contradiction.
      * exfalso.
        assert (In x (filter (around a) db)) by (apply filter_In; auto).
        pose proof (Hmax x H0). pose proof (level_lt x p Hx Hp H). lia.
      * symmetry. exact H.
    + destruct (around p x) eqn:Hpx; [|reflexivity].
      rewrite (around_trans a p x Hap Hpx) in Hax. discriminate.
Qed.

Lemma parent_unique (a p q : Row) :
  In a db -> In p db -> In q db ->
  around a p = true -> around a q = true ->
  row_level p = row_level q -> p = q.
Proof.
  intros Ha Hp Hq Hap Haq Hl.
  destruct (around_nested a p q Ha Hp Hq Hap Haq) as [E | [H | H]];
    [exact E | |].
  - pose proof (level_lt p q Hp Hq H). lia.
  - pose proof (level_lt q p Hq Hp H). lia.
Qed.

(** A row whose left bound lies strictly inside another row of its tree
    lies strictly inside that row. *)
Lemma left_inside (a b : Row) :
  In a db -> In b db -> row_tree_id a = row_tree_id b ->
  row_pk a <> row_pk b ->
  row_left b < row_left a -> row_left a < row_right b ->
  around a b = true.
Proof.
  intros Ha Hb Ht Hpk L R.
  pose proof (wf_I1 a Ha) as Ia. pose proof (wf_I1 b Hb) as Ib.
  destruct (wf_I2 a b Ha Hb Ht Hpk) as [H | [H | [H | H]]];
    [exact H | | lra | lra].
  apply around_iff in H. lra.
Qed.

End WellFormed.

End TreeFacts.

(** * Queries on a well-formed store *)

Module TreeQueries.
Import QueryFacts TreeFacts.

(** ** Evaluating querysets *)

Lemma In_insert_by (leb : Row -> Row -> bool) (x r : Row) (l : list Row) :
  In x (insert_by leb r l) <-> x = r \/ In x l.
Proof.
  induction l as [|y l IH]; cbn.
  - intuition.
  - destruct (leb r y); cbn; rewrite ?IH; intuition.
Qed.

Lemma In_sort_by (leb : Row -> Row -> bool) (x : Row) (l : list Row) :
  In x (sort_by leb l) <-> In x l.
Proof.
  induction l as [|y l IH]; cbn; [reflexivity|].
  rewrite In_insert_by, IH. intuition.
Qed.

Lemma In_order_by (o : ordering) (x : Row) (db : Store) :
  In x (order_by o db) <-> In x db.
Proof.
  destruct o; cbn; [apply In_order_rows | apply In_sort_by | apply In_sort_by].
Qed.

Lemma In_fetch_rows (db : Store) (q : QuerySet) (r : Row) :
  In r (fetch_rows db q)
  <-> qs_is_none q = false /\ In r db /\ qs_where q r = true.
Proof.
  unfold fetch_rows. destruct (qs_is_none q).
  - cbn. intuition discriminate.
  - rewrite filter_In, In_order_by. intuition.
Qed.

Lemma In_map_from_db (r : Row) (l : list Row) :
  In (from_db r) (map from_db l) <-> In r l.
Proof.
  rewrite in_map_iff. split.
  - intros (x & E & Hx). apply from_db_inj in E. now subst.
  - intros H. exists r. auto.
Qed.

Lemma In_fetch (db : Store) (q : QuerySet) (r : Row) :
  In (from_db r) (fetch db q)
  <-> qs_is_none q = false /\ In r db /\ qs_where q r = true.
Proof. unfold fetch. rewrite In_map_from_db. apply In_fetch_rows. Qed.

(** [get_descendants] is its queryset, evaluated. *)
Lemma get_descendants_fetch (db : Store) (n : Node) (b : bool) :
  get_descendants db n b
  = (q <- descendants_queryset n b ;; Ok (fetch db q)).
Proof.
  unfold get_descendants, descendants_queryset, raise_if_unsaved.
  destruct (pk_truthy n); reflexivity.
Qed.

Lemma In_get_descendants (db : Store) (n : Node) (r : Row) :
  pk_truthy n = true ->
  exists ds, get_descendants db n false = Ok ds
             /\ (In (from_db r) ds
                 <-> In r db /\ descendant_filter n r = true).
Proof.
  intros Hpk. rewrite get_descendants_saved by exact Hpk.
  eexists. split; [reflexivity|].
  rewrite In_map_from_db, filter_In, In_order_rows. reflexivity.
Qed.

Lemma ancestor_filter_iff (n : Node) (r : Row) :
  ancestor_filter n r = true
  <-> row_left r < left n /\ right n < row_right r
      /\ tree_id n = Some (row_tree_id r) /\ pk n <> Some (row_pk r).
Proof.
  unfold ancestor_filter, matches_tree, matches_pk.
  rewrite !andb_true_iff, negb_true_iff, !dlt_iff.
  destruct (tree_id n) as [t|], (pk n) as [k|];
    rewrite ?Z.eqb_eq, ?Z.eqb_neq; split;
    intros H; decompose [and] H; repeat split; auto; try congruence.
Qed.

(** ** The three readings of "ancestor" on rows of the store *)

Section Fresh.

Variable db : Store.
Hypothesis wf : well_formed db.

Lemma descendant_filter_around (a b : Row) :
  In a db -> In b db ->
  (descendant_filter (from_db a) b = true <-> around b a = true).
Proof.
  intros Ha Hb. rewrite descendant_filter_iff, around_iff. cbn.
  split.
  - intros (L & R & T & P).
    apply around_iff.
    apply (left_inside db wf b a Hb Ha); congruence || lra.
  - intros (T & L & R). pose proof (wf_I1 db wf b Hb).
    repeat split; try lra; try congruence.
    intros E. injection E as E.
    assert (a = b) by (apply (wf_unique db wf); auto). subst. lra.
Qed.

Lemma ancestor_filter_around (a b : Row) :
  In a db -> In b db ->
  (ancestor_filter (from_db b) a = true <-> around b a = true).
Proof.
  intros Ha Hb. rewrite ancestor_filter_iff, around_iff. cbn.
  split.
  - intros (L & R & T & P). repeat split; congruence || lra.
  - intros (T & L & R). repeat split; try lra; try congruence.
    intros E. injection E as E.
    assert (b = a) by (apply (wf_unique db wf); auto). subst. lra.
Qed.

Lemma is_descendant_of_around (a b : Row) :
  In a db -> In b db ->
  (is_descendant_of (from_db b) (from_db a) false = Ok true
   <-> around b a = true).
Proof.
  intros Ha Hb. unfold is_descendant_of, raise_if_unsaved.
  rewrite (wf_saved db wf b Hb). cbn [andb from_db tree_id left right].
  unfold option_Z_eqb. rewrite around_iff.
  destruct (Z.eqb_spec (row_tree_id b) (row_tree_id a)) as [E | NE]; cbn.
  - split.
    + intros H. injection H as H. apply andb_true_iff in H.
      rewrite !dlt_iff in H. tauto.
    + intros (_ & L & R). f_equal. apply andb_true_iff.
      rewrite !dlt_iff. tauto.
  - split; [discriminate | tauto].
Qed.

Lemma is_ancestor_of_around (a b : Row) :
  In a db -> In b db ->
  (is_ancestor_of (from_db a) (from_db b) false = Ok true
   <-> around b a = true).
Proof.
  intros Ha Hb. unfold is_ancestor_of, raise_if_unsaved.
  rewrite (wf_saved db wf a Ha). cbn [andb].
  apply is_descendant_of_around; assumption.
Qed.

Lemma descendant_or_self_around (a b : Row) :
  In a db -> In b db ->
  (descendant_or_self_filter (from_db a) b = true
   <-> a = b \/ around b a = true).
Proof.
  intros Ha Hb.
  unfold descendant_or_self_filter, matches_tree, matches_pk.
  cbn [from_db tree_id pk left right].
  rewrite orb_true_iff, !andb_true_iff, !dle_iff, !Z.eqb_eq.
  split.
  - intros [((L & R) & T) | P].
    + destruct (Z.eq_dec (row_pk a) (row_pk b)) as [E | NE].
      * left. apply (wf_unique db wf); auto.
      * right. pose proof (wf_I1 db wf a Ha). pose proof (wf_I1 db wf b Hb).
        destruct (wf_I2 db wf b a Hb Ha T ltac:(congruence))
          as [H1 | [H1 | [H1 | H1]]]; [exact H1 | | lra | lra].
        apply around_iff in H1. lra.
    + left. apply (wf_unique db wf); auto.
  - intros [<- | H].
    + right. reflexivity.
    + left. apply around_iff in H. pose proof (wf_I1 db wf b Hb).
      repeat split; try lra. tauto.
Qed.

Lemma ancestor_or_self_around (a b : Row) :
  In a db -> In b db ->
  (ancestor_or_self_filter (from_db b) a = true
   <-> a = b \/ around b a = true).
Proof.
  intros Ha Hb.
  unfold ancestor_or_self_filter, matches_tree, matches_pk.
  cbn [from_db tree_id pk left right].
  rewrite orb_true_iff, !andb_true_iff, !dle_iff, !Z.eqb_eq.
  split.
  - intros [((L & R) & T) | P].
    + destruct (Z.eq_dec (row_pk a) (row_pk b)) as [E | NE].
      * left. apply (wf_unique db wf); auto.
      * right. pose proof (wf_I1 db wf a Ha). pose proof (wf_I1 db wf b Hb).
        destruct (wf_I2 db wf b a Hb Ha ltac:(congruence) ltac:(congruence))
          as [H1 | [H1 | [H1 | H1]]]; [exact H1 | | lra | lra].
        apply around_iff in H1. lra.
    + left. apply (wf_unique db wf); auto.
  - intros [<- | H].
    + right. reflexivity.
    + left. apply around_iff in H.
      repeat split; try lra. symmetry. tauto.
Qed.

Lemma is_ancestor_of_self (a b : Row) (include_self : bool) :
  In a db -> In b db ->
  (is_ancestor_of (from_db a) (from_db b) include_self = Ok true
   <-> (include_self = true /\ a = b) \/ around b a = true).
Proof.
  intros Ha Hb. destruct include_self.
  - unfold is_ancestor_of, raise_if_unsaved.
    rewrite (wf_saved db wf a Ha). cbn [andb from_db pk option_Z_eqb].
    destruct (Z.eqb_spec (row_pk b) (row_pk a)) as [E | NE].
    + split; [|reflexivity]. intros _. left. split; [reflexivity|].
      apply (wf_unique db wf); auto.
    + rewrite is_descendant_of_around by assumption.
      split; [tauto|]. intros [[_ ->] | H]; [contradiction | exact H].
  - rewrite is_ancestor_of_around by assumption.
    split; [tauto|]. intros [[H _] | H]; [discriminate | exact H].
Qed.

End Fresh.

(** The ancestors of a stored row, on a well-formed store. *)
Lemma In_get_ancestors (db : Store) (a b : Row)
    (ascending include_self : bool) :
  well_formed db -> In a db -> In b db ->
  exists qs,
    get_ancestors (from_db b) ascending include_self = Ok qs
    /\ (In (from_db a) (fetch db qs)
        <-> (include_self = true /\ a = b) \/ around b a = true).
Proof.
  intros wf Ha Hb.
  pose proof (wf_saved db wf b Hb) as Sb.
  unfold get_ancestors, raise_if_unsaved. rewrite Sb.
  unfold is_root_node. cbn [from_db level].
  destruct (Z.eqb_spec (row_level b) 0) as [L0 | L0].
  - pose proof (root_outermost db wf b a Hb Ha L0) as Hout.
    destruct include_self; eexists; (split; [reflexivity|]);
      rewrite In_fetch; cbn; rewrite Hout.
    + unfold matches_pk. cbn. rewrite Z.eqb_eq. split.
      * intros (_ & _ & E). left. split; [reflexivity|].
        apply (wf_unique db wf); auto.
      * intros [[_ ->] | H]; [auto | discriminate].
    + intuition discriminate.
  - destruct include_self; eexists; (split; [reflexivity|]);
      rewrite In_fetch; cbn [qs_where qs_is_none].
    + rewrite (ancestor_or_self_around db wf a b Ha Hb). intuition.
    + rewrite (ancestor_filter_around db wf a b Ha Hb).
      intuition discriminate.
Qed.

(** On a well-formed store the ancestor queries and the descendant
    queries describe one relation: for two stored rows [a] and [b], [a]
    is among [b.get_ancestors()] exactly when [b] is among
    [a.get_descendants()], exactly when [a.is_ancestor_of(b)], exactly
    when [b.is_descendant_of(a)], and that is when [b] lies strictly
    inside [a] in the same tree; with [include_self] the node itself is
    added on every side.  None of the calls raises. *)
Theorem ancestors_and_descendants_agree
    (db : Store) (a b : Row) (ascending include_self : bool) :
  well_formed db -> In a db -> In b db ->
  exists qs ds,
    get_ancestors (from_db b) ascending include_self = Ok qs
    /\ get_descendants db (from_db a) include_self = Ok ds
    /\ (In (from_db a) (fetch db qs) <-> In (from_db b) ds)
    /\ (In (from_db b) ds
        <-> is_ancestor_of (from_db a) (from_db b) include_self = Ok true)
    /\ (In (from_db b) ds
        <-> is_descendant_of (from_db b) (from_db a) include_self = Ok true)
    /\ (In (from_db b) ds
        <-> (include_self = true /\ a = b)
            \/ (row_tree_id b = row_tree_id a
                /\ row_left a < row_left b /\ row_right b < row_right a)).
Proof.
  intros wf Ha Hb.
  pose proof (wf_saved db wf a Ha) as Sa.
  pose proof (wf_saved db wf b Hb) as Sb.
  assert (Hd : In (from_db b)
                 (map from_db
                    (filter (if include_self
                             then descendant_or_self_filter (from_db a)
                             else descendant_filter (from_db a))
                            (order_rows db)))
               <-> (include_self = true /\ a = b) \/ around b a = true).
  { rewrite In_map_from_db, filter_In, In_order_rows.
    destruct include_self.
    - rewrite (descendant_or_self_around db wf a b Ha Hb). intuition.
    - rewrite (descendant_filter_around db wf a b Ha Hb).
      intuition discriminate. }
  destruct (In_get_ancestors db a b ascending include_self wf Ha Hb)
    as (qs & Eq & Hq).
  exists qs. eexists. split; [exact Eq|].
  split; [apply get_descendants_saved, Sa|].
  rewrite Hd, Hq.
  split; [reflexivity|].
  split; [symmetry; apply (is_ancestor_of_self db wf); assumption|].
  split.
  - unfold is_descendant_of, raise_if_unsaved. rewrite Sb.
    cbn [from_db pk tree_id left right option_Z_eqb].
    destruct include_self; cbn [andb].
    + destruct (Z.eqb_spec (row_pk a) (row_pk b)) as [E | NE].
      * split; [reflexivity|]. intros _. left. split; [reflexivity|].
        apply (wf_unique db wf); auto.
      * pose proof (is_descendant_of_around db wf a b Ha Hb) as H.
        unfold is_descendant_of, raise_if_unsaved in H. rewrite Sb in H.
        cbn [from_db pk tree_id left right option_Z_eqb andb] in H.
        rewrite H. split; [|tauto].
        intros [[_ ->] | H']; [contradiction | exact H'].
    + pose proof (is_descendant_of_around db wf a b Ha Hb) as H.
      unfold is_descendant_of, raise_if_unsaved in H. rewrite Sb in H.
      cbn [from_db pk tree_id left right option_Z_eqb andb] in H.
      rewrite H. split; [|tauto].
      intros [[H' _] | H']; [discriminate | exact H'].
  - rewrite around_iff. reflexivity.
Qed.

Lemma ancestors_and_descendants_agree_witness :
  exists qs ds,
    get_ancestors node_4 false false = Ok qs
    /\ get_descendants example_tree node_2 false = Ok ds
    /\ In node_2 (fetch example_tree qs) /\ In node_4 ds
    /\ is_ancestor_of node_2 node_4 false = Ok true.
Proof.
  destruct (ancestors_and_descendants_agree example_tree
              (example_row 1) (example_row 3) false false
              ltac:(repeat split; vm_compute; reflexivity)
              ltac:(simpl; tauto) ltac:(simpl; tauto))
    as (qs & ds & E1 & E2 & H1 & H2 & _ & H4).
  assert (Hin : In node_4 ds).
  { apply H4. right. repeat split; reflexivity. }
  exists qs, ds. split; [exact E1|]. split; [exact E2|].
  split; [apply H1, Hin|]. split; [exact Hin | apply H2, Hin].
Defined.

(** On a well-formed store the descendants of a descendant of a node are
    descendants of the node, and there are fewer of them. *)
Theorem descendants_are_transitive
    (db : Store) (a : Row) (da dm : list Node) (m c : Node) :
  well_formed db -> In a db ->
  get_descendants db (from_db a) false = Ok da -> In m da ->
  get_descendants db m false = Ok dm ->
  (In c dm -> In c da)
  /\ (List.length dm < List.length da)%nat.
Proof.
  intros wf Ha Eda Hm Edm.
  rewrite get_descendants_saved in Eda by (apply (wf_saved db wf), Ha).
  injection Eda as <-.
  apply in_map_iff in Hm. destruct Hm as (b & <- & Hb).
  apply filter_In in Hb. destruct Hb as [Hb Fb].
  apply (proj1 (In_order_rows _ _)) in Hb.
  rewrite get_descendants_saved in Edm by (apply (wf_saved db wf), Hb).
  injection Edm as <-.
  apply (descendant_filter_around db wf a b Ha Hb) in Fb.
  split.
  - intros Hc. apply in_map_iff in Hc. destruct Hc as (rc & <- & Hc).
    apply filter_In in Hc. destruct Hc as [Hc Fc].
    pose proof (proj1 (In_order_rows _ _) Hc) as Hc'.
    apply (descendant_filter_around db wf b rc Hb Hc') in Fc.
    apply in_map, filter_In. split; [exact Hc|].
    apply (descendant_filter_around db wf a rc Ha Hc').
    eapply around_trans; eauto.
  - rewrite !length_map.
    apply (filter_length_lt _ _ _ b).
    + intros x Hx Fx. apply (proj1 (In_order_rows _ _)) in Hx.
      apply (descendant_filter_around db wf b x Hb Hx) in Fx.
      apply (descendant_filter_around db wf a x Ha Hx).
      eapply around_trans; eauto.
    + apply In_order_rows, Hb.
    + apply (descendant_filter_around db wf a b Ha Hb), Fb.
    + destruct (descendant_filter (from_db b) b) eqn:E; [|reflexivity].
      apply (descendant_filter_around db wf b b Hb Hb) in E.
      rewrite around_irrefl in E. discriminate.
Qed.

Lemma descendants_are_transitive_witness :
  exists da dm,
    get_descendants example_tree node_1 false = Ok da
    /\ get_descendants example_tree node_2 false = Ok dm
    /\ (In node_4 dm -> In node_4 da)
    /\ (List.length dm < List.length da)%nat.
Proof.
  assert (E1 : exists da, get_descendants example_tree node_1 false = Ok da
                          /\ In node_2 da).
  { eexists. split; [reflexivity|]. simpl. tauto. }
  destruct E1 as (da & E1 & Hin).
  assert (E2 : exists dm, get_descendants example_tree node_2 false = Ok dm).
  { eexists. reflexivity. }
  destruct E2 as (dm & E2).
  exists da, dm. split; [exact E1|]. split; [exact E2|].
  apply (descendants_are_transitive example_tree (example_row 0) da dm
           node_2 node_4
           ltac:(repeat split; vm_compute; reflexivity)
           ltac:(simpl; tauto) E1 Hin E2).
Defined.

(** ** Parents, children and roots *)

Lemma first_filter_unique {A B : Type} (f : A -> B) (P : A -> bool)
    (l : list A) (p : A) :
  (forall x, In x l -> P x = true -> x = p) ->
  In p l -> P p = true ->
  first (map f (filter P l)) = Some (f p).
Proof.
  intros Hu Hp Pp.
  assert (Hin : In p (filter P l)) by (apply filter_In; auto).
  destruct (filter P l) as [|x xs] eqn:E; [contradiction|].
  cbn. f_equal. f_equal.
  assert (Hx : In x (filter P l)) by (rewrite E; now left).
  apply filter_In in Hx. destruct Hx as [Hx Px]. apply Hu; assumption.
Qed.

Lemma length_filter_insert_row (p : Row -> bool) (r : Row) (l : list Row) :
  List.length (filter p (insert_row r l)) = List.length (filter p (r :: l)).
Proof.
  induction l as [|y l IH]; [reflexivity|].
  cbn [insert_row]. destruct (row_leb r y); [reflexivity|].
  cbn [filter] in *. destruct (p y), (p r); cbn [List.length] in *; lia.
Qed.

Lemma length_filter_order_rows (p : Row -> bool) (l : list Row) :
  List.length (filter p (order_rows l)) = List.length (filter p l).
Proof.
  induction l as [|y l IH]; [reflexivity|].
  cbn [order_rows]. rewrite length_filter_insert_row.
  cbn [filter]. destruct (p y); cbn [List.length]; lia.
Qed.

Lemma parent_of_stored (db : Store) (a : Row) :
  pk_truthy (from_db a) = true ->
  parent db (from_db a)
  = if (row_level a =? 0)%Z then None
    else first (map from_db
                  (filter (fun r => Dec.dlt (row_left r) (row_left a)
                                    && Dec.dlt (row_right a) (row_right r)
                                    && (row_level r =? row_level a - 1)%Z
                                    && (row_tree_id r =? row_tree_id a)%Z)
                          (order_rows db))).
Proof.
  intros Hpk. unfold parent, _is_saved. cbn [from_db _new_parent tree_id].
  rewrite Hpk. reflexivity.
Qed.

Lemma parent_is (db : Store) (a p : Row) :
  well_formed db -> In a db -> In p db ->
  around a p = true -> row_level p = (row_level a - 1)%Z ->
  parent db (from_db a) = Some (from_db p).
Proof.
  intros wf Ha Hp Hap Hl.
  rewrite parent_of_stored by (apply (wf_saved db wf), Ha).
  pose proof (level_nonneg db wf p Hp) as H0.
  destruct (Z.eqb_spec (row_level a) 0) as [E | _]; [lia|].
  apply first_filter_unique.
  - intros x Hx Px. apply (proj1 (In_order_rows _ _)) in Hx.
    rewrite !andb_true_iff, !dlt_iff, !Z.eqb_eq in Px.
    destruct Px as (((L & R) & Lv) & T).
    apply (parent_unique db wf a x p Ha Hx Hp); [|exact Hap|lia].
    apply around_iff. auto.
  - apply In_order_rows, Hp.
  - apply around_iff in Hap. destruct Hap as (T & L & R).
    rewrite !andb_true_iff, !dlt_iff, !Z.eqb_eq. auto.
Qed.

(** On a well-formed store [parent] and [get_children] are inverse to
    each other: a stored row at level 0 has no parent; every other stored
    row has a parent, one level up, and is among the children of that
    parent; and the parent of every child of a stored row is that row. *)
Theorem parent_and_children_are_inverse (db : Store) (a : Row) :
  well_formed db -> In a db ->
  (row_level a = 0%Z -> parent db (from_db a) = None)
  /\ (row_level a <> 0%Z ->
      exists p cs,
        In p db
        /\ parent db (from_db a) = Some (from_db p)
        /\ row_level p = (row_level a - 1)%Z
        /\ get_children db (from_db p) = Ok cs
        /\ In (from_db a) cs)
  /\ (exists cs,
        get_children db (from_db a) = Ok cs
        /\ forall c, In c cs -> parent db c = Some (from_db a)).
Proof.
  intros wf Ha.
  pose proof (wf_saved db wf a Ha) as Sa.
  split; [|split].
  - intros L0. rewrite parent_of_stored by exact Sa.
    rewrite L0. reflexivity.
  - intros Hl.
    destruct (parent_exists db wf a Ha Hl) as (p & Hp & Hap & Lp).
    exists p. eexists. split; [exact Hp|].
    split; [apply parent_is; assumption|]. split; [exact Lp|].
    split; [apply get_children_saved, (wf_saved db wf), Hp|].
    apply filter_In. split.
    + apply in_map, filter_In. split; [apply In_order_rows, Ha|].
      apply (descendant_filter_around db wf p a Hp Ha), Hap.
    + cbn. apply Z.eqb_eq. lia.
  - eexists. split; [apply get_children_saved, Sa|].
    intros c Hc. apply filter_In in Hc. destruct Hc as [Hc Lc].
    apply in_map_iff in Hc. destruct Hc as (rc & <- & Hc).
    apply filter_In in Hc. destruct Hc as [Hc Fc].
    apply (proj1 (In_order_rows _ _)) in Hc.
    cbn in Lc. apply Z.eqb_eq in Lc.
    apply parent_is; auto; [|lia].
    apply (descendant_filter_around db wf a rc Ha Hc), Fc.
Qed.

Lemma parent_and_children_are_inverse_witness :
  parent example_tree node_4 = Some node_2
  /\ exists cs, get_children example_tree node_2 = Ok cs /\ In node_4 cs.
Proof.
  destruct (parent_and_children_are_inverse example_tree (example_row 1)
              ltac:(repeat split; vm_compute; reflexivity)
              ltac:(simpl; tauto)) as (_ & _ & cs & Ecs & H).
  assert (Hin : In node_4 cs).
  { vm_compute in Ecs. injection Ecs as <-. simpl. tauto. }
  split; [apply H, Hin|]. exists cs. auto.
Defined.

(** On a well-formed store [get_root] never raises: it returns the row at
    level 0 of the tree of the node, which is the node itself or an
    ancestor of it, and which is its own root. *)
Theorem get_root_is_the_top_ancestor (db : Store) (a : Row) :
  well_formed db -> In a db ->
  exists rho,
    In rho db
    /\ get_root db (from_db a) = Ok (from_db rho)
    /\ row_level rho = 0%Z
    /\ row_tree_id rho = row_tree_id a
    /\ is_ancestor_of (from_db rho) (from_db a) true = Ok true
    /\ (rho = a <-> row_level a = 0%Z)
    /\ get_root db (from_db rho) = Ok (from_db rho).
Proof.
  intros wf Ha.
  pose proof (wf_saved db wf a Ha) as Sa.
  destruct (root_above db wf _ a Ha
              (eq_sym (Z2Nat.id _ (level_nonneg db wf a Ha))))
    as (rho & Hrho & Ht & L0 & Hrel).
  exists rho. split; [exact Hrho|].
  assert (Hself : get_root db (from_db rho) = Ok (from_db rho)).
  { unfold get_root, raise_if_unsaved, is_root_node.
    rewrite (wf_saved db wf rho Hrho). cbn [from_db level].
    rewrite L0. reflexivity. }
  split; [|split; [exact L0|split; [exact Ht|split; [|split]]]].
  - unfold get_root, raise_if_unsaved, is_root_node. rewrite Sa.
    cbn [from_db level tree_id].
    destruct (Z.eqb_spec (row_level a) 0) as [La | La].
    + f_equal. f_equal. symmetry.
      apply (root_unique db wf); auto.
    + unfold root_node.
      pose proof (wf_I5 db wf a Ha) as H5.
      rewrite <- (length_filter_order_rows _ db) in H5.
      assert (Hin : In rho
                (filter (fun r => (row_tree_id r =? row_tree_id a)%Z
                                  && (row_level r =? 0)%Z) (order_rows db))).
      { apply filter_In. split; [apply In_order_rows, Hrho|].
        apply andb_true_iff. rewrite !Z.eqb_eq. auto. }
      rewrite (filter_ext _ (fun b => same_tree a b && (row_level b =? 0)%Z))
        in Hin |- *
        by (intros r; unfold same_tree; now rewrite (Z.eqb_sym (row_tree_id r))).
      destruct (filter _ (order_rows db)) as [|x [|y l]]; cbn in H5;
        try discriminate.
      destruct Hin as [-> | []]. reflexivity.
  - apply (is_ancestor_of_self db wf rho a true Hrho Ha).
    destruct Hrel as [-> | H]; auto.
  - split.
    + intros <-. exact L0.
    + intros La. apply (root_unique db wf); auto.
  - exact Hself.
Qed.

Lemma get_root_is_the_top_ancestor_witness :
  get_root example_tree node_4 = Ok node_1
  /\ is_ancestor_of node_1 node_4 true = Ok true.
Proof.
  destruct (get_root_is_the_top_ancestor example_tree (example_row 3)
              ltac:(repeat split; vm_compute; reflexivity)
              ltac:(simpl; tauto))
    as (rho & Hin & E & L0 & _ & Hanc & _).
  assert (Hrho : rho = example_row 0).
  { simpl in Hin.
    destruct Hin as [<- | [<- | [<- | [<- | [<- | []]]]]];
      first [reflexivity | discriminate L0]. }
  subst rho. split; [exact E | exact Hanc].
Defined.

End TreeQueries.

(** * Deleting a subtree *)

Module Deletion.
Import QueryFacts TreeFacts TreeQueries.

Lemma forallb_filter {A : Type} (p q : A -> bool) (l : list A) :
  forallb p l = true -> forallb p (filter q l) = true.
Proof.
  rewrite !forallb_forall. intros H x Hx.
  apply filter_In in Hx. apply H. tauto.
Qed.

Lemma unique_pks_filter (q : Row -> bool) (db : Store) :
  unique_pks db = true -> unique_pks (filter q db) = true.
Proof.
  induction db as [|r db IH]; intros H; [reflexivity|].
  cbn in H. apply andb_true_iff in H. destruct H as [Hr Hu].
  cbn. destruct (q r); [|auto].
  cbn. apply andb_true_iff. split; [|auto].
  apply negb_true_iff in Hr. apply negb_true_iff.
  destruct (existsb _ (filter q db)) eqn:E; [|reflexivity].
  apply existsb_exists in E. destruct E as (s & Hs & Es).
  apply filter_In in Hs.
  assert (existsb (fun s => (row_pk s =? row_pk r)%Z) db = true).
  { apply existsb_exists. exists s. tauto. }
  congruence.
Qed.

Lemma filter_filter {A : Type} (p q : A -> bool) (l : list A) :
  filter p (filter q l) = filter (fun x => q x && p x) l.
Proof.
  induction l as [|x l IH]; [reflexivity|].
  cbn. destruct (q x); cbn; [destruct (p x)|]; now rewrite IH.
Qed.

(** Filtering a list that was filtered with [q]: the rows [p] selects
    are the same when [q] keeps all of them. *)
Lemma filter_kept {A : Type} (p q : A -> bool) (l : list A) :
  (forall x, In x l -> p x = true -> q x = true) ->
  filter p (filter q l) = filter p l.
Proof.
  intros H. rewrite filter_filter. apply filter_ext_in.
  intros x Hx. destruct (p x) eqn:Px.
  - rewrite (H x Hx Px). reflexivity.
  - apply andb_false_r.
Qed.

Section Delete.

Variable db : Store.
Variable a : Row.
Hypothesis wf : well_formed db.
Hypothesis Ha : In a db.

Local Abbreviation keep :=
  (fun r => negb (descendant_or_self_filter (from_db a) r)).

Lemma keep_iff (r : Row) :
  In r db -> (keep r = true <-> r <> a /\ around r a = false).
Proof.
  intros Hr. rewrite negb_true_iff.
  pose proof (descendant_or_self_around db wf a r Ha Hr) as H.
  destruct (descendant_or_self_filter (from_db a) r).
  - split; [discriminate|]. intros [N F].
    destruct (proj1 H eq_refl) as [E | E]; congruence.
  - split; [|reflexivity]. intros _.
    split.
    + intros ->. assert (false = true) by (apply H; auto). discriminate.
    + destruct (around r a); [|reflexivity].
      assert (false = true) by (apply H; auto). discriminate.
Qed.

(** The rows around a row that stays stay. *)
Lemma around_kept (r x : Row) :
  In r db -> In x db -> keep r = true -> around r x = true -> keep x = true.
Proof.
  intros Hr Hx Kr Hrx.
  apply (keep_iff r Hr) in Kr. destruct Kr as [Nr Fr].
  apply (keep_iff x Hx). split.
  - intros ->. congruence.
  - destruct (around x a) eqn:E; [|reflexivity].
    rewrite (around_trans r x a Hrx E) in Fr. discriminate.
Qed.

(** The row at level 0 of the tree of a row that stays stays. *)
Lemma root_kept (r x : Row) :
  In r db -> In x db -> keep r = true ->
  same_tree r x && (row_level x =? 0)%Z = true -> keep x = true.
Proof.
  intros Hr Hx Kr Hrx.
  apply andb_true_iff in Hrx. destruct Hrx as [T L0].
  unfold same_tree in T. apply Z.eqb_eq in T. apply Z.eqb_eq in L0.
  apply (keep_iff r Hr) in Kr. destruct Kr as [Nr Fr].
  apply (keep_iff x Hx). split.
  - intros ->.
    destruct (root_above db wf _ r Hr
                (eq_sym (Z2Nat.id _ (level_nonneg db wf r Hr))))
      as (rho & Hrho & Ht & Lr & Hrel).
    assert (rho = a) by (apply (root_unique db wf); auto; congruence).
    subst rho. destruct Hrel as [E | E]; congruence.
  - apply (root_outermost db wf); assumption.
Qed.

Lemma delete_well_formed : well_formed (filter keep db).
Proof.
  destruct (wf_invariants db wf) as (I1 & I2 & I4 & I5).
  destruct wf as (_ & U & N).
  split; [|split; [apply unique_pks_filter, U | apply forallb_filter, N]].
  unfold invariants. rewrite !andb_true_iff.
  split; [split; [split|]|].
  - apply forallb_filter, I1.
  - unfold invariant_I2 in *. rewrite forallb_forall in *.
    intros x Hx. apply filter_In in Hx. destruct Hx as [Hx _].
    apply forallb_filter, I2, Hx.
  - unfold invariant_I4 in *. rewrite forallb_forall in *.
    intros x Hx. apply filter_In in Hx. destruct Hx as [Hx Kx].
    rewrite (filter_kept _ keep db); [apply I4, Hx|].
    intros y Hy Hxy. apply (around_kept x y Hx Hy Kx Hxy).
  - unfold invariant_I5 in *. rewrite forallb_forall in *.
    intros x Hx. apply filter_In in Hx. destruct Hx as [Hx Kx].
    rewrite (filter_kept _ keep db); [apply I5, Hx|].
    intros y Hy Hxy. apply (root_kept x y Hx Hy Kx Hxy).
Qed.

End Delete.

(** [delete] on a stored row of a well-formed store removes that row and
    the rows strictly inside it in its tree, which are the rows
    [get_descendants(include_self=True)] returns, and nothing else; the
    store that is left is well-formed again; and deleting once more
    changes nothing.  On an instance without a primary key [delete]
    raises the [ValueError] of [get_descendants] and deletes nothing. *)
Theorem delete_removes_the_subtree (db : Store) (a : Row) :
  well_formed db -> In a db ->
  exists db' ds,
    delete db (from_db a) = Ok db'
    /\ get_descendants db (from_db a) true = Ok ds
    /\ (forall r, In r db' <-> In r db /\ ~ In (from_db r) ds)
    /\ (forall r, In r db' <-> In r db /\ r <> a /\ around r a = false)
    /\ (List.length db' + List.length ds = List.length db)%nat
    /\ well_formed db'
    /\ delete db' (from_db a) = Ok db'
    /\ (forall n, pk_truthy n = false ->
          delete db n
          = Raise (ValueError
                     "Cannot call get_descendants on unsaved instances")).
Proof.
  intros wf Ha.
  pose proof (wf_saved db wf a Ha) as Sa.
  exists (filter (fun r => negb (descendant_or_self_filter (from_db a) r)) db).
  eexists.
  assert (Hdel : forall d, delete d (from_db a)
            = Ok (filter (fun r => negb (descendant_or_self_filter
                                           (from_db a) r)) d)).
  { intros d. unfold delete, descendants_queryset, raise_if_unsaved.
    rewrite Sa. reflexivity. }
  split; [apply Hdel|].
  split; [apply get_descendants_saved, Sa|].
  split; [|split; [|split; [|split; [|split]]]].
  - intros r. rewrite filter_In, In_map_from_db, filter_In, In_order_rows.
    rewrite negb_true_iff.
    destruct (descendant_or_self_filter (from_db a) r); intuition congruence.
  - intros r. rewrite filter_In. split.
    + intros [Hr K]. split; [exact Hr|]. apply (keep_iff db a wf Ha r Hr), K.
    + intros (Hr & K). split; [exact Hr|].
      apply (keep_iff db a wf Ha r Hr), K.
  - rewrite length_map, length_filter_order_rows.
    clear. induction db as [|r l IH]; [reflexivity|].
    cbn. destruct (descendant_or_self_filter (from_db a) r); cbn; lia.
  - apply delete_well_formed; assumption.
  - rewrite Hdel, filter_filter. apply (f_equal Ok). apply filter_ext.
    intros r. apply andb_diag.
  - intros n Hn. unfold delete, descendants_queryset, raise_if_unsaved.
    rewrite Hn. reflexivity.
Qed.

Lemma delete_removes_the_subtree_witness :
  exists db',
    delete example_tree node_2 = Ok db'
    /\ map row_pk db' = [1%Z; 5%Z]
    /\ well_formed db'.
Proof.
  destruct (delete_removes_the_subtree example_tree (example_row 1)
              ltac:(repeat split; vm_compute; reflexivity)
              ltac:(simpl; tauto))
    as (db' & ds & E & _ & _ & _ & _ & W & _).
  exists db'. split; [exact E|]. split; [|exact W].
  vm_compute in E. injection E as <-. reflexivity.
Defined.

End Deletion.

(** * Moves: levels and tree ids *)

Module MoveLevels.
Import Dec DecFacts QueryFacts MoveLegality SaveParent MoveTransform.

Lemma option_Z_eqb_true (x y : option Z) : option_Z_eqb x y = true -> x = y.
Proof.
  destruct x, y; cbn; try discriminate; [|reflexivity].
  intros H. apply Z.eqb_eq in H. now subst.
Qed.

(** A move that returns puts the node at the level its position asks
    for (0 without a target, the level of the target for a sibling, one
    below the target for a child) and in the tree of the target (a new
    tree without a target); it marks the node as changed and keeps its
    primary key; and, when the node has descendants, every row the
    update selects is shifted by the same number of levels as the node
    and is put in the tree of the node, while every other row is left as
    it is.  The store and the target are those the allocation returns,
    whether or not it had to rebalance. *)
Theorem move_shifts_levels_and_tree
    (prec : positive) (uuid4 : Z) (db db1 : Store) (node : Node)
    (target target' : option Node) (position : string) (count : Z)
    (iv : Interval) :
  check_move node target position = Ok tt ->
  get_descendant_count db node = Ok count ->
  get_interval_for_insertion_relative_to_with_rebalance
    prec db target position (count + 1) = (Ok iv, target', db1) ->
  exists node' db',
    _move_node prec uuid4 db node target position
    = (Ok tt, node', target', db')
    /\ pk node' = pk node
    /\ _nested_intervals_fields_have_changed node' = true
    /\ level node'
       = match target' with
         | None => 0%Z
         | Some t => if position_in position ["left"; "right"]
                     then level t else (level t + 1)%Z
         end
    /\ tree_id node'
       = match target' with
         | None => Some uuid4
         | Some t => tree_id t
         end
    /\ Forall2 (fun r r' =>
                  row_pk r' = row_pk r
                  /\ if negb (count =? 0)%Z && descendant_filter node r
                     then (row_level r' - level node'
                           = row_level r - level node)%Z
                          /\ Some (row_tree_id r') = tree_id node'
                     else r' = r) db1 db'.
Proof.
  intros Hcheck Hcount Hwrap.
  assert (Hpk : pk_truthy node = true).
  { destruct (pk_truthy node) eqn:P; [reflexivity|].
    unfold get_descendant_count in Hcount.
    rewrite get_descendants_unsaved in Hcount by exact P. discriminate. }
  assert (Hsaved : forall t, target' = Some t -> tree_id t <> None).
  { intros t ->.
    pose proof (with_rebalance_target prec db target position (count + 1))
      as [_ H].
    rewrite Hwrap in H. specialize (H iv t eq_refl eq_refl).
    unfold _is_saved in H. destruct (tree_id t); congruence. }
  set (off := move_level_offset node target' position).
  set (tid := move_new_tree_id uuid4 node target').
  assert (Hlevel : (level node + off)%Z
                   = match target' with
                     | None => 0%Z
                     | Some t => if position_in position ["left"; "right"]
                                 then level t else (level t + 1)%Z
                     end).
  { unfold off, move_level_offset. destruct target' as [t|]; [|lia].
    destruct (position_in position ["left"; "right"]); lia. }
  assert (Htree : match tid with Some t => Some t | None => tree_id node end
                  = match target' with
                    | None => Some uuid4
                    | Some t => tree_id t
                    end).
  { unfold tid, move_new_tree_id. destruct target' as [t|]; [|reflexivity].
    destruct (option_Z_eqb (tree_id t) (tree_id node)) eqn:E; cbn.
    - symmetry. apply option_Z_eqb_true, E.
    - specialize (Hsaved t eq_refl). destruct (tree_id t); congruence. }
  set (node' :=
         set_changed
           match tid with
           | Some t =>
               set_tree_id
                 (set_level (set_bounds node (i_left iv) (i_right iv))
                    (level (set_bounds node (i_left iv) (i_right iv)) + off))
                 (Some t)
           | None =>
               set_level (set_bounds node (i_left iv) (i_right iv))
                 (level (set_bounds node (i_left iv) (i_right iv)) + off)
           end true).
  assert (Hnode : pk node' = pk node
                  /\ _nested_intervals_fields_have_changed node' = true
                  /\ level node' = (level node + off)%Z
                  /\ tree_id node'
                     = match tid with
                       | Some t => Some t
                       | None => tree_id node
                       end).
  { unfold node'. destruct tid; cbn; auto. }
  destruct Hnode as (N1 & N2 & N3 & N4).
  unfold _move_node. rewrite Hcheck, Hcount, Hwrap. cbn zeta.
  fold off tid.
  destruct (Z.eqb_spec count 0) as [-> | Hnz]; cbn [negb andb].
  - exists node', db1. split; [reflexivity|].
    split; [exact N1|]. split; [exact N2|].
    split; [rewrite N3; exact Hlevel|].
    split; [rewrite N4; exact Htree|].
    apply Forall2_same. intros r _. auto.
  - unfold raise_if_unsaved. rewrite Hpk.
    set (u := move_updates _ tid off).
    assert (Hnz' : forall r, descendant_filter node r = true ->
                             ~ dsub prec (right node) (left node) == 0).
    { intros r Hf. apply descendant_filter_iff in Hf.
      destruct Hf as (H1 & H2 & _).
      assert (0 < dsub prec (right node) (left node))
        by (apply ctx_round_pos; lra).
      lra. }
    assert (Happly : forall r, descendant_filter node r = true ->
              exists r', apply_updates prec u r = Some r'
                /\ row_pk r' = row_pk r
                /\ row_level r' = (row_level r + off)%Z
                /\ Some (row_tree_id r')
                   = match tid with
                     | Some t => Some t
                     | None => tree_id node
                     end).
    { intros r Hf.
      destruct (eval_converter prec (left node) (right node)
                  (i_left iv) (i_right iv) r (Hnz' r Hf)) as [El Er].
      unfold apply_updates, u, move_updates.
      cbn [u_left u_right u_level u_tree_id]. rewrite El, Er.
      eexists. split; [reflexivity|]. cbn.
      split; [reflexivity|]. split.
      - destruct (Z.eqb_spec off 0) as [-> | _]; lia.
      - destruct tid; [reflexivity|].
        apply descendant_filter_iff in Hf. symmetry. tauto. }
    destruct (update_where_succeeds prec (descendant_filter node) u db1)
      as [db' Hup].
    { intros r _ Hf. destruct (Happly r Hf) as (r' & E & _).
      rewrite E. discriminate. }
    rewrite Hup.
    exists node', db'. split; [reflexivity|].
    split; [exact N1|]. split; [exact N2|].
    split; [rewrite N3; exact Hlevel|].
    split; [rewrite N4; exact Htree|].
    eapply Forall2_impl_In; [|apply update_where_rows, Hup].
    intros r r' _ H. cbn beta in H.
    destruct (descendant_filter node r) eqn:Hf.
    + destruct (Happly r Hf) as (r'' & E' & P1 & P2 & P3).
      rewrite E' in H. injection H as <-.
      split; [exact P1|]. split; [lia|]. rewrite N4. exact P3.
    + subst r'. auto.
Qed.

Lemma move_shifts_levels_and_tree_witness :
  exists iv node' db',
    get_interval_for_insertion_relative_to_with_rebalance 6 example_tree
      (Some node_5) "last-child" (2 + 1) = (Ok iv, Some node_5, example_tree)
    /\ _move_node 6 99 example_tree node_2 (Some node_5) "last-child"
       = (Ok tt, node', Some node_5, db')
    /\ level node' = 2%Z /\ tree_id node' = Some 7%Z
    /\ map row_level db' = [0; 1; 3; 3; 1]%Z.
Proof.
  assert (Hw : exists iv,
             get_interval_for_insertion_relative_to_with_rebalance 6
               example_tree (Some node_5) "last-child" (2 + 1)
             = (Ok iv, Some node_5, example_tree)).
  { eexists. vm_compute. reflexivity. }
  destruct Hw as (iv & Hw).
  destruct (move_shifts_levels_and_tree 6 99 example_tree example_tree node_2
              (Some node_5) (Some node_5) "last-child" 2 iv
              ltac:(vm_compute; reflexivity)
              ltac:(vm_compute; reflexivity) Hw)
    as (node' & db' & E & _ & _ & Hl & Ht & _).
  exists iv, node', db'. split; [exact Hw|]. split; [exact E|].
  split; [exact Hl|]. split; [exact Ht|].
  vm_compute in E. injection E as _ <-. reflexivity.
Defined.

End MoveLevels.

(** * Rebalancing touches one tree only *)

Module RebalanceFrame.
Import QueryFacts RebalanceFacts Rebalancer TreeFacts TreeQueries.

Lemma differ_in_tree_refl (tid : Z) (db : Store) : differ_in_tree tid db db.
Proof.
  unfold differ_in_tree. induction db; constructor; auto.
Qed.

Lemma differ_in_tree_trans (tid : Z) (a b c : Store) :
  differ_in_tree tid a b -> differ_in_tree tid b c -> differ_in_tree tid a c.
Proof.
  unfold differ_in_tree. intros H. revert c.
  induction H as [|x y a b Hxy H IH]; intros c Hc;
    inversion Hc as [|y' z b' c' Hyz Hbc]; subst; constructor.
  - destruct Hxy as [S1 E1], Hyz as [S2 E2]. split; [congruence|].
    intros Hx. specialize (E1 Hx). subst y. auto.
  - auto.
Qed.

Lemma differ_in_tree_shape (tid : Z) (db db' : Store) :
  differ_in_tree tid db db' -> same_shape db db'.
Proof.
  unfold differ_in_tree, same_shape.
  induction 1 as [|x y a b [S1 _] H IH]; cbn; congruence.
Qed.

Lemma same_shape_sym (db db' : Store) : same_shape db db' -> same_shape db' db.
Proof. unfold same_shape. congruence. Qed.

Lemma shape_In (db db' : Store) (r' : Row) :
  same_shape db db' -> In r' db' ->
  exists r, In r db /\ row_shape r = row_shape r'.
Proof.
  unfold same_shape. intros H Hr.
  apply (in_map row_shape) in Hr. rewrite <- H in Hr.
  apply in_map_iff in Hr. destruct Hr as (r & E & Hin). eauto.
Qed.

Lemma unique_pks_shape (db db' : Store) :
  same_shape db db' -> unique_pks db = unique_pks db'.
Proof.
  unfold same_shape. revert db'.
  induction db as [|r db IH]; intros [|r' db'] H; cbn in H;
    try discriminate; [reflexivity|].
  injection H as Hpk Hl Ht Hrest.
  cbn. rewrite (IH _ Hrest), Hpk. f_equal. f_equal.
  clear - Hrest. revert db' Hrest.
  induction db as [|x db IH]; intros [|x' db'] H; cbn in H;
    try discriminate; [reflexivity|].
  injection H as Hpk Hl Ht Hrest. cbn. rewrite Hpk, (IH _ Hrest).
  reflexivity.
Qed.

Lemma nonzero_pks_shape (db db' : Store) :
  same_shape db db' -> nonzero_pks db = nonzero_pks db'.
Proof.
  unfold same_shape, nonzero_pks. revert db'.
  induction db as [|r db IH]; intros [|r' db'] H; cbn in H;
    try discriminate; [reflexivity|].
  injection H as Hpk Hl Ht Hrest.
  cbn. rewrite (IH _ Hrest), Hpk. reflexivity.
Qed.

Lemma owned_shape (tid : Z) (db db' : Store) (n : Node) :
  same_shape db db' -> owned tid db n -> owned tid db' n.
Proof.
  intros Hs [Ht Ho]. split; [exact Ht|]. intros row Hrow Hm.
  destruct (shape_In db db' row Hs Hrow) as (r & Hr & E).
  unfold row_shape in E. injection E as Epk _ Et.
  rewrite <- Et. apply Ho; [exact Hr|].
  unfold matches_pk in *. destruct (pk n); [|discriminate].
  rewrite Epk. exact Hm.
Qed.

Lemma owned_stored (tid : Z) (db : Store) (r : Row) :
  unique_pks db = true -> In r db -> row_tree_id r = tid ->
  owned tid db (from_db r).
Proof.
  intros Hu Hr Ht. split; [cbn; congruence|].
  intros row Hrow Hm. unfold matches_pk in Hm. cbn in Hm.
  apply Z.eqb_eq in Hm.
  rewrite (unique_pks_eq db Hu row r Hrow Hr Hm). exact Ht.
Qed.

Lemma update_bounds_differ (places : positive) (tid : Z) (db : Store)
    (n : Node) (l r : Q) :
  owned tid db n -> differ_in_tree tid db (update_bounds places db n l r).
Proof.
  unfold differ_in_tree, update_bounds, owned. intros [_ Ho]. revert Ho.
  induction db as [|row db IH]; intros Ho; cbn; constructor.
  - destruct (matches_pk n row) eqn:E.
    + split; [reflexivity|]. cbn. intros Hne. exfalso. apply Hne.
      apply Ho; [now left | exact E].
    + auto.
  - apply IH. intros x Hx. apply Ho. now right.
Qed.

Section Helper.

Variable prec : positive.
Variable tid : Z.

Lemma rebalance_children_differ
    (helper : Store -> Node -> Q -> option (result (Q * Store))) :
  (forall db c r x db',
      unique_pks db = true -> owned tid db c ->
      helper db c r = Some (Ok (x, db')) -> differ_in_tree tid db db') ->
  forall cs db r x db',
    unique_pks db = true ->
    (forall c, In c cs -> owned tid db c) ->
    rebalance_children helper cs db r = Some (Ok (x, db')) ->
    differ_in_tree tid db db'.
Proof.
  intros Hh cs. induction cs as [|c cs IH]; intros db r x db' Hu Ho H;
    cbn in H.
  - injection H as _ <-. apply differ_in_tree_refl.
  - destruct (helper db c r) as [[[r1 db1] | e] |] eqn:E; try discriminate.
    assert (D1 : differ_in_tree tid db db1).
    { eapply Hh; eauto. apply Ho. now left. }
    pose proof (differ_in_tree_shape _ _ _ D1) as S1.
    eapply differ_in_tree_trans; [exact D1|].
    eapply IH; [| |exact H].
    + rewrite <- (unique_pks_shape _ _ S1). exact Hu.
    + intros c' Hc'. eapply owned_shape; [exact S1|]. apply Ho. now right.
Qed.

Lemma children_owned (db : Store) (node c : Node) (cs : list Node) :
  unique_pks db = true -> tree_id node = Some tid ->
  get_children db node = Ok cs -> In c cs ->
  owned tid db c.
Proof.
  intros Hu Ht Hc Hin.
  destruct (In_get_children _ _ _ _ Hc Hin) as (r & Hr & -> & _ & Hf).
  apply descendant_filter_iff in Hf. destruct Hf as (_ & _ & T & _).
  apply owned_stored; [assumption | assumption | congruence].
Qed.

Lemma rebalance_helper_differ (fuel : nat) :
  forall db node l inc x db',
    unique_pks db = true -> owned tid db node ->
    _rebalance_helper prec fuel db node l inc = Some (Ok (x, db')) ->
    differ_in_tree tid db db'.
Proof.
  induction fuel as [|fuel IH]; intros db node l inc x db' Hu Ho H;
    cbn in H; [discriminate|].
  destruct (get_children db node) as [cs | e] eqn:Hc; [|discriminate].
  destruct (rebalance_children _ cs db _) as [[[r1 db1] | e] |] eqn:E;
    try discriminate.
  injection H as _ <-.
  assert (D1 : differ_in_tree tid db db1).
  { eapply (rebalance_children_differ
              (fun db' child r =>
                 _rebalance_helper prec fuel db' child r inc));
      [| exact Hu | | exact E].
    - intros db0 c r0 x0 db0' Hu0 Ho0 H0. eapply IH; eauto.
    - intros c Hin. eapply children_owned; eauto. apply Ho. }
  eapply differ_in_tree_trans; [exact D1|].
  apply update_bounds_differ.
  eapply owned_shape; [|exact Ho]. apply differ_in_tree_shape with tid, D1.
Qed.

End Helper.

Lemma root_node_stored (db : Store) (tid : Z) (root : Node) :
  root_node db (Some tid) = Ok root ->
  exists r, In r db /\ root = from_db r /\ row_tree_id r = tid.
Proof.
  unfold root_node. intros H.
  destruct (filter _ (order_rows db)) as [|r [|r' l]] eqn:E;
    try discriminate.
  injection H as <-.
  assert (Hin : In r (filter
             (fun r => (row_tree_id r =? tid)%Z && (row_level r =? 0)%Z)
             (order_rows db))) by (rewrite E; now left).
  apply filter_In in Hin. destruct Hin as [Hin Hp].
  apply andb_true_iff in Hp. destruct Hp as [Ht _].
  apply Z.eqb_eq in Ht. apply (proj1 (In_order_rows _ _)) in Hin.
  exists r. auto.
Qed.

(** With unique primary keys, [rebalance_tree] changes nothing but the
    bounds of rows of the tree it is given: every row keeps its place in
    the table, its primary key, its level and its tree id, and the rows
    of every other tree are left as they are. *)
Theorem rebalance_tree_touches_one_tree
    (prec : positive) (db db' : Store) (tid : Z) :
  unique_pks db = true ->
  rebalance_tree prec db (Some tid) = Ok db' ->
  differ_in_tree tid db db'
  /\ map row_shape db' = map row_shape db
  /\ (forall r, In r db -> row_tree_id r <> tid -> In r db')
  /\ (forall r', In r' db' -> row_tree_id r' <> tid -> In r' db).
Proof.
  intros Hu H.
  assert (D : differ_in_tree tid db db').
  { rewrite rebalance_tree_unfold in H.
    destruct (root_node db (Some tid)) as [root | e] eqn:Hroot;
      [|discriminate].
    destruct (get_descendants db root true) as [nodes | e]; [|discriminate].
    destruct (_rebalance_helper prec _ db root _ _) as [[[x db1] | e] |] eqn:E;
      try discriminate.
    injection H as <-.
    destruct (root_node_stored _ _ _ Hroot) as (r & Hr & -> & Ht).
    eapply rebalance_helper_differ; [exact Hu | | exact E].
    apply owned_stored; assumption. }
  split; [exact D|].
  split; [symmetry; apply (differ_in_tree_shape tid), D|].
  unfold differ_in_tree in D. clear - D.
  induction D as [|x y a b [S1 E1] D IH].
  - split; intros r [].
  - destruct IH as [IH1 IH2]. split.
    + intros r [<- | Hr] Hne; [left; apply E1, Hne | right; auto].
    + intros r' [<- | Hr] Hne.
      * left. unfold row_shape in S1. injection S1 as _ _ Et.
        symmetry. apply E1. congruence.
      * right. auto.
Qed.

Lemma rebalance_tree_touches_one_tree_witness :
  exists db',
    rebalance_tree 6 two_trees (Some 7%Z) = Ok db'
    /\ In (nth 6 two_trees (example_row 0)) db'
    /\ map row_shape db' = map row_shape two_trees.
Proof.
  assert (H : exists db', rebalance_tree 6 two_trees (Some 7%Z) = Ok db').
  { eexists. vm_compute. reflexivity. }
  destruct H as (db' & H).
  destruct (rebalance_tree_touches_one_tree 6 two_trees db' 7%Z
              ltac:(vm_compute; reflexivity) H) as (_ & S & F & _).
  exists db'. split; [exact H|]. split; [|exact S].
  apply F; [simpl; tauto | vm_compute; discriminate].
Defined.

(** ** All trees *)

Lemma rebalance_tree_shape (prec : positive) (db db' : Store)
    (tid : option Z) :
  rebalance_tree prec db tid = Ok db' -> same_shape db db'.
Proof.
  rewrite rebalance_tree_unfold. intros H.
  destruct (root_node db tid) as [root | e]; [|discriminate].
  destruct (get_descendants db root true) as [nodes | e]; [|discriminate].
  destruct (_rebalance_helper prec _ db root _ _) as [[[x db1] | e] |] eqn:E;
    try discriminate.
  injection H as <-. eapply rebalance_helper_shape, E.
Qed.

Lemma rebalance_children_ok
    (helper : Store -> Node -> Q -> option (result (Q * Store))) :
  (forall db c r x db',
      helper db c r = Some (Ok (x, db')) -> same_shape db db') ->
  (forall db c r e,
      nonzero_pks db = true -> pk_truthy c = true ->
      helper db c r <> Some (Raise e)) ->
  forall cs db r e,
    nonzero_pks db = true -> (forall c, In c cs -> pk_truthy c = true) ->
    rebalance_children helper cs db r <> Some (Raise e).
Proof.
  intros Hs Hh cs. induction cs as [|c cs IH]; intros db r e Hn Hc; cbn.
  - discriminate.
  - destruct (helper db c r) as [[[r1 db1] | e1] |] eqn:E.
    + apply IH.
      * rewrite <- (nonzero_pks_shape _ _ (Hs _ _ _ _ _ E)). exact Hn.
      * intros c' Hc'. apply Hc. now right.
    + exfalso. apply (Hh db c r e1 Hn); [apply Hc; now left | exact E].
    + discriminate.
Qed.

(** Without a primary key 0 in the store the recursion raises nothing. *)
Lemma rebalance_helper_ok (prec : positive) (fuel : nat) :
  forall db node l inc e,
    nonzero_pks db = true -> pk_truthy node = true ->
    _rebalance_helper prec fuel db node l inc <> Some (Raise e).
Proof.
  induction fuel as [|fuel IH]; intros db node l inc e Hn Hpk; cbn;
    [discriminate|].
  rewrite get_children_saved by exact Hpk.
  set (cs := filter _ _).
  assert (Hcs : forall c, In c cs -> pk_truthy c = true).
  { intros c Hc. unfold cs in Hc. apply filter_In in Hc.
    destruct Hc as [Hc _]. apply in_map_iff in Hc.
    destruct Hc as (r & <- & Hr). apply filter_In in Hr.
    destruct Hr as [Hr _]. apply (proj1 (In_order_rows _ _)) in Hr.
    eapply nonzero_pks_in; eauto. }
  pose proof (rebalance_children_ok
                (fun db' child r => _rebalance_helper prec fuel db' child r inc)
                ltac:(intros db0 c0 r0 x0 db0' H0;
                      exact (rebalance_helper_shape prec fuel _ _ _ _ _ _ H0))
                ltac:(intros; apply IH; assumption)
                cs db (Dec.dadd prec l inc)) as Hloop.
  destruct (rebalance_children _ cs db _) as [[[r1 db1] | e1] |] eqn:E;
    try discriminate.
  exfalso. apply (Hloop e1 Hn Hcs). reflexivity.
Qed.

Lemma length_filter_shape (p : Z * Z * Z -> bool) (db db' : Store) :
  same_shape db db' ->
  List.length (filter (fun r => p (row_shape r)) db)
  = List.length (filter (fun r => p (row_shape r)) db').
Proof.
  unfold same_shape. revert db'.
  induction db as [|r db IH]; intros [|r' db'] H; cbn in H;
    try discriminate; [reflexivity|].
  injection H as Hpk Hl Ht Hrest. cbn [filter].
  replace (row_shape r') with (row_shape r)
    by (unfold row_shape; congruence).
  destruct (p (row_shape r)); cbn [List.length]; rewrite (IH _ Hrest);
    reflexivity.
Qed.

(** The tree [tid] has one row at level 0. *)
Lemma one_root_shape (tid : Z) (db db' : Store) :
  same_shape db db' ->
  List.length (filter (fun r => (row_tree_id r =? tid)%Z
                                && (row_level r =? 0)%Z) db)
  = List.length (filter (fun r => (row_tree_id r =? tid)%Z
                                  && (row_level r =? 0)%Z) db').
Proof.
  intros H.
  apply (length_filter_shape
           (fun s => (snd s =? tid)%Z && (snd (fst s) =? 0)%Z) db db' H).
Qed.

Lemma rebalance_tree_ok (prec : positive) (db : Store) (tid : Z) :
  nonzero_pks db = true ->
  List.length (filter (fun r => (row_tree_id r =? tid)%Z
                                && (row_level r =? 0)%Z) db) = 1%nat ->
  exists db', rebalance_tree prec db (Some tid) = Ok db'.
Proof.
  intros Hn H1.
  pose proof (rebalance_tree_returns prec db (Some tid)) as Hret.
  rewrite rebalance_tree_unfold in *.
  rewrite <- (length_filter_order_rows _ db) in H1.
  unfold root_node in *.
  destruct (filter _ (order_rows db)) as [|r [|r' l]] eqn:E;
    try discriminate.
  assert (Hr : In r db).
  { apply (proj1 (In_order_rows _ _)).
    assert (Hin : In r (filter
               (fun r => (row_tree_id r =? tid)%Z && (row_level r =? 0)%Z)
               (order_rows db))) by (rewrite E; now left).
    apply filter_In in Hin. tauto. }
  pose proof (nonzero_pks_in db r Hn Hr) as Hpk.
  rewrite get_descendants_saved in * by exact Hpk.
  destruct (_rebalance_helper prec _ db (from_db r) _ _)
    as [[[x db1] | e] |] eqn:Eh.
  - eauto.
  - exfalso. eapply rebalance_helper_ok; eauto.
  - contradiction.
Qed.

Lemma rebalance_trees_ok (prec : positive) (tids : list (option Z)) :
  forall db,
    nonzero_pks db = true ->
    (forall t, In t tids ->
       exists tid, t = Some tid
         /\ List.length (filter (fun r => (row_tree_id r =? tid)%Z
                                          && (row_level r =? 0)%Z) db)
            = 1%nat) ->
    exists db', rebalance_trees prec tids db = (Ok tt, db')
                /\ same_shape db db'.
Proof.
  induction tids as [|t tids IH]; intros db Hn Ht; cbn.
  - exists db. split; [reflexivity | apply same_shape_refl].
  - destruct (Ht t (or_introl eq_refl)) as (tid & -> & H1).
    destruct (rebalance_tree_ok prec db tid Hn H1) as (db1 & E).
    rewrite E. pose proof (rebalance_tree_shape _ _ _ _ E) as S1.
    destruct (IH db1) as (db' & E' & S').
    + rewrite <- (nonzero_pks_shape _ _ S1). exact Hn.
    + intros t' Hin. destruct (Ht t' (or_intror Hin)) as (tid' & -> & H').
      exists tid'. split; [reflexivity|].
      rewrite <- (one_root_shape tid' db db1 S1). exact H'.
    + exists db'. split; [exact E'|]. eapply same_shape_trans; eauto.
Qed.

(** On a store without a primary key 0 in which every tree has exactly
    one row at level 0, [rebalance_all_trees] rebalances every tree and
    raises nothing; it changes no primary key, no level, no tree id and
    not the number or the order of the rows. *)
Theorem rebalance_all_trees_returns (prec : positive) (db : Store) :
  nonzero_pks db = true -> invariant_I5 db = true ->
  exists db',
    rebalance_all_trees prec db = (Ok tt, db')
    /\ map row_shape db' = map row_shape db
    /\ List.length db' = List.length db.
Proof.
  intros Hn H5.
  destruct (rebalance_trees_ok prec (map tree_id (fetch db root_nodes)) db Hn)
    as (db' & E & S).
  { intros t Ht. apply in_map_iff in Ht. destruct Ht as (n & <- & Hn').
    unfold fetch in Hn'. apply in_map_iff in Hn'.
    destruct Hn' as (r & <- & Hr). apply In_fetch_rows in Hr.
    destruct Hr as (_ & Hr & _).
    exists (row_tree_id r). split; [reflexivity|].
    unfold invariant_I5 in H5. rewrite forallb_forall in H5.
    specialize (H5 r Hr). apply Nat.eqb_eq in H5.
    rewrite <- H5. f_equal. apply filter_ext. intros b.
    unfold same_tree. now rewrite Z.eqb_sym. }
  exists db'. split; [exact E|].
  split; [symmetry; exact S|].
  unfold same_shape in S. apply (f_equal (@List.length _)) in S.
  rewrite !length_map in S. symmetry. exact S.
Qed.

Lemma rebalance_all_trees_returns_witness :
  exists db',
    rebalance_all_trees 6 two_trees = (Ok tt, db')
    /\ map row_shape db' = map row_shape two_trees.
Proof.
  destruct (rebalance_all_trees_returns 6 two_trees
              ltac:(vm_compute; reflexivity) ltac:(vm_compute; reflexivity))
    as (db' & E & S & _).
  exists db'. auto.
Defined.

End RebalanceFrame.

(** * Saving *)

Module Saving.
Import QueryFacts RebalanceFacts Rebalancer MoveLegality SaveParent.
Import TreeFacts RebalanceFrame.

Lemma next_pk_fresh (db : Store) (r : Row) :
  In r db -> (row_pk r < next_pk db)%Z.
Proof.
  unfold next_pk. induction db as [|x db IH]; [contradiction|].
  cbn [fold_right]. intros [-> | H]; [lia|]. specialize (IH H). lia.
Qed.

Lemma next_pk_positive (db : Store) : (1 <= next_pk db)%Z.
Proof.
  unfold next_pk. induction db as [|x db IH]; cbn [fold_right]; lia.
Qed.

Lemma next_pk_shape (db db' : Store) :
  same_shape db db' -> next_pk db = next_pk db'.
Proof.
  unfold same_shape, next_pk. revert db'.
  induction db as [|r db IH]; intros [|r' db'] H; cbn in H;
    try discriminate; [reflexivity|].
  injection H as Hpk Hl Ht Hrest. cbn [fold_right].
  specialize (IH _ Hrest). rewrite Hpk. lia.
Qed.

(** What the ORM's [save] returns and writes. *)
Lemma base_save_ok (prec : positive) (db db' : Store) (m m' : Node) (w : bool) :
  base_save prec db m w = Ok (m', db') ->
  (m' = m \/ (pk m = None /\ m' = set_pk m (Some (next_pk db))))
  /\ existsb (matches_pk m') db' = true
  /\ (w = false -> db' = db).
Proof.
  unfold base_save. intros H.
  destruct (pk m) as [k|] eqn:Hk.
  - destruct (existsb (matches_pk m) db) eqn:Ex.
    + destruct w.
      * destruct (tree_id m) as [t|]; [|discriminate].
        injection H as <- <-. split; [auto|]. split; [|discriminate].
        rewrite existsb_exists in *. destruct Ex as (r & Hr & Mr).
        eexists. split; [apply in_map, Hr|].
        rewrite Mr. unfold matches_pk. rewrite Hk. cbn. apply Z.eqb_refl.
      * injection H as <- <-. auto.
    + destruct w; [|discriminate].
      destruct (tree_id m) as [t|]; [|discriminate].
      injection H as <- <-. split; [auto|]. split; [|discriminate].
      rewrite existsb_app. apply orb_true_iff. right. cbn.
      unfold matches_pk. rewrite Hk. cbn. rewrite Z.eqb_refl. reflexivity.
  - destruct w; [|discriminate].
    destruct (tree_id m) as [t|]; [|discriminate].
    injection H as <- <-. split; [auto|]. split; [|discriminate].
    rewrite existsb_app. apply orb_true_iff. right. cbn.
    unfold matches_pk. cbn. rewrite Z.eqb_refl. reflexivity.
Qed.

Lemma insert_node_keeps (prec : positive) (uuid4 : Z) (db : Store)
    (node n' : Node) (target t' : option Node) (position : string)
    (db' : Store) :
  insert_node prec uuid4 db node target position false = (Ok n', t', db') ->
  pk n' = pk node.
Proof.
  unfold insert_node.
  destruct (_is_saved node); [discriminate|].
  destruct target as [t|].
  - destruct (get_interval_for_insertion_relative_to_with_rebalance
                prec db (Some t) position 1) as [[[iv | e] [t1|]] db1];
      try discriminate.
    intros H. injection H as <- _ _. reflexivity.
  - intros H. injection H as <- _ _. reflexivity.
Qed.

(** After a [save] that returns, the instance is saved, nothing is
    pending on it and its dirty bit is cleared; the store holds a row
    with its primary key; and saving it again changes neither the
    instance nor the store.  (An instance whose primary key is 0 counts
    as unsaved and is excluded.) *)
Theorem save_leaves_the_instance_clean
    (prec : positive) (uuid4 uuid4' : Z) (db db' : Store) (n n' : Node) :
  pk n <> Some 0%Z ->
  save prec uuid4 db n = (Ok tt, n', db') ->
  _is_saved n' = true
  /\ _new_parent n' = Unchanged
  /\ _nested_intervals_fields_have_changed n' = false
  /\ existsb (matches_pk n') db' = true
  /\ save prec uuid4' db' n' = (Ok tt, n', db').
Proof.
  intros Hpk0 H.
  assert (Hstage : exists n1 db1,
            save_fields prec db1 (set_new_parent n1 Unchanged) = Ok (n', db')
            /\ pk n1 = pk n /\ tree_id n1 <> None).
  { unfold save in H.
    destruct (negb (_is_saved n)) eqn:Hs.
    - pose proof (insert_node_facts prec uuid4 db n (new_parent_or_none n)
                    "last-child") as (_ & _ & Hok).
      destruct (insert_node prec uuid4 db n (new_parent_or_none n)
                  "last-child" false) as [[[n1 | e1] t1] db1] eqn:Ei;
        [|discriminate].
      cbn in Hok. destruct (Hok n1 eq_refl) as [_ Ht1].
      destruct (save_fields prec db1 (set_new_parent n1 Unchanged))
        as [[n2 db2] | e2] eqn:Es; [|discriminate].
      injection H as <- <-. exists n1, db1.
      split; [exact Es|]. split; [|exact Ht1].
      eapply insert_node_keeps, Ei.
    - assert (Htree : tree_id n <> None).
      { apply negb_false_iff in Hs. unfold _is_saved in Hs.
        destruct (tree_id n); congruence. }
      destruct (_new_parent n) as [|p] eqn:Hp.
      + destruct (save_fields prec db (set_new_parent n Unchanged))
          as [[n2 db2] | e2] eqn:Es; [|discriminate].
        injection H as <- <-. exists n, db. auto.
      + destruct (_move_node prec uuid4 db n p "last-child")
          as [[[[[] | e1] n1] t1] db1] eqn:Hmove; [|discriminate].
        destruct (move_node_ok _ _ _ _ _ _ _ _ _ Hmove) as (_ & Hk & Ht1).
        destruct (save_fields prec db1 (set_new_parent n1 Unchanged))
          as [[n2 db2] | e2] eqn:Es; [|discriminate].
        injection H as <- <-. exists n1, db1. auto. }
  destruct Hstage as (n1 & db1 & Es & Hk & Ht).
  unfold save_fields in Es.
  apply base_save_ok in Es. destruct Es as (Hn' & Hex & _).
  set (m := if _nested_intervals_fields_have_changed
                 (set_new_parent n1 Unchanged)
            then set_changed (set_new_parent n1 Unchanged) false
            else set_new_parent n1 Unchanged) in *.
  assert (Hm : pk m = pk n /\ tree_id m = tree_id n1
               /\ _new_parent m = Unchanged
               /\ _nested_intervals_fields_have_changed m = false).
  { unfold m.
    destruct (_nested_intervals_fields_have_changed
                (set_new_parent n1 Unchanged)) eqn:E; cbn; auto. }
  destruct Hm as (M1 & M2 & M3 & M4).
  assert (Hfacts : pk_truthy n' = true /\ tree_id n' = tree_id n1
                   /\ _new_parent n' = Unchanged
                   /\ _nested_intervals_fields_have_changed n' = false).
  { destruct Hn' as [-> | [Hnone ->]].
    - split; [|auto]. unfold pk_truthy. rewrite M1.
      destruct (pk n) as [k|] eqn:Ek.
      + apply negb_true_iff, Z.eqb_neq. congruence.
      + exfalso. unfold matches_pk in Hex. rewrite M1 in Hex.
        clear - Hex. induction db'; cbn in Hex; [discriminate | auto].
    - split; [|auto]. unfold pk_truthy. cbn.
      pose proof (next_pk_positive db1).
      apply negb_true_iff, Z.eqb_neq. lia. }
  destruct Hfacts as (F1 & F2 & F3 & F4).
  assert (Hsaved : _is_saved n' = true).
  { unfold _is_saved. rewrite F2. destruct (tree_id n1); congruence. }
  split; [exact Hsaved|]. split; [exact F3|]. split; [exact F4|].
  split; [exact Hex|].
  assert (Esame : set_new_parent n' Unchanged = n')
    by (rewrite <- F3; apply set_new_parent_same).
  unfold save. rewrite Hsaved, F3. cbn [negb]. rewrite Esame.
  unfold save_fields, base_save. rewrite F4.
  unfold pk_truthy in F1. destruct (pk n') as [k|]; [|discriminate].
  rewrite Hex. reflexivity.
Qed.

Lemma save_leaves_the_instance_clean_witness :
  exists n' db',
    save 6 7 [] unsaved = (Ok tt, n', db')
    /\ _is_saved n' = true
    /\ save 6 8 db' n' = (Ok tt, n', db').
Proof.
  assert (H : exists n' db', save 6 7 [] unsaved = (Ok tt, n', db')).
  { eexists _, _. vm_compute. reflexivity. }
  destruct H as (n' & db' & H).
  destruct (save_leaves_the_instance_clean 6 7 8 [] db' unsaved n'
              ltac:(discriminate) H) as (S & _ & _ & _ & Again).
  exists n', db'. auto.
Defined.

Lemma with_rebalance_shape (prec : positive) (db db1 : Store)
    (target t' : option Node) (position : string) (count : Z)
    (r : result Interval) :
  get_interval_for_insertion_relative_to_with_rebalance
    prec db target position count = (r, t', db1) ->
  same_shape db db1.
Proof.
  unfold get_interval_for_insertion_relative_to_with_rebalance.
  destruct (get_interval_for_insertion_relative_to prec db target position
              count) as [iv | e].
  { intros H. injection H as _ _ <-. apply same_shape_refl. }
  assert (Hdefault : (@Raise Interval e, target, db) = (r, t', db1) ->
                     same_shape db db1).
  { intros H. injection H as _ _ <-. apply same_shape_refl. }
  assert (Hsame : forall (x : result Interval) (y : option Node),
             (x, y, db) = (r, t', db1) -> same_shape db db1).
  { intros x y H. injection H as _ _ <-. apply same_shape_refl. }
  destruct e; try exact Hdefault.
  destruct target as [t|]; [|apply Hsame].
  destruct (rebalance_tree prec db (tree_id t)) as [db2 | e] eqn:E;
    [|apply Hsame].
  apply rebalance_tree_shape in E.
  destruct (refresh_from_db db2 t); intros H; injection H as _ _ <-;
    exact E.
Qed.

Lemma unique_pks_app (db : Store) (row : Row) :
  unique_pks db = true -> (forall r, In r db -> row_pk r <> row_pk row) ->
  unique_pks (db ++ [row])%list = true.
Proof.
  induction db as [|x db IH]; intros Hu Hf; [reflexivity|].
  cbn in Hu |- *. apply andb_true_iff in Hu. destruct Hu as [Hx Hu].
  apply andb_true_iff. split.
  - rewrite existsb_app, negb_orb. apply andb_true_iff. split; [exact Hx|].
    cbn. rewrite orb_false_r. apply negb_true_iff, Z.eqb_neq.
    intros E. apply (Hf x); [now left | congruence].
  - apply IH; [exact Hu|]. intros r Hr. apply Hf. now right.
Qed.

(** A [save] that returns for an instance without a primary key adds
    exactly one row, at the end of the table, with a primary key larger
    than every key in the table.  The instance returned has that key and
    the level and the tree id of the row; the row holds the bounds of
    the instance as the columns keep them, to [DECIMAL_PLACES] decimal
    places, and the instance keeps its own bounds.  Without a parent
    the instance is the root of a new tree: [left = 0], [right = 1],
    which the row holds as they are, level 0 and the new tree id, and no
    other row changes.  With a parent the instance has the range the
    allocation returned for [last-child], the level below the parent and
    the tree id of the parent, and the other rows keep their primary
    keys, levels, tree ids and places.  Unique and non-zero primary keys
    stay so. *)
Theorem save_of_a_new_instance_adds_one_row
    (prec : positive) (uuid4 : Z) (db db' : Store) (n n' : Node) :
  pk n = None ->
  save prec uuid4 db n = (Ok tt, n', db') ->
  exists db1 row,
    db' = (db1 ++ [row])%list
    /\ map row_shape db1 = map row_shape db
    /\ row_pk row = next_pk db
    /\ (forall r, In r db -> (row_pk r < row_pk row)%Z)
    /\ pk n' = Some (row_pk row)
    /\ row_left row = DecimalField prec (left n')
    /\ row_right row = DecimalField prec (right n')
    /\ level n' = row_level row /\ tree_id n' = Some (row_tree_id row)
    /\ match new_parent_or_none n with
       | None =>
           db1 = db /\ left n' = 0 /\ right n' = 1
           /\ row_left row == 0 /\ row_right row == 1
           /\ row_level row = 0%Z /\ row_tree_id row = uuid4
       | Some p =>
           exists p' iv,
             get_interval_for_insertion_relative_to_with_rebalance
               prec db (Some p) "last-child" 1 = (Ok iv, Some p', db1)
             /\ left n' = i_left iv /\ right n' = i_right iv
             /\ row_level row = (level p' + 1)%Z
             /\ Some (row_tree_id row) = tree_id p'
       end
    /\ (unique_pks db = true -> unique_pks db' = true)
    /\ (nonzero_pks db = true -> nonzero_pks db' = true).
Proof.
  intros Hpk H.
  assert (Hs : _is_saved n = false).
  { unfold _is_saved, pk_truthy. rewrite Hpk. destruct (tree_id n); auto. }
  assert (Hkeys : forall db1 row,
            same_shape db db1 -> row_pk row = next_pk db ->
            (forall r, In r db -> (row_pk r < row_pk row)%Z)
            /\ (unique_pks db = true -> unique_pks (db1 ++ [row])%list = true)
            /\ (nonzero_pks db = true -> nonzero_pks (db1 ++ [row])%list = true)).
  { intros db1 row S E. split; [|split].
    - intros r Hr. rewrite E. apply next_pk_fresh, Hr.
    - intros Hu. apply unique_pks_app.
      + rewrite <- (unique_pks_shape _ _ S). exact Hu.
      + intros r Hr. rewrite E, (next_pk_shape _ _ S).
        pose proof (next_pk_fresh db1 r Hr). lia.
    - intros Hn. unfold nonzero_pks. rewrite forallb_app.
      apply andb_true_iff. split.
      + fold (nonzero_pks db1). rewrite <- (nonzero_pks_shape _ _ S).
        exact Hn.
      + cbn. rewrite E. pose proof (next_pk_positive db).
        rewrite andb_true_r. apply negb_true_iff, Z.eqb_neq. lia. }
  unfold save in H. rewrite Hs in H. cbn [negb] in H.
  unfold insert_node in H. rewrite Hs in H.
  destruct (new_parent_or_none n) as [p|] eqn:Hp.
  - pose proof (with_rebalance_target prec db (Some p) "last-child" 1)
      as [_ Hsaved].
    destruct (get_interval_for_insertion_relative_to_with_rebalance
                prec db (Some p) "last-child" 1) as [[[iv | e] t1] db1] eqn:Ew;
      [|discriminate].
    destruct t1 as [t1|]; [|discriminate].
    cbn in Hsaved. specialize (Hsaved iv t1 eq_refl eq_refl).
    unfold _is_saved in Hsaved.
    destruct (tree_id t1) as [tt1|] eqn:Ett; [|discriminate].
    pose proof (with_rebalance_shape _ _ _ _ _ _ _ _ Ew) as S.
    cbn in H. unfold save_fields, base_save in H. cbn in H.
    rewrite Hpk in H. injection H as <- <-.
    eexists db1, _. split; [reflexivity|].
    split; [symmetry; exact S|].
    split; [cbn; symmetry; apply next_pk_shape, S|].
    destruct (Hkeys db1
                {| row_pk := next_pk db1;
                   row_left := DecimalField prec (i_left iv);
                   row_right := DecimalField prec (i_right iv);
                   row_level := (level t1 + 1)%Z;
                   row_tree_id := tt1 |} S
                ltac:(cbn; symmetry; apply next_pk_shape, S))
      as (K1 & K2 & K3).
    split; [exact K1|]. cbn.
    split; [reflexivity|]. split; [reflexivity|]. split; [reflexivity|].
    split; [reflexivity|]. split; [reflexivity|].
    split; [|split; [exact K2 | exact K3]].
    exists t1, iv. rewrite Ett. auto.
  - cbn in H. unfold save_fields, base_save in H. cbn in H.
    rewrite Hpk in H. injection H as <- <-.
    eexists db, _. split; [reflexivity|].
    split; [reflexivity|]. split; [reflexivity|].
    destruct (Hkeys db
                {| row_pk := next_pk db;
                   row_left := DecimalField prec 0;
                   row_right := DecimalField prec 1;
                   row_level := 0; row_tree_id := uuid4 |}
                (same_shape_refl db) eq_refl) as (K1 & K2 & K3).
    split; [exact K1|]. cbn.
    split; [reflexivity|]. split; [reflexivity|]. split; [reflexivity|].
    split; [reflexivity|]. split; [reflexivity|].
    split; [|split; [exact K2 | exact K3]].
    split; [reflexivity|]. split; [reflexivity|]. split; [reflexivity|].
    split; [apply (ColumnFacts.quantize_Z prec 0)|].
    split; [apply (ColumnFacts.quantize_Z prec 1)|]. auto.
Qed.

Lemma save_of_a_new_instance_adds_one_row_witness :
  exists n' db1 row,
    save 6 7 singleton_tree unsaved = (Ok tt, n', (db1 ++ [row])%list)
    /\ db1 = singleton_tree
    /\ row_pk row = 2%Z /\ row_level row = 0%Z /\ row_tree_id row = 7%Z.
Proof.
  assert (H : exists n' db',
             save 6 7 singleton_tree unsaved = (Ok tt, n', db')).
  { eexists _, _. vm_compute. reflexivity. }
  destruct H as (n' & db' & H).
  destruct (save_of_a_new_instance_adds_one_row 6 7 singleton_tree db'
              unsaved n' eq_refl H)
    as (db1 & row & -> & _ & Hk & _ & _ & _ & _ & _ & _ & Hroot & _).
  cbn in Hroot. destruct Hroot as (-> & _ & _ & _ & _ & Hl & Ht).
  exists n', singleton_tree, row. auto.
Defined.

End Saving.

(** * Children in order *)

Module Siblings.
Import QueryFacts TreeFacts TreeQueries.

(** ** The order of the manager's querysets *)

Lemma row_leb_iff (a b : Row) :
  row_leb a b = true
  <-> (row_tree_id a < row_tree_id b)%Z
      \/ (row_tree_id a = row_tree_id b /\ row_left a <= row_left b).
Proof.
  unfold row_leb.
  rewrite orb_true_iff, andb_true_iff, Z.ltb_lt, Z.eqb_eq, Qle_bool_iff.
  reflexivity.
Qed.

Lemma row_leb_trans (a b c : Row) :
  row_leb a b = true -> row_leb b c = true -> row_leb a c = true.
Proof.
  rewrite !row_leb_iff. intros [H1 | [H1 L1]] [H2 | [H2 L2]].
  - left. lia.
  - left. lia.
  - left. lia.
  - right. split; [lia | lra].
Qed.

Lemma row_leb_total (a b : Row) :
  row_leb a b = false -> row_leb b a = true.
Proof.
  intros H. apply row_leb_iff.
  destruct (Z.lt_trichotomy (row_tree_id a) (row_tree_id b))
    as [L | [E | G]].
  - assert (row_leb a b = true) by (apply row_leb_iff; auto). congruence.
  - right. split; [lia|].
    destruct (Qlt_le_dec (row_left a) (row_left b)) as [L | L]; [|exact L].
    assert (row_leb a b = true)
      by (apply row_leb_iff; right; split; [lia | lra]).
    congruence.
  - left. exact G.
Qed.

Lemma insert_row_sorted (r : Row) (l : list Row) :
  sorted_by row_leb l -> sorted_by row_leb (insert_row r l).
Proof.
  induction l as [|x l IH]; intros H.
  - cbn. split; [intros y []|exact I].
  - cbn [insert_row]. destruct H as [Hx Hl].
    destruct (row_leb r x) eqn:E.
    + split; [|split; assumption].
      intros y [<- | Hy]; [exact E|].
      eapply row_leb_trans; [exact E | apply Hx, Hy].
    + split; [|apply IH, Hl].
      intros y Hy. apply In_insert_row in Hy.
      destruct Hy as [-> | Hy]; [apply row_leb_total, E | apply Hx, Hy].
Qed.

Lemma order_rows_sorted (db : Store) : sorted_by row_leb (order_rows db).
Proof.
  induction db as [|x db IH]; [exact I|].
  cbn [order_rows]. apply insert_row_sorted, IH.
Qed.

Lemma sorted_filter (leb : Row -> Row -> bool) (p : Row -> bool)
    (l : list Row) :
  sorted_by leb l -> sorted_by leb (filter p l).
Proof.
  induction l as [|x l IH]; intros H; [exact I|].
  destruct H as [Hx Hl]. cbn [filter].
  destruct (p x); [|apply IH, Hl].
  split; [|apply IH, Hl].
  intros y Hy. apply filter_In in Hy. apply Hx. tauto.
Qed.

Lemma sorted_first (leb : Row -> Row -> bool) (l : list Row) (x : Row) :
  sorted_by leb l -> first l = Some x ->
  In x l /\ forall y, In y l -> y = x \/ leb x y = true.
Proof.
  destruct l as [|a l]; [discriminate|].
  intros [Ha _] E. injection E as <-.
  split; [now left|]. intros y [<- | Hy]; auto.
Qed.

Lemma last_cons {A : Type} (a : A) (l : list A) :
  last (a :: l) = match last l with Some x => Some x | None => Some a end.
Proof.
  unfold last. cbn [rev].
  destruct (rev l) as [|x xs]; reflexivity.
Qed.

Lemma last_In {A : Type} (l : list A) (x : A) : last l = Some x -> In x l.
Proof.
  unfold last. intros H. apply in_rev.
  destruct (rev l); [discriminate|]. injection H as <-. now left.
Qed.

Lemma last_none {A : Type} (l : list A) : last l = None -> l = [].
Proof.
  unfold last. intros H.
  destruct (rev l) eqn:E; [|discriminate].
  rewrite <- (rev_involutive l), E. reflexivity.
Qed.

Lemma first_none {A : Type} (l : list A) : first l = None -> l = [].
Proof. destruct l; [reflexivity | discriminate]. Qed.

Lemma sorted_last (leb : Row -> Row -> bool) (l : list Row) (x : Row) :
  sorted_by leb l -> last l = Some x ->
  In x l /\ forall y, In y l -> y = x \/ leb y x = true.
Proof.
  intros Hs E. split; [apply last_In, E|]. revert x Hs E.
  induction l as [|a l IH]; intros x Hs E y Hy; [contradiction|].
  destruct Hs as [Ha Hl]. rewrite last_cons in E.
  destruct (last l) as [z|] eqn:Ez.
  - injection E as <-.
    destruct Hy as [<- | Hy]; [|apply (IH z Hl eq_refl y Hy)].
    right. apply Ha, last_In, Ez.
  - injection E as <-. apply last_none in Ez. subst l.
    destruct Hy as [<- | []]. now left.
Qed.

Lemma first_map {A B : Type} (f : A -> B) (l : list A) :
  first (map f l) = option_map f (first l).
Proof. destruct l; reflexivity. Qed.

Lemma last_map {A B : Type} (f : A -> B) (l : list A) :
  last (map f l) = option_map f (last l).
Proof.
  unfold last. rewrite <- map_rev. destruct (rev l); reflexivity.
Qed.

Lemma filter_map_swap {A B : Type} (f : A -> B) (p : B -> bool)
    (l : list A) :
  filter p (map f l) = map f (filter (fun x => p (f x)) l).
Proof.
  induction l as [|x l IH]; [reflexivity|].
  cbn. destruct (p (f x)); cbn; now rewrite IH.
Qed.

(** ** The children of a stored row *)

(** The children of a stored row are the instances of its child rows. *)
Lemma get_children_rows (db : Store) (p : Row) :
  pk_truthy (from_db p) = true ->
  get_children db (from_db p) = Ok (map from_db (children_rows db p)).
Proof.
  intros H. rewrite get_children_saved by exact H.
  rewrite filter_map_swap. reflexivity.
Qed.

Section Children.

Variable db : Store.
Hypothesis wf : well_formed db.

Lemma child_row_iff (p c : Row) :
  In p db ->
  (In c (children_rows db p)
   <-> In c db /\ around c p = true
       /\ row_level c = (row_level p + 1)%Z).
Proof.
  intros Hp. unfold children_rows.
  rewrite !filter_In, In_order_rows, Z.eqb_eq.
  split.
  - intros ((Hc & F) & L). split; [exact Hc|]. split; [|exact L].
    apply (descendant_filter_around db wf p c Hp Hc), F.
  - intros (Hc & A & L). split; [|exact L]. split; [exact Hc|].
    apply (descendant_filter_around db wf p c Hp Hc), A.
Qed.

(** Two children of one row do not overlap. *)
Lemma children_disjoint (p c d : Row) :
  In p db -> In c db -> In d db ->
  around c p = true -> around d p = true ->
  row_level c = row_level d ->
  c = d \/ row_right c < row_left d \/ row_right d < row_left c.
Proof.
  intros Hp Hc Hd Ac Ad L.
  destruct (Z.eq_dec (row_pk c) (row_pk d)) as [E | NE].
  - left. apply (wf_unique db wf); assumption.
  - right.
    apply around_iff in Ac, Ad.
    destruct (wf_I2 db wf c d Hc Hd ltac:(intuition congruence) NE)
      as [H | [H | [H | H]]]; auto.
    + pose proof (level_lt db wf c d Hc Hd H). lia.
    + pose proof (level_lt db wf d c Hd Hc H). lia.
Qed.

Lemma children_sorted (p : Row) : sorted_by row_leb (children_rows db p).
Proof. apply sorted_filter, sorted_filter, order_rows_sorted. Qed.

(** Among the children of one row the order is that of the left bounds. *)
Lemma children_leb (p c d : Row) :
  around c p = true -> around d p = true ->
  row_leb c d = true -> row_left c <= row_left d.
Proof.
  rewrite !around_iff, row_leb_iff. intros (Tc & _) (Td & _) [H | [_ H]];
    [lia | exact H].
Qed.

End Children.

(** ** The range the allocation divides *)

Lemma valid_position_cases (position : string) :
  position_in position valid_positions = true ->
  position = "first-child" \/ position = "last-child"
  \/ position = "left" \/ position = "right".
Proof.
  unfold position_in, valid_positions. cbn [existsb].
  rewrite !orb_true_iff, !String.eqb_eq. intuition discriminate.
Qed.

Lemma allocation_first_child (prec : positive) (db : Store) (t : Node)
    (count : Z) :
  _is_saved t = true ->
  get_interval_for_insertion_relative_to prec db (Some t) "first-child" count
  = (children <- get_children db t ;;
     match first children with
     | Some first_child =>
         _calculate_sub_interval prec (left t) (left first_child) count
     | None => _calculate_sub_interval prec (left t) (right t) count
     end).
Proof.
  intros Hs. unfold get_interval_for_insertion_relative_to.
  rewrite Hs. reflexivity.
Qed.

Lemma allocation_last_child (prec : positive) (db : Store) (t : Node)
    (count : Z) :
  _is_saved t = true ->
  get_interval_for_insertion_relative_to prec db (Some t) "last-child" count
  = (children <- get_children db t ;;
     match last children with
     | Some last_child =>
         _calculate_sub_interval prec (right last_child) (right t) count
     | None => _calculate_sub_interval prec (left t) (right t) count
     end).
Proof.
  intros Hs. unfold get_interval_for_insertion_relative_to.
  rewrite Hs. reflexivity.
Qed.

Lemma allocation_left (prec : positive) (db : Store) (t : Node)
    (count : Z) :
  _is_saved t = true -> is_root_node t = false ->
  get_interval_for_insertion_relative_to prec db (Some t) "left" count
  = (previous <- get_previous_sibling db t ;;
     match previous with
     | Some previous =>
         _calculate_sub_interval prec (right previous) (left t) count
     | None =>
         match parent db t with
         | Some p => _calculate_sub_interval prec (left p) (left t) count
         | None => Raise AttributeError
         end
     end).
Proof.
  intros Hs Hr. unfold get_interval_for_insertion_relative_to.
  rewrite Hs. cbn. rewrite Hr. reflexivity.
Qed.

Lemma allocation_right (prec : positive) (db : Store) (t : Node)
    (count : Z) :
  _is_saved t = true -> is_root_node t = false ->
  get_interval_for_insertion_relative_to prec db (Some t) "right" count
  = (nxt <- get_next_sibling db t ;;
     match nxt with
     | Some nxt => _calculate_sub_interval prec (right t) (left nxt) count
     | None =>
         match parent db t with
         | Some p => _calculate_sub_interval prec (right t) (right p) count
         | None => Raise AttributeError
         end
     end).
Proof.
  intros Hs Hr. unfold get_interval_for_insertion_relative_to.
  rewrite Hs. cbn. rewrite Hr. reflexivity.
Qed.

Lemma allocation_sibling_of_root (prec : positive) (db : Store) (t : Node)
    (position : string) (count : Z) (iv : Interval) :
  position = "left" \/ position = "right" ->
  get_interval_for_insertion_relative_to prec db (Some t) position count
  = Ok iv ->
  is_root_node t = false.
Proof.
  intros Hp. unfold get_interval_for_insertion_relative_to.
  destruct Hp as [-> | ->]; cbn;
    destruct (negb (_is_saved t)); try discriminate;
    destruct (is_root_node t); [discriminate | reflexivity
                               | discriminate | reflexivity].
Qed.

Section Gap.

Variable prec : positive.
Variable db : Store.
Hypothesis wf : well_formed db.

Lemma stored_is_saved (t : Row) : In t db -> _is_saved (from_db t) = true.
Proof. intros Ht. unfold _is_saved. cbn. apply (wf_saved db wf t Ht). Qed.

(** For each position: the range the allocation divides.  Its ends are
    bounds of stored rows, it is proper, it lies inside the row that
    becomes the parent, and every child of that row lies on one side of
    it. *)
Lemma first_child_gap (t : Row) (count : Z) :
  In t db ->
  exists ol or,
    get_interval_for_insertion_relative_to prec db (Some (from_db t))
      "first-child" count
    = _calculate_sub_interval prec ol or count
    /\ ol < or
    /\ (forall P : Q -> Prop,
          (forall r, In r db -> P (row_left r) /\ P (row_right r)) ->
          P ol /\ P or)
    /\ row_left t <= ol /\ or <= row_right t
    /\ forall c, In c (children_rows db t) -> or <= row_left c.
Proof.
  intros Ht.
  rewrite allocation_first_child by (apply stored_is_saved, Ht).
  rewrite get_children_rows by (apply (wf_saved db wf t Ht)).
  cbn [bind from_db level left right]. rewrite first_map.
  pose proof (wf_I1 db wf t Ht) as I1.
  destruct (first (children_rows db t)) as [fc|] eqn:E; cbn.
  - destruct (sorted_first _ _ _ (children_sorted db t) E) as [Hin Hmin].
    pose proof (proj1 (child_row_iff db wf t fc Ht) Hin) as (Hfc & Afc & _).
    pose proof (wf_I1 db wf fc Hfc) as I1c.
    pose proof (proj1 (around_iff _ _) Afc) as (_ & L & R).
    exists (row_left t), (row_left fc). split; [reflexivity|].
    split; [lra|].
    split; [intros P HP; split; [apply (HP t Ht) | apply (HP fc Hfc)]|].
    split; [lra|]. split; [lra|].
    intros c Hc. destruct (Hmin c Hc) as [-> | Hle]; [lra|].
    pose proof (proj1 (child_row_iff db wf t c Ht) Hc) as (_ & Ac & _).
    apply (children_leb t fc c Afc Ac Hle).
  - apply first_none in E.
    exists (row_left t), (row_right t). split; [reflexivity|].
    split; [exact I1|].
    split; [intros P HP; split; apply (HP t Ht)|].
    split; [lra|]. split; [lra|].
    intros c Hc. rewrite E in Hc. contradiction.
Qed.

Lemma last_child_gap (t : Row) (count : Z) :
  In t db ->
  exists ol or,
    get_interval_for_insertion_relative_to prec db (Some (from_db t))
      "last-child" count
    = _calculate_sub_interval prec ol or count
    /\ ol < or
    /\ (forall P : Q -> Prop,
          (forall r, In r db -> P (row_left r) /\ P (row_right r)) ->
          P ol /\ P or)
    /\ row_left t <= ol /\ or <= row_right t
    /\ forall c, In c (children_rows db t) -> row_right c <= ol.
Proof.
  intros Ht.
  rewrite allocation_last_child by (apply stored_is_saved, Ht).
  rewrite get_children_rows by (apply (wf_saved db wf t Ht)).
  cbn [bind from_db level left right]. rewrite last_map.
  pose proof (wf_I1 db wf t Ht) as I1.
  destruct (last (children_rows db t)) as [lc|] eqn:E; cbn.
  - destruct (sorted_last _ _ _ (children_sorted db t) E) as [Hin Hmax].
    pose proof (proj1 (child_row_iff db wf t lc Ht) Hin) as (Hlc & Alc & Llc).
    pose proof (wf_I1 db wf lc Hlc) as I1c.
    pose proof (proj1 (around_iff _ _) Alc) as (_ & L & R).
    exists (row_right lc), (row_right t). split; [reflexivity|].
    split; [lra|].
    split; [intros P HP; split; [apply (HP lc Hlc) | apply (HP t Ht)]|].
    split; [lra|]. split; [lra|].
    intros c Hc. destruct (Hmax c Hc) as [-> | Hle]; [lra|].
    pose proof (proj1 (child_row_iff db wf t c Ht) Hc) as (Hc' & Ac & Lc).
    pose proof (children_leb t c lc Ac Alc Hle) as Hl.
    pose proof (wf_I1 db wf c Hc') as I1c'.
    destruct (children_disjoint db wf t c lc Ht Hc' Hlc Ac Alc ltac:(lia))
      as [-> | [D | D]]; lra.
  - apply last_none in E.
    exists (row_left t), (row_right t). split; [reflexivity|].
    split; [exact I1|].
    split; [intros P HP; split; apply (HP t Ht)|].
    split; [lra|]. split; [lra|].
    intros c Hc. rewrite E in Hc. contradiction.
Qed.

(** A child of the parent of [t] that is not before [t] is [t] or after
    it, and one that is not after [t] is [t] or before it. *)
Lemma sibling_sides (p t c : Row) :
  In p db -> In t db -> In c db ->
  around t p = true -> around c p = true -> row_level c = row_level t ->
  (~ row_right c < row_left t -> row_left t <= row_left c)
  /\ (~ row_right t < row_left c -> row_right c <= row_right t).
Proof.
  intros Hp Ht Hc At Ac L.
  pose proof (wf_I1 db wf t Ht). pose proof (wf_I1 db wf c Hc).
  destruct (children_disjoint db wf p c t Hp Hc Ht Ac At L)
    as [-> | [D | D]]; split; intros N; lra.
Qed.

Lemma left_gap (t : Row) (count : Z) :
  In t db -> row_level t <> 0%Z ->
  exists p ol,
    In p db /\ parent db (from_db t) = Some (from_db p)
    /\ get_interval_for_insertion_relative_to prec db (Some (from_db t))
         "left" count
       = _calculate_sub_interval prec ol (row_left t) count
    /\ ol < row_left t
    /\ (forall P : Q -> Prop,
          (forall r, In r db -> P (row_left r) /\ P (row_right r)) ->
          P ol /\ P (row_left t))
    /\ row_left p <= ol /\ row_left t <= row_right p
    /\ forall c, In c (children_rows db p) ->
         row_right c <= ol \/ row_left t <= row_left c.
Proof.
  intros Ht Hroot.
  rewrite allocation_left
    by (apply stored_is_saved, Ht
        || (unfold is_root_node; cbn; apply Z.eqb_neq, Hroot)).
  destruct (parent_exists db wf t Ht Hroot) as (p & Hp & At & Lp).
  pose proof (parent_is db t p wf Ht Hp At Lp) as Epar.
  exists p.
  unfold get_previous_sibling, raise_if_unsaved, is_root_node.
  rewrite (wf_saved db wf t Ht), Epar.
  cbn [from_db level].
  destruct (Z.eqb_spec (row_level t) 0) as [E0 | _]; [contradiction|].
  rewrite get_children_rows by (apply (wf_saved db wf p Hp)).
  cbn [bind from_db level left right].
  rewrite filter_map_swap, last_map.
  cbn [from_db level left right].
  pose proof (wf_I1 db wf t Ht) as I1.
  pose proof (wf_I1 db wf p Hp) as I1p.
  pose proof (proj1 (around_iff _ _) At) as (_ & Lt & Rt).
  assert (Hside : forall c, In c (children_rows db p) ->
            ~ row_right c < row_left t -> row_left t <= row_left c).
  { intros c Hc.
    pose proof (proj1 (child_row_iff db wf p c Hp) Hc) as (Hc' & Ac & Lc).
    apply (sibling_sides p t c Hp Ht Hc' At Ac). lia. }
  destruct (last (filter (fun x => Dec.dlt (row_right x) (row_left t))
                    (children_rows db p))) as [pr|] eqn:E; cbn.
  - assert (Hs : sorted_by row_leb
                   (filter (fun x => Dec.dlt (row_right x) (row_left t))
                      (children_rows db p)))
      by (apply sorted_filter, children_sorted).
    destruct (sorted_last _ _ _ Hs E) as [Hin Hmax].
    apply filter_In in Hin. destruct Hin as [Hin Fpr].
    apply dlt_iff in Fpr.
    pose proof (proj1 (child_row_iff db wf p pr Hp) Hin) as (Hpr & Apr & Lpr).
    pose proof (wf_I1 db wf pr Hpr) as I1pr.
    pose proof (proj1 (around_iff _ _) Apr) as (_ & L & R).
    exists (row_right pr). split; [exact Hp|]. split; [reflexivity|].
    split; [reflexivity|]. split; [exact Fpr|].
    split; [intros P HP; split; [apply (HP pr Hpr) | apply (HP t Ht)]|].
    split; [lra|]. split; [lra|].
    intros c Hc.
    destruct (Qlt_le_dec (row_right c) (row_left t)) as [B | NB].
    + left.
      assert (Hcf : In c (filter (fun x => Dec.dlt (row_right x) (row_left t))
                            (children_rows db p)))
        by (apply filter_In; split; [exact Hc | apply dlt_iff, B]).
      destruct (Hmax c Hcf) as [-> | Hle]; [lra|].
      pose proof (proj1 (child_row_iff db wf p c Hp) Hc) as (Hc' & Ac & Lc).
      pose proof (children_leb p c pr Ac Apr Hle) as Hl.
      pose proof (wf_I1 db wf c Hc') as I1c.
      destruct (children_disjoint db wf p c pr Hp Hc' Hpr Ac Apr ltac:(lia))
        as [-> | [D | D]]; lra.
    + right. apply Hside; [exact Hc | lra].
  - apply last_none in E.
    exists (row_left p). split; [exact Hp|]. split; [reflexivity|].
    split; [reflexivity|]. split; [exact Lt|].
    split; [intros P HP; split; [apply (HP p Hp) | apply (HP t Ht)]|].
    split; [lra|]. split; [lra|].
    intros c Hc. right. apply Hside; [exact Hc|].
    intros B.
    assert (Hcf : In c (filter (fun x => Dec.dlt (row_right x) (row_left t))
                          (children_rows db p)))
      by (apply filter_In; split; [exact Hc | apply dlt_iff, B]).
    rewrite E in Hcf. contradiction.
Qed.

Lemma right_gap (t : Row) (count : Z) :
  In t db -> row_level t <> 0%Z ->
  exists p or,
    In p db /\ parent db (from_db t) = Some (from_db p)
    /\ get_interval_for_insertion_relative_to prec db (Some (from_db t))
         "right" count
       = _calculate_sub_interval prec (row_right t) or count
    /\ row_right t < or
    /\ (forall P : Q -> Prop,
          (forall r, In r db -> P (row_left r) /\ P (row_right r)) ->
          P (row_right t) /\ P or)
    /\ row_left p <= row_right t /\ or <= row_right p
    /\ forall c, In c (children_rows db p) ->
         row_right c <= row_right t \/ or <= row_left c.
Proof.
  intros Ht Hroot.
  rewrite allocation_right
    by (apply stored_is_saved, Ht
        || (unfold is_root_node; cbn; apply Z.eqb_neq, Hroot)).
  destruct (parent_exists db wf t Ht Hroot) as (p & Hp & At & Lp).
  pose proof (parent_is db t p wf Ht Hp At Lp) as Epar.
  exists p.
  unfold get_next_sibling, raise_if_unsaved, is_root_node.
  rewrite (wf_saved db wf t Ht), Epar.
  cbn [from_db level].
  destruct (Z.eqb_spec (row_level t) 0) as [E0 | _]; [contradiction|].
  rewrite get_children_rows by (apply (wf_saved db wf p Hp)).
  cbn [bind from_db level left right].
  rewrite filter_map_swap, first_map.
  cbn [from_db level left right].
  pose proof (wf_I1 db wf t Ht) as I1.
  pose proof (wf_I1 db wf p Hp) as I1p.
  pose proof (proj1 (around_iff _ _) At) as (_ & Lt & Rt).
  assert (Hside : forall c, In c (children_rows db p) ->
            ~ row_right t < row_left c -> row_right c <= row_right t).
  { intros c Hc.
    pose proof (proj1 (child_row_iff db wf p c Hp) Hc) as (Hc' & Ac & Lc).
    apply (sibling_sides p t c Hp Ht Hc' At Ac). lia. }
  destruct (first (filter (fun x => Dec.dlt (row_right t) (row_left x))
                     (children_rows db p))) as [nx|] eqn:E; cbn.
  - assert (Hs : sorted_by row_leb
                   (filter (fun x => Dec.dlt (row_right t) (row_left x))
                      (children_rows db p)))
      by (apply sorted_filter, children_sorted).
    destruct (sorted_first _ _ _ Hs E) as [Hin Hmin].
    apply filter_In in Hin. destruct Hin as [Hin Fnx].
    apply dlt_iff in Fnx.
    pose proof (proj1 (child_row_iff db wf p nx Hp) Hin) as (Hnx & Anx & Lnx).
    pose proof (wf_I1 db wf nx Hnx) as I1nx.
    pose proof (proj1 (around_iff _ _) Anx) as (_ & L & R).
    exists (row_left nx). split; [exact Hp|]. split; [reflexivity|].
    split; [reflexivity|]. split; [exact Fnx|].
    split; [intros P HP; split; [apply (HP t Ht) | apply (HP nx Hnx)]|].
    split; [lra|]. split; [lra|].
    intros c Hc.
    destruct (Qlt_le_dec (row_right t) (row_left c)) as [B | NB].
    + right.
      assert (Hcf : In c (filter (fun x => Dec.dlt (row_right t) (row_left x))
                            (children_rows db p)))
        by (apply filter_In; split; [exact Hc | apply dlt_iff, B]).
      destruct (Hmin c Hcf) as [-> | Hle]; [lra|].
      pose proof (proj1 (child_row_iff db wf p c Hp) Hc) as (Hc' & Ac & Lc).
      apply (children_leb p nx c Anx Ac Hle).
    + left. apply Hside; [exact Hc | lra].
  - apply first_none in E.
    exists (row_right p). split; [exact Hp|]. split; [reflexivity|].
    split; [reflexivity|]. split; [exact Rt|].
    split; [intros P HP; split; [apply (HP t Ht) | apply (HP p Hp)]|].
    split; [lra|]. split; [lra|].
    intros c Hc. left. apply Hside; [exact Hc|].
    intros B.
    assert (Hcf : In c (filter (fun x => Dec.dlt (row_right t) (row_left x))
                          (children_rows db p)))
      by (apply filter_In; split; [exact Hc | apply dlt_iff, B]).
    rewrite E in Hcf. contradiction.
Qed.

(** The four positions together: the allocation relative to a stored
    row divides a proper range between bounds of stored rows, inside the
    row [p] that becomes the parent, with every child of [p] on one side
    of it. *)
Lemma allocation_divides_a_gap (t : Row) (position : string) (count : Z) :
  In t db -> In position valid_positions ->
  (position_in position ["left"; "right"] = true -> row_level t <> 0%Z) ->
  exists p ol or,
    In p db
    /\ (if position_in position ["left"; "right"]
        then parent db (from_db t) = Some (from_db p)
        else p = t)
    /\ get_interval_for_insertion_relative_to prec db (Some (from_db t))
         position count
       = _calculate_sub_interval prec ol or count
    /\ ol < or
    /\ (forall P : Q -> Prop,
          (forall r, In r db -> P (row_left r) /\ P (row_right r)) ->
          P ol /\ P or)
    /\ row_left p <= ol /\ or <= row_right p
    /\ (forall c, In c (children_rows db p) ->
          row_right c <= ol \/ or <= row_left c)
    /\ (position = "first-child" ->
        forall c, In c (children_rows db p) -> or <= row_left c)
    /\ (position = "last-child" ->
        forall c, In c (children_rows db p) -> row_right c <= ol)
    /\ (position = "left" -> or = row_left t)
    /\ (position = "right" -> ol = row_right t).
Proof.
  intros Ht Hpos Hroot. cbn in Hpos.
  destruct Hpos as [<- | [<- | [<- | [<- | []]]]].
  - destruct (first_child_gap t count Ht)
      as (ol & or & E & Hlt & HP & Bl & Br & Hch).
    exists t, ol, or. cbn [position_in existsb String.eqb].
    split; [exact Ht|]. split; [reflexivity|]. split; [exact E|].
    split; [exact Hlt|]. split; [exact HP|]. split; [exact Bl|].
    split; [exact Br|]. split; [intros c Hc; right; auto|].
    split; [intros _; exact Hch|].
    split; [discriminate|]. split; discriminate.
  - destruct (last_child_gap t count Ht)
      as (ol & or & E & Hlt & HP & Bl & Br & Hch).
    exists t, ol, or.
    split; [exact Ht|]. split; [reflexivity|]. split; [exact E|].
    split; [exact Hlt|]. split; [exact HP|]. split; [exact Bl|].
    split; [exact Br|]. split; [intros c Hc; left; auto|].
    split; [discriminate|]. split; [intros _; exact Hch|].
    split; discriminate.
  - destruct (left_gap t count Ht (Hroot eq_refl))
      as (p & ol & Hp & Epar & E & Hlt & HP & Bl & Br & Hch).
    exists p, ol, (row_left t).
    split; [exact Hp|]. split; [exact Epar|]. split; [exact E|].
    split; [exact Hlt|]. split; [exact HP|]. split; [exact Bl|].
    split; [exact Br|]. split; [exact Hch|].
    split; [discriminate|]. split; [discriminate|].
    split; [reflexivity | discriminate].
  - destruct (right_gap t count Ht (Hroot eq_refl))
      as (p & or & Hp & Epar & E & Hlt & HP & Bl & Br & Hch).
    exists p, (row_right t), or.
    split; [exact Hp|]. split; [exact Epar|]. split; [exact E|].
    split; [exact Hlt|]. split; [exact HP|]. split; [exact Bl|].
    split; [exact Br|]. split; [exact Hch|].
    split; [discriminate|]. split; [discriminate|].
    split; [discriminate | reflexivity].
Qed.

End Gap.

(** On a well-formed store whose bounds are decimals of the context
    precision, a successful allocation relative to a stored target
    returns a proper range that lies inside the row that becomes the
    parent (the target for the child positions, the parent of the target
    for the sibling positions) and overlaps none of the children that
    row already has: every child ends at or before the new left bound or
    starts at or after the new right bound.  For [first-child] every
    child is after the new range, for [last-child] every child is before
    it, for [left] the range ends at or before the target and for
    [right] it starts at or after the target.  The new bounds are
    decimals of the context precision again. *)
Theorem allocation_lies_in_a_free_gap
    (prec : positive) (db : Store) (t : Row) (position : string)
    (count : Z) (iv : Interval) :
  well_formed db -> stored_representable prec db -> In t db ->
  (1 <= count)%Z ->
  get_interval_for_insertion_relative_to prec db (Some (from_db t))
    position count = Ok iv ->
  exists p,
    In p db
    /\ (if position_in position ["left"; "right"]
        then parent db (from_db t) = Some (from_db p)
        else p = t)
    /\ get_children db (from_db p) = Ok (map from_db (children_rows db p))
    /\ row_left p <= i_left iv /\ i_left iv < i_right iv
    /\ i_right iv <= row_right p
    /\ (forall c, In c (children_rows db p) ->
          row_right c <= i_left iv \/ i_right iv <= row_left c)
    /\ (position = "first-child" ->
        forall c, In c (children_rows db p) -> i_right iv <= row_left c)
    /\ (position = "last-child" ->
        forall c, In c (children_rows db p) -> row_right c <= i_left iv)
    /\ (position = "left" -> i_right iv <= row_left t)
    /\ (position = "right" -> row_right t <= i_left iv)
    /\ representable prec (i_left iv) /\ representable prec (i_right iv).
Proof.
  intros wf Hrep Ht Hc H.
  assert (Hpos : In position valid_positions).
  { unfold get_interval_for_insertion_relative_to in H.
    destruct (position_in position valid_positions) eqn:E;
      [|discriminate].
    destruct (valid_position_cases position E) as [-> | [-> | [-> | ->]]];
      cbn; auto. }
  assert (Hroot : position_in position ["left"; "right"] = true ->
                  row_level t <> 0%Z).
  { intros Hp.
    assert (Hlr : position = "left" \/ position = "right").
    { unfold position_in in Hp. cbn [existsb] in Hp.
      rewrite !orb_true_iff, !String.eqb_eq in Hp. intuition discriminate. }
    pose proof (allocation_sibling_of_root _ _ _ _ _ _ Hlr H) as Hr.
    unfold is_root_node in Hr. cbn in Hr. apply Z.eqb_neq, Hr. }
  destruct (allocation_divides_a_gap prec db wf t position count Ht Hpos Hroot)
    as (p & ol & or & Hp & Epar & E & Hlt & HP & Bl & Br & Hch
        & Hfirst & Hlast & Hleft & Hright).
  rewrite E in H.
  destruct (HP (representable prec) Hrep) as [Rl Rr].
  destruct (AllocationRange.sub_interval_range
              prec ol or count iv Hlt Hc Rl Rr H)
    as (_ & W1 & W2 & W3 & W4 & W5 & _).
  exists p. split; [exact Hp|]. split; [exact Epar|].
  split; [apply get_children_rows, (wf_saved db wf p Hp)|].
  split; [lra|]. split; [exact W2|]. split; [lra|].
  split; [intros c Hin; destruct (Hch c Hin); [left | right]; lra|].
  split; [intros Hx c Hin; specialize (Hfirst Hx c Hin); lra|].
  split; [intros Hx c Hin; specialize (Hlast Hx c Hin); lra|].
  split; [intros Hx; rewrite <- (Hleft Hx); exact W3|].
  split; [intros Hx; rewrite <- (Hright Hx); exact W1|].
  split; assumption.
Qed.

Lemma allocation_lies_in_a_free_gap_witness :
  exists iv,
    get_interval_for_insertion_relative_to 6 example_tree (Some node_2)
      "last-child" 1 = Ok iv
    /\ 1 # 10 <= i_left iv /\ i_left iv < i_right iv /\ i_right iv <= 2 # 10
    /\ forall c, In c (children_rows example_tree (example_row 1)) ->
         row_right c <= i_left iv.
Proof.
  assert (H : exists iv,
             get_interval_for_insertion_relative_to 6 example_tree
               (Some node_2) "last-child" 1 = Ok iv).
  { eexists. vm_compute. reflexivity. }
  destruct H as (iv & H).
  destruct (allocation_lies_in_a_free_gap 6 example_tree (example_row 1)
              "last-child" 1 iv
              ltac:(repeat split; vm_compute; reflexivity)
              ltac:(intros r Hr; simpl in Hr;
                    destruct Hr as [<- | [<- | [<- | [<- | [<- | []]]]]];
                    split; vm_compute; reflexivity)
              ltac:(simpl; tauto) ltac:(lia) H)
    as (p & _ & Ep & _ & H1 & H2 & H3 & _ & _ & H5 & _).
  cbn in Ep. subst p.
  exists iv. split; [exact H|]. split; [exact H1|]. split; [exact H2|].
  split; [exact H3|]. apply H5. reflexivity.
Defined.

(** On a well-formed store the allocation relative to a stored row
    raises nothing but [IntervalTooSmall], apart from the two
    [ValueError]s of its own checks: an unknown position is rejected
    first, a sibling position at a row of level 0 next, and every other
    call either returns a range or raises [IntervalTooSmall].  The
    queries it makes for the children, the siblings and the parent never
    fail. *)
Theorem allocation_raises_only_interval_too_small
    (prec : positive) (db : Store) (t : Row) (position : string) (count : Z) :
  well_formed db -> In t db ->
  let r := get_interval_for_insertion_relative_to prec db (Some (from_db t))
             position count in
  (~ In position valid_positions ->
   r = Raise (ValueError ("An invalid position was given: " ++ position ++ ".")))
  /\ (In position valid_positions ->
      position_in position ["left"; "right"] = true -> row_level t = 0%Z ->
      r = Raise (ValueError "Can't insert as a sibling of a root node."))
  /\ (In position valid_positions ->
      (position_in position ["left"; "right"] = true ->
       row_level t <> 0%Z) ->
      (exists iv, r = Ok iv)
      \/ r = Raise (IntervalTooSmall
                      "The interval has gotten too small! Oh noes!")).
Proof.
  intros wf Ht r. split; [|split].
  - intros Hpos. unfold r, get_interval_for_insertion_relative_to.
    destruct (position_in position valid_positions) eqn:E; [|reflexivity].
    exfalso. apply Hpos.
    destruct (valid_position_cases position E) as [-> | [-> | [-> | ->]]];
      cbn; auto.
  - intros Hpos Hlr L0. unfold r, get_interval_for_insertion_relative_to.
    assert (E : position_in position valid_positions = true).
    { cbn in Hpos. destruct Hpos as [<- | [<- | [<- | [<- | []]]]];
        reflexivity. }
    rewrite E, Hlr, (stored_is_saved db wf t Ht). cbn [negb andb].
    unfold is_root_node. cbn [from_db level]. rewrite L0. reflexivity.
  - intros Hpos Hroot.
    destruct (allocation_divides_a_gap prec db wf t position count
                Ht Hpos Hroot) as (p & ol & or & _ & _ & E & _).
    unfold r. rewrite E.
    destruct (BoundArithmetic.calculate_sub_interval_cases prec ol or count)
      as [[_ H] | [_ H]]; rewrite H; eauto.
Qed.

Lemma allocation_raises_only_interval_too_small_witness :
  get_interval_for_insertion_relative_to 3 tight_tree (Some tight_leaf)
    "first-child" 1
  = Raise (IntervalTooSmall "The interval has gotten too small! Oh noes!")
  /\ get_interval_for_insertion_relative_to 3 tight_tree (Some tight_leaf)
       "inside" 1
     = Raise (ValueError "An invalid position was given: inside.").
Proof.
  destruct (allocation_raises_only_interval_too_small 3 tight_tree
              (nth 1 tight_tree (example_row 0)) "first-child" 1
              ltac:(repeat split; vm_compute; reflexivity)
              ltac:(simpl; tauto)) as (_ & _ & H).
  destruct (allocation_raises_only_interval_too_small 3 tight_tree
              (nth 1 tight_tree (example_row 0)) "inside" 1
              ltac:(repeat split; vm_compute; reflexivity)
              ltac:(simpl; tauto)) as (H' & _).
  split.
  - destruct (H ltac:(simpl; tauto) ltac:(discriminate)) as [[iv E] | E];
      [vm_compute in E; discriminate | exact E].
  - apply H'. simpl. intuition discriminate.
Defined.

End Siblings.

(** * Siblings *)

Module SiblingQueries.
Import QueryFacts TreeFacts TreeQueries Siblings.

Section Stored.

Variable db : Store.
Hypothesis wf : well_formed db.

Lemma next_sibling_of_root (t : Row) :
  In t db -> row_level t = 0%Z ->
  get_next_sibling db (from_db t) = Ok None
  /\ get_previous_sibling db (from_db t) = Ok None.
Proof.
  intros Ht L0.
  unfold get_next_sibling, get_previous_sibling, raise_if_unsaved,
    is_root_node.
  rewrite (wf_saved db wf t Ht). cbn [from_db level]. rewrite L0.
  split; reflexivity.
Qed.

Lemma next_sibling_stored (t p : Row) :
  In t db -> In p db -> around t p = true ->
  row_level p = (row_level t - 1)%Z ->
  get_next_sibling db (from_db t)
  = Ok (option_map from_db
          (first (filter (fun x => Dec.dlt (row_right t) (row_left x))
                    (children_rows db p)))).
Proof.
  intros Ht Hp At Lp.
  pose proof (level_nonneg db wf p Hp) as L0.
  unfold get_next_sibling, raise_if_unsaved, is_root_node.
  rewrite (wf_saved db wf t Ht), (parent_is db t p wf Ht Hp At Lp).
  cbn [from_db level].
  destruct (Z.eqb_spec (row_level t) 0) as [E0 | _]; [lia|].
  rewrite get_children_rows by (apply (wf_saved db wf p Hp)).
  cbn [bind]. rewrite filter_map_swap, first_map. reflexivity.
Qed.

Lemma previous_sibling_stored (t p : Row) :
  In t db -> In p db -> around t p = true ->
  row_level p = (row_level t - 1)%Z ->
  get_previous_sibling db (from_db t)
  = Ok (option_map from_db
          (last (filter (fun x => Dec.dlt (row_right x) (row_left t))
                   (children_rows db p)))).
Proof.
  intros Ht Hp At Lp.
  pose proof (level_nonneg db wf p Hp) as L0.
  unfold get_previous_sibling, raise_if_unsaved, is_root_node.
  rewrite (wf_saved db wf t Ht), (parent_is db t p wf Ht Hp At Lp).
  cbn [from_db level].
  destruct (Z.eqb_spec (row_level t) 0) as [E0 | _]; [lia|].
  rewrite get_children_rows by (apply (wf_saved db wf p Hp)).
  cbn [bind]. rewrite filter_map_swap, last_map. reflexivity.
Qed.

Lemma stored_child (t p : Row) :
  In t db -> In p db -> around t p = true ->
  row_level p = (row_level t - 1)%Z ->
  In t (children_rows db p).
Proof.
  intros Ht Hp At Lp. apply (child_row_iff db wf p t Hp).
  split; [exact Ht|]. split; [exact At | lia].
Qed.

(** The child after [t] has [t] as the child before it. *)
Lemma previous_of_next (t p m : Row) :
  In t db -> In p db -> around t p = true ->
  row_level p = (row_level t - 1)%Z ->
  first (filter (fun x => Dec.dlt (row_right t) (row_left x))
           (children_rows db p)) = Some m ->
  In m db /\ around m p = true /\ row_level m = row_level t
  /\ row_right t < row_left m
  /\ last (filter (fun x => Dec.dlt (row_right x) (row_left m))
             (children_rows db p)) = Some t.
Proof.
  intros Ht Hp At Lp E.
  assert (Hs : sorted_by row_leb
                 (filter (fun x => Dec.dlt (row_right t) (row_left x))
                    (children_rows db p)))
    by (apply sorted_filter, children_sorted).
  destruct (sorted_first _ _ _ Hs E) as [Hin Hmin].
  apply filter_In in Hin. destruct Hin as [Hin Fm]. apply dlt_iff in Fm.
  pose proof (proj1 (child_row_iff db wf p m Hp) Hin) as (Hm & Am & Lm).
  split; [exact Hm|]. split; [exact Am|]. split; [lia|]. split; [exact Fm|].
  pose proof (wf_I1 db wf t Ht) as I1t.
  pose proof (wf_I1 db wf m Hm) as I1m.
  assert (Htin : In t (filter (fun x => Dec.dlt (row_right x) (row_left m))
                         (children_rows db p))).
  { apply filter_In. split; [apply stored_child; assumption|].
    apply dlt_iff, Fm. }
  assert (Hs' : sorted_by row_leb
                  (filter (fun x => Dec.dlt (row_right x) (row_left m))
                     (children_rows db p)))
    by (apply sorted_filter, children_sorted).
  destruct (last (filter (fun x => Dec.dlt (row_right x) (row_left m))
                    (children_rows db p))) as [l|] eqn:El.
  2: { apply last_none in El. rewrite El in Htin. contradiction. }
  f_equal.
  destruct (sorted_last _ _ _ Hs' El) as [Hl Hmax].
  apply filter_In in Hl. destruct Hl as [Hl Fl]. apply dlt_iff in Fl.
  pose proof (proj1 (child_row_iff db wf p l Hp) Hl) as (Hl' & Al & Ll).
  pose proof (wf_I1 db wf l Hl') as I1l.
  destruct (Hmax t Htin) as [E1 | Hle]; [symmetry; exact E1|].
  pose proof (children_leb p t l At Al Hle) as Hleft.
  destruct (children_disjoint db wf p t l Hp Ht Hl' At Al ltac:(lia))
    as [E1 | [D | D]]; [symmetry; exact E1 | | lra].
  exfalso.
  assert (Hlf : In l (filter (fun x => Dec.dlt (row_right t) (row_left x))
                        (children_rows db p)))
    by (apply filter_In; split; [exact Hl | apply dlt_iff, D]).
  destruct (Hmin l Hlf) as [-> | Hle'].
  - lra.
  - pose proof (children_leb p m l Am Al Hle'). lra.
Qed.

(** The child before [t] has [t] as the child after it. *)
Lemma next_of_previous (t p m : Row) :
  In t db -> In p db -> around t p = true ->
  row_level p = (row_level t - 1)%Z ->
  last (filter (fun x => Dec.dlt (row_right x) (row_left t))
          (children_rows db p)) = Some m ->
  In m db /\ around m p = true /\ row_level m = row_level t
  /\ row_right m < row_left t
  /\ first (filter (fun x => Dec.dlt (row_right m) (row_left x))
              (children_rows db p)) = Some t.
Proof.
  intros Ht Hp At Lp E.
  assert (Hs : sorted_by row_leb
                 (filter (fun x => Dec.dlt (row_right x) (row_left t))
                    (children_rows db p)))
    by (apply sorted_filter, children_sorted).
  destruct (sorted_last _ _ _ Hs E) as [Hin Hmax].
  apply filter_In in Hin. destruct Hin as [Hin Fm]. apply dlt_iff in Fm.
  pose proof (proj1 (child_row_iff db wf p m Hp) Hin) as (Hm & Am & Lm).
  split; [exact Hm|]. split; [exact Am|]. split; [lia|]. split; [exact Fm|].
  pose proof (wf_I1 db wf t Ht) as I1t.
  pose proof (wf_I1 db wf m Hm) as I1m.
  assert (Htin : In t (filter (fun x => Dec.dlt (row_right m) (row_left x))
                         (children_rows db p))).
  { apply filter_In. split; [apply stored_child; assumption|].
    apply dlt_iff, Fm. }
  assert (Hs' : sorted_by row_leb
                  (filter (fun x => Dec.dlt (row_right m) (row_left x))
                     (children_rows db p)))
    by (apply sorted_filter, children_sorted).
  destruct (first (filter (fun x => Dec.dlt (row_right m) (row_left x))
                     (children_rows db p))) as [f|] eqn:Ef.
  2: { apply first_none in Ef. rewrite Ef in Htin. contradiction. }
  f_equal.
  destruct (sorted_first _ _ _ Hs' Ef) as [Hf Hmin].
  apply filter_In in Hf. destruct Hf as [Hf Ff]. apply dlt_iff in Ff.
  pose proof (proj1 (child_row_iff db wf p f Hp) Hf) as (Hf' & Af & Lf).
  pose proof (wf_I1 db wf f Hf') as I1f.
  destruct (Hmin t Htin) as [E1 | Hle]; [symmetry; exact E1|].
  pose proof (children_leb p f t Af At Hle) as Hleft.
  destruct (children_disjoint db wf p f t Hp Hf' Ht Af At ltac:(lia))
    as [E1 | [D | D]]; [exact E1 | | lra].
  exfalso.
  assert (Hff : In f (filter (fun x => Dec.dlt (row_right x) (row_left t))
                        (children_rows db p)))
    by (apply filter_In; split; [exact Hf | apply dlt_iff, D]).
  destruct (Hmax f Hff) as [-> | Hle'].
  - lra.
  - pose proof (children_leb p f m Af Am Hle'). lra.
Qed.

End Stored.

(** On a well-formed store [get_next_sibling] and [get_previous_sibling]
    never raise on a stored row, and they are inverse to each other: the
    node after [t] has [t] as the node before it, and the node before
    [t] has [t] as the node after it.  The neighbour is at the level of
    [t], in its tree, and does not overlap it.  A row at level 0 has no
    neighbours. *)
Theorem next_and_previous_sibling_are_inverse (db : Store) (t : Row) :
  well_formed db -> In t db ->
  exists nxt prv,
    get_next_sibling db (from_db t) = Ok nxt
    /\ get_previous_sibling db (from_db t) = Ok prv
    /\ (forall n, nxt = Some n ->
          get_previous_sibling db n = Ok (Some (from_db t))
          /\ level n = row_level t /\ tree_id n = Some (row_tree_id t)
          /\ row_right t < left n)
    /\ (forall n, prv = Some n ->
          get_next_sibling db n = Ok (Some (from_db t))
          /\ level n = row_level t /\ tree_id n = Some (row_tree_id t)
          /\ right n < row_left t)
    /\ (row_level t = 0%Z -> nxt = None /\ prv = None).
Proof.
  intros wf Ht.
  destruct (Z.eq_dec (row_level t) 0) as [L0 | L0].
  - destruct (next_sibling_of_root db wf t Ht L0) as [E1 E2].
    exists None, None. split; [exact E1|]. split; [exact E2|].
    split; [discriminate|]. split; [discriminate | auto].
  - destruct (parent_exists db wf t Ht L0) as (p & Hp & At & Lp).
    pose proof (proj1 (around_iff _ _) At) as (Tt & _).
    eexists _, _.
    split; [apply (next_sibling_stored db wf t p); assumption|].
    split; [apply (previous_sibling_stored db wf t p); assumption|].
    split; [|split; [|contradiction]].
    + intros n Hn.
      destruct (first _) as [m|] eqn:E; [|discriminate].
      injection Hn as <-.
      destruct (previous_of_next db wf t p m Ht Hp At Lp E)
        as (Hm & Am & Lm & Fm & Elast).
      pose proof (proj1 (around_iff _ _) Am) as (Tm & _).
      split.
      * rewrite (previous_sibling_stored db wf m p Hm Hp Am ltac:(lia)).
        rewrite Elast. reflexivity.
      * cbn. split; [exact Lm|]. split; [f_equal; congruence | exact Fm].
    + intros n Hn.
      destruct (last _) as [m|] eqn:E; [|discriminate].
      injection Hn as <-.
      destruct (next_of_previous db wf t p m Ht Hp At Lp E)
        as (Hm & Am & Lm & Fm & Efirst).
      pose proof (proj1 (around_iff _ _) Am) as (Tm & _).
      split.
      * rewrite (next_sibling_stored db wf m p Hm Hp Am ltac:(lia)).
        rewrite Efirst. reflexivity.
      * cbn. split; [exact Lm|]. split; [f_equal; congruence | exact Fm].
Qed.

Lemma next_and_previous_sibling_are_inverse_witness :
  get_next_sibling example_tree node_2 = Ok (Some node_5)
  /\ get_previous_sibling example_tree node_5 = Ok (Some node_2).
Proof.
  destruct (next_and_previous_sibling_are_inverse example_tree (example_row 1)
              ltac:(repeat split; vm_compute; reflexivity)
              ltac:(simpl; tauto))
    as (nxt & prv & E1 & _ & H & _).
  assert (Hn : nxt = Some node_5).
  { vm_compute in E1. injection E1 as <-. reflexivity. }
  split; [rewrite Hn in E1; exact E1 | apply (H node_5 Hn)].
Defined.

Lemma parent_of_root (db : Store) (t : Row) :
  well_formed db -> In t db -> row_level t = 0%Z ->
  parent db (from_db t) = None.
Proof.
  intros wf Ht L0.
  rewrite parent_of_stored by (apply (wf_saved db wf t Ht)).
  rewrite L0. reflexivity.
Qed.

(** The siblings of a stored row are the other stored rows with the same
    parent. *)
Lemma siblings_characterised (db : Store) (t : Row) (include_self : bool) :
  well_formed db -> In t db ->
  exists l,
    get_siblings db (from_db t) include_self = Ok l
    /\ forall s, In s db ->
         (In (from_db s) l
          <-> (include_self = true /\ s = t)
              \/ (s <> t
                  /\ exists q, parent db (from_db t) = Some q
                               /\ parent db (from_db s) = Some q)).
Proof.
  intros wf Ht.
  unfold get_siblings, raise_if_unsaved, is_root_node.
  rewrite (wf_saved db wf t Ht). cbn [from_db level].
  destruct (Z.eqb_spec (row_level t) 0) as [L0 | L0].
  - rewrite (parent_of_root db t wf Ht L0).
    destruct include_self; eexists; (split; [reflexivity|]); intros s Hs.
    + rewrite In_fetch. cbn. unfold matches_pk. cbn. rewrite Z.eqb_eq.
      split.
      * intros (_ & _ & E). left. split; [reflexivity|].
        apply (wf_unique db wf); auto.
      * intros [[_ ->] | (_ & q & E & _)]; [auto | discriminate].
    + split; [intros [] |].
      intros [[E _] | (_ & q & E & _)]; discriminate.
  - destruct (parent_exists db wf t Ht L0) as (p & Hp & At & Lp).
    rewrite (parent_is db t p wf Ht Hp At Lp).
    rewrite get_children_rows by (apply (wf_saved db wf p Hp)).
    cbn [bind].
    assert (Hchild : forall s, In s db ->
              (In s (children_rows db p)
               <-> s = t
                   \/ (s <> t
                       /\ exists q, Some (from_db p) = Some q
                                    /\ parent db (from_db s) = Some q))).
    { intros s Hs. rewrite (child_row_iff db wf p s Hp). split.
      - intros (_ & As & Ls).
        destruct (Z.eq_dec (row_pk s) (row_pk t)) as [E | NE].
        + left. apply (wf_unique db wf); auto.
        + right. split; [intros ->; contradiction|].
          exists (from_db p). split; [reflexivity|].
          apply parent_is; auto. lia.
      - intros [-> | (Nst & q & Eq & Es)].
        + split; [exact Ht|]. split; [exact At | lia].
        + injection Eq as <-.
          assert (Ls0 : row_level s <> 0%Z).
          { intros L. rewrite (parent_of_root db s wf Hs L) in Es.
            discriminate. }
          destruct (parent_exists db wf s Hs Ls0) as (p' & Hp' & As & Lp').
          rewrite (parent_is db s p' wf Hs Hp' As Lp') in Es.
          assert (Ep : p' = p) by (apply from_db_inj; congruence).
          subst p'.
          split; [exact Hs|]. split; [exact As | lia]. }
    destruct include_self; eexists; (split; [reflexivity|]); intros s Hs.
    + rewrite In_map_from_db, (Hchild s Hs). intuition.
    + unfold exclude_pk.
      rewrite filter_In, In_map_from_db, (Hchild s Hs).
      cbn [from_db pk option_Z_eqb]. rewrite negb_true_iff, Z.eqb_neq.
      split.
      * intros [[-> | H] Npk]; [contradiction | auto].
      * intros [[E _] | H]; [discriminate|].
        split; [auto|]. destruct H as [Nst _].
        intros E. apply Nst. apply (wf_unique db wf); auto.
Qed.

(** On a well-formed store [get_siblings] never raises on a stored row.
    The siblings of a row are the other stored rows with the same
    parent, so being a sibling is symmetric; with [include_self] the row
    itself is added; and a row at level 0 has no siblings. *)
Theorem siblings_share_the_parent (db : Store) (t s : Row) :
  well_formed db -> In t db -> In s db ->
  exists lt ls lt',
    get_siblings db (from_db t) false = Ok lt
    /\ get_siblings db (from_db s) false = Ok ls
    /\ get_siblings db (from_db t) true = Ok lt'
    /\ (In (from_db s) lt <-> In (from_db t) ls)
    /\ (In (from_db s) lt
        <-> s <> t
            /\ exists q, parent db (from_db t) = Some q
                         /\ parent db (from_db s) = Some q)
    /\ In (from_db t) lt'
    /\ (In (from_db s) lt' <-> s = t \/ In (from_db s) lt)
    /\ (row_level t = 0%Z -> ~ In (from_db s) lt).
Proof.
  intros wf Ht Hs.
  destruct (siblings_characterised db t false wf Ht) as (lt & Et & Ct).
  destruct (siblings_characterised db s false wf Hs) as (ls & Es & Cs).
  destruct (siblings_characterised db t true wf Ht) as (lt' & Et' & Ct').
  exists lt, ls, lt'.
  split; [exact Et|]. split; [exact Es|]. split; [exact Et'|].
  assert (Hchar : In (from_db s) lt
                  <-> s <> t
                      /\ exists q, parent db (from_db t) = Some q
                                   /\ parent db (from_db s) = Some q).
  { rewrite (Ct s Hs). split; [|auto].
    intros [[E _] | H]; [discriminate | exact H]. }
  split; [|split; [exact Hchar|split; [|split]]].
  - rewrite Hchar, (Cs t Ht). split.
    + intros (N & q & E1 & E2). right. split; [auto|]. eauto.
    + intros [[E _] | (N & q & E1 & E2)]; [discriminate|].
      split; [auto|]. eauto.
  - apply (Ct' t Ht). auto.
  - rewrite (Ct' s Hs), Hchar. intuition.
  - intros L0 Hin. apply Hchar in Hin.
    destruct Hin as (_ & q & E & _).
    rewrite (parent_of_root db t wf Ht L0) in E. discriminate.
Qed.

Lemma siblings_share_the_parent_witness :
  exists lt ls,
    get_siblings example_tree node_2 false = Ok lt
    /\ get_siblings example_tree node_5 false = Ok ls
    /\ In node_5 lt /\ In node_2 ls.
Proof.
  destruct (siblings_share_the_parent example_tree
              (example_row 1) (example_row 4)
              ltac:(repeat split; vm_compute; reflexivity)
              ltac:(simpl; tauto) ltac:(simpl; tauto))
    as (lt & ls & _ & Et & Es & _ & Hsym & _).
  assert (Hin : In node_5 lt).
  { vm_compute in Et. injection Et as <-. simpl. tauto. }
  exists lt, ls. split; [exact Et|]. split; [exact Es|].
  split; [exact Hin | apply Hsym, Hin].
Defined.

End SiblingQueries.

(** * Querysets of descendants and ancestors *)

Module QuerysetUnions.
Import QueryFacts TreeFacts TreeQueries Siblings.

Lemma In_fetch_or (db : Store) (a b : QuerySet) (x : Node) :
  In x (fetch db (queryset_or a b)) <-> In x (fetch db a) \/ In x (fetch db b).
Proof.
  unfold queryset_or, fetch, fetch_rows.
  destruct (qs_is_none a) eqn:Ea; [cbn; tauto|].
  destruct (qs_is_none b) eqn:Eb; [rewrite Ea; cbn; tauto|].
  cbn [qs_is_none qs_where qs_order_by].
  rewrite !in_map_iff. split.
  - intros (r & E & Hr). apply filter_In in Hr. destruct Hr as [Hr Hw].
    apply In_order_by in Hr. apply orb_true_iff in Hw.
    destruct Hw as [Hw | Hw]; [left | right]; exists r; (split; [exact E|]);
      apply filter_In; (split; [apply In_order_by, Hr | exact Hw]).
  - intros [(r & E & Hr) | (r & E & Hr)]; exists r; (split; [exact E|]);
      apply filter_In in Hr; destruct Hr as [Hr Hw];
      apply In_order_by in Hr; apply filter_In;
      (split; [apply In_order_by, Hr|]); rewrite Hw;
      [reflexivity | apply orb_true_r].
Qed.

(** Joining querysets in the manager's order gives one in that order. *)
Lemma queryset_or_order (a b : QuerySet) :
  (qs_is_none a = true \/ qs_order_by a = by_tree_id_left) ->
  qs_order_by b = by_tree_id_left ->
  qs_order_by (queryset_or a b) = by_tree_id_left
  \/ qs_is_none (queryset_or a b) = true.
Proof.
  unfold queryset_or. intros Ha Hb.
  destruct (qs_is_none a) eqn:Ea; [auto|].
  destruct (qs_is_none b) eqn:Eb; [|cbn; auto].
  destruct Ha as [Ha | Ha]; [discriminate | auto].
Qed.

Lemma fetch_rows_sorted (db : Store) (q : QuerySet) :
  qs_is_none q = true \/ qs_order_by q = by_tree_id_left ->
  sorted_by row_leb (fetch_rows db q).
Proof.
  unfold fetch_rows. intros [H | H].
  - rewrite H. exact I.
  - destruct (qs_is_none q); [exact I|]. rewrite H. cbn.
    apply sorted_filter, order_rows_sorted.
Qed.

Lemma fetched_is_stored (db : Store) (q : QuerySet) (n : Node) :
  In n (fetch db q) -> exists r, n = from_db r /\ In r db.
Proof.
  unfold fetch. intros H. apply in_map_iff in H.
  destruct H as (r & <- & Hr). apply In_fetch_rows in Hr.
  exists r. tauto.
Qed.

(** The loop of [get_queryset_descendants] over a list of saved nodes. *)
Lemma descendants_loop (db : Store) (include_self : bool)
    (nodes : list Node) :
  (forall n, In n nodes -> pk_truthy n = true) ->
  forall acc,
    (qs_is_none acc = true \/ qs_order_by acc = by_tree_id_left) ->
    exists qs,
      fold_left (fun acc node =>
                   qs <- acc ;;
                   d <- descendants_queryset node include_self ;;
                   Ok (queryset_or qs d)) nodes (Ok acc) = Ok qs
      /\ (qs_is_none qs = true \/ qs_order_by qs = by_tree_id_left)
      /\ forall x,
           In x (fetch db qs)
           <-> In x (fetch db acc)
               \/ exists n ds,
                    In n nodes
                    /\ get_descendants db n include_self = Ok ds
                    /\ In x ds.
Proof.
  induction nodes as [|n nodes IH]; intros Hpk acc Hacc.
  - exists acc. split; [reflexivity|]. split; [exact Hacc|].
    intros x. split; [auto|]. intros [H | (n & ds & [] & _)]. exact H.
  - cbn [fold_left bind].
    assert (Hn : pk_truthy n = true) by (apply Hpk; now left).
    unfold descendants_queryset at 2. unfold raise_if_unsaved.
    rewrite Hn. cbn [bind].
    set (d := {| qs_where := if include_self
                             then descendant_or_self_filter n
                             else descendant_filter n;
                 qs_order_by := by_tree_id_left;
                 qs_is_none := false |}).
    destruct (IH ltac:(intros m Hm; apply Hpk; now right)
                 (queryset_or acc d)) as (qs & E & Ho & Hin).
    { destruct (queryset_or_order acc d Hacc eq_refl); auto. }
    exists qs. split; [exact E|]. split; [exact Ho|].
    intros x. rewrite Hin, In_fetch_or.
    assert (Hd : In x (fetch db d)
                 <-> exists ds, get_descendants db n include_self = Ok ds
                                /\ In x ds).
    { rewrite get_descendants_saved by exact Hn. split.
      - intros H. eexists. split; [reflexivity | exact H].
      - intros (ds & Eds & H). injection Eds as <-. exact H. }
    rewrite Hd. split.
    + intros [[H | (ds & Eds & H)] | (m & ds & Hm & Eds & H)].
      * left. exact H.
      * right. exists n, ds. split; [now left | auto].
      * right. exists m, ds. split; [now right | auto].
    + intros [H | (m & ds & [<- | Hm] & Eds & H)].
      * left. left. exact H.
      * left. right. eauto.
      * right. eauto.
Qed.

(** On a store without a primary key 0, [get_queryset_descendants]
    (and the queryset method [get_descendants], which calls it) never
    raises, and it returns the union of the descendants of the nodes of
    the queryset: a node is in the result exactly when it is
    among [get_descendants] of some node the queryset yields.  The
    result is in the manager's order, and on a well-formed store it is
    closed under descendants.  With [include_self] the nodes of the
    queryset are in the result. *)
Theorem queryset_descendants_are_the_union
    (db : Store) (queryset : QuerySet) (include_self : bool) :
  nonzero_pks db = true ->
  exists qs,
    get_queryset_descendants db queryset include_self = Ok qs
    /\ NestedIntervalsQuerySet.get_descendants db queryset include_self
       = Ok qs
    /\ (forall x,
          In x (fetch db qs)
          <-> exists n ds,
                In n (fetch db queryset)
                /\ get_descendants db n include_self = Ok ds
                /\ In x ds)
    /\ sorted_by row_leb (fetch_rows db qs)
    /\ (include_self = true ->
        forall n, In n (fetch db queryset) -> In n (fetch db qs))
    /\ (well_formed db ->
        forall r c, In (from_db r) (fetch db qs) -> In c db ->
                    around c r = true -> In (from_db c) (fetch db qs)).
Proof.
  intros Hnz.
  assert (Hpk : forall n, In n (fetch db queryset) -> pk_truthy n = true).
  { intros n Hn. destruct (fetched_is_stored _ _ _ Hn) as (r & -> & Hr).
    eapply nonzero_pks_in; eauto. }
  destruct (descendants_loop db include_self (fetch db queryset) Hpk
              (none queryset) (or_introl eq_refl)) as (qs & E & Ho & Hin).
  exists qs. split; [exact E|]. split; [exact E|].
  assert (Hunion : forall x,
            In x (fetch db qs)
            <-> exists n ds,
                  In n (fetch db queryset)
                  /\ get_descendants db n include_self = Ok ds
                  /\ In x ds).
  { intros x. rewrite Hin. split; [|auto].
    intros [[] | H]. exact H. }
  split; [exact Hunion|]. split; [apply fetch_rows_sorted, Ho|].
  split.
  - intros -> n Hn. apply Hunion. exists n. eexists.
    split; [exact Hn|].
    split; [apply get_descendants_saved, Hpk, Hn|].
    destruct (fetched_is_stored _ _ _ Hn) as (r & -> & Hr).
    apply In_map_from_db, filter_In. split; [apply In_order_rows, Hr|].
    unfold descendant_or_self_filter, matches_pk. cbn [from_db pk].
    rewrite Z.eqb_refl. apply orb_true_r.
  - intros wf r c Hr Hc Acr.
    apply Hunion in Hr. destruct Hr as (n & ds & Hn & Eds & Hr).
    apply Hunion. exists n, ds. split; [exact Hn|]. split; [exact Eds|].
    destruct (fetched_is_stored _ _ _ Hn) as (rn & -> & Hrn).
    rewrite get_descendants_saved in Eds by (apply Hpk, Hn).
    injection Eds as <-.
    apply In_map_from_db in Hr. apply filter_In in Hr.
    destruct Hr as [Hr Fr]. apply (proj1 (In_order_rows _ _)) in Hr.
    apply In_map_from_db, filter_In. split; [apply In_order_rows, Hc|].
    destruct include_self.
    + apply (descendant_or_self_around db wf rn c Hrn Hc). right.
      apply (descendant_or_self_around db wf rn r Hrn Hr) in Fr.
      destruct Fr as [-> | Fr]; [exact Acr|].
      eapply around_trans; eauto.
    + apply (descendant_filter_around db wf rn c Hrn Hc).
      apply (descendant_filter_around db wf rn r Hrn Hr) in Fr.
      eapply around_trans; eauto.
Qed.

Lemma queryset_descendants_are_the_union_witness :
  exists qs,
    get_queryset_descendants example_tree (filter_pk node_2) false = Ok qs
    /\ In node_4 (fetch example_tree qs).
Proof.
  destruct (queryset_descendants_are_the_union example_tree
              (filter_pk node_2) false ltac:(vm_compute; reflexivity))
    as (qs & E & _ & H & _).
  exists qs. split; [exact E|]. apply H.
  exists node_2. eexists. split; [simpl; tauto|].
  split; [reflexivity|]. simpl. tauto.
Defined.

(** The loop of [get_queryset_ancestors] over a list of saved nodes. *)
Lemma ancestors_loop (db : Store) (include_self : bool)
    (nodes : list Node) :
  (forall n, In n nodes -> pk_truthy n = true) ->
  forall acc,
    exists qs,
      fold_left (fun acc node =>
                   qs <- acc ;;
                   a <- get_ancestors node false include_self ;;
                   Ok (queryset_or qs a)) nodes (Ok acc) = Ok qs
      /\ forall x,
           In x (fetch db qs)
           <-> In x (fetch db acc)
               \/ exists n qa,
                    In n nodes
                    /\ get_ancestors n false include_self = Ok qa
                    /\ In x (fetch db qa).
Proof.
  induction nodes as [|n nodes IH]; intros Hpk acc.
  - exists acc. split; [reflexivity|].
    intros x. split; [auto|]. intros [H | (n & ds & [] & _)]. exact H.
  - cbn [fold_left bind].
    assert (Hn : pk_truthy n = true) by (apply Hpk; now left).
    assert (Ha : exists qa, get_ancestors n false include_self = Ok qa).
    { unfold get_ancestors, raise_if_unsaved. rewrite Hn.
      destruct (is_root_node n), include_self; eauto. }
    destruct Ha as (qa & Ea). rewrite Ea. cbn [bind].
    destruct (IH ltac:(intros m Hm; apply Hpk; now right)
                 (queryset_or acc qa)) as (qs & E & Hin).
    exists qs. split; [exact E|].
    intros x. rewrite Hin, In_fetch_or. split.
    + intros [[H | H] | (m & qm & Hm & Em & H)].
      * left. exact H.
      * right. exists n, qa. split; [now left | auto].
      * right. exists m, qm. split; [now right | auto].
    + intros [H | (m & qm & [<- | Hm] & Em & H)].
      * left. left. exact H.
      * left. right. congruence.
      * right. eauto.
Qed.

(** On a store without a primary key 0, [get_queryset_ancestors] (and
    the queryset method [get_ancestors], which calls it) never raises,
    and it returns the union of the ancestors of the nodes of the
    queryset: a node is in the result exactly when it is among
    [get_ancestors] of some node the queryset yields.  On a well-formed
    store the result is closed under ancestors, and with [include_self]
    it holds the nodes of the queryset. *)
Theorem queryset_ancestors_are_the_union
    (db : Store) (queryset : QuerySet) (include_self : bool) :
  nonzero_pks db = true ->
  exists qs,
    get_queryset_ancestors db queryset include_self = Ok qs
    /\ NestedIntervalsQuerySet.get_ancestors db queryset include_self = Ok qs
    /\ (forall x,
          In x (fetch db qs)
          <-> exists n qa,
                In n (fetch db queryset)
                /\ get_ancestors n false include_self = Ok qa
                /\ In x (fetch db qa))
    /\ (well_formed db ->
        (include_self = true ->
         forall n, In n (fetch db queryset) -> In n (fetch db qs))
        /\ forall r c, In (from_db r) (fetch db qs) -> In c db ->
                       around r c = true -> In (from_db c) (fetch db qs)).
Proof.
  intros Hnz.
  assert (Hpk : forall n, In n (fetch db queryset) -> pk_truthy n = true).
  { intros n Hn. destruct (fetched_is_stored _ _ _ Hn) as (r & -> & Hr).
    eapply nonzero_pks_in; eauto. }
  destruct (ancestors_loop db include_self (fetch db queryset) Hpk
              (none queryset)) as (qs & E & Hin).
  exists qs. split; [exact E|]. split; [exact E|].
  assert (Hunion : forall x,
            In x (fetch db qs)
            <-> exists n qa,
                  In n (fetch db queryset)
                  /\ get_ancestors n false include_self = Ok qa
                  /\ In x (fetch db qa)).
  { intros x. rewrite Hin. split; [|auto].
    intros [[] | H]. exact H. }
  split; [exact Hunion|].
  intros wf. split.
  - intros -> n Hn. apply Hunion.
    destruct (fetched_is_stored _ _ _ Hn) as (r & -> & Hr).
    destruct (In_get_ancestors db r r false true wf Hr Hr) as (qa & Ea & Ha).
    exists (from_db r), qa. split; [exact Hn|]. split; [exact Ea|].
    apply Ha. auto.
  - intros r c Hr Hc Arc.
    apply Hunion in Hr. destruct Hr as (n & qa & Hn & Ea & Hr).
    destruct (fetched_is_stored _ _ _ Hn) as (rn & -> & Hrn).
    destruct (fetched_is_stored _ _ _ Hr) as (r' & Er & Hr').
    apply from_db_inj in Er. subst r'.
    destruct (In_get_ancestors db r rn false include_self wf Hr' Hrn)
      as (qa1 & Ea1 & Ha1).
    destruct (In_get_ancestors db c rn false include_self wf Hc Hrn)
      as (qa2 & Ea2 & Ha2).
    assert (qa1 = qa) by congruence. assert (qa2 = qa) by congruence.
    subst qa1 qa2.
    apply Hunion. exists (from_db rn), qa.
    split; [exact Hn|]. split; [exact Ea|].
    apply Ha2. right. apply Ha1 in Hr.
    destruct Hr as [[_ ->] | Hr]; [exact Arc|].
    eapply around_trans; eauto.
Qed.

Lemma queryset_ancestors_are_the_union_witness :
  exists qs,
    get_queryset_ancestors example_tree (filter_pk node_4) false = Ok qs
    /\ In node_2 (fetch example_tree qs).
Proof.
  destruct (queryset_ancestors_are_the_union example_tree
              (filter_pk node_4) false ltac:(vm_compute; reflexivity))
    as (qs & E & _ & H & _).
  exists qs. split; [exact E|]. apply H.
  exists node_4. eexists. split; [simpl; tauto|].
  split; [reflexivity|]. simpl. tauto.
Defined.

Lemma queryset_or_keeps_order (a b : QuerySet) :
  qs_is_none b = false ->
  qs_order_by (queryset_or a b) = qs_order_by b
  /\ qs_is_none (queryset_or a b) = false.
Proof.
  unfold queryset_or. intros Hb.
  destruct (qs_is_none a); [auto|]. rewrite Hb. auto.
Qed.

(** On a well-formed store [get_family] of a stored row never raises
    and returns, in the manager's order, the row itself, the rows
    strictly around it and the rows strictly inside it, in its tree. *)
Theorem family_is_the_line_through_the_node (db : Store) (t : Row) :
  well_formed db -> In t db ->
  exists q,
    get_family (from_db t) = Ok q
    /\ (forall r, In r db ->
          (In (from_db r) (fetch db q)
           <-> r = t \/ around t r = true \/ around r t = true))
    /\ In (from_db t) (fetch db q)
    /\ sorted_by row_leb (fetch_rows db q).
Proof.
  intros wf Ht.
  pose proof (wf_saved db wf t Ht) as St.
  destruct (In_get_ancestors db t t false true wf Ht Ht) as (qa & Ea & _).
  unfold get_family, raise_if_unsaved. rewrite St, Ea. cbn [bind].
  unfold descendants_queryset, raise_if_unsaved. rewrite St. cbn [bind].
  set (d := {| qs_where := descendant_filter (from_db t);
               qs_order_by := by_tree_id_left;
               qs_is_none := false |}).
  exists (queryset_or qa d). split; [reflexivity|].
  assert (Hmem : forall r, In r db ->
            (In (from_db r) (fetch db (queryset_or qa d))
             <-> r = t \/ around t r = true \/ around r t = true)).
  { intros r Hr. rewrite In_fetch_or.
    destruct (In_get_ancestors db r t false true wf Hr Ht)
      as (qa' & Ea' & Ha).
    assert (qa' = qa) by congruence. subst qa'.
    rewrite Ha, In_fetch. cbn [qs_is_none qs_where d].
    rewrite (descendant_filter_around db wf t r Ht Hr). intuition. }
  split; [exact Hmem|]. split; [apply (Hmem t Ht); auto|].
  destruct (queryset_or_keeps_order qa d eq_refl) as [Ho Hn].
  apply fetch_rows_sorted. right. exact Ho.
Qed.

Lemma family_is_the_line_through_the_node_witness :
  exists q,
    get_family node_2 = Ok q
    /\ map pk (fetch example_tree q)
       = [Some 1%Z; Some 2%Z; Some 3%Z; Some 4%Z].
Proof.
  destruct (family_is_the_line_through_the_node example_tree (example_row 1)
              ltac:(repeat split; vm_compute; reflexivity)
              ltac:(simpl; tauto)) as (q & E & _).
  exists q. split; [exact E|].
  vm_compute in E. injection E as <-. reflexivity.
Defined.

End QuerysetUnions.

(** * The parent by id, leaves and levels *)

Module ParentAndLevels.
Import QueryFacts TreeFacts TreeQueries Siblings.

Lemma filter_unique {A : Type} (p : A -> bool) (l : list A) (r : A) :
  NoDup l -> In r l -> (forall x, In x l -> p x = true -> x = r) ->
  p r = true -> filter p l = [r].
Proof.
  induction l as [|x l IH]; intros Hnd Hr Hu Pr; [contradiction|].
  inversion Hnd as [|? ? Hx Hnd']; subst. cbn.
  destruct Hr as [-> | Hr].
  - rewrite Pr. f_equal.
    destruct (filter p l) as [|y ys] eqn:E; [reflexivity|].
    assert (Hy : In y (filter p l)) by (rewrite E; now left).
    apply filter_In in Hy. destruct Hy as [Hy Py].
    assert (y = r) by (apply Hu; [now right | exact Py]).
    subst. contradiction.
  - destruct (p x) eqn:Px.
    + assert (x = r) by (apply Hu; [now left | exact Px]).
      subst. contradiction.
    + apply IH; auto. intros y Hy. apply Hu. now right.
Qed.

Lemma NoDup_insert_row (r : Row) (l : list Row) :
  NoDup l -> ~ In r l -> NoDup (insert_row r l).
Proof.
  induction l as [|x l IH]; intros Hnd Hr; cbn.
  - constructor; [intros [] | constructor].
  - destruct (row_leb r x); [constructor; assumption|].
    inversion Hnd as [|? ? Hx Hnd']; subst.
    constructor.
    + rewrite In_insert_row. intros [-> | H]; [apply Hr; now left | auto].
    + apply IH; [exact Hnd'|]. intros H. apply Hr. now right.
Qed.

Lemma NoDup_order_rows (l : list Row) : NoDup l -> NoDup (order_rows l).
Proof.
  induction l as [|x l IH]; intros Hnd; [constructor|].
  inversion Hnd as [|? ? Hx Hnd']; subst. cbn.
  apply NoDup_insert_row; [auto|]. rewrite In_order_rows. exact Hx.
Qed.

Lemma get_by_id_stored (db : Store) (r : Row) :
  unique_pks db = true -> In r db ->
  get_by_id db (Some (row_pk r)) = Ok (from_db r).
Proof.
  intros Hu Hr. unfold get_by_id.
  rewrite (filter_unique _ (order_rows db) r).
  - reflexivity.
  - apply NoDup_order_rows, unique_pks_NoDup, Hu.
  - apply In_order_rows, Hr.
  - intros x Hx Px. apply (proj1 (In_order_rows _ _)) in Hx.
    apply Z.eqb_eq in Px. apply (unique_pks_eq db Hu); auto.
  - apply Z.eqb_refl.
Qed.

Lemma get_by_id_missing (db : Store) (id : option Z) :
  (forall r, In r db -> Some (row_pk r) <> id) ->
  get_by_id db id = Raise DoesNotExist.
Proof.
  intros H. unfold get_by_id.
  destruct (filter _ (order_rows db)) as [|x l] eqn:E; [reflexivity|].
  exfalso.
  assert (Hx : In x (filter (fun r => match id with
                                      | Some k => (row_pk r =? k)%Z
                                      | None => false
                                      end) (order_rows db)))
    by (rewrite E; now left).
  apply filter_In in Hx. destruct Hx as [Hx Px].
  apply (proj1 (In_order_rows _ _)) in Hx.
  destruct id as [k|]; [|discriminate].
  apply Z.eqb_eq in Px. apply (H x Hx). congruence.
Qed.

(** Setting [parent_id] and reading it back.  With unique primary keys,
    assigning the id of a stored row makes that row the pending parent,
    marks the instance as changed, and [parent_id] and [parent] then
    return the id and the row, whatever the store holds afterwards.  An
    id that no row has, and [None], raise [DoesNotExist]; the id 0 of a
    stored row raises the [ValueError] of an unsaved parent.  In both
    cases nothing is assigned. *)
Theorem parent_id_round_trip (db db' : Store) (n : Node) (r : Row) :
  unique_pks db = true -> In r db ->
  (row_pk r <> 0%Z ->
   exists n',
     set_parent_id db n (Some (row_pk r)) = Ok n'
     /\ parent_id db' n' = Some (row_pk r)
     /\ parent db' n' = Some (from_db r)
     /\ _nested_intervals_fields_have_changed n' = true
     /\ pk n' = pk n /\ left n' = left n /\ right n' = right n
     /\ level n' = level n /\ tree_id n' = tree_id n)
  /\ (row_pk r = 0%Z ->
      set_parent_id db n (Some (row_pk r))
      = Raise (ValueError
                 "Parent must be saved before you can attach a child to it"))
  /\ (forall id, (forall x, In x db -> Some (row_pk x) <> id) ->
        set_parent_id db n id = Raise DoesNotExist).
Proof.
  intros Hu Hr. split; [|split].
  - intros Hnz. unfold set_parent_id.
    rewrite (get_by_id_stored db r Hu Hr). cbn [bind].
    unfold set_parent, _is_saved, pk_truthy. cbn [from_db tree_id pk].
    destruct (Z.eqb_spec (row_pk r) 0) as [E | _]; [contradiction|].
    cbn [negb]. eexists. split; [reflexivity|].
    unfold parent_id, parent. cbn. auto 10.
  - intros Hz. unfold set_parent_id.
    rewrite (get_by_id_stored db r Hu Hr). cbn [bind].
    unfold set_parent, _is_saved, pk_truthy. cbn [from_db tree_id pk].
    rewrite Hz. reflexivity.
  - intros id Hid. unfold set_parent_id.
    rewrite (get_by_id_missing db id Hid). reflexivity.
Qed.

Lemma parent_id_round_trip_witness :
  exists n',
    set_parent_id example_tree unsaved (Some 5%Z) = Ok n'
    /\ parent_id [] n' = Some 5%Z
    /\ parent [] n' = Some node_5.
Proof.
  destruct (parent_id_round_trip example_tree [] unsaved (example_row 4)
              ltac:(vm_compute; reflexivity) ltac:(simpl; tauto))
    as (H & _).
  destruct (H ltac:(vm_compute; discriminate)) as (n' & E & H1 & H2 & _).
  exists n'. auto.
Defined.

(** ** Leaves *)

(** A row strictly inside a stored row lies inside one of its
    children, or is one. *)
Lemma descendant_below_child (db : Store) (t : Row) :
  well_formed db -> In t db ->
  forall (k : nat) (d : Row),
    In d db -> around d t = true ->
    (row_level d - row_level t = Z.of_nat k)%Z ->
    exists c, In c db /\ around c t = true
              /\ row_level c = (row_level t + 1)%Z.
Proof.
  intros wf Ht k. induction k as [k IH] using lt_wf_ind.
  intros d Hd Adt Hk.
  pose proof (level_lt db wf d t Hd Ht Adt) as Hlt.
  destruct (Z.eq_dec (row_level d) (row_level t + 1)) as [E | NE].
  - exists d. auto.
  - destruct (parent_exists db wf d Hd ltac:(pose proof (level_nonneg db wf t Ht); lia))
      as (p & Hp & Adp & Lp).
    destruct (around_nested db wf d t p Hd Ht Hp Adt Adp) as [E | [H | H]].
    + subst p. lia.
    + pose proof (level_lt db wf t p Ht Hp H). lia.
    + apply (IH (Z.to_nat (row_level p - row_level t)) ltac:(lia) p Hp H).
      pose proof (level_lt db wf p t Hp Ht H). lia.
Qed.

(** On a well-formed store a stored row is a leaf, as [is_leaf_node]
    tells, exactly when [get_children] returns nothing: a row with a
    descendant has a child.  Neither call raises. *)
Theorem leaves_have_no_children (db : Store) (t : Row) :
  well_formed db -> In t db ->
  exists b cs ds,
    is_leaf_node db (from_db t) = Ok b
    /\ get_children db (from_db t) = Ok cs
    /\ get_descendants db (from_db t) false = Ok ds
    /\ (b = true <-> cs = [])
    /\ (b = true <-> ds = [])
    /\ (forall c, In c cs -> In c ds).
Proof.
  intros wf Ht.
  pose proof (wf_saved db wf t Ht) as St.
  unfold is_leaf_node, get_descendant_count.
  rewrite get_children_saved, get_descendants_saved by exact St.
  cbn [bind]. eexists _, _, _.
  split; [reflexivity|]. split; [reflexivity|]. split; [reflexivity|].
  remember (map from_db (filter (descendant_filter (from_db t))
                           (order_rows db))) as ds eqn:Eds.
  assert (Hb : (Z.of_nat (List.length ds) =? 0)%Z = true <-> ds = []).
  { rewrite Z.eqb_eq. destruct ds; cbn; split; intros H;
      try reflexivity; try discriminate; lia. }
  split; [|split; [exact Hb|]].
  - rewrite Hb. split.
    + intros ->. reflexivity.
    + intros Hcs.
      destruct ds as [|d ds']; [reflexivity|]. exfalso.
      assert (Hd : In d (d :: ds')) by (now left).
      rewrite Eds in Hd. apply in_map_iff in Hd.
      destruct Hd as (rd & _ & Hrd). apply filter_In in Hrd.
      destruct Hrd as [Hrd Fd]. apply (proj1 (In_order_rows _ _)) in Hrd.
      apply (descendant_filter_around db wf t rd Ht Hrd) in Fd.
      pose proof (level_lt db wf rd t Hrd Ht Fd) as Hlt.
      destruct (descendant_below_child db t wf Ht
                  (Z.to_nat (row_level rd - row_level t)) rd Hrd Fd
                  ltac:(lia)) as (c & Hc & Act & Lc).
      assert (Hin : In (from_db c)
                      (filter (fun m => (level m =? level (from_db t) + 1)%Z)
                         (d :: ds'))).
      { apply filter_In. split.
        - rewrite Eds. apply in_map, filter_In.
          split; [apply In_order_rows, Hc|].
          apply (descendant_filter_around db wf t c Ht Hc), Act.
        - cbn. apply Z.eqb_eq, Lc. }
      rewrite Hcs in Hin. contradiction.
  - intros c Hc. apply filter_In in Hc. tauto.
Qed.

Lemma leaves_have_no_children_witness :
  is_leaf_node example_tree node_4 = Ok true
  /\ get_children example_tree node_4 = Ok [].
Proof.
  destruct (leaves_have_no_children example_tree (example_row 3)
              ltac:(repeat split; vm_compute; reflexivity)
              ltac:(simpl; tauto))
    as (b & cs & ds & E1 & E2 & _ & H & _).
  assert (Hb : b = true).
  { vm_compute in E1. injection E1 as <-. reflexivity. }
  subst b. rewrite (proj1 H eq_refl) in E2. auto.
Defined.

End ParentAndLevels.

(** * The order of the ancestors *)

Module AncestorOrder.
Import QueryFacts TreeFacts TreeQueries Siblings.

(** ** Sorting by an arbitrary key *)

Section SortBy.

Variable leb : Row -> Row -> bool.
Hypothesis leb_total : forall a b, leb a b = false -> leb b a = true.
Hypothesis leb_trans :
  forall a b c, leb a b = true -> leb b c = true -> leb a c = true.

Lemma insert_by_sorted (r : Row) (l : list Row) :
  sorted_by leb l -> sorted_by leb (insert_by leb r l).
Proof.
  induction l as [|x l IH]; intros H.
  - cbn. split; [intros y []|exact I].
  - cbn [insert_by]. destruct H as [Hx Hl].
    destruct (leb r x) eqn:E.
    + split; [|split; assumption].
      intros y [<- | Hy]; [exact E|].
      eapply leb_trans; [exact E | apply Hx, Hy].
    + split; [|apply IH, Hl].
      intros y Hy. apply In_insert_by in Hy.
      destruct Hy as [-> | Hy]; [apply leb_total, E | apply Hx, Hy].
Qed.

Lemma sort_by_sorted (l : list Row) : sorted_by leb (sort_by leb l).
Proof.
  induction l as [|x l IH]; [exact I|].
  cbn [sort_by]. apply insert_by_sorted, IH.
Qed.

End SortBy.

Lemma NoDup_insert_by (leb : Row -> Row -> bool) (r : Row) (l : list Row) :
  NoDup l -> ~ In r l -> NoDup (insert_by leb r l).
Proof.
  induction l as [|x l IH]; intros Hnd Hr; cbn.
  - constructor; [intros [] | constructor].
  - destruct (leb r x); [constructor; assumption|].
    inversion Hnd as [|? ? Hx Hnd']; subst.
    constructor.
    + rewrite In_insert_by. intros [-> | H]; [apply Hr; now left | auto].
    + apply IH; [exact Hnd'|]. intros H. apply Hr. now right.
Qed.

Lemma NoDup_sort_by (leb : Row -> Row -> bool) (l : list Row) :
  NoDup l -> NoDup (sort_by leb l).
Proof.
  induction l as [|x l IH]; intros Hnd; [constructor|].
  inversion Hnd as [|? ? Hx Hnd']; subst. cbn.
  apply NoDup_insert_by; [auto|]. rewrite In_sort_by. exact Hx.
Qed.

Lemma length_filter_insert_by (leb : Row -> Row -> bool) (p : Row -> bool)
    (r : Row) (l : list Row) :
  List.length (filter p (insert_by leb r l))
  = List.length (filter p (r :: l)).
Proof.
  induction l as [|y l IH]; [reflexivity|].
  cbn [insert_by]. destruct (leb r y); [reflexivity|].
  cbn [filter] in *. destruct (p y), (p r); cbn [List.length] in *; lia.
Qed.

Lemma length_filter_sort_by (leb : Row -> Row -> bool) (p : Row -> bool)
    (l : list Row) :
  List.length (filter p (sort_by leb l)) = List.length (filter p l).
Proof.
  induction l as [|y l IH]; [reflexivity|].
  cbn [sort_by]. rewrite length_filter_insert_by.
  cbn [filter]. destruct (p y); cbn [List.length]; lia.
Qed.

Lemma NoDup_filter' {A : Type} (p : A -> bool) (l : list A) :
  NoDup l -> NoDup (filter p l).
Proof.
  induction 1 as [|x l Hx Hnd IH]; cbn; [constructor|].
  destruct (p x); [|exact IH].
  constructor; [|exact IH]. rewrite filter_In. tauto.
Qed.

(** ** Lists of consecutive levels *)

Lemma increasing_reaches (l : list Z) :
  forall lo, ForallOrdPairs Z.lt l -> (forall x, In x l -> (lo <= x)%Z) ->
    l <> [] -> exists x, In x l /\ (lo + Z.of_nat (List.length l) - 1 <= x)%Z.
Proof.
  induction l as [|x l IH]; intros lo Hs Hlo Hne; [contradiction|].
  inversion Hs as [|? ? Hx Hs']; subst.
  destruct l as [|y l].
  - exists x. split; [now left|]. specialize (Hlo x (or_introl eq_refl)).
    cbn. lia.
  - destruct (IH (x + 1)%Z Hs') as (z & Hz & Hbound).
    + intros w Hw. rewrite Forall_forall in Hx. specialize (Hx w Hw). lia.
    + discriminate.
    + exists z. split; [now right|].
      specialize (Hlo x (or_introl eq_refl)).
      cbn [List.length] in *. lia.
Qed.

Lemma increasing_is_seq (l : list Z) :
  forall lo, ForallOrdPairs Z.lt l ->
    (forall x, In x l -> (lo <= x < lo + Z.of_nat (List.length l))%Z) ->
    l = map (fun i => (lo + Z.of_nat i)%Z) (seq 0 (List.length l)).
Proof.
  induction l as [|x l IH]; intros lo Hs Hb; [reflexivity|].
  inversion Hs as [|? ? Hx Hs']; subst.
  rewrite Forall_forall in Hx.
  assert (Ex : x = lo).
  { destruct (Z.eq_dec x lo) as [E | NE]; [exact E|]. exfalso.
    pose proof (Hb x (or_introl eq_refl)) as Bx.
    destruct l as [|y l].
    - cbn in Bx. lia.
    - destruct (increasing_reaches (y :: l) (x + 1)%Z Hs') as (z & Hz & Hzb).
      + intros w Hw. specialize (Hx w Hw). lia.
      + discriminate.
      + pose proof (Hb z (or_intror Hz)) as Bz.
        cbn [List.length] in *. lia. }
  subst x. cbn [List.length seq map]. f_equal; [f_equal; lia|].
  rewrite <- seq_shift, map_map.
  rewrite (IH (lo + 1)%Z Hs').
  - rewrite length_map, length_seq. apply map_ext. intros i. lia.
  - intros w Hw. specialize (Hx w Hw).
    pose proof (Hb w (or_intror Hw)) as Bw. cbn [List.length] in Bw. lia.
Qed.

Lemma ForallOrdPairs_map {A B : Type} (f : A -> B) (R : B -> B -> Prop)
    (l : list A) :
  ForallOrdPairs (fun a b => R (f a) (f b)) l -> ForallOrdPairs R (map f l).
Proof.
  induction 1 as [|x l Hx Hs IH]; cbn; constructor; [|exact IH].
  rewrite Forall_forall in *. intros y Hy. apply in_map_iff in Hy.
  destruct Hy as (a & <- & Ha). apply Hx, Ha.
Qed.

Lemma ForallOrdPairs_impl_In {A : Type} (P Q : A -> A -> Prop) (l : list A) :
  (forall x y, In x l -> In y l -> P x y -> Q x y) ->
  ForallOrdPairs P l -> ForallOrdPairs Q l.
Proof.
  intros H F. induction F as [|x l Hx Hs IH]; constructor.
  - rewrite Forall_forall in *. intros y Hy.
    apply H; [now left | now right | apply Hx, Hy].
  - apply IH. intros a b Ha Hb. apply H; now right.
Qed.

Lemma sorted_pairs (leb : Row -> Row -> bool) (l : list Row) :
  sorted_by leb l -> NoDup l ->
  ForallOrdPairs (fun x y => leb x y = true /\ x <> y) l.
Proof.
  induction l as [|x l IH]; intros Hs Hnd; constructor.
  - destruct Hs as [Hx _]. inversion Hnd as [|? ? Hnx _]; subst.
    rewrite Forall_forall. intros y Hy. split; [apply Hx, Hy|].
    intros ->. contradiction.
  - destruct Hs as [_ Hs]. inversion Hnd; subst. apply IH; assumption.
Qed.

Lemma decreasing_is_seq (l : list Z) :
  ForallOrdPairs (fun a b => (b < a)%Z) l ->
  (forall x, In x l -> (0 <= x < Z.of_nat (List.length l))%Z) ->
  l = map (fun i => (Z.of_nat (List.length l) - 1 - Z.of_nat i)%Z)
        (seq 0 (List.length l)).
Proof.
  intros Hs Hb.
  pose proof (increasing_is_seq (map Z.opp l)
                (- (Z.of_nat (List.length l) - 1))%Z) as E.
  rewrite length_map in E.
  assert (E' : map Z.opp l
               = map (fun i => (- (Z.of_nat (List.length l) - 1)
                                + Z.of_nat i)%Z) (seq 0 (List.length l))).
  { apply E.
    - apply ForallOrdPairs_map.
      eapply ForallOrdPairs_impl_In; [|exact Hs].
      cbn beta. intros x y _ _ H. lia.
    - intros x Hx. apply in_map_iff in Hx. destruct Hx as (y & <- & Hy).
      specialize (Hb y Hy). lia. }
  clear E. rename E' into E.
  apply (f_equal (map Z.opp)) in E. rewrite !map_map in E.
  rewrite (map_ext _ (fun x => x)) in E by (intros; lia).
  rewrite map_id in E. etransitivity; [exact E|].
  apply map_ext. intros i. lia.
Qed.

(** ** The ancestors of a stored row *)

Lemma left_asc_total (a b : Row) :
  Qle_bool (row_left a) (row_left b) = false ->
  Qle_bool (row_left b) (row_left a) = true.
Proof.
  intros H. apply Qle_bool_iff.
  destruct (Qlt_le_dec (row_left b) (row_left a)) as [L | L]; [lra|].
  apply Qle_bool_iff in L. congruence.
Qed.

Lemma left_asc_trans (a b c : Row) :
  Qle_bool (row_left a) (row_left b) = true ->
  Qle_bool (row_left b) (row_left c) = true ->
  Qle_bool (row_left a) (row_left c) = true.
Proof. rewrite !Qle_bool_iff. lra. Qed.

Lemma order_by_sorted (o : ordering) (db : Store) :
  sorted_by (match o with
             | by_tree_id_left => row_leb
             | by_left => fun a b => Qle_bool (row_left a) (row_left b)
             | by_left_desc => fun a b => Qle_bool (row_left b) (row_left a)
             end) (order_by o db).
Proof.
  destruct o; cbn.
  - apply order_rows_sorted.
  - apply sort_by_sorted; [apply left_asc_total | apply left_asc_trans].
  - apply sort_by_sorted.
    + intros a b. apply left_asc_total.
    + intros a b c H1 H2. apply (left_asc_trans c b a); assumption.
Qed.

Lemma NoDup_order_by (o : ordering) (db : Store) :
  NoDup db -> NoDup (order_by o db).
Proof.
  destruct o; cbn; [|apply NoDup_sort_by|apply NoDup_sort_by].
  apply ParentAndLevels.NoDup_order_rows.
Qed.

Lemma length_filter_order_by (o : ordering) (p : Row -> bool) (db : Store) :
  List.length (filter p (order_by o db)) = List.length (filter p db).
Proof.
  destruct o; cbn;
    [apply length_filter_order_rows | apply length_filter_sort_by
     | apply length_filter_sort_by].
Qed.

(** On a well-formed store [get_ancestors] of a stored row returns as
    many rows as the level of the row, [get_level], says; they are at
    the levels [0, 1, ..., level - 1] in this order, the root first and
    the parent last, and with [ascending] the order is the reverse, the
    parent first and the root last. *)
Theorem ancestors_come_root_first
    (db : Store) (t : Row) (ascending : bool) :
  well_formed db -> In t db ->
  exists qs,
    get_ancestors (from_db t) ascending false = Ok qs
    /\ Z.of_nat (List.length (fetch db qs)) = get_level (from_db t)
    /\ map level (fetch db qs)
       = map (fun i => if ascending
                       then (get_level (from_db t) - 1 - Z.of_nat i)%Z
                       else Z.of_nat i)
           (seq 0 (Z.to_nat (get_level (from_db t)))).
Proof.
  intros wf Ht.
  pose proof (wf_saved db wf t Ht) as St.
  unfold get_level. cbn [from_db level].
  unfold get_ancestors, raise_if_unsaved, is_root_node. rewrite St.
  cbn [from_db level].
  destruct (Z.eqb_spec (row_level t) 0) as [L0 | L0].
  - eexists. split; [reflexivity|]. rewrite L0. split; reflexivity.
  - eexists. split; [reflexivity|].
    unfold fetch, fetch_rows. cbn [qs_is_none qs_where qs_order_by].
    set (o := if ascending then by_left_desc else by_left).
    set (A := filter (ancestor_filter (from_db t)) (order_by o db)).
    assert (Hlen : Z.of_nat (List.length A) = row_level t).
    { unfold A. rewrite length_filter_order_by, (wf_I4 db wf t Ht).
      f_equal. f_equal. apply filter_ext_in. intros r Hr.
      pose proof (ancestor_filter_around db wf r t Hr Ht) as H.
      destruct (ancestor_filter (from_db t) r), (around t r); intuition. }
    split; [rewrite length_map; exact Hlen|].
    assert (HA : forall r, In r A -> In r db /\ around t r = true).
    { intros r Hr. unfold A in Hr. apply filter_In in Hr.
      destruct Hr as [Hr Fr]. apply In_order_by in Hr.
      split; [exact Hr|].
      apply (ancestor_filter_around db wf r t Hr Ht), Fr. }
    assert (Hpairs : ForallOrdPairs
                       (fun x y =>
                          (if ascending
                           then Qle_bool (row_left y) (row_left x)
                           else Qle_bool (row_left x) (row_left y)) = true
                          /\ x <> y) A).
    { eapply ForallOrdPairs_impl_In;
        [|apply sorted_pairs;
          [apply sorted_filter, (order_by_sorted o db)
          |apply NoDup_filter', NoDup_order_by, (wf_NoDup db wf)]].
      cbn beta. unfold o. intros x y _ _ H. destruct ascending; exact H. }
    assert (Hnest : forall x y, In x A -> In y A -> x <> y ->
              row_left x <= row_left y -> (row_level x < row_level y)%Z).
    { intros x y Hx Hy Nxy Hle.
      destruct (HA x Hx) as [Hx' Ax], (HA y Hy) as [Hy' Ay].
      destruct (around_nested db wf t x y Ht Hx' Hy' Ax Ay)
        as [E | [H | H]]; [contradiction | |].
      - apply around_iff in H. lra.
      - apply (level_lt db wf y x Hy' Hx' H). }
    assert (Hrange : forall x, In x (map row_level A) ->
              (0 <= x < Z.of_nat (List.length (map row_level A)))%Z).
    { intros x Hx. apply in_map_iff in Hx. destruct Hx as (r & <- & Hr).
      destruct (HA r Hr) as [Hr' Ar]. rewrite length_map, Hlen.
      pose proof (level_nonneg db wf r Hr').
      pose proof (level_lt db wf t r Ht Hr' Ar). lia. }
    rewrite map_map.
    rewrite (map_ext (fun x => level (from_db x)) row_level)
      by reflexivity.
    assert (En : List.length (map row_level A) = Z.to_nat (row_level t)).
    { rewrite length_map. lia. }
    destruct ascending.
    + rewrite (decreasing_is_seq (map row_level A)).
      * rewrite En. apply map_ext. intros i. lia.
      * apply ForallOrdPairs_map.
        eapply ForallOrdPairs_impl_In; [|exact Hpairs].
        cbn beta. intros x y Hx Hy [Hle Nxy].
        apply Qle_bool_iff in Hle. apply Hnest; auto.
      * exact Hrange.
    + rewrite (increasing_is_seq (map row_level A) 0%Z).
      * rewrite En. apply map_ext. intros i. lia.
      * apply ForallOrdPairs_map.
        eapply ForallOrdPairs_impl_In; [|exact Hpairs].
        cbn beta. intros x y Hx Hy [Hle Nxy].
        apply Qle_bool_iff in Hle. apply Hnest; auto.
      * exact Hrange.
Qed.

Lemma ancestors_come_root_first_witness :
  exists qs,
    get_ancestors node_4 false false = Ok qs
    /\ map pk (fetch example_tree qs) = [Some 1%Z; Some 2%Z]
    /\ map level (fetch example_tree qs) = [0%Z; 1%Z].
Proof.
  destruct (ancestors_come_root_first example_tree (example_row 3) false
              ltac:(repeat split; vm_compute; reflexivity)
              ltac:(simpl; tauto)) as (qs & E & _ & H).
  exists qs. split; [exact E|]. split; [|exact H].
  vm_compute in E. injection E as <-. reflexivity.
Defined.

End AncestorOrder.

(** * Inserting into a free gap *)

Module Insertion.
Import QueryFacts TreeFacts TreeQueries Siblings Saving.

Lemma invariant_I2_iff (db : Store) :
  invariant_I2 db = true
  <-> forall a b, In a db -> In b db ->
        row_tree_id a = row_tree_id b -> row_pk a <> row_pk b ->
        around a b = true \/ around b a = true
        \/ row_right a < row_left b \/ row_right b < row_left a.
Proof.
  unfold invariant_I2. rewrite forallb_forall. split.
  - intros H a b Ha Hb Ht Hpk. specialize (H a Ha).
    rewrite forallb_forall in H. specialize (H b Hb).
    rewrite !orb_true_iff, negb_true_iff, !dlt_iff in H.
    unfold around, same_tree in *.
    assert (T : (row_tree_id a =? row_tree_id b)%Z = true)
      by (apply Z.eqb_eq, Ht).
    assert (T' : (row_tree_id b =? row_tree_id a)%Z = true)
      by (apply Z.eqb_eq; congruence).
    rewrite T, T'. cbn [andb].
    destruct H as [[[[[H | H] | H] | H] | H] | H]; auto.
    + congruence.
    + apply Z.eqb_eq in H. contradiction.
  - intros H a Ha. apply forallb_forall. intros b Hb.
    rewrite !orb_true_iff, negb_true_iff, !dlt_iff.
    unfold same_tree.
    destruct (Z.eqb_spec (row_tree_id a) (row_tree_id b)) as [T | T];
      [|auto 10].
    destruct (Z.eqb_spec (row_pk a) (row_pk b)) as [P | P]; [auto 10|].
    specialize (H a b Ha Hb T P). unfold around, same_tree in H.
    assert (T1 : (row_tree_id a =? row_tree_id b)%Z = true)
      by (apply Z.eqb_eq, T).
    assert (T2 : (row_tree_id b =? row_tree_id a)%Z = true)
      by (apply Z.eqb_eq; congruence).
    rewrite T1, T2 in H. cbn [andb] in H.
    destruct H as [H | [H | [H | H]]]; auto 10.
Qed.

Section Extend.

Variable db : Store.
Variable p new : Row.
Hypothesis wf : well_formed db.
Hypothesis Hp : In p db.
Hypothesis Hpk : row_pk new = next_pk db.
Hypothesis Htree : row_tree_id new = row_tree_id p.
Hypothesis Hlevel : row_level new = (row_level p + 1)%Z.
Hypothesis Hproper : row_left new < row_right new.
Hypothesis Hleft : row_left p < row_left new.
Hypothesis Hright : row_right new < row_right p.
Hypothesis Hfree :
  forall c, In c db -> around c p = true ->
    row_level c = (row_level p + 1)%Z ->
    row_right c < row_left new \/ row_right new < row_left c.

(** A row strictly inside [p] is a child of [p] or lies inside one. *)
Lemma under_a_child (k : nat) :
  forall x, In x db -> around x p = true ->
    (row_level x - row_level p = Z.of_nat k)%Z ->
    exists c, In c db /\ around c p = true
              /\ row_level c = (row_level p + 1)%Z
              /\ (x = c \/ around x c = true).
Proof.
  induction k as [k IH] using lt_wf_ind. intros x Hx Axp Hk.
  pose proof (level_lt db wf x p Hx Hp Axp) as Hlt.
  destruct (Z.eq_dec (row_level x) (row_level p + 1)) as [E | NE].
  - exists x. auto.
  - destruct (parent_exists db wf x Hx
                ltac:(pose proof (level_nonneg db wf p Hp); lia))
      as (q & Hq & Axq & Lq).
    destruct (around_nested db wf x p q Hx Hp Hq Axp Axq) as [E | [H | H]].
    + subst q. lia.
    + pose proof (level_lt db wf p q Hp Hq H). lia.
    + pose proof (level_lt db wf q p Hq Hp H) as Hlt'.
      destruct (IH (Z.to_nat (row_level q - row_level p)) ltac:(lia) q Hq H
                  ltac:(lia)) as (c & Hc & Acp & Lc & Hrel).
      exists c. split; [exact Hc|]. split; [exact Acp|]. split; [exact Lc|].
      right. destruct Hrel as [<- | Hrel]; [exact Axq|].
      eapply around_trans; eauto.
Qed.

(** A row strictly inside [p] does not overlap the new row. *)
Lemma inside_parent_is_beside (x : Row) :
  In x db -> around x p = true ->
  row_right x < row_left new \/ row_right new < row_left x.
Proof.
  intros Hx Axp.
  pose proof (level_lt db wf x p Hx Hp Axp) as Hlt.
  destruct (under_a_child (Z.to_nat (row_level x - row_level p)) x Hx Axp
              ltac:(lia)) as (c & Hc & Acp & Lc & Hrel).
  pose proof (wf_I1 db wf x Hx) as I1x.
  destruct (Hfree c Hc Acp Lc) as [D | D];
    destruct Hrel as [<- | Hrel]; auto;
    apply around_iff in Hrel; [left | right]; lra.
Qed.

(** How every stored row of the tree lies to the new row: around it,
    when it is [p] or around [p]; beside it otherwise. *)
Lemma stored_and_new (x : Row) :
  In x db -> row_tree_id x = row_tree_id p ->
  (around new x = true /\ (x = p \/ around p x = true))
  \/ ((row_right x < row_left new \/ row_right new < row_left x)
      /\ x <> p /\ around p x = false).
Proof.
  intros Hx Tx.
  pose proof (wf_I1 db wf x Hx) as I1x.
  pose proof (wf_I1 db wf p Hp) as I1p.
  destruct (Z.eq_dec (row_pk x) (row_pk p)) as [E | NE].
  - left. assert (x = p) by (apply (wf_unique db wf); auto). subst x.
    split; [|auto]. apply around_iff. auto.
  - destruct (wf_I2 db wf x p Hx Hp Tx NE) as [H | [H | [H | H]]].
    + right. split; [apply inside_parent_is_beside; assumption|].
      split; [intros ->; rewrite around_irrefl in H; discriminate|].
      destruct (around p x) eqn:E; [|reflexivity].
      apply around_iff in H, E. lra.
    + left. split; [|auto]. apply around_iff in H. apply around_iff.
      split; [congruence|]. lra.
    + right. split; [left; lra|]. split; [intros ->; lra|].
      destruct (around p x) eqn:E; [|reflexivity].
      apply around_iff in E. lra.
    + right. split; [right; lra|]. split; [intros ->; lra|].
      destruct (around p x) eqn:E; [|reflexivity].
      apply around_iff in E. lra.
Qed.

Lemma new_is_not_around (x : Row) : In x db -> around x new = false.
Proof.
  intros Hx. destruct (around x new) eqn:E; [|reflexivity].
  apply around_iff in E. destruct E as (T & L & R).
  pose proof (wf_I1 db wf x Hx) as I1x.
  destruct (stored_and_new x Hx ltac:(congruence)) as [[A _] | [[D | D] _]].
  - apply around_iff in A. lra.
  - lra.
  - lra.
Qed.

Lemma new_is_fresh (x : Row) : In x db -> row_pk x <> row_pk new.
Proof. intros Hx. pose proof (next_pk_fresh db x Hx). lia. Qed.

Lemma extend_I1 : invariant_I1 (db ++ [new])%list = true.
Proof.
  destruct (wf_invariants db wf) as (I1 & _).
  unfold invariant_I1 in *. rewrite forallb_app, I1. cbn.
  rewrite andb_true_r. apply dlt_iff, Hproper.
Qed.

Lemma extend_I2 : invariant_I2 (db ++ [new])%list = true.
Proof.
  apply invariant_I2_iff. intros a b Ha Hb T P.
  apply in_app_iff in Ha, Hb. cbn in Ha, Hb.
  destruct Ha as [Ha | [<- | []]], Hb as [Hb | [<- | []]].
  - apply (wf_I2 db wf); assumption.
  - destruct (stored_and_new a Ha ltac:(congruence)) as [[A _] | [D _]].
    + auto.
    + tauto.
  - destruct (stored_and_new b Hb ltac:(congruence)) as [[A _] | [D _]].
    + auto.
    + tauto.
  - contradiction.
Qed.

Lemma extend_I4 : invariant_I4 (db ++ [new])%list = true.
Proof.
  unfold invariant_I4. apply forallb_forall. intros a Ha.
  apply Z.eqb_eq. fold (around a).
  rewrite filter_app, length_app.
  apply in_app_iff in Ha. cbn [In] in Ha.
  destruct Ha as [Ha | [<- | []]].
  - cbn [filter]. rewrite (new_is_not_around a Ha). cbn [List.length].
    rewrite (wf_I4 db wf a Ha). lia.
  - cbn [filter]. rewrite around_irrefl. cbn [List.length].
    rewrite (filter_length_succ (around p) (around new) db p
               (wf_NoDup db wf) Hp (around_irrefl p)).
    + rewrite Hlevel, (wf_I4 db wf p Hp). lia.
    + apply around_iff. auto.
    + intros x Hx Nxp.
      destruct (Z.eq_dec (row_tree_id x) (row_tree_id p)) as [T | T].
      * destruct (stored_and_new x Hx T) as [[A [E | B]] | [D [_ B]]].
        -- contradiction.
        -- congruence.
        -- rewrite B. destruct (around new x) eqn:E; [|reflexivity].
           apply around_iff in E. pose proof (wf_I1 db wf x Hx). lra.
      * unfold around, same_tree.
        destruct (Z.eqb_spec (row_tree_id new) (row_tree_id x));
          [congruence|].
        destruct (Z.eqb_spec (row_tree_id p) (row_tree_id x));
          [congruence | reflexivity].
Qed.

Lemma extend_I5 : invariant_I5 (db ++ [new])%list = true.
Proof.
  unfold invariant_I5. apply forallb_forall. intros a Ha.
  apply Nat.eqb_eq. rewrite filter_app, length_app.
  assert (Hnew : (row_level new =? 0)%Z = false).
  { apply Z.eqb_neq. pose proof (level_nonneg db wf p Hp). lia. }
  cbn [filter]. rewrite Hnew, andb_false_r. cbn [List.length].
  rewrite Nat.add_0_r.
  apply in_app_iff in Ha. cbn [In] in Ha.
  destruct Ha as [Ha | [<- | []]].
  - apply (wf_I5 db wf a Ha).
  - rewrite <- (wf_I5 db wf p Hp). f_equal. apply filter_ext.
    intros b. unfold same_tree. rewrite Htree. reflexivity.
Qed.

Lemma extend_well_formed : well_formed (db ++ [new])%list.
Proof.
  destruct wf as (_ & U & N).
  split; [|split].
  - unfold invariants.
    rewrite extend_I1, extend_I2, extend_I4, extend_I5. reflexivity.
  - apply unique_pks_app; [exact U | apply new_is_fresh].
  - unfold nonzero_pks. rewrite forallb_app. fold (nonzero_pks db).
    rewrite N. cbn. rewrite andb_true_r.
    apply negb_true_iff, Z.eqb_neq.
    pose proof (next_pk_positive db). lia.
Qed.

End Extend.

(** [insert_node] with [save=True] when the first allocation returns. *)
Lemma insert_node_first_attempt (prec : positive) (uuid4 : Z) (db : Store)
    (node : Node) (t : Row) (position : string) (iv : Interval) :
  pk node = None -> pk_truthy (from_db t) = true ->
  In position valid_positions ->
  get_interval_for_insertion_relative_to prec db (Some (from_db t))
    position 1 = Ok iv ->
  exists n',
    insert_node prec uuid4 db node (Some (from_db t)) position true
    = (Ok n', Some (from_db t),
       (db ++ [ {| row_pk := next_pk db;
                   row_left := DecimalField prec (i_left iv);
                   row_right := DecimalField prec (i_right iv);
                   row_level :=
                     if position_in position ["left"; "right"]
                     then row_level t else (row_level t + 1)%Z;
                   row_tree_id := row_tree_id t |} ])%list)
    /\ pk n' = Some (next_pk db)
    /\ left n' = i_left iv /\ right n' = i_right iv
    /\ tree_id n' = Some (row_tree_id t)
    /\ _nested_intervals_fields_have_changed n' = false.
Proof.
  intros Hpk St Hpos H.
  assert (Hs : _is_saved node = false).
  { unfold _is_saved, pk_truthy. rewrite Hpk. destruct (tree_id node); auto. }
  unfold insert_node. rewrite Hs.
  unfold get_interval_for_insertion_relative_to_with_rebalance. rewrite H.
  cbn in Hpos.
  destruct Hpos as [<- | [<- | [<- | [<- | []]]]];
    cbn; unfold save_fields, base_save; cbn; rewrite Hpk;
    (eexists; split; [reflexivity|]); cbn; auto.
Qed.

(** On a well-formed store, an [insert_node] with [save=True] returns
    when its allocation does, and adds one row: the allocated range as
    the columns keep it, to [DECIMAL_PLACES] decimal places, one level
    below the row that becomes the parent and in its tree.  When the
    range the columns keep is a proper range strictly inside that row
    and strictly beside every child the row already has, the store is
    well-formed again: the invariants of the encoding hold and the
    primary keys are unique and non-zero.  In the new store the parent
    of the new row is the row it was inserted under, and the new row is
    among the children of that row. *)
Theorem insert_into_a_free_gap_keeps_the_tree
    (prec : positive) (uuid4 : Z) (db : Store) (node : Node) (t p : Row)
    (position : string) (iv : Interval) :
  well_formed db -> In t db -> In p db -> pk node = None ->
  get_interval_for_insertion_relative_to prec db (Some (from_db t))
    position 1 = Ok iv ->
  (if position_in position ["left"; "right"]
   then parent db (from_db t) = Some (from_db p)
   else p = t) ->
  row_left p < DecimalField prec (i_left iv) ->
  DecimalField prec (i_left iv) < DecimalField prec (i_right iv) ->
  DecimalField prec (i_right iv) < row_right p ->
  (forall c, In c (children_rows db p) ->
     row_right c < DecimalField prec (i_left iv)
     \/ DecimalField prec (i_right iv) < row_left c) ->
  exists n' new,
    insert_node prec uuid4 db node (Some (from_db t)) position true
    = (Ok n', Some (from_db t), (db ++ [new])%list)
    /\ pk n' = Some (row_pk new)
    /\ left n' = i_left iv /\ right n' = i_right iv
    /\ row_left new = DecimalField prec (i_left iv)
    /\ row_right new = DecimalField prec (i_right iv)
    /\ row_level new = (row_level p + 1)%Z
    /\ row_tree_id new = row_tree_id p
    /\ well_formed (db ++ [new])%list
    /\ parent (db ++ [new])%list (from_db new) = Some (from_db p)
    /\ exists cs,
         get_children (db ++ [new])%list (from_db p) = Ok cs
         /\ In (from_db new) cs.
Proof.
  intros wf Ht Hp Hpk H Hpar Hl Hiv Hr Hfree.
  assert (Hpos : In position valid_positions).
  { unfold get_interval_for_insertion_relative_to in H.
    destruct (position_in position valid_positions) eqn:E;
      [|discriminate].
    destruct (valid_position_cases position E) as [-> | [-> | [-> | ->]]];
      cbn; auto. }
  assert (Hroot : position_in position ["left"; "right"] = true ->
                  row_level t <> 0%Z).
  { intros Hlr.
    assert (Hlr' : position = "left" \/ position = "right").
    { unfold position_in in Hlr. cbn [existsb] in Hlr.
      rewrite !orb_true_iff, !String.eqb_eq in Hlr. intuition discriminate. }
    pose proof (allocation_sibling_of_root _ _ _ _ _ _ Hlr' H) as Hr'.
    unfold is_root_node in Hr'. cbn in Hr'. apply Z.eqb_neq, Hr'. }
  destruct (insert_node_first_attempt prec uuid4 db node t position iv Hpk
              (wf_saved db wf t Ht) Hpos H)
    as (n' & Ei & N1 & N2 & N3 & _).
  set (new := {| row_pk := next_pk db;
                 row_left := DecimalField prec (i_left iv);
                 row_right := DecimalField prec (i_right iv);
                 row_level :=
                   if position_in position ["left"; "right"]
                   then row_level t else (row_level t + 1)%Z;
                 row_tree_id := row_tree_id t |}) in *.
  assert (Hrel : row_level new = (row_level p + 1)%Z
                 /\ row_tree_id new = row_tree_id p).
  { unfold new. cbn [row_level row_tree_id].
    destruct (position_in position ["left"; "right"]) eqn:Elr.
    - specialize (Hroot eq_refl).
      destruct (parent_exists db wf t Ht Hroot) as (q & Hq & Atq & Lq).
      rewrite (parent_is db t q wf Ht Hq Atq Lq) in Hpar.
      assert (q = p) by (apply from_db_inj; congruence). subst q.
      apply around_iff in Atq. split; [lia | tauto].
    - subst p. auto. }
  destruct Hrel as [Hlevel Htree].
  assert (Hwf : well_formed (db ++ [new])%list).
  { apply (extend_well_formed db p new wf Hp eq_refl Htree Hlevel Hiv Hl Hr).
    intros c Hc Acp Lc. apply Hfree.
    apply (child_row_iff db wf p c Hp). auto. }
  exists n', new. split; [exact Ei|]. split; [exact N1|].
  split; [exact N2|]. split; [exact N3|].
  split; [reflexivity|]. split; [reflexivity|].
  split; [exact Hlevel|]. split; [exact Htree|]. split; [exact Hwf|].
  assert (Hnew : In new (db ++ [new])%list)
    by (apply in_app_iff; right; now left).
  assert (Hp' : In p (db ++ [new])%list) by (apply in_app_iff; now left).
  assert (Anew : around new p = true) by (apply around_iff; auto).
  split.
  - apply parent_is; auto. lia.
  - eexists.
    split; [apply get_children_saved, (wf_saved _ Hwf p Hp')|].
    apply filter_In. split.
    + apply in_map, filter_In. split; [apply In_order_rows, Hnew|].
      apply (descendant_filter_around _ Hwf p new Hp' Hnew), Anew.
    + cbn [from_db level]. apply Z.eqb_eq. exact Hlevel.
Qed.

Lemma insert_into_a_free_gap_keeps_the_tree_witness :
  exists n' new,
    insert_node 6 7 example_tree unsaved (Some node_5) "first-child" true
    = (Ok n', Some node_5, (example_tree ++ [new])%list)
    /\ well_formed (example_tree ++ [new])%list
    /\ parent (example_tree ++ [new])%list (from_db new) = Some node_5.
Proof.
  destruct (insert_into_a_free_gap_keeps_the_tree 6 7 example_tree unsaved
              (example_row 4) (example_row 4) "first-child"
              {| i_left := 1 # 2; i_right := 7 # 10; i_increment := 1 # 5 |}
              ltac:(repeat split; vm_compute; reflexivity)
              ltac:(simpl; tauto) ltac:(simpl; tauto) eq_refl
              ltac:(vm_compute; reflexivity) eq_refl
              ltac:(vm_compute; reflexivity) ltac:(vm_compute; reflexivity)
              ltac:(vm_compute; reflexivity)
              ltac:(intros c Hc; vm_compute in Hc; contradiction))
    as (n' & new & E & _ & _ & _ & _ & _ & _ & _ & W & P & _).
  exists n', new. auto.
Defined.

End Insertion.

(** * Where the position is checked *)

Module Positions.
Import QueryFacts Siblings.

Lemma invalid_position (position : string) :
  ~ In position valid_positions ->
  position_in position valid_positions = false
  /\ position_in position ["last-child"; "first-child"] = false
  /\ position_in position ["left"; "right"] = false.
Proof.
  intros H. unfold position_in, valid_positions in *. cbn [existsb In] in *.
  repeat split;
    repeat (apply orb_false_iff; split); try reflexivity;
    apply String.eqb_neq; intros ->; apply H; auto.
Qed.

(** The position is checked by the allocation only.  With a target, an
    unknown position makes [insert_node] and [move_node] raise the
    [ValueError] of the allocation and change nothing; [insert_node]
    rejects an instance that is saved already before it looks at
    anything else; and without a target [insert_node] never looks at the
    position: it makes the instance the root of a new tree, [left = 0],
    [right = 1], level 0 and a new tree id, whatever the position is,
    while [move_node] without a target still rejects an unknown
    position. *)
Theorem position_is_checked_by_the_allocation
    (prec : positive) (uuid4 : Z) (db : Store) (node : Node)
    (target : option Node) (position : string) (save : bool) :
  (_is_saved node = true ->
   insert_node prec uuid4 db node target position save
   = (Raise (ValueError "Cannot insert a node which has already been saved."),
      target, db))
  /\ (_is_saved node = false ->
      exists n',
        insert_node prec uuid4 db node None position false
        = (Ok n', None, db)
        /\ left n' = 0 /\ right n' = 1 /\ level n' = 0%Z
        /\ tree_id n' = Some uuid4 /\ pk n' = pk node
        /\ _nested_intervals_fields_have_changed n' = true)
  /\ (~ In position valid_positions ->
      (_is_saved node = false -> target <> None ->
       insert_node prec uuid4 db node target position save
       = (Raise (ValueError
                   ("An invalid position was given: " ++ position ++ ".")),
          target, db))
      /\ (pk_truthy node = true ->
          move_node prec uuid4 db node target position
          = (Raise (ValueError
                      ("An invalid position was given: " ++ position ++ ".")),
             node, target, db))).
Proof.
  split; [|split].
  - intros Hs. unfold insert_node. rewrite Hs. reflexivity.
  - intros Hs. unfold insert_node. rewrite Hs.
    eexists. split; [reflexivity|]. cbn. auto 10.
  - intros Hpos.
    destruct (invalid_position position Hpos) as (P1 & P2 & P3).
    assert (Halloc : forall count,
              get_interval_for_insertion_relative_to prec db target
                position count
              = Raise (ValueError
                         ("An invalid position was given: "
                          ++ position ++ "."))).
    { intros count. unfold get_interval_for_insertion_relative_to.
      rewrite P1. reflexivity. }
    assert (Hwrap : forall count,
              get_interval_for_insertion_relative_to_with_rebalance
                prec db target position count
              = (Raise (ValueError
                          ("An invalid position was given: "
                           ++ position ++ ".")), target, db)).
    { intros count.
      unfold get_interval_for_insertion_relative_to_with_rebalance.
      rewrite Halloc. reflexivity. }
    split.
    + intros Hs Ht. unfold insert_node. rewrite Hs.
      destruct target as [t|]; [|contradiction].
      rewrite Hwrap. reflexivity.
    + intros Hpk. unfold move_node, _move_node, check_move.
      rewrite P2, P3.
      unfold get_descendant_count.
      rewrite get_descendants_saved by exact Hpk. cbn [bind].
      rewrite Hwrap. reflexivity.
Qed.

Lemma position_is_checked_by_the_allocation_witness :
  (exists n',
     insert_node 6 7 example_tree unsaved None "sideways" false
     = (Ok n', None, example_tree))
  /\ move_node 6 7 example_tree node_2 None "sideways"
     = (Raise (ValueError "An invalid position was given: sideways."),
        node_2, None, example_tree).
Proof.
  destruct (position_is_checked_by_the_allocation 6 7 example_tree unsaved
              None "sideways" false) as (_ & H & _).
  destruct (H eq_refl) as (n' & E & _).
  destruct (position_is_checked_by_the_allocation 6 7 example_tree node_2
              None "sideways" false) as (_ & _ & H').
  destruct (H' ltac:(simpl; intuition discriminate)) as (_ & Hm).
  split; [exists n'; exact E | apply Hm; reflexivity].
Defined.

End Positions.

(** * The ancestor test and the size of a subtree *)

Module Ancestry.
Import QueryFacts TreeFacts TreeQueries.

Lemma is_ancestor_of_value (a b : Node) :
  pk_truthy a = true -> pk_truthy b = true ->
  is_ancestor_of a b false
  = Ok (option_Z_eqb (tree_id b) (tree_id a)
        && (Dec.dlt (left a) (left b) && Dec.dlt (right b) (right a))).
Proof.
  intros Ha Hb. unfold is_ancestor_of, is_descendant_of, raise_if_unsaved.
  rewrite Ha, Hb. cbn [andb].
  destruct (option_Z_eqb (tree_id b) (tree_id a)); reflexivity.
Qed.

Lemma option_Z_eqb_sym (x y : option Z) :
  option_Z_eqb x y = option_Z_eqb y x.
Proof. destruct x, y; cbn; auto. apply Z.eqb_sym. Qed.

Lemma option_Z_eqb_trans (x y z : option Z) :
  option_Z_eqb x y = true -> option_Z_eqb y z = true ->
  option_Z_eqb x z = true.
Proof.
  destruct x, y, z; cbn; try discriminate; auto.
  rewrite !Z.eqb_eq. congruence.
Qed.

(** On instances with a primary key, [is_ancestor_of] without
    [include_self] is a strict order: no instance is an ancestor of
    itself, two instances are never ancestors of each other, and an
    ancestor of an ancestor is an ancestor.  It is [is_descendant_of]
    read the other way round, and with [include_self] an instance is an
    ancestor of itself.  None of this needs the store. *)
Theorem ancestry_is_a_strict_order (a b c : Node) :
  pk_truthy a = true -> pk_truthy b = true -> pk_truthy c = true ->
  is_ancestor_of a a false = Ok false
  /\ is_ancestor_of a a true = Ok true
  /\ (is_ancestor_of a b false = Ok true ->
      is_ancestor_of b a false = Ok false)
  /\ (is_ancestor_of a b false = Ok true ->
      is_ancestor_of b c false = Ok true ->
      is_ancestor_of a c false = Ok true)
  /\ is_ancestor_of a b false = is_descendant_of b a false.
Proof.
  intros Ha Hb Hc.
  rewrite !is_ancestor_of_value by assumption.
  split; [|split; [|split; [|split]]].
  - f_equal. apply andb_false_iff. right. apply andb_false_iff. left.
    destruct (Dec.dlt (left a) (left a)) eqn:E; [|reflexivity].
    apply dlt_iff in E. lra.
  - unfold is_ancestor_of, raise_if_unsaved. rewrite Ha.
    assert (E : option_Z_eqb (pk a) (pk a) = true).
    { destruct (pk a); cbn; [apply Z.eqb_refl | reflexivity]. }
    rewrite E. reflexivity.
  - intros H. injection H as H.
    rewrite !andb_true_iff, !dlt_iff in H. destruct H as (_ & L & _).
    f_equal. apply andb_false_iff. right. apply andb_false_iff. left.
    destruct (Dec.dlt (left b) (left a)) eqn:E; [|reflexivity].
    apply dlt_iff in E. lra.
  - intros H1 H2. injection H1 as H1. injection H2 as H2.
    rewrite !andb_true_iff, !dlt_iff in H1, H2.
    destruct H1 as (T1 & L1 & R1), H2 as (T2 & L2 & R2).
    f_equal. rewrite !andb_true_iff, !dlt_iff.
    split; [|split; lra].
    eapply option_Z_eqb_trans; eauto.
  - unfold is_descendant_of, raise_if_unsaved. rewrite Hb. cbn [andb].
    destruct (option_Z_eqb (tree_id b) (tree_id a)); reflexivity.
Qed.

Lemma ancestry_is_a_strict_order_witness :
  is_ancestor_of node_1 node_4 false = Ok true
  /\ is_ancestor_of node_4 node_1 false = Ok false.
Proof.
  destruct (ancestry_is_a_strict_order node_1 node_2 node_4
              eq_refl eq_refl eq_refl) as (_ & _ & _ & Ht & _).
  destruct (ancestry_is_a_strict_order node_1 node_4 node_4
              eq_refl eq_refl eq_refl) as (_ & _ & Ha & _).
  assert (H : is_ancestor_of node_1 node_4 false = Ok true).
  { apply Ht; vm_compute; reflexivity. }
  split; [exact H | apply Ha, H].
Defined.

(** On a well-formed store the number [get_descendant_count] returns for
    a stored row is the number of stored rows strictly inside it in its
    tree, and [get_descendants(include_self=True)] returns one more: the
    size of the subtree, which is what a move passes to the allocation
    as [descendant_count + 1].  For the row at level 0 of a tree that
    size is the number of rows of the tree, the count [rebalance_tree]
    divides by. *)
Theorem subtree_sizes (db : Store) (t : Row) :
  well_formed db -> In t db ->
  exists ds,
    get_descendants db (from_db t) true = Ok ds
    /\ get_descendant_count db (from_db t)
       = Ok (Z.of_nat (List.length (filter (fun r => around r t) db)))
    /\ List.length ds = S (List.length (filter (fun r => around r t) db))
    /\ (row_level t = 0%Z ->
        List.length ds
        = List.length
            (filter (fun r => (row_tree_id r =? row_tree_id t)%Z) db)).
Proof.
  intros wf Ht.
  pose proof (wf_saved db wf t Ht) as St.
  unfold get_descendant_count.
  rewrite !get_descendants_saved by exact St. cbn [bind].
  eexists. split; [reflexivity|].
  rewrite !length_map, !length_filter_order_rows.
  assert (E1 : filter (descendant_filter (from_db t)) db
               = filter (fun r => around r t) db).
  { apply filter_ext_in. intros r Hr.
    pose proof (descendant_filter_around db wf t r Ht Hr) as H.
    destruct (descendant_filter (from_db t) r), (around r t); intuition. }
  rewrite E1. split; [reflexivity|]. split.
  - apply (filter_length_succ _ _ db t (wf_NoDup db wf) Ht).
    + apply around_irrefl.
    + apply (descendant_or_self_around db wf t t Ht Ht). auto.
    + intros x Hx Nxt.
      pose proof (descendant_or_self_around db wf t x Ht Hx) as H.
      destruct (descendant_or_self_filter (from_db t) x), (around x t);
        try reflexivity.
      * destruct (proj1 H eq_refl) as [E | E]; [congruence | discriminate].
      * assert (false = true) by (apply H; auto). discriminate.
  - intros L0. f_equal. apply filter_ext_in. intros r Hr.
    pose proof (descendant_or_self_around db wf t r Ht Hr) as H.
    destruct (Z.eqb_spec (row_tree_id r) (row_tree_id t)) as [T | T].
    + apply H.
      destruct (root_above db wf _ r Hr
                  (eq_sym (Z2Nat.id _ (level_nonneg db wf r Hr))))
        as (rho & Hrho & Trho & Lrho & Hrel).
      assert (rho = t)
        by (apply (root_unique db wf); auto; congruence).
      subst rho. destruct Hrel as [<- | Hrel]; auto.
    + destruct (descendant_or_self_filter (from_db t) r); [|reflexivity].
      exfalso. destruct (proj1 H eq_refl) as [<- | A]; [congruence|].
      apply around_iff in A. tauto.
Qed.

Lemma subtree_sizes_witness :
  get_descendant_count example_tree node_2 = Ok 2%Z
  /\ exists ds, get_descendants example_tree node_1 true = Ok ds
                /\ List.length ds = 5%nat.
Proof.
  destruct (subtree_sizes example_tree (example_row 1)
              ltac:(repeat split; vm_compute; reflexivity)
              ltac:(simpl; tauto)) as (_ & _ & E & _).
  destruct (subtree_sizes example_tree (example_row 0)
              ltac:(repeat split; vm_compute; reflexivity)
              ltac:(simpl; tauto)) as (ds & Eds & _ & _ & H).
  split; [exact E|]. exists ds. split; [exact Eds|].
  rewrite (H eq_refl). reflexivity.
Defined.

End Ancestry.
